(** * Prompt Canvas: graph model, branch resolution, layering and edge routing

    A shallow embedding of the canvas code: the React state (the node list and
    the edge list of the active sheet) is passed explicitly, every state
    updater [setNodes (fun nds => ...)] / [setEdges (fun eds => ...)] becomes a
    function from the old list to the new one.

    Conventions of the embedding.
    - A JavaScript string is a [string]: a sequence of code units below 256.
    - A JavaScript number used as a coordinate is a real number ([R]).
    - A JavaScript object used as a dictionary is the [gmap] of its own
      properties; reading [obj[key]] goes through [getMember], which also
      answers for the names every object inherits from [Object.prototype].
      [Set] is a [gset].
    - Code that can throw returns an [outcome].
    - [undefined]/[null]/a missing field is [None]. *)

From Stdlib Require Import Reals Lra Ascii.
From stdpp Require Import base gmap sets list strings pretty.

(** ** Data model *)

Inductive nodeType := Prompt | Template | Group | Image.

#[global] Instance nodeType_eq_dec : EqDecision nodeType.
Proof. solve_decision. Defined.

Record position := { pos_x : R; pos_y : R }.

Record style := { width : R; height : R }.

Record nodeData := {
  title : option string;
  content : option string;
  template : option string;
  values : gmap string string;
  color : option string;
  isExpanded : bool;
  attachedTo : option string;
  anchorPoint : option string;
  offset : option position
}.

Record node := {
  node_id : string;
  node_type : nodeType;
  node_position : position;
  node_style : option style;
  parentNode : option string;
  extent : option string;
  hidden : option bool;
  selected : bool;
  data : nodeData
}.

(** An edge as React Flow stores it; [edge_color] and [active] are the two
    fields of [edge.data] (both absent when [data] itself is absent).  The
    handles of this application carry no id, so [sourceHandle] and
    [targetHandle] are always null and are left out. *)
Record edge := {
  edge_id : string;
  source : string;
  target : string;
  edge_color : option string;
  active : option bool
}.

#[global] Instance edge_eq_dec : EqDecision edge.
Proof. solve_decision. Defined.

(** The graph of the active sheet. *)
Record sheet := { nodes : list node; edges : list edge }.

Definition set_active (b : bool) (e : edge) : edge :=
  {| edge_id := edge_id e; source := source e; target := target e;
     edge_color := edge_color e; active := Some b |}.

(** ** Objects used as dictionaries *)

(** The names of the members every object inherits from [Object.prototype]. *)
Definition protoNames : list string :=
  ["constructor"; "hasOwnProperty"; "isPrototypeOf"; "propertyIsEnumerable";
   "toLocaleString"; "toString"; "valueOf"; "__proto__";
   "__defineGetter__"; "__defineSetter__"; "__lookupGetter__"; "__lookupSetter__"].

(** What [obj[key]] finds in an object made by [{}] or by an object literal
    whose own properties are [obj]: the own property; else, under one of the
    names above, the inherited member - a function, or [Object.prototype]
    itself for [__proto__], truthy in either case -; else nothing
    ([undefined]). *)
Inductive member (A : Type) := Own (a : A) | Inherited | Missing.

Arguments Own {A} a.
Arguments Inherited {A}.
Arguments Missing {A}.

Definition getMember {A} (obj : gmap string A) (key : string) : member A :=
  match obj !! key with
  | Some a => Own a
  | None => if decide (key ∈ protoNames) then Inherited else Missing
  end.

(** [obj[key] = value] for a [value] that is no object: a new own property,
    except that assigning such a value to [__proto__] does nothing. *)
Definition setMember {A} (key : string) (value : A) (obj : gmap string A) : gmap string A :=
  if decide (key = "__proto__") then obj else <[key := value]> obj.

(** What a piece of code does that can throw: the value it returns, or the
    [TypeError] of calling something that is no function. *)
Inductive outcome (A : Type) := Returns (a : A) | Throws.

Arguments Returns {A} a.
Arguments Throws {A}.

(** [l.forEach((x) => ...)] with a body that updates the variables [a] and
    can throw. *)
Fixpoint forEach {A B} (body : A → B → outcome A) (l : list B) (a : A) : outcome A :=
  match l with
  | [] => Returns a
  | x :: l' =>
      match body a x with
      | Returns a' => forEach body l' a'
      | Throws => Throws
      end
  end.

(** [obj[key] || []] when an array method is called on it next: the
    inherited members have no such method, the call throws. *)
Definition arrayAt (obj : gmap string (list string)) (key : string) : outcome (list string) :=
  match getMember obj key with
  | Own l => Returns l
  | Missing => Returns []
  | Inherited => Throws
  end.

(** ** BranchResolver: the active toggle of an edge (CustomEdge) *)

(** [data?.active !== false] *)
Definition isActive (e : edge) : bool :=
  match active e with
  | Some false => false
  | _ => true
  end.

(** The body of the [edges.map] callback of [handleToggleActive]; [id] and
    [tgt] are the props [id] and [target] of the edge whose button is hit. *)
Definition toggleOne (id tgt : string) (e : edge) : edge :=
  if decide (target e = tgt ∧ edge_id e ≠ id) then set_active false e
  else if decide (edge_id e = id) then set_active true e
  else e.

Definition handleToggleActive (id tgt : string) (edges : list edge) : list edge :=
  toggleOne id tgt <$> edges.

(** [setActive edgeId]: the toggle handler of the rendered edge [edgeId].  The
    props of a rendered edge are those of the edge with that id in the edge
    list; an id that names no edge has no component and hence no handler. *)
Definition setActive (edgeId : string) (edges : list edge) : list edge :=
  match List.find (λ e, String.eqb (edge_id e) edgeId) edges with
  | Some e => handleToggleActive (edge_id e) (target e) edges
  | None => edges
  end.




(** ** TemplateEngine: the regular expression [/\{\{(\w+)\}\}/g] *)

(** [\w] on a code unit: ASCII letters, digits and the underscore. *)
Definition isWordChar (c : ascii) : bool :=
  let n := nat_of_ascii c in
  ((48 <=? n) && (n <=? 57)) || ((65 <=? n) && (n <=? 90)) ||
  ((97 <=? n) && (n <=? 122)) || (n =? 95).

(** The longest run of word characters at the head of [s], and what follows. *)
Fixpoint spanWord (s : string) : string * string :=
  match s with
  | String c s' =>
      if isWordChar c then
        let '(w, r) := spanWord s' in (String c w, r)
      else (EmptyString, s)
  | EmptyString => (EmptyString, EmptyString)
  end.

(** A match of the expression anchored at the head of [s]: the captured key
    and the text after the match.  [\w+] is greedy and [}] is no word
    character, so only the longest run can be followed by the closing braces. *)
Definition matchPlaceholder (s : string) : option (string * string) :=
  match s with
  | String c1 (String c2 s1) =>
      if Ascii.eqb c1 "{" && Ascii.eqb c2 "{" then
        match spanWord s1 with
        | (String c w, String c3 (String c4 s3)) =>
            if Ascii.eqb c3 "}" && Ascii.eqb c4 "}" then Some (String c w, s3)
            else None
        | _ => None
        end
      else None
  | _ => None
  end.

(** [s.replace(/\{\{(\w+)\}\}/g, (_, key) => f key)]: the matches are taken
    from left to right and do not overlap; [skip] counts the code units of the
    current match that are still to be passed over. *)
Fixpoint replacePlaceholders (f : string → string) (skip : nat) (s : string) : string :=
  match s with
  | EmptyString => EmptyString
  | String c s' =>
      match skip with
      | S k => replacePlaceholders f k s'
      | O =>
          match matchPlaceholder s with
          | Some (key, _) =>
              f key +:+ replacePlaceholders f (String.length key + 3) s'
          | None => String c (replacePlaceholders f 0 s')
          end
      end
  end.

(** The text [String.prototype.replace] writes when its callback returns a
    member inherited from [Object.prototype] under [name]: [String] of it.
    [Object.prototype] prints as [[object Object]]; how a built-in function
    prints is left to the engine, this is the text of V8 and
    JavaScriptCore. *)
Definition inheritedText (name : string) : string :=
  if decide (name = "__proto__") then "[object Object]"
  else "function " +:+ (if decide (name = "constructor") then "Object" else name)
       +:+ "() { [native code] }".

(** [values[key] || key] as the callback of [replace] returns it. *)
Definition valueOrKey (values : gmap string string) (key : string) : string :=
  match getMember values key with
  | Own (String a v) => String a v
  | Own EmptyString | Missing => key
  | Inherited => inheritedText key
  end.

(** The rendering of a template node in [copyAllConnected] and
    [copyPathFromNode]. *)
Definition render (tpl : string) (values : gmap string string) : string :=
  replacePlaceholders (valueOrKey values) 0 tpl.

(** *** The preview of TemplateBuilder *)

(** [extractParams]: the captured keys, each once, in order of first
    occurrence. *)
Fixpoint extractParams_from (skip : nat) (params : list string) (s : string) : list string :=
  match s with
  | EmptyString => params
  | String c s' =>
      match skip with
      | S k => extractParams_from k params s'
      | O =>
          match matchPlaceholder s with
          | Some (key, _) =>
              extractParams_from (String.length key + 3)
                (if decide (key ∈ params) then params else params ++ [key]) s'
          | None => extractParams_from 0 params s'
          end
      end
  end.

Definition extractParams (tpl : string) : list string :=
  extractParams_from 0 [] tpl.

(** The replacement text of [String.prototype.replace] when the replacement is
    a string and the pattern has no capture group: [$$], [$&], [$`] and [$']
    are expanded, every other [$] stands for itself. *)
Fixpoint getSubstitution (matched before after : string) (repl : string) : string :=
  match repl with
  | String "$" (String "$" r) => String "$" (getSubstitution matched before after r)
  | String "$" (String "&" r) => matched +:+ getSubstitution matched before after r
  | String "$" (String "`" r) => before +:+ getSubstitution matched before after r
  | String "$" (String "'" r) => after +:+ getSubstitution matched before after r
  | String c r => String c (getSubstitution matched before after r)
  | EmptyString => EmptyString
  end.

(** [s.replace(new RegExp("\\{\\{" + param + "\\}\\}", "g"), value)] for a
    [param] made of word characters: every occurrence of the literal token,
    from left to right.  [before] is the text of [s] already passed. *)
Fixpoint replaceToken (tok value : string) (skip : nat) (before s : string) : string :=
  match s with
  | EmptyString => EmptyString
  | String c s' =>
      match skip with
      | S k => replaceToken tok value k (before +:+ String c EmptyString) s'
      | O =>
          if String.prefix tok s && negb (String.eqb tok EmptyString) then
            getSubstitution tok before
              (String.substring (String.length tok) (String.length s) s) value
            +:+ replaceToken tok value (String.length tok - 1)
                  (before +:+ String c EmptyString) s'
          else String c (replaceToken tok value 0 (before +:+ String c EmptyString) s')
      end
  end.

Definition token (param : string) : string := "{{" +:+ param +:+ "}}".

(** What [replace] is given as replacement: a string, in which the [$]
    patterns are expanded; or a function, which is called for every match
    and either returns a text, which is written as it is, or throws. *)
Inductive replacement :=
  | ReplaceBy (value : string)
  | CallGives (text : string)
  | CallThrows.

(** The member inherited from [Object.prototype] under [name], as a
    replacement for the match [matched].  [Object.prototype] itself
    ([__proto__]) is no function and is turned into a string.  The functions
    are called with [this] undefined and the match as first argument:
    [Object] returns the match as a [String] object, [toString] the tag of
    [undefined], [isPrototypeOf] [false], the match being no object, and the
    others throw when they turn [this] into an object. *)
Definition inheritedReplacement (name matched : string) : replacement :=
  if decide (name = "__proto__") then ReplaceBy "[object Object]"
  else if decide (name = "constructor") then CallGives matched
  else if decide (name = "toString") then CallGives "[object Undefined]"
  else if decide (name = "isPrototypeOf") then CallGives "false"
  else CallThrows.

(** [defaultValues[param] || `{{${param}}}`] *)
Definition previewValue (defaultValues : gmap string string) (param : string) : replacement :=
  match getMember defaultValues param with
  | Own (String a v) => ReplaceBy (String a v)
  | Own EmptyString | Missing => ReplaceBy (token param)
  | Inherited => inheritedReplacement param (token param)
  end.

(** Every occurrence of the literal [tok] replaced by [text] as it is. *)
Fixpoint replaceLiteral (tok text : string) (skip : nat) (s : string) : string :=
  match s with
  | EmptyString => EmptyString
  | String c s' =>
      match skip with
      | S k => replaceLiteral tok text k s'
      | O =>
          if String.prefix tok s && negb (String.eqb tok EmptyString) then
            text +:+ replaceLiteral tok text (String.length tok - 1) s'
          else String c (replaceLiteral tok text 0 s')
      end
  end.

(** The literal [tok] occurs in [s]. *)
Fixpoint occursIn (tok s : string) : bool :=
  match s with
  | EmptyString => false
  | String c s' =>
      (String.prefix tok s && negb (String.eqb tok EmptyString)) || occursIn tok s'
  end.

(** [s.replace(new RegExp(tok, "g"), r)] for a literal [tok]. *)
Definition replaceAll (tok : string) (r : replacement) (s : string) : outcome string :=
  match r with
  | ReplaceBy value => Returns (replaceToken tok value 0 EmptyString s)
  | CallGives text => Returns (replaceLiteral tok text 0 s)
  | CallThrows => if occursIn tok s then Throws else Returns s
  end.

(** One round of the [params.forEach] of [preview]. *)
Definition previewStep (defaultValues : gmap string string) (result param : string)
    : outcome string :=
  replaceAll (token param) (previewValue defaultValues param) result.

Definition preview (tpl : string) (defaultValues : gmap string string) : outcome string :=
  forEach (previewStep defaultValues) (extractParams tpl) tpl.

(** ** Strings of the combined prompt *)

(** White space and line terminators among the code units below 256. *)
Definition isWhiteSpace (c : ascii) : bool :=
  let n := nat_of_ascii c in
  ((9 <=? n) && (n <=? 13)) || (n =? 32) || (n =? 160).

Fixpoint trimStart (s : string) : string :=
  match s with
  | String c s' => if isWhiteSpace c then trimStart s' else s
  | EmptyString => EmptyString
  end.

Fixpoint trimEnd (s : string) : string :=
  match s with
  | String c s' =>
      match trimEnd s' with
      | EmptyString => if isWhiteSpace c then EmptyString else String c EmptyString
      | r => String c r
      end
  | EmptyString => EmptyString
  end.

Definition trim (s : string) : string := trimEnd (trimStart s).

(** [l.join(sep)] *)
Fixpoint join (sep : string) (l : list string) : string :=
  match l with
  | [] => EmptyString
  | [x] => x
  | x :: l' => x +:+ sep +:+ join sep l'
  end.

Definition newline : ascii := ascii_of_nat 10.

(** The separator ["\n\n"]. *)
Definition blankLine : string := String newline (String newline EmptyString).

(** ** Path text: copyAllConnected and copyPathFromNode *)

(** [edges.filter((e) => e.data?.active !== false)] *)
Definition activeEdges (edges : list edge) : list edge :=
  filter (λ e, active e ≠ Some false) edges.

(** One round of the [forEach] that fills [adjacency]:
    [if (!adjacency[edge.source]) adjacency[edge.source] = []] and then
    [adjacency[edge.source].push(edge.target)]. *)
Definition adjacencyPush (adj : gmap string (list string)) (e : edge)
    : outcome (gmap string (list string)) :=
  match arrayAt adj (source e) with
  | Returns targets => Returns (<[source e := targets ++ [target e]]> adj)
  | Throws => Throws
  end.

Definition buildAdjacency (es : list edge) : outcome (gmap string (list string)) :=
  forEach adjacencyPush es ∅.

(** [nodes.find((n) => n.id === nodeId)] *)
Definition findNode (nodeId : string) (nodes : list node) : option node :=
  List.find (λ n, String.eqb (node_id n) nodeId) nodes.

(** The variables of the loop of both copy functions. *)
Record bfsState := {
  visited : gset string;
  orderedNodes : list node;
  queue : list string
}.

(** One iteration of [while (queue.length > 0)], after [queue.shift()] has
    split the queue into [nodeId] and [rest]; [connected.forEach] throws
    when [adjacency[nodeId]] is an inherited member. *)
Definition bfsStep (nodes : list node) (adjacency : gmap string (list string))
    (st : bfsState) (nodeId : string) (rest : list string) : outcome bfsState :=
  if decide (nodeId ∈ visited st) then
    Returns {| visited := visited st; orderedNodes := orderedNodes st; queue := rest |}
  else
    let visited' := visited st ∪ {[nodeId]} in
    let orderedNodes' :=
      match findNode nodeId nodes with
      | Some n =>
          if decide (node_type n = Group) then orderedNodes st
          else orderedNodes st ++ [n]
      | None => orderedNodes st
      end in
    match arrayAt adjacency nodeId with
    | Returns connected =>
        Returns {| visited := visited';
                   orderedNodes := orderedNodes';
                   queue := rest ++ filter (λ targetId, targetId ∉ visited') connected |}
    | Throws => Throws
    end.

(** The loop.  One unit of [fuel] pays for one iteration; [None] means the
    fuel ran out before the queue was empty. *)
Fixpoint bfsLoop (fuel : nat) (nodes : list node) (adjacency : gmap string (list string))
    (st : bfsState) : option (outcome (list node)) :=
  match queue st with
  | [] => Some (Returns (orderedNodes st))
  | nodeId :: rest =>
      match fuel with
      | O => None
      | S fuel' =>
          match bfsStep nodes adjacency st nodeId rest with
          | Returns st' => bfsLoop fuel' nodes adjacency st'
          | Throws => Some Throws
          end
      end
  end.

Definition bfsStart (queue : list string) : bfsState :=
  {| visited := ∅; orderedNodes := []; queue := queue |}.

(** The text a node contributes. *)
Definition nodeText (n : node) : string :=
  if decide (node_type n = Template) then
    render (default EmptyString (template (data n))) (values (data n))
  else default EmptyString (content (data n)).

(** [orderedNodes.map(...).filter((content) => content.trim()).join("\n\n")] *)
Definition combinedPrompt (orderedNodes : list node) : string :=
  join blankLine (filter (λ c, trim c ≠ EmptyString) (nodeText <$> orderedNodes)).

(** Root nodes of [copyAllConnected]. *)
Definition pathRoots (nodes : list node) (edges : list edge) : list node :=
  let hasIncomingActive : gset string := list_to_set (target <$> activeEdges edges) in
  let hasOutgoingActive : gset string := list_to_set (source <$> activeEdges edges) in
  filter (λ n, node_type n ≠ Group ∧ node_id n ∈ hasOutgoingActive
               ∧ node_id n ∉ hasIncomingActive) nodes.

(** The [orderedNodes] of [copyAllConnected] once its loop is over, when the
    function does not return before the loop. *)
Definition orderedFromRoots (fuel : nat) (nodes : list node) (edges : list edge)
    : option (outcome (list node)) :=
  match buildAdjacency (activeEdges edges) with
  | Returns adjacency =>
      bfsLoop fuel nodes adjacency (bfsStart (node_id <$> pathRoots nodes edges))
  | Throws => Some Throws
  end.

(** The [orderedNodes] of [copyPathFromNode] once its loop is over. *)
Definition orderedFromNode (fuel : nat) (nodes : list node) (edges : list edge)
    (startNodeId : string) : option (outcome (list node)) :=
  match buildAdjacency (activeEdges edges) with
  | Returns adjacency => bfsLoop fuel nodes adjacency (bfsStart [startNodeId])
  | Throws => Some Throws
  end.

(** What a copy function does to the clipboard. *)
Inductive clipboard := NothingWritten | Written (text : string).

(** [copyAllConnected]: [None] when the fuel does not cover the loop. *)
Definition copyAllConnected (fuel : nat) (nodes : list node) (edges : list edge)
    : option (outcome clipboard) :=
  match buildAdjacency (activeEdges edges) with
  | Throws => Some Throws
  | Returns adjacency =>
      match pathRoots nodes edges, activeEdges edges with
      | [], [] => Some (Returns NothingWritten)
      | _, _ =>
          match bfsLoop fuel nodes adjacency
                  (bfsStart (node_id <$> pathRoots nodes edges)) with
          | Some (Returns ordered) => Some (Returns (Written (combinedPrompt ordered)))
          | Some Throws => Some Throws
          | None => None
          end
      end
  end.

(** [copyPathFromNode startNodeId] *)
Definition copyPathFromNode (fuel : nat) (nodes : list node) (edges : list edge)
    (startNodeId : string) : option (outcome clipboard) :=
  match orderedFromNode fuel nodes edges startNodeId with
  | Some (Returns ordered) =>
      match combinedPrompt ordered with
      | EmptyString => Some (Returns NothingWritten)
      | text => Some (Returns (Written text))
      end
  | Some Throws => Some Throws
  | None => None
  end.

(** Fuel that always covers the loop: every iteration either drops a queue
    entry or consumes the outgoing active edges of a newly visited node. *)
Definition pathFuel (edges : list edge) (queue : list string) : nat :=
  length queue + length (activeEdges edges).

(** *** The traversal where no id is an inherited name

    What the code above computes as long as it meets none of the names of
    [protoNames]: the dictionary of the own properties, and the loop on
    it. *)

Definition pushTarget (adj : gmap string (list string)) (e : edge) : gmap string (list string) :=
  <[source e := default [] (adj !! source e) ++ [target e]]> adj.

Definition adjacencyOf (es : list edge) : gmap string (list string) :=
  foldl pushTarget ∅ es.

Definition walkStep (nodes : list node) (adjacency : gmap string (list string))
    (st : bfsState) (nodeId : string) (rest : list string) : bfsState :=
  if decide (nodeId ∈ visited st) then
    {| visited := visited st; orderedNodes := orderedNodes st; queue := rest |}
  else
    let visited' := visited st ∪ {[nodeId]} in
    let orderedNodes' :=
      match findNode nodeId nodes with
      | Some n =>
          if decide (node_type n = Group) then orderedNodes st
          else orderedNodes st ++ [n]
      | None => orderedNodes st
      end in
    let connected := default [] (adjacency !! nodeId) in
    {| visited := visited';
       orderedNodes := orderedNodes';
       queue := rest ++ filter (λ targetId, targetId ∉ visited') connected |}.

Fixpoint walkLoop (fuel : nat) (nodes : list node) (adjacency : gmap string (list string))
    (st : bfsState) : option (list node) :=
  match queue st with
  | [] => Some (orderedNodes st)
  | nodeId :: rest =>
      match fuel with
      | O => None
      | S fuel' => walkLoop fuel' nodes adjacency (walkStep nodes adjacency st nodeId rest)
      end
  end.

(** No endpoint of these edges is a name every object inherits. *)
Definition plainEdges (es : list edge) : Prop :=
  ∀ e, e ∈ es → (source e ∉ protoNames) ∧ (target e ∉ protoNames).

#[global] Instance plainEdges_dec (es : list edge) : Decision (plainEdges es).
Proof.
  refine (cast_if (decide (Forall (λ e, (source e ∉ protoNames) ∧ (target e ∉ protoNames))
                             es)));
    unfold plainEdges; by rewrite Forall_forall in *.
Defined.

(** ** Connecting two nodes *)

(** [addEdge] of the React Flow library, which is not part of the repository;
    after the library: a connection without source or target is dropped, the
    id is derived from the endpoints, and a connection that exists already is
    not added twice. *)
Definition getEdgeId (s t : string) : string :=
  "reactflow__edge-" +:+ s +:+ "-" +:+ t.

Definition connectionExists (s t : string) (edges : list edge) : bool :=
  existsb (λ el, String.eqb (source el) s && String.eqb (target el) t) edges.

Definition addEdge (s t : string) (dataColor : string) (edges : list edge) : list edge :=
  if decide (s = EmptyString ∨ t = EmptyString) then edges
  else if connectionExists s t edges then edges
  else edges ++ [ {| edge_id := getEdgeId s t; source := s; target := t;
                     edge_color := Some dataColor; active := None |} ].

(** [sourceNode?.data?.color || "purple"] *)
Definition colorOrPurple (n : option node) : string :=
  match n with
  | Some n =>
      match color (data n) with
      | Some EmptyString | None => "purple"
      | Some c => c
      end
  | None => "purple"
  end.

(** [onConnect params]: the new edge carries [data: { color }] and nothing
    else. *)
Definition onConnect (nodes : list node) (params_source params_target : string)
    (edges : list edge) : list edge :=
  let sourceNode := findNode params_source nodes in
  let edgeColor := colorOrPurple sourceNode in
  addEdge params_source params_target edgeColor edges.

(** ** GraphModel: deleting a node *)

(** [{ ...rest, position: { x: absoluteX, y: absoluteY } }] where [rest] is
    the node without [parentNode], [extent] and [hidden]. *)
Definition releaseChild (nodeToDelete : node) (n : node) : node :=
  {| node_id := node_id n; node_type := node_type n;
     node_position :=
       {| pos_x := pos_x (node_position nodeToDelete) + pos_x (node_position n);
          pos_y := pos_y (node_position nodeToDelete) + pos_y (node_position n) |};
     node_style := node_style n; parentNode := None; extent := None;
     hidden := None; selected := selected n; data := data n |}.

(** The [setNodes] updater of [deleteNode]. *)
Definition deleteNode_nodes (nodeId : string) (nds : list node) : list node :=
  match findNode nodeId nds with
  | None => filter (λ n, node_id n ≠ nodeId) nds
  | Some nodeToDelete =>
      (λ n, if decide (parentNode n = Some nodeId) then releaseChild nodeToDelete n
            else n)
      <$> filter (λ n, node_id n ≠ nodeId) nds
  end.

(** The [setEdges] updater of [deleteNode]. *)
Definition deleteNode_edges (nodeId : string) (eds : list edge) : list edge :=
  filter (λ e, source e ≠ nodeId ∧ target e ≠ nodeId) eds.

Definition deleteNode (nodeId : string) (s : sheet) : sheet :=
  {| nodes := deleteNode_nodes nodeId (nodes s);
     edges := deleteNode_edges nodeId (edges s) |}.

(** ** Attached images *)

(** [style?.width || 280] and the like: zero counts as absent. *)
Definition orDefault (r : option R) (d : R) : R :=
  match r with
  | Some x => if Req_dec_T x 0 then d else x
  | None => d
  end.

(** The object [anchors] of [calculateAnchorPosition]. *)
Definition anchors (parent : node) : gmap string position :=
  let position := node_position parent in
  let w := orDefault (width <$> node_style parent) 280 in
  let h := orDefault (height <$> node_style parent) 180 in
  list_to_map
    [("top-left", {| pos_x := pos_x position - 100; pos_y := pos_y position - 100 |});
     ("top-right", {| pos_x := pos_x position + w + 20; pos_y := pos_y position |});
     ("bottom-left", {| pos_x := pos_x position - 100; pos_y := pos_y position + h + 20 |});
     ("bottom-right", {| pos_x := pos_x position + w + 20; pos_y := pos_y position + h |});
     ("center", {| pos_x := pos_x position + w / 2; pos_y := pos_y position + h / 2 |})].

(** [calculateAnchorPosition] of imageHandler.js:
    [anchors[anchorPoint] || anchors['top-right']].  [None] stands for a
    member inherited from [Object.prototype], which is returned as it is and
    has neither [x] nor [y]. *)
Definition calculateAnchorPosition (parent : node) (anchorPoint : option string)
    : option position :=
  match getMember (anchors parent) (default "undefined" anchorPoint) with
  | Own p => Some p
  | Missing => anchors parent !! "top-right"
  | Inherited => None
  end.

(** [n.type === "image" && n.data?.attachedTo]: the id the image hangs on. *)
Definition attachedImageOf (n : node) : option string :=
  if decide (node_type n = Image) then
    match attachedTo (data n) with
    | Some EmptyString | None => None
    | Some parentId => Some parentId
    end
  else None.

Definition detach (n : node) : node :=
  {| node_id := node_id n; node_type := node_type n;
     node_position := node_position n; node_style := node_style n;
     parentNode := parentNode n; extent := extent n; hidden := hidden n;
     selected := selected n;
     data := {| title := title (data n); content := content (data n);
                template := template (data n); values := values (data n);
                color := color (data n); isExpanded := isExpanded (data n);
                attachedTo := None; anchorPoint := anchorPoint (data n);
                offset := offset (data n) |} |}.

Definition moveTo (p : position) (n : node) : node :=
  {| node_id := node_id n; node_type := node_type n; node_position := p;
     node_style := node_style n; parentNode := parentNode n; extent := extent n;
     hidden := hidden n; selected := selected n; data := data n |}.

(** The [map] callback of the effect that keeps attached images next to
    their parent; the flag tells whether it set [hasChanges].  With an
    anchor position that has no [x] and no [y], [newX] and [newY] are [NaN],
    neither comparison holds and the node is returned as it is. *)
Definition syncImage (currentNodes : list node) (n : node) : node * bool :=
  match attachedImageOf n with
  | Some parentId =>
      match findNode parentId currentNodes with
      | None => (detach n, true)
      | Some parent =>
          match calculateAnchorPosition parent (anchorPoint (data n)) with
          | Some anchorPos =>
              let newX := (pos_x anchorPos + orDefault (pos_x <$> offset (data n)) 0)%R in
              let newY := (pos_y anchorPos + orDefault (pos_y <$> offset (data n)) 0)%R in
              if Rlt_dec 1 (Rabs (pos_x (node_position n) - newX)) then
                (moveTo {| pos_x := newX; pos_y := newY |} n, true)
              else if Rlt_dec 1 (Rabs (pos_y (node_position n) - newY)) then
                (moveTo {| pos_x := newX; pos_y := newY |} n, true)
              else (n, false)
          | None => (n, false)
          end
      end
  | None => (n, false)
  end.

(** The [setNodes] updater of the effect. *)
Definition syncAttachedImages (currentNodes : list node) : list node :=
  match filter (λ n, is_Some (attachedImageOf n)) currentNodes with
  | [] => currentNodes
  | _ =>
      let updated := syncImage currentNodes <$> currentNodes in
      if existsb snd updated then fst <$> updated else currentNodes
  end.

(** ** GraphModel: creating and duplicating *)

(** [`node-${Date.now()}`], [now] being the clock reading in milliseconds. *)
Definition freshNodeId (now : N) : string := "node-" +:+ pretty now.

(** [`edge-${Date.now()}-${Math.random().toString(36).substr(2, 9)}`];
    [suffix] is the text the random number gives. *)
Definition freshEdgeId (now : N) (suffix : string) : string :=
  "edge-" +:+ pretty now +:+ "-" +:+ suffix.

(** [nodeConfigs[type] || nodeConfigs.prompt] *)
Definition nodeConfig (ty : nodeType) (c : string) : nodeData * option style :=
  match ty with
  | Template =>
      ({| title := Some "Template";
          template := Some "Take the first image on Row {{row}} Column {{column}} - {{description}}";
          content := None; values := ∅; color := Some c; isExpanded := true;
          attachedTo := None; anchorPoint := None; offset := None |},
       Some {| width := 320; height := 220 |})
  | Group =>
      ({| title := Some "New Group"; content := Some EmptyString; template := None;
          values := ∅; color := Some c; isExpanded := false;
          attachedTo := None; anchorPoint := None; offset := None |},
       None)
  | _ =>
      ({| title := Some "New Prompt"; content := Some "Your prompt here...";
          template := None; values := ∅; color := Some c; isExpanded := true;
          attachedTo := None; anchorPoint := None; offset := None |},
       Some {| width := 240; height := 140 |})
  end.

(** The [setNodes] updater of [addNode], the context menu being open. *)
Definition addNode (now : N) (ty : nodeType) (pos : position) (c : string)
    (nds : list node) : list node :=
  nds ++ [ {| node_id := freshNodeId now; node_type := ty; node_position := pos;
              node_style := (nodeConfig ty c).2; parentNode := None;
              extent := None; hidden := None; selected := false;
              data := (nodeConfig ty c).1 |} ].

Definition colorOptions : list string :=
  ["purple"; "blue"; "cyan"; "green"; "yellow"; "orange"; "pink"].

(** The colour of the copy: [availableColors[Math.floor(Math.random() *
    availableColors.length)]], the index drawn being [pick] modulo the
    length. *)
Definition pickColor (original : node) (pick : nat) : string :=
  let currentColor :=
    match color (data original) with
    | Some EmptyString | None => "purple"
    | Some c => c
    end in
  let availableColors := filter (λ c, c ≠ currentColor) colorOptions in
  default "purple" (availableColors !! (pick `mod` length availableColors)).

Definition withColor (c : string) (d : nodeData) : nodeData :=
  {| title := title d; content := content d; template := template d;
     values := values d; color := Some c; isExpanded := isExpanded d;
     attachedTo := attachedTo d; anchorPoint := anchorPoint d;
     offset := offset d |}.

(** The [setNodes] updater of [duplicateNode]. *)
Definition duplicateNode_nodes (nodeId : string) (now : N) (pick : nat)
    (currentNodes : list node) : list node :=
  match findNode nodeId currentNodes with
  | None => currentNodes
  | Some originalNode =>
      currentNodes ++
      [ {| node_id := freshNodeId now; node_type := node_type originalNode;
           node_position :=
             {| pos_x := pos_x (node_position originalNode) + 50;
                pos_y := pos_y (node_position originalNode) + 50 |};
           node_style := node_style originalNode;
           parentNode := parentNode originalNode; extent := extent originalNode;
           hidden := hidden originalNode; selected := false;
           data := withColor (pickColor originalNode pick) (data originalNode) |} ]
  end.

(** [newColor] as the [setEdges] updater finds it. *)
Definition duplicateColor (nodeId : string) (pick : nat) (currentNodes : list node) : string :=
  match findNode nodeId currentNodes with
  | None => "purple"
  | Some originalNode => pickColor originalNode pick
  end.

(** The copy of the [k]-th edge that touches [nodeId]; [stamps k] is the
    clock reading and the random text its id is made of. *)
Definition duplicateEdge (nodeId : string) (now : N) (newColor : string)
    (stamps : nat → N * string) (k : nat) (e : edge) : edge :=
  {| edge_id := freshEdgeId (stamps k).1 (stamps k).2;
     source := if decide (source e = nodeId) then freshNodeId now else source e;
     target := if decide (target e = nodeId) then freshNodeId now else target e;
     edge_color := Some newColor; active := active e |}.

(** The [setEdges] updater of [duplicateNode]. *)
Definition duplicateNode_edges (nodeId : string) (now : N) (newColor : string)
    (stamps : nat → N * string) (currentEdges : list edge) : list edge :=
  currentEdges ++
  imap (duplicateEdge nodeId now newColor stamps)
    (filter (λ e, source e = nodeId ∨ target e = nodeId) currentEdges).

Definition duplicateNode (nodeId : string) (now : N) (pick : nat)
    (stamps : nat → N * string) (s : sheet) : sheet :=
  {| nodes := duplicateNode_nodes nodeId now pick (nodes s);
     edges := duplicateNode_edges nodeId now
                (duplicateColor nodeId pick (nodes s)) stamps (edges s) |}.

(** The operations that create nodes and edges, with what they read from the
    clock and the random source. *)
Inductive createOp :=
  | CreateNode (now : N) (ty : nodeType) (pos : position) (c : string)
  | DuplicateNode (nodeId : string) (now : N) (pick : nat) (stamps : nat → N * string)
  | CreateEdge (src tgt : string).

Definition applyOp (s : sheet) (o : createOp) : sheet :=
  match o with
  | CreateNode now ty pos c =>
      {| nodes := addNode now ty pos c (nodes s); edges := edges s |}
  | DuplicateNode nodeId now pick stamps => duplicateNode nodeId now pick stamps s
  | CreateEdge src tgt =>
      {| nodes := nodes s; edges := onConnect (nodes s) src tgt (edges s) |}
  end.

Definition applyOps (s : sheet) (ops : list createOp) : sheet := foldl applyOp s ops.

Definition emptySheet : sheet := {| nodes := []; edges := [] |}.

(** ** LayoutEngine: the rows of toggleAllExpanded *)

(** One round of the [edges.forEach] that fills [outgoing] and [incoming],
    over all edges whatever their [active]:
    [if (!outgoing[edge.source]) outgoing[edge.source] = []], the [push],
    and the same for [incoming]; a [push] on an inherited member throws. *)
Definition edgePush (maps : gmap string (list string) * gmap string (list string))
    (e : edge) : outcome (gmap string (list string) * gmap string (list string)) :=
  match arrayAt maps.1 (source e) with
  | Throws => Throws
  | Returns targets =>
      let outgoing := <[source e := targets ++ [target e]]> maps.1 in
      match arrayAt maps.2 (target e) with
      | Throws => Throws
      | Returns sources =>
          Returns (outgoing, <[target e := sources ++ [source e]]> maps.2)
      end
  end.

(** [outgoing] and [incoming] after the [forEach]. *)
Definition edgeMaps (edges : list edge)
    : outcome (gmap string (list string) * gmap string (list string)) :=
  forEach edgePush edges (∅, ∅).

(** [!n.parentNode && n.type !== "group"] *)
Definition isFree (n : node) : Prop :=
  (parentNode n = None ∨ parentNode n = Some EmptyString) ∧ node_type n ≠ Group.

#[global] Instance isFree_dec (n : node) : Decision (isFree n).
Proof. unfold isFree. apply _. Defined.

Definition nonChildNodes (nodes : list node) : list node := filter isFree nodes.

(** The [length] of the members inherited from [Object.prototype]: the
    number of parameters of the function; [Object.prototype] itself, found
    under [__proto__], has none. *)
Definition inheritedLength (name : string) : option nat :=
  if decide (name = "__proto__") then None
  else if decide (name ∈ ["toString"; "toLocaleString"; "valueOf"]) then Some 0
  else if decide (name ∈ ["__defineGetter__"; "__defineSetter__"]) then Some 2
  else Some 1.

(** [!incoming[n.id] || incoming[n.id].length === 0] *)
Definition isLayoutRoot (incoming : gmap string (list string)) (n : node) : bool :=
  match getMember incoming (node_id n) with
  | Own sources => bool_decide (length sources = 0)
  | Missing => true
  | Inherited => bool_decide (inheritedLength (node_id n) = Some 0)
  end.

(** [nonChildNodes.filter(...)] with that test. *)
Definition layoutRoots (incoming : gmap string (list string)) (nonChild : list node)
    : list node :=
  filter (λ n, isLayoutRoot incoming n = true) nonChild.

(** [rows], [visited] and [nodeToRow]. *)
Record layoutState := {
  rows : list (list string);
  placed : gset string;
  nodeToRow : gmap string nat
}.

(** The variables one pass over a row updates: [visited], [nextRowNodes] and
    [nodeToRow]. *)
Record passState := {
  pass_visited : gset string;
  nextRowNodes : list string;
  pass_nodeToRow : gmap string nat
}.

(** The body of [targets.forEach]; [sources.every] throws when
    [incoming[targetId]] is an inherited member. *)
Definition admitTarget (incoming : gmap string (list string)) (currentRow : nat)
    (ps : passState) (targetId : string) : outcome passState :=
  if decide (targetId ∈ pass_visited ps) then Returns ps
  else
    match arrayAt incoming targetId with
    | Throws => Throws
    | Returns sources =>
        if decide (Forall (λ s, s ∈ pass_visited ps) sources) then
          Returns {| pass_visited := pass_visited ps ∪ {[targetId]};
                     nextRowNodes := nextRowNodes ps ++ [targetId];
                     pass_nodeToRow :=
                       setMember targetId (currentRow + 1) (pass_nodeToRow ps) |}
        else Returns ps
    end.

(** The body of [rows[currentRow].forEach]; [targets.forEach] throws when
    [outgoing[nodeId]] is an inherited member. *)
Definition visitTargets (outgoing incoming : gmap string (list string))
    (currentRow : nat) (ps : passState) (nodeId : string) : outcome passState :=
  match arrayAt outgoing nodeId with
  | Throws => Throws
  | Returns targets => forEach (admitTarget incoming currentRow) targets ps
  end.

(** One round of [while (currentRow < rows.length)]. *)
Definition layerPass (outgoing incoming : gmap string (list string)) (currentRow : nat)
    (row : list string) (st : layoutState) : outcome layoutState :=
  match forEach (visitTargets outgoing incoming currentRow) row
          {| pass_visited := placed st; nextRowNodes := [];
             pass_nodeToRow := nodeToRow st |} with
  | Throws => Throws
  | Returns ps =>
      Returns {| rows := match nextRowNodes ps with
                         | [] => rows st
                         | _ => rows st ++ [nextRowNodes ps]
                         end;
                 placed := pass_visited ps;
                 nodeToRow := pass_nodeToRow ps |}
  end.

(** The loop; [None] when the fuel runs out. *)
Fixpoint layerLoop (fuel : nat) (outgoing incoming : gmap string (list string))
    (currentRow : nat) (st : layoutState) : option (outcome layoutState) :=
  match rows st !! currentRow with
  | None => Some (Returns st)
  | Some row =>
      match fuel with
      | O => None
      | S fuel' =>
          match layerPass outgoing incoming currentRow row st with
          | Returns st' => layerLoop fuel' outgoing incoming (S currentRow) st'
          | Throws => Some Throws
          end
      end
  end.

(** The state before the loop: the roots, if any, make row 0. *)
Definition layoutStart (roots : list node) : layoutState :=
  match roots with
  | [] => {| rows := []; placed := ∅; nodeToRow := ∅ |}
  | _ =>
      {| rows := [node_id <$> roots];
         placed := list_to_set (node_id <$> roots);
         nodeToRow := foldl (λ m n, setMember (node_id n) 0 m) ∅ roots |}
  end.

(** The [forEach] that gives every node not placed a row of its own. *)
Definition trailingStep (st : layoutState) (n : node) : layoutState :=
  if decide (node_id n ∈ placed st) then st
  else {| rows := rows st ++ [[node_id n]];
          placed := placed st;
          nodeToRow := setMember (node_id n) (length (rows st)) (nodeToRow st) |}.

(** The rows after the loop. *)
Definition layeredRows (fuel : nat) (nodes : list node) (edges : list edge)
    : option (outcome layoutState) :=
  match edgeMaps edges with
  | Throws => Some Throws
  | Returns (outgoing, incoming) =>
      layerLoop fuel outgoing incoming 0
        (layoutStart (layoutRoots incoming (nonChildNodes nodes)))
  end.

(** [rows] and [nodeToRow] as the positioning code receives them. *)
Definition layoutRows (fuel : nat) (nodes : list node) (edges : list edge)
    : option (outcome layoutState) :=
  match layeredRows fuel nodes edges with
  | Some (Returns st) => Some (Returns (foldl trailingStep st (nonChildNodes nodes)))
  | Some Throws => Some Throws
  | None => None
  end.

(** Fuel that covers the loop: a pass either places a target of some edge or
    is the last one. *)
Definition layoutFuel (edges : list edge) : nat := length edges + 1.

(** ** PathRouter: getSmartPath *)

(** The sides of a node a handle can sit on (React Flow's [Position]). *)
Inductive handleSide := Left | Top | Right | Bottom.

#[global] Instance handleSide_eq_dec : EqDecision handleSide.
Proof. solve_decision. Defined.

(** The SVG path [getSmartPath] returns, by its commands: [M s Q c t],
    [M s C c1, c2, m C c3, c4, t] and [M s C c1, c2, t].  The printing of the
    numbers into the path string is not modelled. *)
Inductive curve :=
  | Quadratic (start control stop : position)
  | TwoCubics (start c1 c2 mid c3 c4 stop : position)
  | Cubic (start c1 c2 stop : position).

(** [a < b] and [a <= b] on numbers, as tests. *)
Definition Rltb (a b : R) : bool := if Rlt_dec a b then true else false.

Definition Rleb (a b : R) : bool := if Rle_dec a b then true else false.

Definition getSmartPath (sourceX sourceY targetX targetY : R)
    (sourcePosition targetPosition : handleSide) : curve :=
  let deltaX := (targetX - sourceX)%R in
  let deltaY := (targetY - sourceY)%R in
  let distance := sqrt (deltaX * deltaX + deltaY * deltaY) in
  let isBackwards :=
    bool_decide (sourcePosition = Bottom) && bool_decide (targetPosition = Top)
    && Rltb deltaY 0 in
  let isSameLevel := Rltb (Rabs deltaY) 50 in
  let isVeryClose := Rltb distance 100 in
  let src := {| pos_x := sourceX; pos_y := sourceY |} in
  let tgt := {| pos_x := targetX; pos_y := targetY |} in
  if isVeryClose then
    let midX := ((sourceX + targetX) / 2)%R in
    let midY := ((sourceY + targetY) / 2)%R in
    let offset := Rmax 30 (distance * (3 / 10)) in
    let curveX := (midX + (if Rltb 0 deltaX then - offset else offset))%R in
    Quadratic src {| pos_x := curveX; pos_y := midY |} tgt
  else if isBackwards then
    let absDistance := Rabs deltaY in
    let horizontalOffset := Rmax 80 (Rmin 150 (absDistance * (5 / 10))) in
    let verticalPadding := Rmax 40 (absDistance * (2 / 10)) in
    let routeRight := Rleb 0 deltaX in
    let sideX :=
      if routeRight then (Rmax sourceX targetX + horizontalOffset)%R
      else (Rmin sourceX targetX - horizontalOffset)%R in
    TwoCubics src
      {| pos_x := sourceX; pos_y := sourceY + verticalPadding |}
      {| pos_x := sideX; pos_y := sourceY + verticalPadding |}
      {| pos_x := sideX; pos_y := (sourceY + targetY) / 2 |}
      {| pos_x := sideX; pos_y := targetY - verticalPadding |}
      {| pos_x := targetX; pos_y := targetY - verticalPadding |}
      tgt
  else if isSameLevel then
    let arcHeight := Rmax 60 (Rabs deltaX * (3 / 10)) in
    let midX := ((sourceX + targetX) / 2)%R in
    let arcY := (Rmax sourceY targetY + arcHeight)%R in
    Quadratic src {| pos_x := midX; pos_y := arcY |} tgt
  else
    let curvature := Rmin (distance * (25 / 100)) 60 in
    Cubic src
      {| pos_x := sourceX; pos_y := sourceY + curvature |}
      {| pos_x := targetX; pos_y := targetY - curvature |}
      tgt.

(** ** Properties in the words of the specification *)

(** Number of edges into [t] whose [active] field is [true]. *)
Definition activeCount (t : string) (edges : list edge) : nat :=
  length (filter (λ e, target e = t ∧ active e = Some true) edges).

Definition branch_invariant (edges : list edge) : Prop :=
  ∀ t, activeCount t edges ≤ 1.


(** An edge after the toggle of the edge [chosen] has been hit, as the
    specification puts it, field by field: the chosen edge is active, the
    other edges into its target are not, the rest is as it was. *)
Definition toggled (chosen : edge) (e : edge) : edge :=
  {| edge_id := edge_id e; source := source e; target := target e;
     edge_color := edge_color e;
     active := if decide (edge_id e = edge_id chosen) then Some true
               else if decide (target e = target chosen) then Some false
               else active e |}.

(** The combined prompt as the specification words it: the contributions that
    are not the empty string, joined by a blank line. *)
Definition spec_combinedPrompt (orderedNodes : list node) : string :=
  join blankLine (filter (λ c, c ≠ EmptyString) (nodeText <$> orderedNodes)).

(** The shift [(shiftX, shiftY)] is at a right angle to the line of direction
    [(dx, dy)]. *)
Definition perpendicular (shiftX shiftY dx dy : R) : Prop :=
  (shiftX * dx + shiftY * dy = 0)%R.

(** ** Sample sheets *)

Definition origin : position := {| pos_x := 0; pos_y := 0 |}.

Definition promptData (text : string) : nodeData :=
  {| title := Some "New Prompt"; content := Some text; template := None;
     values := ∅; color := Some "purple"; isExpanded := true;
     attachedTo := None; anchorPoint := None; offset := None |}.

Definition mkNode (i : string) (ty : nodeType) (d : nodeData) : node :=
  {| node_id := i; node_type := ty; node_position := origin;
     node_style := None; parentNode := None; extent := None; hidden := None;
     selected := false; data := d |}.

Definition promptNode (i text : string) : node := mkNode i Prompt (promptData text).

Definition mkEdge (i s t : string) (a : option bool) : edge :=
  {| edge_id := i; source := s; target := t; edge_color := Some "purple"; active := a |}.

(** A template node as the template builder makes it. *)
Definition templateNode (i tpl : string) (vals : gmap string string) : node :=
  mkNode i Template
    {| title := Some "Template"; content := None; template := Some tpl;
       values := vals; color := Some "cyan"; isExpanded := true;
       attachedTo := None; anchorPoint := None; offset := None |}.

(** A prompt with an image attached to it. *)
Definition imageData (parentId : string) : nodeData :=
  {| title := Some "Image"; content := None; template := None; values := ∅;
     color := Some "purple"; isExpanded := true; attachedTo := Some parentId;
     anchorPoint := Some "top-right"; offset := None |}.

(** The scenario of the specification: two edges into the same node. *)
Definition twoBranches : list edge :=
  onConnect [promptNode "A" "a"; promptNode "A2" "a2"; promptNode "B" "b"] "A2" "B"
    (onConnect [promptNode "A" "a"; promptNode "A2" "a2"; promptNode "B" "b"] "A" "B" []).

(** The scenario of the path text: "Hello" -> "World". *)
Definition helloNodes : list node := [promptNode "A" "Hello"; promptNode "B" "World"].

Definition helloEdges : list edge := [mkEdge "e1" "A" "B" (Some true)].

(** An edge A -> B that was made active, after its source has been
    duplicated, and a new edge C -> D. *)
Definition copiedBranch : list edge :=
  onConnect [] "C" "D"
    (duplicateNode_edges "A" 5 "blue" (λ _, (5%N, "k3x9q0a1z"))
       (setActive "reactflow__edge-A-B" (onConnect [] "A" "B" []))).

(** A cycle A -> B -> A, and a sheet whose first node is blank. *)
Definition cycleNodes : list node := [promptNode "A" "first"; promptNode "B" "second"].

Definition cycleEdges : list edge :=
  [mkEdge "e1" "A" "B" (Some true); mkEdge "e2" "B" "A" None].

Definition blankNodes : list node := [promptNode "A" "  "; promptNode "B" "World"].

Definition blankEdges : list edge := [mkEdge "e1" "A" "B" (Some true)].

Definition attachedSheet : sheet :=
  {| nodes := [promptNode "P" "text"; mkNode "I" Image (imageData "P")];
     edges := [] |}.

(** A root with two children, one of which points to the other. *)
Definition triangleNodes : list node :=
  [promptNode "r" "root"; promptNode "u" "first"; promptNode "v" "second"].

Definition triangleEdges : list edge :=
  [mkEdge "e1" "r" "u" None; mkEdge "e2" "r" "v" None; mkEdge "e3" "u" "v" None].

(** Two prompts, an edge between them, and a copy of the first prompt. *)
Definition sampleOps : list createOp :=
  [CreateNode 1 Prompt origin "purple";
   CreateNode 2 Prompt origin "blue";
   CreateEdge "node-1" "node-2";
   DuplicateNode "node-1" 3 0 (λ k, (3%N, "k3x9q0a1z"))].

(** ** Notions used in the proofs *)

Fixpoint allWord (s : string) : bool :=
  match s with
  | String c s' => isWordChar c && allWord s'
  | EmptyString => true
  end.

(** A name that [\w+] captures: one word character or more. *)
Definition isIdentifier (s : string) : bool :=
  match s with
  | EmptyString => false
  | _ => allWord s
  end.

(** No placeholder token occurs in [t]. *)
Definition placeholderFree (t : string) : Prop :=
  ∀ pre name post, isIdentifier name = true → t ≠ pre +:+ token name +:+ post.

(** A template cut at its placeholders: text, name, text, name, ..., text. *)
Fixpoint templateOf (segs : list (string * string)) (last : string) : string :=
  match segs with
  | [] => last
  | (t, name) :: segs' => t +:+ token name +:+ templateOf segs' last
  end.

(** The same template with every placeholder filled in. *)
Fixpoint filledOf (values : gmap string string) (segs : list (string * string))
    (last : string) : string :=
  match segs with
  | [] => last
  | (t, name) :: segs' => t +:+ valueOrKey values name +:+ filledOf values segs' last
  end.

(** The head of [r], if any, is no word character. *)
Definition stopsWord (r : string) : Prop :=
  match r with
  | String c _ => isWordChar c = false
  | EmptyString => True
  end.

(** [rest] is empty or opens a placeholder. *)
Definition opensToken (rest : string) : Prop :=
  rest = EmptyString ∨ ∃ r, rest = String "{" (String "{" r).

(** The expression matches at no position of [t]. *)
Fixpoint scanFree (t : string) : bool :=
  match t with
  | String c t' =>
      match matchPlaceholder t with
      | Some _ => false
      | None => scanFree t'
      end
  | EmptyString => true
  end.

(** A template cut at the matches of the expression, the way
    [replacePlaceholders] walks it: [text] is the text gathered since the
    last match. *)
Fixpoint cutTemplate (skip : nat) (text : string) (s : string) : list (string * string) * string :=
  match s with
  | EmptyString => ([], text)
  | String c s' =>
      match skip with
      | S k => cutTemplate k text s'
      | O =>
          match matchPlaceholder s with
          | Some (key, _) =>
              let '(segs, last) := cutTemplate (String.length key + 3) EmptyString s' in
              ((text, key) :: segs, last)
          | None => cutTemplate 0 (text +:+ String c EmptyString) s'
          end
      end
  end.

(** No match starts in [text] when [s] follows it. *)
Definition freeBefore (text s : string) : Prop :=
  ∀ pre suf, text = pre +:+ suf → suf ≠ EmptyString →
             matchPlaceholder (suf +:+ s) = None.

(** [s] without its first [k] code units. *)
Fixpoint dropString (k : nat) (s : string) : string :=
  match k, s with
  | S k', String _ s' => dropString k' s'
  | _, _ => s
  end.

(** No dollar sign in [s]. *)
Fixpoint noDollar (s : string) : bool :=
  match s with
  | String c s' => negb (Ascii.eqb c "$") && noDollar s'
  | EmptyString => true
  end.

(** Some code unit of [s] is no white space. *)
Fixpoint hasInk (s : string) : bool :=
  match s with
  | String c s' => negb (isWhiteSpace c) || hasInk s'
  | EmptyString => false
  end.

(** Edges whose source has not been visited yet. *)
Definition pending (es : list edge) (visited : gset string) : nat :=
  length (filter (λ e, source e ∉ visited) es).

(** What the loop keeps true of [orderedNodes]: its ids are pairwise distinct,
    all visited, and its members are nodes of the sheet that are no groups. *)
Definition ordered_ok (nodes : list node) (visited : gset string) (ordered : list node) : Prop :=
  NoDup (node_id <$> ordered) ∧
  ∀ n, n ∈ ordered → node_id n ∈ visited ∧ n ∈ nodes ∧ node_type n ≠ Group.

(** Edges whose target has not been placed yet. *)
Definition unplaced (edges : list edge) (vis : gset string) : nat :=
  length (filter (λ e, target e ∉ vis) edges).

(** Every id with a row number is in the row of that number. *)
Definition rowsOK (rs : list (list string)) (n2r : gmap string nat) : Prop :=
  ∀ id r, n2r !! id = Some r → ∃ row, rs !! r = Some row ∧ id ∈ row.

(** The placed ids are those with a row number. *)
Definition placedOK (vis : gset string) (n2r : gmap string nat) : Prop :=
  ∀ id, id ∈ vis ↔ is_Some (n2r !! id).

(** The source of an edge into a placed node is placed, not below it; and a
    node with an incoming edge is not in row 0. *)
Definition edgesOK (edges : list edge) (n2r : gmap string nat) : Prop :=
  ∀ e rv, e ∈ edges → n2r !! target e = Some rv →
    ∃ ru, n2r !! source e = Some ru ∧ ru ≤ rv ∧ 1 ≤ rv.

(** What a pass keeps true; [rs] are the rows before the pass. *)
Definition passOK (edges : list edge) (rs : list (list string)) (ps : passState) : Prop :=
  placedOK (pass_visited ps) (pass_nodeToRow ps) ∧
  rowsOK (rs ++ [nextRowNodes ps]) (pass_nodeToRow ps) ∧
  edgesOK edges (pass_nodeToRow ps).

(** What holds at the head of the loop with [currentRow = c]. *)
Definition loopOK (edges : list edge) (c : nat) (st : layoutState) : Prop :=
  length (rows st) ≤ c + 1 ∧
  placedOK (placed st) (nodeToRow st) ∧
  rowsOK (rows st) (nodeToRow st) ∧
  edgesOK edges (nodeToRow st).

(** What the trailing rows keep true; [st0] is the state after the loop. *)
Definition trailingOK (st0 st : layoutState) : Prop :=
  placed st = placed st0 ∧
  rows st0 `prefix_of` rows st ∧
  (∀ id, id ∈ placed st0 → nodeToRow st !! id = nodeToRow st0 !! id) ∧
  (∀ id r, id ∉ placed st0 → nodeToRow st !! id = Some r →
     rows st !! r = Some [id] ∧ length (rows st0) ≤ r).








(** The ids that can be reached from the seeds along the edges [es]. *)
Inductive reach (es : list edge) (seeds : list string) : string → Prop :=
  | reach_seed i : i ∈ seeds → reach es seeds i
  | reach_step e : e ∈ es → reach es seeds (source e) → reach es seeds (target e).

(** What the loop keeps true of its state: only reachable ids are visited or
    queued, the seeds and the targets of visited sources are visited or
    queued, and [orderedNodes] holds the nodes found for the visited ids,
    groups left out. *)
Definition bfsOK (nodes : list node) (es : list edge) (seeds : list string)
    (st : bfsState) : Prop :=
  (∀ i, i ∈ visited st ∨ i ∈ queue st → reach es seeds i) ∧
  (∀ e, e ∈ es → source e ∈ visited st →
        target e ∈ visited st ∨ target e ∈ queue st) ∧
  (∀ i, i ∈ seeds → i ∈ visited st ∨ i ∈ queue st) ∧
  (∀ n, n ∈ orderedNodes st ↔
        node_id n ∈ visited st ∧ findNode (node_id n) nodes = Some n ∧
        node_type n ≠ Group).

(** ** Further operations of the canvas *)

(** [handleDelete] of CustomEdge: the [setEdges] updater. *)
Definition handleDeleteEdge (id : string) (eds : list edge) : list edge :=
  filter (λ e, edge_id e ≠ id) eds.

(** [ungroupNodes groupId]: the [setNodes] updater. *)
Definition ungroupNodes (groupId : string) (nds : list node) : list node :=
  match findNode groupId nds with
  | None => nds
  | Some groupNode =>
      (λ n, if decide (parentNode n = Some groupId) then releaseChild groupNode n
            else n) <$> nds
  end.

(** [{ ...edge, data: { ...edge.data, color } }] *)
Definition recolor (c : string) (e : edge) : edge :=
  {| edge_id := edge_id e; source := source e; target := target e;
     edge_color := Some c; active := active e |}.

(** The [newData] of [updateNodeData]: for each field of [data], whether the
    object has the key, and with which value. *)
Record dataPatch := {
  patch_title : option (option string);
  patch_content : option (option string);
  patch_template : option (option string);
  patch_values : option (gmap string string);
  patch_color : option (option string);
  patch_isExpanded : option bool;
  patch_attachedTo : option (option string);
  patch_anchorPoint : option (option string);
  patch_offset : option (option position)
}.

(** [{ ...node.data, ...newData }] *)
Definition mergeData (d : nodeData) (p : dataPatch) : nodeData :=
  {| title := default (title d) (patch_title p);
     content := default (content d) (patch_content p);
     template := default (template d) (patch_template p);
     values := default (values d) (patch_values p);
     color := default (color d) (patch_color p);
     isExpanded := default (isExpanded d) (patch_isExpanded p);
     attachedTo := default (attachedTo d) (patch_attachedTo p);
     anchorPoint := default (anchorPoint d) (patch_anchorPoint p);
     offset := default (offset d) (patch_offset p) |}.

Definition withData (d : nodeData) (n : node) : node :=
  {| node_id := node_id n; node_type := node_type n;
     node_position := node_position n; node_style := node_style n;
     parentNode := parentNode n; extent := extent n; hidden := hidden n;
     selected := selected n; data := d |}.

(** The [setNodes] updater of [updateNodeData]. *)
Definition updateNodeData_nodes (nodeId : string) (newData : dataPatch)
    (nds : list node) : list node :=
  (λ n, if decide (node_id n = nodeId) then withData (mergeData (data n) newData) n
        else n) <$> nds.

(** The [setEdges] updater of [updateNodeData], run when [newData.color] is
    a non-empty string. *)
Definition updateNodeData_edges (nodeId : string) (newData : dataPatch)
    (eds : list edge) : list edge :=
  match patch_color newData with
  | Some (Some (String a c)) =>
      (λ e, if decide (source e = nodeId) then recolor (String a c) e else e) <$> eds
  | _ => eds
  end.

Definition updateNodeData (nodeId : string) (newData : dataPatch) (s : sheet) : sheet :=
  {| nodes := updateNodeData_nodes nodeId newData (nodes s);
     edges := updateNodeData_edges nodeId newData (edges s) |}.

(** [{ ...node.data.values, [paramName]: value }] put into the node. *)
Definition withValue (paramName value : string) (n : node) : node :=
  withData
    {| title := title (data n); content := content (data n);
       template := template (data n);
       values := <[paramName := value]> (values (data n));
       color := color (data n); isExpanded := isExpanded (data n);
       attachedTo := attachedTo (data n); anchorPoint := anchorPoint (data n);
       offset := offset (data n) |} n.

(** [handleUpdateTemplateValues]: the [setNodes] updater. *)
Definition handleUpdateTemplateValues (id paramName value : string)
    (nds : list node) : list node :=
  (λ n, if decide (node_id n = id) then withValue paramName value n else n) <$> nds.

(** The names of a list, each once, in the order of their first occurrence. *)
Fixpoint dedupFirst (l : list string) : list string :=
  match l with
  | [] => []
  | x :: l' => x :: filter (λ y, y ≠ x) (dedupFirst l')
  end.

(** [if (!params.includes(key)) params.push(key)] *)
Definition addParam (params : list string) (key : string) : list string :=
  if decide (key ∈ params) then params else params ++ [key].

(** The [newData] of the colour buttons of the sidebar: [{ color }]. *)
Definition colorPatch (c : string) : dataPatch :=
  {| patch_title := None; patch_content := None; patch_template := None;
     patch_values := None; patch_color := Some (Some c); patch_isExpanded := None;
     patch_attachedTo := None; patch_anchorPoint := None; patch_offset := None |}.

(** [onReconnect oldEdge newConnection]: the [setEdges] updater. *)
Definition onReconnect (oldEdgeId newSource newTarget : string) (eds : list edge) : list edge :=
  (λ e, if decide (edge_id e = oldEdgeId) then
          {| edge_id := edge_id e; source := newSource; target := newTarget;
             edge_color := edge_color e; active := active e |}
        else e) <$> eds.

(** Where a path begins and where it ends. *)
Definition curveStart (c : curve) : position :=
  match c with
  | Quadratic start _ _ => start
  | TwoCubics start _ _ _ _ _ _ => start
  | Cubic start _ _ _ => start
  end.

Definition curveStop (c : curve) : position :=
  match c with
  | Quadratic _ _ stop => stop
  | TwoCubics _ _ _ _ _ _ stop => stop
  | Cubic _ _ _ stop => stop
  end.

(** Where the sync effect wants an attached image: the anchor on its parent
    plus the offset of the image; [None] when the anchor has no
    coordinates. *)
Definition anchorTarget (parent n : node) : option position :=
  anchorPos ← calculateAnchorPosition parent (anchorPoint (data n));
  Some {| pos_x := pos_x anchorPos + orDefault (pos_x <$> offset (data n)) 0;
          pos_y := pos_y anchorPos + orDefault (pos_y <$> offset (data n)) 0 |}.

(** An attached image whose parent is on the sheet sits within 1 of that
    place, in both directions. *)
Definition inPlace (nds : list node) (n : node) : Prop :=
  ∀ parentId parent place,
    attachedImageOf n = Some parentId → findNode parentId nds = Some parent →
    anchorTarget parent n = Some place →
    (Rabs (pos_x (node_position n) - pos_x place) <= 1)%R ∧
    (Rabs (pos_y (node_position n) - pos_y place) <= 1)%R.

(** ** Image files (imageHandler.js) *)

(** The two fields of a [File] the code reads; [size] is a byte count. *)
Record file := { file_type : string; file_size : N }.

Definition VALID_TYPES : list string :=
  ["image/png"; "image/jpeg"; "image/gif"; "image/webp"].

Definition MAX_FILE_SIZE : N := 5 * 1024 * 1024.

Definition COMPRESSION_THRESHOLD : N := 500 * 1024.

Definition MAX_COMPRESSED_WIDTH : R := 800.

Record validation := { valid : bool; error : option string }.

(** [validateImage file]; a missing file is [None]. *)
Definition validateImage (f : option file) : validation :=
  match f with
  | None => {| valid := false; error := Some "No file provided" |}
  | Some f =>
      if decide (file_type f ∉ VALID_TYPES) then
        {| valid := false;
           error := Some "Invalid image type. Supported: PNG, JPEG, GIF, WebP" |}
      else if (MAX_FILE_SIZE <? file_size f)%N then
        {| valid := false; error := Some "File too large. Maximum size is 5MB" |}
      else {| valid := true; error := None |}
  end.

(** The side of a canvas whose [width] or [height] is set to [x]: the
    attribute is an unsigned long, so a number from 0 up to 2^32 is cut down
    to its integer part. *)
Definition canvasSide (x : R) : R := IZR (Int_part x).

(** The [width] and [height] [compressImage] computes, as (width, height):
    the size the image is drawn with; the canvas gets their integer
    parts. *)
Definition compressImage_size (imgWidth imgHeight maxWidth : R) : R * R :=
  if Rltb maxWidth imgWidth then (maxWidth, (imgHeight * maxWidth / imgWidth)%R)
  else (imgWidth, imgHeight).

(** The [width] and [height] [generateThumbnail] computes. *)
Definition generateThumbnail_size (imgWidth imgHeight size : R) : R * R :=
  if Rltb imgHeight imgWidth then
    if Rltb size imgWidth then (size, (imgHeight * size / imgWidth)%R)
    else (imgWidth, imgHeight)
  else
    if Rltb size imgHeight then ((imgWidth * size / imgHeight)%R, size)
    else (imgWidth, imgHeight).

(** [processImageFile], as far as sizes go: the error it throws, or the size
    of the image it stores and of the thumbnail, which is made from the
    stored image. *)
Definition processImageFile_sizes (f : option file) (imgWidth imgHeight : R)
    : string + (R * R) * (R * R) :=
  match f, error (validateImage f) with
  | Some fl, None =>
      let final :=
        if (COMPRESSION_THRESHOLD <? file_size fl)%N then
          let drawn := compressImage_size imgWidth imgHeight MAX_COMPRESSED_WIDTH in
          (canvasSide drawn.1, canvasSide drawn.2)
        else (imgWidth, imgHeight) in
      let drawn := generateThumbnail_size final.1 final.2 80 in
      inr (final, (canvasSide drawn.1, canvasSide drawn.2))
  | _, Some msg => inl msg
  | None, None => inl EmptyString
  end.

(** The [style] [handleImageUpload] gives the new image node; [imgWidth] and
    [imgHeight] are the [width] and [height] of the processed image. *)
Definition handleImageUpload_style (imgWidth imgHeight : R) : style :=
  let maxWidth := 300%R in
  let maxHeight := 300%R in
  let '(w1, h1) :=
    if Rltb maxWidth imgWidth then (maxWidth, (imgHeight * maxWidth / imgWidth)%R)
    else (imgWidth, imgHeight) in
  let '(w2, h2) :=
    if Rltb maxHeight h1 then ((w1 * maxHeight / h1)%R, maxHeight)
    else (w1, h1) in
  {| width := Rmax 150 (w2 + 24); height := Rmax 150 (h2 + 60) |}.

(** ** Sheets *)

(** A sheet of the workbook: its id, its name and its graph. *)
Record sheetTab := { sheet_id : string; sheet_name : string; sheet_graph : sheet }.

(** The state [sheets] and [activeSheetId]. *)
Record sheetsState := { sheets : list sheetTab; activeSheetId : string }.

(** [sheets.find((s) => s.id === activeSheetId) || sheets[0]] *)
Definition activeSheet (st : sheetsState) : option sheetTab :=
  match List.find (λ s, String.eqb (sheet_id s) (activeSheetId st)) (sheets st) with
  | Some s => Some s
  | None => head (sheets st)
  end.

(** [`sheet-${Date.now()}`] *)
Definition freshSheetId (now : N) : string := "sheet-" +:+ pretty now.

Definition addSheet (now : N) (st : sheetsState) : sheetsState :=
  {| sheets := sheets st ++
       [ {| sheet_id := freshSheetId now;
            sheet_name := "Sheet " +:+ pretty (length (sheets st) + 1);
            sheet_graph := emptySheet |} ];
     activeSheetId := freshSheetId now |}.

(** [deleteSheet sheetId]; [None] when [newSheets[0].id] is read and
    [newSheets] is empty, which throws. *)
Definition deleteSheet (sheetId : string) (st : sheetsState) : option sheetsState :=
  if decide (length (sheets st) ≤ 1) then Some st
  else
    let newSheets := filter (λ s, sheet_id s ≠ sheetId) (sheets st) in
    if decide (activeSheetId st = sheetId) then
      match newSheets with
      | s :: _ => Some {| sheets := newSheets; activeSheetId := sheet_id s |}
      | [] => None
      end
    else Some {| sheets := newSheets; activeSheetId := activeSheetId st |}.

Definition renameSheet (sheetId newName : string) (st : sheetsState) : sheetsState :=
  {| sheets := (λ s, if decide (sheet_id s = sheetId) then
                       {| sheet_id := sheet_id s; sheet_name := newName;
                          sheet_graph := sheet_graph s |}
                     else s) <$> sheets st;
     activeSheetId := activeSheetId st |}.

Definition switchSheet (sheetId : string) (st : sheetsState) : sheetsState :=
  {| sheets := sheets st; activeSheetId := sheetId |}.

(** The effect that writes the nodes and edges of the canvas into the sheet
    list: [sheet.id === activeSheetId ? { ...sheet, nodes, edges } : sheet]. *)
Definition storeGraph (g : sheet) (st : sheetsState) : sheetsState :=
  {| sheets := (λ s, if decide (sheet_id s = activeSheetId st) then
                       {| sheet_id := sheet_id s; sheet_name := sheet_name s;
                          sheet_graph := g |}
                     else s) <$> sheets st;
     activeSheetId := activeSheetId st |}.

(** [const { extent, ...rest } = node; return rest] *)
Definition stripExtent (n : node) : node :=
  {| node_id := node_id n; node_type := node_type n;
     node_position := node_position n; node_style := node_style n;
     parentNode := parentNode n; extent := None; hidden := hidden n;
     selected := selected n; data := data n |}.

(** The effect that puts the active sheet on the canvas; [None] when there
    is no active sheet, in which case the canvas is left alone. *)
Definition loadGraph (st : sheetsState) : option sheet :=
  s ← activeSheet st;
  Some {| nodes := stripExtent <$> nodes (sheet_graph s);
          edges := edges (sheet_graph s) |}.

(** A workbook of two sheets, the second one active. *)
Definition twoSheets : sheetsState :=
  addSheet 8 (addSheet 7 {| sheets := []; activeSheetId := "sheet-1" |}).

(** ** What the canvas shows (nodesWithChildren) *)

(** The ids with an outgoing edge and no incoming edge, whatever the
    [active] fields. *)
Definition displayedRoots (edges : list edge) : gset string :=
  let hasOutgoing : gset string := list_to_set (source <$> edges) in
  let hasIncoming : gset string := list_to_set (target <$> edges) in
  filter (λ id, id ∉ hasIncoming) hasOutgoing.

(** [pathRoots.has(node.id) && node.type !== "group"] *)
Definition isPathRoot (edges : list edge) (n : node) : bool :=
  bool_decide (node_id n ∈ displayedRoots edges) && bool_decide (node_type n ≠ Group).


Definition withExpanded (b : bool) (d : nodeData) : nodeData :=
  {| title := title d; content := content d; template := template d;
     values := values d; color := color d; isExpanded := b;
     attachedTo := attachedTo d; anchorPoint := anchorPoint d;
     offset := offset d |}.


(** ** LayoutEngine: the positions of toggleAllExpanded *)

(** The first [map] of [toggleAllExpanded]: every node gets the new
    [isExpanded], a group that is expanded also the size 450 x 350. *)
Definition expandNode (newExpanded : bool) (n : node) : node :=
  {| node_id := node_id n; node_type := node_type n;
     node_position := node_position n;
     node_style :=
       if decide (node_type n = Group) then
         if newExpanded then Some {| width := 450; height := 350 |}
         else node_style n
       else node_style n;
     parentNode := parentNode n; extent := extent n; hidden := hidden n;
     selected := selected n; data := withExpanded newExpanded (data n) |}.

(** [n.parentNode] as a condition: the node is inside a group. *)
Definition isChild (n : node) : Prop :=
  match parentNode n with
  | Some (String _ _) => True
  | _ => False
  end.

#[global] Instance isChild_dec (n : node) : Decision (isChild n).
Proof. unfold isChild. destruct (parentNode n) as [[|]|]; apply _. Defined.

Definition getNodeSize (newExpanded : bool) (n : node) : style :=
  if negb newExpanded then {| width := 200; height := 50 |}
  else
    match node_type n with
    | Group => {| width := 450; height := 350 |}
    | Template => {| width := 320; height := 220 |}
    | _ => {| width := 280; height := 180 |}
    end.

Definition verticalPadding (newExpanded : bool) : R :=
  if newExpanded then 80%R else 40%R.

Definition horizontalPadding (newExpanded : bool) : R :=
  if newExpanded then 40%R else 20%R.

(** [nodeMap]: its own properties, and the node that has become its
    prototype, if any. *)
Record nodeMapObject := {
  entries : gmap string node;
  prototype : option node
}.

(** [nodeMap[n.id] = n]: a new own property, except that under the id
    [__proto__] the assignment makes the node the prototype of [nodeMap]. *)
Definition nodeMapSet (nodeMap : nodeMapObject) (n : node) : nodeMapObject :=
  if decide (node_id n = "__proto__") then
    {| entries := entries nodeMap; prototype := Some n |}
  else {| entries := <[node_id n := n]> (entries nodeMap); prototype := prototype nodeMap |}.

(** [nonChildNodes.forEach((n) => (nodeMap[n.id] = n))] *)
Definition nodeMapOf (nonChild : list node) : nodeMapObject :=
  foldl nodeMapSet {| entries := ∅; prototype := None |} nonChild.

(** Whether the node object [p] has a truthy field [name], the fields being
    those of [node]. *)
Definition hasTruthyField (p : node) (name : string) : bool :=
  if decide (name = "id") then bool_decide (node_id p ≠ EmptyString)
  else if decide (name ∈ ["type"; "position"; "data"]) then true
  else if decide (name = "style") then bool_decide (is_Some (node_style p))
  else if decide (name = "parentNode") then
    bool_decide (is_Some (parentNode p) ∧ parentNode p ≠ Some EmptyString)
  else if decide (name = "extent") then
    bool_decide (is_Some (extent p) ∧ extent p ≠ Some EmptyString)
  else if decide (name = "hidden") then bool_decide (hidden p = Some true)
  else if decide (name = "selected") then selected p
  else false.

(** What the row code works on: a node, or a truthy value that is no node
    and has no [type] - a field of the prototype node or a member inherited
    from [Object.prototype]. *)
Inductive rowNode := ANode (n : node) | NoNode.

(** [nodeMap[id]], [None] standing for a falsy value, which
    [filter(Boolean)] drops: the own property; else the prototype node
    itself under [__proto__], or its field of that name; else the member
    inherited from [Object.prototype]. *)
Definition nodeMapAt (nodeMap : nodeMapObject) (id : string) : option rowNode :=
  match entries nodeMap !! id with
  | Some n => Some (ANode n)
  | None =>
      match prototype nodeMap with
      | Some p =>
          if decide (id = "__proto__") then Some (ANode p)
          else if hasTruthyField p id then Some NoNode
          else if decide (id ∈ protoNames) then Some NoNode
          else None
      | None => if decide (id ∈ protoNames) then Some NoNode else None
      end
  end.

(** [getNodeSize] on an entry of a row. *)
Definition rowNodeSize (newExpanded : bool) (x : rowNode) : style :=
  match x with
  | ANode n => getNodeSize newExpanded n
  | NoNode =>
      if negb newExpanded then {| width := 200; height := 50 |}
      else {| width := 280; height := 180 |}
  end.

(** The node pushed for a node of a row. *)
Definition placeNode (newExpanded : bool) (x y : R) (n : node) : node :=
  {| node_id := node_id n; node_type := node_type n;
     node_position := {| pos_x := x; pos_y := y |};
     node_style :=
       if newExpanded && bool_decide (node_type n ≠ Group) then
         Some (getNodeSize newExpanded n)
       else node_style n;
     parentNode := parentNode n; extent := extent n; hidden := hidden n;
     selected := selected n; data := data n |}.

(** An element of [positionedNodes]: a node, or the object made of a value
    that is no node, of which only the position and the size it was given
    are kept here. *)
Inductive positioned :=
  | PositionedNode (n : node)
  | PositionedOther (p : position) (size : option style).

Definition placeRowNode (newExpanded : bool) (x y : R) (entry : rowNode) : positioned :=
  match entry with
  | ANode n => PositionedNode (placeNode newExpanded x y n)
  | NoNode =>
      PositionedOther {| pos_x := x; pos_y := y |}
        (if newExpanded then Some (rowNodeSize newExpanded NoNode) else None)
  end.

(** One round of [rowNodes.forEach]; the state is [currentX] and
    [positionedNodes]. *)
Definition placeInRow (newExpanded : bool) (currentY : R) (st : R * list positioned)
    (entry : rowNode) : R * list positioned :=
  ((st.1 + width (rowNodeSize newExpanded entry) + horizontalPadding newExpanded)%R,
   st.2 ++ [placeRowNode newExpanded st.1 currentY entry]).

(** One round of [rows.forEach]; the state is [currentY] and
    [positionedNodes]. *)
Definition layoutRow (newExpanded : bool) (nodeMap : nodeMapObject)
    (st : R * list positioned) (rowNodeIds : list string) : R * list positioned :=
  let rowNodes := omap (nodeMapAt nodeMap) rowNodeIds in
  match rowNodes with
  | [] => st
  | _ =>
      let sizes := rowNodeSize newExpanded <$> rowNodes in
      let totalWidth :=
        (foldl (λ acc size, acc + width size) 0 sizes
         + (INR (length rowNodes) - 1) * horizontalPadding newExpanded)%R in
      let maxHeight := foldl (λ acc size, Rmax acc (height size)) 0%R sizes in
      let currentX := (250 - totalWidth / 2)%R in
      ((st.1 + maxHeight + verticalPadding newExpanded)%R,
       (foldl (placeInRow newExpanded st.1) (currentX, st.2) rowNodes).2)
  end.

(** One round of [groupNodes.forEach]. *)
Definition layoutGroup (newExpanded : bool) (st : R * list positioned) (n : node)
    : R * list positioned :=
  let size := getNodeSize newExpanded n in
  ((st.1 + height size + verticalPadding newExpanded)%R,
   st.2 ++ [PositionedNode (moveTo {| pos_x := 250 - width size / 2; pos_y := st.1 |} n)]).

(** The [setNodes] updater of [toggleAllExpanded]; [None] when the fuel does
    not cover the layering loop. *)
Definition toggleAllExpanded (fuel : nat) (newExpanded : bool) (edges : list edge)
    (currentNodes : list node) : option (outcome (list positioned)) :=
  let updatedNodes := expandNode newExpanded <$> currentNodes in
  let groupNodes := filter (λ n, node_type n = Group) updatedNodes in
  let childNodes := filter isChild updatedNodes in
  match layoutRows fuel updatedNodes edges with
  | Some (Returns fin) =>
      let nodeMap := nodeMapOf (nonChildNodes updatedNodes) in
      let afterRows := foldl (layoutRow newExpanded nodeMap) (100%R, []) (rows fin) in
      let afterGroups := foldl (layoutGroup newExpanded) afterRows groupNodes in
      Some (Returns (afterGroups.2 ++ (PositionedNode <$> childNodes)))
  | Some Throws => Some Throws
  | None => None
  end.

(** *** The layout of a sheet without inherited names

    The same code on dictionaries that are read as finite maps: what the
    layout does when no lookup meets an inherited member. *)

Definition pushSource (inc : gmap string (list string)) (e : edge) : gmap string (list string) :=
  <[target e := default [] (inc !! target e) ++ [source e]]> inc.

Definition targetLists (edges : list edge) : gmap string (list string) :=
  foldl pushTarget ∅ edges.

Definition sourceLists (edges : list edge) : gmap string (list string) :=
  foldl pushSource ∅ edges.

Definition rowZero (nodes : list node) (edges : list edge) : list node :=
  layoutRoots (sourceLists edges) (nonChildNodes nodes).

Definition placeTarget (incoming : gmap string (list string)) (currentRow : nat)
    (ps : passState) (targetId : string) : passState :=
  if decide (targetId ∈ pass_visited ps) then ps
  else
    let sources := default [] (incoming !! targetId) in
    if decide (Forall (λ s, s ∈ pass_visited ps) sources) then
      {| pass_visited := pass_visited ps ∪ {[targetId]};
         nextRowNodes := nextRowNodes ps ++ [targetId];
         pass_nodeToRow := <[targetId := currentRow + 1]> (pass_nodeToRow ps) |}
    else ps.

(** The targets one pass looks at, in order: for each node of the row, its
    outgoing list. *)
Definition rowTargets (outgoing : gmap string (list string)) (row : list string) : list string :=
  row ≫= λ nodeId, default [] (outgoing !! nodeId).

Definition rowPass (outgoing incoming : gmap string (list string)) (currentRow : nat)
    (row : list string) (st : layoutState) : layoutState :=
  let ps := foldl (placeTarget incoming currentRow)
              {| pass_visited := placed st; nextRowNodes := [];
                 pass_nodeToRow := nodeToRow st |}
              (rowTargets outgoing row) in
  {| rows := match nextRowNodes ps with
             | [] => rows st
             | _ => rows st ++ [nextRowNodes ps]
             end;
     placed := pass_visited ps;
     nodeToRow := pass_nodeToRow ps |}.

Fixpoint rowPasses (fuel : nat) (outgoing incoming : gmap string (list string))
    (currentRow : nat) (st : layoutState) : option layoutState :=
  match rows st !! currentRow with
  | None => Some st
  | Some row =>
      match fuel with
      | O => None
      | S fuel' =>
          rowPasses fuel' outgoing incoming (S currentRow)
            (rowPass outgoing incoming currentRow row st)
      end
  end.

Definition loopRows (fuel : nat) (nodes : list node) (edges : list edge) : option layoutState :=
  rowPasses fuel (targetLists edges) (sourceLists edges) 0
    (layoutStart (rowZero nodes edges)).

Definition allRows (fuel : nat) (nodes : list node) (edges : list edge) : option layoutState :=
  st ← loopRows fuel nodes edges;
  Some (foldl trailingStep st (nonChildNodes nodes)).

(** The ids under which a free node without incoming edge is a root although
    [incoming] has an inherited member of that name: the loop then throws
    at its [targets.forEach]. *)
Definition throwingRoot (id : string) : Prop :=
  id ∈ ["toString"; "toLocaleString"; "valueOf"].

(** The last node of a list under each id. *)
Definition lastNodeOf (nonChild : list node) : gmap string node :=
  foldl (λ m n, <[node_id n := n]> m) ∅ nonChild.

(** The loop over a row, as a function of the row. *)
Fixpoint placedFrom (newExpanded : bool) (y x : R) (l : list node) : list node :=
  match l with
  | [] => []
  | n :: l' =>
      placeNode newExpanded x y n
      :: placedFrom newExpanded y
           (x + width (getNodeSize newExpanded n) + horizontalPadding newExpanded) l'
  end.

(** Width and height of a row. *)
Definition rowWidth (newExpanded : bool) (rowNodes : list node) : R :=
  (foldl (λ acc size, acc + width size) 0 (getNodeSize newExpanded <$> rowNodes)
   + (INR (length rowNodes) - 1) * horizontalPadding newExpanded)%R.

Definition rowHeight (newExpanded : bool) (rowNodes : list node) : R :=
  foldl (λ acc size, Rmax acc (height size)) 0%R (getNodeSize newExpanded <$> rowNodes).

(** The rows as they are placed, one list per row that has nodes, and the
    [currentY] after them. *)
Fixpoint placedRows (newExpanded : bool) (nodeMap : gmap string node) (y : R)
    (rs : list (list string)) : list (list node) :=
  match rs with
  | [] => []
  | rowNodeIds :: rs' =>
      match omap (λ id, nodeMap !! id) rowNodeIds with
      | [] => placedRows newExpanded nodeMap y rs'
      | rowNodes =>
          placedFrom newExpanded y (250 - rowWidth newExpanded rowNodes / 2) rowNodes
          :: placedRows newExpanded nodeMap
               (y + rowHeight newExpanded rowNodes + verticalPadding newExpanded) rs'
      end
  end.

Fixpoint yAfterRows (newExpanded : bool) (nodeMap : gmap string node) (y : R)
    (rs : list (list string)) : R :=
  match rs with
  | [] => y
  | rowNodeIds :: rs' =>
      match omap (λ id, nodeMap !! id) rowNodeIds with
      | [] => yAfterRows newExpanded nodeMap y rs'
      | rowNodes =>
          yAfterRows newExpanded nodeMap
            (y + rowHeight newExpanded rowNodes + verticalPadding newExpanded) rs'
      end
  end.

(** The groups as they are placed below the rows. *)
Fixpoint placedGroups (newExpanded : bool) (y : R) (l : list node) : list node :=
  match l with
  | [] => []
  | n :: l' =>
      moveTo {| pos_x := 250 - width (getNodeSize newExpanded n) / 2; pos_y := y |} n
      :: placedGroups newExpanded
           (y + height (getNodeSize newExpanded n) + verticalPadding newExpanded) l'
  end.

(** The rows hold every placed id, and each of them once. *)
Definition rowsExact (rs : list (list string)) (vis : gset string) : Prop :=
  NoDup (concat rs) ∧ ∀ id, id ∈ concat rs ↔ id ∈ vis.

(** What a queue entry adds to [orderedNodes] when it is visited. *)
Definition visitedNode (nodes : list node) (nodeId : string) : option node :=
  match findNode nodeId nodes with
  | Some n => if decide (node_type n = Group) then None else Some n
  | None => None
  end.

(** No opening brace in [s]. *)
Fixpoint noBrace (s : string) : bool :=
  match s with
  | String c s' => negb (Ascii.eqb c "{") && noBrace s'
  | EmptyString => true
  end.

(** The replacement of a round of the preview for a parameter that is no
    inherited name, or has a default value of its own: that value when it
    is not empty, else the token. *)
Definition defaultOrToken (defaultValues : gmap string string) (param : string) : string :=
  match defaultValues !! param with
  | Some EmptyString | None => token param
  | Some v => v
  end.

(** The rounds of the preview with these replacements. *)
Definition fillStep (defaultValues : gmap string string) (result param : string) : string :=
  replaceToken (token param) (defaultOrToken defaultValues param) 0 EmptyString result.

Definition fillDefaults (tpl : string) (defaultValues : gmap string string) : string :=
  foldl (fillStep defaultValues) tpl (extractParams tpl).

(** A template cut at its placeholders, with [f name] written for every
    placeholder [name]. *)
Fixpoint filledWith (f : string → string) (segs : list (string * string))
    (last : string) : string :=
  match segs with
  | [] => last
  | (t, name) :: segs' => t +:+ f name +:+ filledWith f segs' last
  end.

(** What replacing the token [tok] by [v] does to a piece of the text that
    is either a token or free of braces. *)
Definition swapPiece (tok v piece : string) : string :=
  if decide (piece = tok) then v else piece.

(** * Lemmas and theorems *)

(** ** Lemmas on the toggle *)

Section Toggle.
Implicit Types (e : edge) (es : list edge) (i t : string).

Lemma toggleOne_id i t e : edge_id (toggleOne i t e) = edge_id e.
Proof. unfold toggleOne; repeat case_decide; reflexivity. Qed.

Lemma toggleOne_target i t e : target (toggleOne i t e) = target e.
Proof. unfold toggleOne; repeat case_decide; reflexivity. Qed.

Lemma toggleOne_source i t e : source (toggleOne i t e) = source e.
Proof. unfold toggleOne; repeat case_decide; reflexivity. Qed.

Lemma handleToggleActive_ids i t es :
  edge_id <$> handleToggleActive i t es = edge_id <$> es.
Proof.
  unfold handleToggleActive. rewrite <- list_fmap_compose.
  apply list_fmap_ext. intros ? e _. apply toggleOne_id.
Qed.

Lemma find_edge_Some i es e :
  List.find (λ e, String.eqb (edge_id e) i) es = Some e →
  e ∈ es ∧ edge_id e = i.
Proof.
  intros H. apply find_some in H as [Hin Heq].
  apply list_elem_of_In in Hin. apply String.eqb_eq in Heq. done.
Qed.

Lemma find_edge_None i es :
  List.find (λ e, String.eqb (edge_id e) i) es = None →
  ∀ e, e ∈ es → edge_id e ≠ i.
Proof.
  intros H e Hin Heq. apply list_elem_of_In in Hin.
  pose proof (find_none _ _ H e Hin) as Hne. simpl in Hne.
  apply String.eqb_neq in Hne. done.
Qed.

Lemma setActive_ids i es : edge_id <$> setActive i es = edge_id <$> es.
Proof.
  unfold setActive. destruct (List.find _ es); [|done].
  apply handleToggleActive_ids.
Qed.

(** With unique ids at most one edge carries a given id. *)
Lemma NoDup_ids_count i es :
  NoDup (edge_id <$> es) →
  length (filter (λ e, edge_id e = i) es) ≤ 1.
Proof.
  induction es as [|e es IH]; simpl; [lia|].
  rewrite NoDup_cons. intros [Hnotin Hnd].
  rewrite filter_cons. case_decide as Hi.
  - assert (filter (λ e0, edge_id e0 = i) es = []) as ->; [|simpl; lia].
    destruct (filter _ es) as [|e' l] eqn:Hf; [done|].
    assert (e' ∈ filter (λ e0, edge_id e0 = i) es) as Hin
      by (rewrite Hf; apply list_elem_of_here).
    apply list_elem_of_filter in Hin as [He' Hin].
    exfalso. apply Hnotin. rewrite Hi, <- He'.
    by apply list_elem_of_fmap_2.
  - by apply IH.
Qed.

Lemma NoDup_ids_inj es e1 e2 :
  NoDup (edge_id <$> es) → e1 ∈ es → e2 ∈ es →
  edge_id e1 = edge_id e2 → e1 = e2.
Proof.
  induction es as [|e es IH]; [by intros _ ?%elem_of_nil|].
  rewrite fmap_cons, NoDup_cons. intros [Hnotin Hnd] H1 H2 Heq.
  apply elem_of_cons in H1 as [->|H1]; apply elem_of_cons in H2 as [->|H2].
  - done.
  - exfalso. apply Hnotin. rewrite Heq. by apply list_elem_of_fmap_2.
  - exfalso. apply Hnotin. rewrite <- Heq. by apply list_elem_of_fmap_2.
  - by apply IH.
Qed.

Lemma length_filter_fmap_le (P Q : edge → Prop)
    `{!∀ x, Decision (P x)} `{!∀ x, Decision (Q x)} (f : edge → edge) es :
  (∀ e, e ∈ es → P (f e) → Q e) →
  length (filter P (f <$> es)) ≤ length (filter Q es).
Proof.
  induction es as [|e es IH]; intros HPQ; [done|].
  assert (length (filter P (f <$> es)) ≤ length (filter Q es)) as IH'.
  { apply IH. intros e' He'. apply HPQ. by apply list_elem_of_further. }
  rewrite fmap_cons, !filter_cons. case_decide as HP.
  - rewrite decide_True by (apply HPQ; [apply list_elem_of_here|done]).
    cbn [length]. lia.
  - case_decide; cbn [length]; lia.
Qed.

Lemma toggle_count_same i t es :
  NoDup (edge_id <$> es) →
  activeCount t (handleToggleActive i t es) ≤ 1.
Proof.
  intros Hnd. unfold activeCount, handleToggleActive.
  etrans; [|apply (NoDup_ids_count i es Hnd)].
  apply length_filter_fmap_le. intros e _ [Ht Ha].
  rewrite toggleOne_target in Ht. unfold toggleOne in Ha.
  repeat case_decide; simpl in Ha; naive_solver.
Qed.

Lemma toggle_count_other i t t' es e0 :
  NoDup (edge_id <$> es) → e0 ∈ es → edge_id e0 = i → target e0 = t →
  t' ≠ t →
  activeCount t' (handleToggleActive i t es) ≤ activeCount t' es.
Proof.
  intros Hnd Hin0 Hid0 Ht0 Hne. unfold activeCount, handleToggleActive.
  apply length_filter_fmap_le. intros e Hin [Ht Ha].
  rewrite toggleOne_target in Ht. split; [done|].
  unfold toggleOne in Ha. repeat case_decide; simpl in Ha; try done.
  assert (e = e0) as -> by (eapply NoDup_ids_inj; eauto; congruence).
  congruence.
Qed.

Lemma setActive_preserves es i :
  NoDup (edge_id <$> es) → branch_invariant es →
  branch_invariant (setActive i es).
Proof.
  intros Hnd Hinv t'. unfold setActive.
  destruct (List.find _ es) as [e0|] eqn:Hfind; [|apply Hinv].
  apply find_edge_Some in Hfind as [Hin0 Hid0].
  destruct (decide (t' = target e0)) as [->|Hne].
  - by apply toggle_count_same.
  - etrans; [|apply (Hinv t')].
    eapply toggle_count_other; eauto.
Qed.

Lemma setActive_sequence_preserves (calls : list string) es :
  NoDup (edge_id <$> es) → branch_invariant es →
  NoDup (edge_id <$> foldl (λ s i, setActive i s) es calls) ∧
  branch_invariant (foldl (λ s i, setActive i s) es calls).
Proof.
  revert es. induction calls as [|i calls IH]; intros es Hnd Hinv; [done|].
  simpl. apply IH.
  - by rewrite setActive_ids.
  - by apply setActive_preserves.
Qed.

End Toggle.

(** ** The branch invariant *)

Section Branch.
Implicit Types (e x : edge) (edges : list edge).

Lemma setActive_pointwise edges e :
  NoDup (edge_id <$> edges) → e ∈ edges →
  setActive (edge_id e) edges = toggled e <$> edges.
Proof.
  intros Hnd Hin. unfold setActive.
  destruct (List.find _ edges) as [e0|] eqn:Hfind.
  - apply find_edge_Some in Hfind as [Hin0 Hid0].
    assert (e0 = e) as -> by (by eapply NoDup_ids_inj).
    unfold handleToggleActive. apply list_fmap_ext. intros _ e' Hin'%list_elem_of_lookup_2.
    unfold toggleOne, toggled, set_active.
    repeat case_decide; try naive_solver. by destruct e'.
  - exfalso. by eapply find_edge_None.
Qed.

Lemma fresh_edges_invariant edges :
  (∀ e, e ∈ edges → active e ≠ Some true) → branch_invariant edges.
Proof.
  intros Hfresh t. unfold activeCount.
  assert (filter (λ e, target e = t ∧ active e = Some true) edges = []) as ->;
    [|simpl; lia].
  induction edges as [|e edges IH]; [done|].
  rewrite filter_cons, decide_False.
  - apply IH. intros e' He'. apply Hfresh. by apply list_elem_of_further.
  - intros [_ Ha]. by apply (Hfresh e (list_elem_of_here _ _)).
Qed.

Lemma length_filter_fmap_eq (P Q : edge → Prop)
    `{!∀ x, Decision (P x)} `{!∀ x, Decision (Q x)} (f : edge → edge) edges :
  (∀ e, e ∈ edges → P (f e) ↔ Q e) →
  length (filter P (f <$> edges)) = length (filter Q edges).
Proof.
  induction edges as [|e edges IH]; intros HPQ; [done|].
  assert (length (filter P (f <$> edges)) = length (filter Q edges)) as IH'.
  { apply IH. intros e' He'. apply HPQ. by apply list_elem_of_further. }
  rewrite fmap_cons, !filter_cons.
  destruct (decide (Q e)) as [HQ|HQ].
  - rewrite decide_True by (apply HPQ; [apply list_elem_of_here|done]).
    cbn [length]. lia.
  - rewrite decide_False; [done|].
    intros HP. apply HQ, HPQ; [apply list_elem_of_here|done].
Qed.

(** After the toggle the target of the edge has exactly one active edge. *)
Lemma setActive_count_target edges e :
  NoDup (edge_id <$> edges) → e ∈ edges →
  activeCount (target e) (setActive (edge_id e) edges) = 1.
Proof.
  intros Hnd He. apply Nat.le_antisymm.
  - unfold setActive. destruct (List.find _ edges) as [e0|] eqn:Hfind.
    + apply find_edge_Some in Hfind as [Hin0 Hid0].
      assert (e0 = e) as -> by (by eapply NoDup_ids_inj).
      by apply toggle_count_same.
    + exfalso. by eapply find_edge_None.
  - rewrite setActive_pointwise by done. unfold activeCount.
    assert (Hin : toggled e e ∈ filter (λ x, target x = target e ∧ active x = Some true)
                                  (toggled e <$> edges)).
    { apply list_elem_of_filter. split; [|by apply list_elem_of_fmap_2].
      unfold toggled. cbn [target active]. by rewrite decide_True. }
    destruct (filter _ _); [by apply elem_of_nil in Hin|simpl; lia].
Qed.

(** The other targets keep their active edges. *)
Lemma setActive_count_other edges e t :
  NoDup (edge_id <$> edges) → e ∈ edges → t ≠ target e →
  activeCount t (setActive (edge_id e) edges) = activeCount t edges.
Proof.
  intros Hnd He Ht. rewrite setActive_pointwise by done. unfold activeCount.
  apply length_filter_fmap_eq. intros x Hx. unfold toggled. cbn [target active].
  destruct (decide (edge_id x = edge_id e)) as [Hid|Hid].
  - assert (x = e) as -> by (by eapply NoDup_ids_inj).
    split; intros [Heq _]; congruence.
  - destruct (decide (target x = target e)) as [Htx|Htx]; [|done].
    split; intros [Heq _]; congruence.
Qed.

End Branch.

(** Two edges into one node are both active after [setActive]: when they
    carry the same id; and when the source of an active edge has been
    duplicated, the copy of the edge being as active as the edge, whatever
    is toggled elsewhere afterwards. *)
Lemma setActive_leaves_two_active :
  setActive "e" [mkEdge "e" "A" "B" None; mkEdge "e" "A2" "B" None]
  = [mkEdge "e" "A" "B" (Some true); mkEdge "e" "A2" "B" (Some true)] ∧
  activeCount "B" (setActive "e" [mkEdge "e" "A" "B" None; mkEdge "e" "A2" "B" None]) = 2 ∧
  NoDup (edge_id <$> copiedBranch) ∧
  activeCount "B" (setActive "reactflow__edge-C-D" copiedBranch) = 2 ∧
  ¬ branch_invariant (setActive "reactflow__edge-C-D" copiedBranch).
Proof.
  split_and!; [vm_compute; reflexivity|vm_compute; reflexivity|compute_done
              |vm_compute; reflexivity|].
  intros Hinv. specialize (Hinv "B"). vm_compute in Hinv. lia.
Qed.

(** C1 (amended).  With pairwise distinct edge ids, [setActive] on an edge of
    the sheet sets that edge's [active] to [true], sets [active] to [false]
    on every other edge with the same target and leaves everything else as
    it is.  The target of the edge then has exactly one edge with
    [active = true] and every other target as many as before; so the branch
    invariant (at most one edge with [active = true] per target), once it
    holds - as it does when no edge has been activated yet - holds after
    every sequence of [setActive] calls. *)
Theorem setActive_branch_invariant (edges : list edge) (e : edge) :
  NoDup (edge_id <$> edges) → e ∈ edges →
  length (setActive (edge_id e) edges) = length edges ∧
  (∀ k x, edges !! k = Some x →
     ∃ x', setActive (edge_id e) edges !! k = Some x' ∧
           edge_id x' = edge_id x ∧ source x' = source x ∧ target x' = target x ∧
           edge_color x' = edge_color x ∧
           active x' = if decide (x = e) then Some true
                       else if decide (target x = target e) then Some false
                       else active x) ∧
  activeCount (target e) (setActive (edge_id e) edges) = 1 ∧
  (∀ t, t ≠ target e →
        activeCount t (setActive (edge_id e) edges) = activeCount t edges) ∧
  (branch_invariant edges → branch_invariant (setActive (edge_id e) edges)) ∧
  (∀ calls, branch_invariant edges →
     branch_invariant (foldl (λ s edgeId, setActive edgeId s) edges calls)) ∧
  (∀ calls, (∀ x, x ∈ edges → active x ≠ Some true) →
     ∀ t, activeCount t (foldl (λ s edgeId, setActive edgeId s) edges calls) ≤ 1).
Proof.
  intros Hnd He. split_and!.
  - rewrite setActive_pointwise by done. apply length_fmap.
  - intros k x Hk. rewrite setActive_pointwise by done.
    exists (toggled e x). rewrite list_lookup_fmap, Hk. split; [done|].
    unfold toggled. cbn [edge_id source target edge_color active].
    split_and!; try done.
    destruct (decide (x = e)) as [->|Hne]; [by rewrite decide_True|].
    rewrite decide_False; [done|]. intros Hid. apply Hne.
    eapply NoDup_ids_inj; eauto. by apply list_elem_of_lookup_2 in Hk.
  - by apply setActive_count_target.
  - intros t Ht. by apply setActive_count_other.
  - intros Hinv. by apply setActive_preserves.
  - intros calls Hinv. by apply setActive_sequence_preserves.
  - intros calls Hfresh.
    apply setActive_sequence_preserves; [done|]. by apply fresh_edges_invariant.
Qed.

Lemma twoBranches_NoDup : NoDup (edge_id <$> twoBranches).
Proof. compute_done. Defined.

Lemma setActive_branch_invariant_witness :
  (NoDup (edge_id <$> twoBranches) ∧
   mkEdge "reactflow__edge-A2-B" "A2" "B" None ∈ twoBranches) ∧
  activeCount "B" (setActive "reactflow__edge-A2-B" twoBranches) = 1 ∧
  ∀ t, activeCount t
         (foldl (λ s edgeId, setActive edgeId s) twoBranches
            ["reactflow__edge-A2-B"; "reactflow__edge-A-B"; "nowhere"]) ≤ 1.
Proof.
  assert (H2 : mkEdge "reactflow__edge-A2-B" "A2" "B" None ∈ twoBranches)
    by (apply list_elem_of_further, list_elem_of_here).
  split; [split; [exact twoBranches_NoDup|exact H2]|].
  destruct (setActive_branch_invariant twoBranches
              (mkEdge "reactflow__edge-A2-B" "A2" "B" None) twoBranches_NoDup H2)
    as (_ & _ & Hone & _ & _ & _ & Hfresh).
  split; [exact Hone|]. apply Hfresh.
  assert (Forall (λ e, active e ≠ Some true) twoBranches) as Hall by compute_done.
  intros x Hx. by apply (proj1 (Forall_forall _ _) Hall).
Defined.

Example twoBranches_setActive :
  twoBranches = [mkEdge "reactflow__edge-A-B" "A" "B" None;
                 mkEdge "reactflow__edge-A2-B" "A2" "B" None] ∧
  setActive "reactflow__edge-A2-B" twoBranches
  = [mkEdge "reactflow__edge-A-B" "A" "B" (Some false);
     mkEdge "reactflow__edge-A2-B" "A2" "B" (Some true)].
Proof. split; vm_compute; reflexivity. Qed.

(** ** Lemmas on the template engine *)

Section Template.
Implicit Types (s t w r : string) (c : ascii).

Lemma append_cons c s t : String c s +:+ t = String c (s +:+ t).
Proof. reflexivity. Qed.

Lemma append_nil_l s : EmptyString +:+ s = s.
Proof. reflexivity. Qed.

Lemma append_nil_r s : s +:+ EmptyString = s.
Proof. induction s as [|c s IH]; [done|]. by rewrite append_cons, IH. Qed.

Lemma append_assoc s t r : (s +:+ t) +:+ r = s +:+ (t +:+ r).
Proof. induction s as [|c s IH]; [done|]. by rewrite !append_cons, IH. Qed.

Lemma length_append s t : String.length (s +:+ t) = String.length s + String.length t.
Proof. induction s as [|c s IH]; [done|]. rewrite append_cons. simpl. by rewrite IH. Qed.

Lemma spanWord_spec s w r :
  spanWord s = (w, r) → s = w +:+ r ∧ allWord w = true ∧ stopsWord r.
Proof.
  revert w r. induction s as [|c s IH]; intros w r; simpl.
  - intros [= <- <-]. done.
  - destruct (isWordChar c) eqn:Hc.
    + destruct (spanWord s) as [w' r'] eqn:Hs. intros [= <- <-].
      destruct (IH w' r' eq_refl) as (-> & Hw & Hr).
      rewrite append_cons. simpl. rewrite Hc. done.
    + intros [= <- <-]. simpl. done.
Qed.

Lemma spanWord_app w r :
  allWord w = true → stopsWord r → spanWord (w +:+ r) = (w, r).
Proof.
  intros Hw Hr. induction w as [|c w IH].
  - rewrite append_nil_l. destruct r as [|c r]; [done|].
    simpl in *. by rewrite Hr.
  - simpl in Hw. apply andb_true_iff in Hw as [Hc Hw].
    rewrite append_cons. simpl. rewrite Hc, (IH Hw). done.
Qed.

(** Appending text that does not start with a word character leaves the
    captured run as it is. *)
Lemma spanWord_app_stop s rest :
  stopsWord rest →
  spanWord (s +:+ rest) = (fst (spanWord s), snd (spanWord s) +:+ rest).
Proof.
  intros Hrest. induction s as [|c s IH].
  - rewrite append_nil_l. destruct rest as [|c rest]; [done|].
    simpl in *. by rewrite Hrest.
  - rewrite append_cons. simpl. destruct (isWordChar c); [|done].
    rewrite IH. by destruct (spanWord s).
Qed.

Lemma brace_open_not_word : isWordChar "{" = false.
Proof. reflexivity. Qed.

Lemma brace_close_not_word : isWordChar "}" = false.
Proof. reflexivity. Qed.

Lemma token_unfold name rest :
  token name +:+ rest = String "{" (String "{" (name +:+ String "}" (String "}" rest))).
Proof. unfold token. rewrite !append_cons, !append_nil_l, append_assoc. done. Qed.

Lemma matchPlaceholder_token name rest :
  isIdentifier name = true →
  matchPlaceholder (token name +:+ rest) = Some (name, rest).
Proof.
  intros Hid. rewrite token_unfold. unfold matchPlaceholder.
  rewrite spanWord_app; [|by destruct name|exact brace_close_not_word].
  destruct name as [|c w]; [done|]. done.
Qed.

Lemma matchPlaceholder_Some s key rest :
  matchPlaceholder s = Some (key, rest) →
  isIdentifier key = true ∧ s = token key +:+ rest.
Proof.
  unfold matchPlaceholder. destruct s as [|c1 [|c2 s1]]; [done..|].
  destruct (Ascii.eqb c1 "{") eqn:H1; [|done].
  destruct (Ascii.eqb c2 "{") eqn:H2; [|done]. simpl.
  apply Ascii.eqb_eq in H1 as ->. apply Ascii.eqb_eq in H2 as ->.
  destruct (spanWord s1) as [w r] eqn:Hs.
  apply spanWord_spec in Hs as (-> & Hw & _).
  destruct w as [|c w]; [done|]. destruct r as [|c3 [|c4 s3]]; [done..|].
  destruct (Ascii.eqb c3 "}") eqn:H3; [|done].
  destruct (Ascii.eqb c4 "}") eqn:H4; [|done]. simpl.
  apply Ascii.eqb_eq in H3 as ->. apply Ascii.eqb_eq in H4 as ->.
  intros [= <- <-]. split; [done|]. by rewrite token_unfold.
Qed.

End Template.

Example render_scene :
  render "{{time_of_day}} in {{location}}, the {mood} is {{mood}}{{}}"
         (<["location" := "Paris"]> (<["mood" := EmptyString]> ∅))
  = "time_of_day in Paris, the {mood} is mood{{}}".
Proof. vm_compute. reflexivity. Qed.

Example preview_scene :
  preview "{{a}} and {{b}} and {{a}}" (<["a" := "x$&y"]> ∅)
  = Returns "x{{a}}y and {{b}} and x{{a}}y".
Proof. vm_compute. reflexivity. Qed.

(** ** Rendering a template *)

Section Render.
Implicit Types (s t w r rest : string) (c : ascii) (f : string → string).

Lemma opensToken_stopsWord rest : opensToken rest → stopsWord rest.
Proof. intros [->|[r ->]]; [done|]. exact brace_open_not_word. Qed.

Lemma placeholderFree_tail c t : placeholderFree (String c t) → placeholderFree t.
Proof.
  intros Hfree pre name post Hid ->.
  apply (Hfree (String c pre) name post Hid). by rewrite append_cons.
Qed.

(** No match starts inside placeholder-free text, whatever token follows. *)
Lemma matchPlaceholder_text c t rest :
  placeholderFree (String c t) → opensToken rest →
  matchPlaceholder (String c t +:+ rest) = None.
Proof.
  intros Hfree Hrest. rewrite append_cons. unfold matchPlaceholder.
  destruct (t +:+ rest) as [|c2 s1] eqn:Hts; [done|].
  destruct (Ascii.eqb c "{") eqn:H1; [|done].
  destruct (Ascii.eqb c2 "{") eqn:H2; [|done]. simpl.
  apply Ascii.eqb_eq in H1 as ->. apply Ascii.eqb_eq in H2 as ->.
  destruct t as [|c2' t2].
  - (* the second brace already belongs to the following token *)
    rewrite append_nil_l in Hts. destruct Hrest as [->|[r ->]]; [done|].
    injection Hts as <-. simpl. done.
  - rewrite append_cons in Hts. injection Hts as -> <-.
    rewrite (spanWord_app_stop _ _ (opensToken_stopsWord _ Hrest)).
    destruct (spanWord t2) as [w r] eqn:Hs. simpl.
    apply spanWord_spec in Hs as (-> & Hw & _).
    destruct w as [|cw w]; [done|].
    destruct r as [|c3 [|c4 s3]].
    + rewrite append_nil_l. destruct Hrest as [->|[r ->]]; [done|]. done.
    + rewrite append_cons, append_nil_l.
      destruct Hrest as [->|[r ->]]; [done|].
      destruct (Ascii.eqb c3 "}"); done.
    + rewrite !append_cons.
      destruct (Ascii.eqb c3 "}") eqn:H3; [|done].
      destruct (Ascii.eqb c4 "}") eqn:H4; [|done]. simpl.
      apply Ascii.eqb_eq in H3 as ->. apply Ascii.eqb_eq in H4 as ->.
      exfalso. apply (Hfree EmptyString (String cw w) s3 Hw).
      by rewrite append_nil_l, token_unfold.
Qed.

Lemma replacePlaceholders_cons f c s :
  replacePlaceholders f 0 (String c s)
  = match matchPlaceholder (String c s) with
    | Some (key, _) => f key +:+ replacePlaceholders f (String.length key + 3) s
    | None => String c (replacePlaceholders f 0 s)
    end.
Proof. reflexivity. Qed.

(** Placeholder-free text is copied as it is. *)
Lemma replacePlaceholders_text f t rest :
  placeholderFree t → opensToken rest →
  replacePlaceholders f 0 (t +:+ rest) = t +:+ replacePlaceholders f 0 rest.
Proof.
  intros Hfree Hrest. induction t as [|c t IH]; [done|].
  pose proof (matchPlaceholder_text c t rest Hfree Hrest) as Hnone.
  rewrite append_cons in *. rewrite replacePlaceholders_cons, Hnone.
  rewrite IH by (by eapply placeholderFree_tail). done.
Qed.

Lemma replacePlaceholders_skip f s rest :
  replacePlaceholders f (String.length s) (s +:+ rest) = replacePlaceholders f 0 rest.
Proof.
  induction s as [|c s IH]; [by destruct rest|].
  rewrite append_cons. simpl. apply IH.
Qed.

(** A placeholder is replaced by what [f] makes of its name. *)
Lemma replacePlaceholders_token f name rest :
  isIdentifier name = true →
  replacePlaceholders f 0 (token name +:+ rest)
  = f name +:+ replacePlaceholders f 0 rest.
Proof.
  intros Hid. pose proof (matchPlaceholder_token name rest Hid) as Hm.
  rewrite token_unfold in *. rewrite replacePlaceholders_cons, Hm. f_equal.
  pose (X := String "{" (name +:+ String "}" (String "}" EmptyString))).
  assert (String "{" (name +:+ String "}" (String "}" rest)) = X +:+ rest) as ->.
  { unfold X. rewrite append_cons, append_assoc. done. }
  assert (String.length name + 3 = String.length X) as ->.
  { unfold X. simpl. rewrite length_append. simpl. lia. }
  exact (replacePlaceholders_skip f X rest).
Qed.

(** Rendering fills every placeholder of a template and copies the text
    between them. *)
Lemma render_templateOf values segs last :
  Forall (λ seg, placeholderFree seg.1 ∧ isIdentifier seg.2 = true) segs →
  placeholderFree last →
  render (templateOf segs last) values = filledOf values segs last.
Proof.
  intros Hsegs Hlast. unfold render.
  induction Hsegs as [|[t name] segs' [Ht Hname] _ IH]; simpl.
  - rewrite <- (append_nil_r last) at 1.
    rewrite replacePlaceholders_text; [|done|by left].
    simpl. by rewrite append_nil_r.
  - simpl in Ht, Hname.
    rewrite replacePlaceholders_text;
      [|done|right; rewrite token_unfold; eauto].
    rewrite replacePlaceholders_token by done. by rewrite IH.
Qed.

Lemma getMember_Some {A} (obj : gmap string A) key a :
  obj !! key = Some a → getMember obj key = Own a.
Proof. intros H. unfold getMember. by rewrite H. Qed.

Lemma getMember_plain {A} (obj : gmap string A) key :
  obj !! key = None → key ∉ protoNames → getMember obj key = Missing.
Proof. intros H Hk. unfold getMember. by rewrite H, decide_False. Qed.

Lemma getMember_inherited {A} (obj : gmap string A) key :
  obj !! key = None → key ∈ protoNames → getMember obj key = Inherited.
Proof. intros H Hk. unfold getMember. by rewrite H, decide_True. Qed.

Lemma valueOrKey_spec values key :
  (∀ v, values !! key = Some v → v ≠ EmptyString → valueOrKey values key = v) ∧
  (values !! key = Some EmptyString → valueOrKey values key = key) ∧
  (values !! key = None → key ∉ protoNames → valueOrKey values key = key) ∧
  (values !! key = None → key ∈ protoNames →
   valueOrKey values key = inheritedText key).
Proof.
  unfold valueOrKey. split_and!.
  - intros v Hv Hne. rewrite (getMember_Some _ _ _ Hv). by destruct v.
  - intros Hv. by rewrite (getMember_Some _ _ _ Hv).
  - intros Hv Hk. by rewrite getMember_plain.
  - intros Hv Hk. by rewrite getMember_inherited.
Qed.

End Render.

(** ** The preview of the template builder *)

Section Preview.
Implicit Types (s t tok value before after : string) (c : ascii).

Lemma getSubstitution_noDollar matched before after value :
  noDollar value = true → getSubstitution matched before after value = value.
Proof.
  induction value as [|c value IH]; [done|]. simpl.
  destruct (Ascii.eqb c "$") eqn:Hc; [done|]. simpl. intros Hv.
  assert (c ≠ "$"%char) as Hne by (by apply Ascii.eqb_neq).
  rewrite (IH Hv).
  destruct c as [[] [] [] [] [] [] [] []]; try done.
Qed.

Lemma allWord_noDollar s : allWord s = true → noDollar s = true.
Proof.
  induction s as [|c s IH]; [done|]. simpl.
  intros [Hc Hs]%andb_true_iff. rewrite (IH Hs), andb_true_r.
  destruct (Ascii.eqb c "$") eqn:Heq; [|done].
  apply Ascii.eqb_eq in Heq as ->. done.
Qed.

Lemma noDollar_app s t : noDollar (s +:+ t) = noDollar s && noDollar t.
Proof.
  induction s as [|c s IH]; [done|]. rewrite append_cons. simpl.
  by rewrite IH, andb_assoc.
Qed.

Lemma noDollar_token name : isIdentifier name = true → noDollar (token name) = true.
Proof.
  intros Hid. assert (allWord name = true) as Hw%allWord_noDollar by (by destruct name).
  unfold token. rewrite !noDollar_app, Hw. done.
Qed.

Lemma prefix_dropString tok s :
  String.prefix tok s = true → s = tok +:+ dropString (String.length tok) s.
Proof.
  revert s. induction tok as [|c tok IH]; intros s; [by destruct s|].
  destruct s as [|c' s]; [done|]. simpl.
  destruct (ascii_dec c c') as [->|]; [|done].
  intros Hp. by rewrite append_cons, <- IH.
Qed.

Lemma dropString_cons k c s : dropString (S k) (String c s) = dropString k s.
Proof. reflexivity. Qed.

Lemma replaceToken_cons tok value before c s :
  replaceToken tok value 0 before (String c s)
  = if String.prefix tok (String c s) && negb (String.eqb tok EmptyString) then
      getSubstitution tok before
        (String.substring (String.length tok) (String.length (String c s)) (String c s))
        value
      +:+ replaceToken tok value (String.length tok - 1)
            (before +:+ String c EmptyString) s
    else String c (replaceToken tok value 0 (before +:+ String c EmptyString) s).
Proof. reflexivity. Qed.

(** Replacing a token by itself changes nothing. *)
Lemma replaceToken_self tok skip before s :
  noDollar tok = true →
  replaceToken tok tok skip before s = dropString skip s.
Proof.
  intros Htok. revert skip before.
  induction s as [|c s IH]; intros skip before; [by destruct skip|].
  destruct skip as [|k]; [|simpl; apply IH].
  rewrite replaceToken_cons.
  destruct (String.prefix tok (String c s) && negb (String.eqb tok EmptyString))
    eqn:Hmatch; [|by rewrite IH].
  apply andb_true_iff in Hmatch as [Hp Hne].
  rewrite getSubstitution_noDollar by done. rewrite IH.
  pose proof (prefix_dropString _ _ Hp) as Heq.
  destruct tok as [|c0 tok]; [done|].
  change (String.length (String c0 tok) - 1) with (String.length tok - 0).
  rewrite Nat.sub_0_r. exact (eq_sym Heq).
Qed.

Lemma extractParams_from_cons params c s :
  extractParams_from 0 params (String c s)
  = match matchPlaceholder (String c s) with
    | Some (key, _) =>
        extractParams_from (String.length key + 3)
          (if decide (key ∈ params) then params else params ++ [key]) s
    | None => extractParams_from 0 params s
    end.
Proof. reflexivity. Qed.

Lemma extractParams_from_identifiers skip params s :
  Forall (λ p, isIdentifier p = true) params →
  Forall (λ p, isIdentifier p = true) (extractParams_from skip params s).
Proof.
  revert skip params. induction s as [|c s IH]; intros skip params Hps; [done|].
  destruct skip as [|k]; [|simpl; by apply IH].
  rewrite extractParams_from_cons.
  destruct (matchPlaceholder (String c s)) as [[key rest]|] eqn:Hm; [|by apply IH].
  apply IH. case_decide; [done|].
  apply Forall_app. split; [done|]. apply Forall_singleton.
  by apply matchPlaceholder_Some in Hm as [Hid _].
Qed.

(** Without default values the rounds leave the template as it is. *)
Lemma fillDefaults_no_defaults tpl : fillDefaults tpl ∅ = tpl.
Proof.
  unfold fillDefaults, extractParams.
  pose proof (extractParams_from_identifiers 0 [] tpl (Forall_nil_2 _)) as Hids.
  revert Hids. generalize (extractParams_from 0 [] tpl) as params.
  intros params. generalize tpl as result.
  induction params as [|p params IH]; intros result Hids; [done|].
  apply Forall_cons in Hids as [Hp Hids]. simpl.
  rewrite IH by done. unfold fillStep, defaultOrToken. rewrite lookup_empty.
  rewrite replaceToken_self by (by apply noDollar_token). done.
Qed.

(** A parameter with a default value of its own, or whose name no object
    inherits, is replaced by a string. *)
Lemma previewValue_plain (defaultValues : gmap string string) p :
  (p ∈ protoNames → is_Some (defaultValues !! p)) →
  previewValue defaultValues p = ReplaceBy (defaultOrToken defaultValues p).
Proof.
  intros Hp. unfold previewValue, defaultOrToken, getMember.
  destruct (defaultValues !! p) as [[|a v]|] eqn:E; [done..|].
  rewrite decide_False; [done|]. intros Hin. by destruct (Hp Hin).
Qed.

Lemma forEach_Returns {A B} (body : A → B → outcome A) (f : A → B → A) (l : list B) a :
  (∀ a x, x ∈ l → body a x = Returns (f a x)) →
  forEach body l a = Returns (foldl f a l).
Proof.
  revert a. induction l as [|x l IH]; intros a Hbody; [done|].
  cbn [forEach foldl]. rewrite Hbody by apply list_elem_of_here.
  apply IH. intros a' y Hy. apply Hbody. by apply list_elem_of_further.
Qed.

Lemma preview_fillDefaults tpl (defaultValues : gmap string string) :
  (∀ p, p ∈ extractParams tpl → p ∈ protoNames → is_Some (defaultValues !! p)) →
  preview tpl defaultValues = Returns (fillDefaults tpl defaultValues).
Proof.
  intros Hp. unfold preview, fillDefaults. apply forEach_Returns.
  intros result p Hin. unfold previewStep, fillStep.
  rewrite previewValue_plain by (by apply Hp). done.
Qed.

End Preview.

(** ** Every template is text and placeholders *)

Section Cut.
Implicit Types (s t text pre suf : string) (c : ascii).

Lemma append_nil_inv s t : s +:+ t = EmptyString → s = EmptyString ∧ t = EmptyString.
Proof. destruct s; [done|]. by rewrite append_cons. Qed.

Lemma append_snoc_inv pre suf text c :
  text +:+ String c EmptyString = pre +:+ suf → suf ≠ EmptyString →
  ∃ suf0, suf = suf0 +:+ String c EmptyString ∧ text = pre +:+ suf0.
Proof.
  revert text. induction pre as [|a pre IH]; intros text Heq Hne.
  - rewrite append_nil_l in Heq. subst suf. by exists text.
  - destruct text as [|b text].
    + rewrite append_nil_l, append_cons in Heq. injection Heq as -> Heq.
      symmetry in Heq. apply append_nil_inv in Heq as [_ ->]. done.
    + rewrite !append_cons in Heq. injection Heq as -> Heq.
      destruct (IH text Heq Hne) as (suf0 & -> & ->).
      exists suf0. by rewrite append_cons.
Qed.

Lemma freeBefore_nil s : freeBefore EmptyString s.
Proof.
  intros pre suf Heq Hne. symmetry in Heq.
  by apply append_nil_inv in Heq as [_ ->].
Qed.

Lemma freeBefore_snoc text c s :
  freeBefore text (String c s) → matchPlaceholder (String c s) = None →
  freeBefore (text +:+ String c EmptyString) s.
Proof.
  intros Hfree Hnone pre suf Heq Hne.
  destruct (append_snoc_inv pre suf text c Heq Hne) as (suf0 & -> & ->).
  rewrite append_assoc, append_cons, append_nil_l.
  destruct suf0 as [|a suf0]; [by rewrite append_nil_l|].
  by apply (Hfree pre (String a suf0)).
Qed.

Lemma freeBefore_placeholderFree text s : freeBefore text s → placeholderFree text.
Proof.
  intros Hfree pre name post Hid ->.
  specialize (Hfree pre (token name +:+ post) eq_refl).
  rewrite append_assoc, matchPlaceholder_token in Hfree by done.
  rewrite token_unfold in Hfree. by specialize (Hfree ltac:(done)).
Qed.

Lemma dropString_token_tail name rest :
  dropString (String.length name + 3)
    (String "{" (name +:+ String "}" (String "}" rest))) = rest.
Proof.
  replace (String.length name + 3) with (S (String.length name + 2)) by lia.
  rewrite dropString_cons.
  induction name as [|a name IH]; [done|].
  rewrite append_cons. simpl String.length.
  replace (S (String.length name) + 2) with (S (String.length name + 2)) by lia.
  by rewrite dropString_cons.
Qed.

Lemma cutTemplate_cons text c s :
  cutTemplate 0 text (String c s)
  = match matchPlaceholder (String c s) with
    | Some (key, _) =>
        let '(segs, last) := cutTemplate (String.length key + 3) EmptyString s in
        ((text, key) :: segs, last)
    | None => cutTemplate 0 (text +:+ String c EmptyString) s
    end.
Proof. reflexivity. Qed.

Lemma cutTemplate_spec s skip text :
  skip = 0 ∨ text = EmptyString →
  freeBefore text (dropString skip s) →
  templateOf (cutTemplate skip text s).1 (cutTemplate skip text s).2
  = text +:+ dropString skip s ∧
  Forall (λ seg, placeholderFree seg.1 ∧ isIdentifier seg.2 = true)
         (cutTemplate skip text s).1 ∧
  placeholderFree (cutTemplate skip text s).2.
Proof.
  revert skip text. induction s as [|c s IH]; intros skip text Hskip Hfree.
  - assert (dropString skip EmptyString = EmptyString) as Hdrop by (by destruct skip).
    rewrite Hdrop in *. simpl. split_and!; [by rewrite append_nil_r|done|].
    by eapply freeBefore_placeholderFree.
  - destruct skip as [|k].
    + change (dropString 0 (String c s)) with (String c s) in *.
      rewrite cutTemplate_cons.
      destruct (matchPlaceholder (String c s)) as [[key rest]|] eqn:Hm.
      * apply matchPlaceholder_Some in Hm as [Hid Hs].
        rewrite token_unfold in Hs. injection Hs as -> ->.
        destruct (IH (String.length key + 3) EmptyString) as (Htpl & Hsegs & Hlast).
        { by right. }
        { apply freeBefore_nil. }
        destruct (cutTemplate (String.length key + 3) EmptyString _) as [segs last].
        simpl in *. rewrite dropString_token_tail, append_nil_l in Htpl.
        split_and!; [|constructor|done].
        -- by rewrite Htpl, token_unfold.
        -- split; [|done]. by eapply freeBefore_placeholderFree.
        -- done.
      * destruct (IH 0 (text +:+ String c EmptyString)) as (Htpl & Hsegs & Hlast).
        { by left. }
        { by apply freeBefore_snoc. }
        split_and!; [|done..].
        rewrite Htpl. change (dropString 0 s) with s.
        by rewrite append_assoc, append_cons, append_nil_l.
    + destruct Hskip as [?| ->]; [done|].
      change (cutTemplate (S k) EmptyString (String c s)) with (cutTemplate k EmptyString s).
      rewrite dropString_cons in *. apply IH; [by right|done].
Qed.

(** Every template is a sequence of placeholder-free texts and placeholders. *)
Lemma template_decomposes (tpl : string) :
  ∃ segs last,
    tpl = templateOf segs last ∧
    Forall (λ seg, placeholderFree seg.1 ∧ isIdentifier seg.2 = true) segs ∧
    placeholderFree last.
Proof.
  destruct (cutTemplate_spec tpl 0 EmptyString) as (Htpl & Hsegs & Hlast).
  { by left. }
  { apply freeBefore_nil. }
  exists (cutTemplate 0 EmptyString tpl).1, (cutTemplate 0 EmptyString tpl).2.
  split_and!; [|done..]. rewrite Htpl. by destruct tpl.
Qed.

End Cut.

(** The preview of the template builder keeps the token of a parameter
    without value, where the specification wants the bare name. *)
Lemma preview_keeps_token :
  preview "Hi {{name}}" ∅ = Returns "Hi {{name}}" ∧
  preview "Hi {{name}}" ∅ ≠ Returns "Hi name" ∧
  preview "Hi {{name}}" (<["name" := EmptyString]> ∅) = Returns "Hi {{name}}".
Proof. split_and!; [vm_compute; reflexivity|vm_compute; discriminate|vm_compute; reflexivity]. Qed.

(** C5 (amended).  In the path text ([copyAllConnected], [copyPathFromNode]) a
    template node is rendered by replacing every placeholder with its value
    when that is a non-empty string and with the bare name when the value is
    the empty string or missing - the name being none of those every object
    inherits from [Object.prototype] -, the text between placeholders being
    copied; and every template is such a sequence of texts and placeholders.
    The preview of the template builder instead keeps the token of a
    parameter that has no value. *)
Theorem render_fills_placeholders (values : gmap string string)
    (segs : list (string * string)) (last : string) :
  Forall (λ seg, placeholderFree seg.1 ∧ isIdentifier seg.2 = true) segs →
  placeholderFree last →
  render (templateOf segs last) values = filledOf values segs last ∧
  (∀ name v, values !! name = Some v → v ≠ EmptyString → valueOrKey values name = v) ∧
  (∀ name, values !! name = Some EmptyString → valueOrKey values name = name) ∧
  (∀ name, values !! name = None → name ∉ protoNames →
           valueOrKey values name = name) ∧
  (∀ i, nodeText (templateNode i (templateOf segs last) values)
        = filledOf values segs last) ∧
  render "Hi {{name}}" ∅ = "Hi name" ∧
  render "Hi {{name}}" (<["name" := "Ada"]> ∅) = "Hi Ada" ∧
  (∀ tpl, ∃ segs' last',
     tpl = templateOf segs' last' ∧
     Forall (λ seg, placeholderFree seg.1 ∧ isIdentifier seg.2 = true) segs' ∧
     placeholderFree last') ∧
  (∀ tpl, (∀ p, p ∈ extractParams tpl → p ∉ protoNames) →
          preview tpl ∅ = Returns tpl) ∧
  preview "Hi {{name}}" (<["name" := "Ada"]> ∅) = Returns "Hi Ada".
Proof.
  intros Hsegs Hlast.
  pose proof (render_templateOf values segs last Hsegs Hlast) as Hrender.
  split_and!.
  - done.
  - intros name. apply (proj1 (valueOrKey_spec values name)).
  - intros name. apply (proj1 (proj2 (valueOrKey_spec values name))).
  - intros name. apply (proj1 (proj2 (proj2 (valueOrKey_spec values name)))).
  - intros i. unfold nodeText. simpl. done.
  - vm_compute. reflexivity.
  - vm_compute. reflexivity.
  - apply template_decomposes.
  - intros tpl Hplain. rewrite preview_fillDefaults.
    + by rewrite fillDefaults_no_defaults.
    + intros p Hp Hin. by destruct (Hplain p Hp).
  - vm_compute. reflexivity.
Qed.

Lemma scanFree_cons (c : ascii) (t : string) :
  scanFree (String c t)
  = match matchPlaceholder (String c t) with
    | Some _ => false
    | None => scanFree t
    end.
Proof. reflexivity. Qed.

Lemma scanFree_placeholderFree (t : string) : scanFree t = true → placeholderFree t.
Proof.
  intros Hscan pre. revert t Hscan.
  induction pre as [|c pre IH]; intros t Hscan name post Hid ->.
  - rewrite append_nil_l in Hscan.
    pose proof (matchPlaceholder_token name post Hid) as Hm.
    rewrite token_unfold in *. rewrite scanFree_cons, Hm in Hscan. done.
  - rewrite append_cons, scanFree_cons in Hscan.
    destruct (matchPlaceholder _); [done|].
    by eapply (IH _ Hscan name post Hid).
Qed.

Lemma render_fills_placeholders_witness :
  render (templateOf [("Hi ", "name"); (" and ", "other_1")] "!")
         (<["name" := "Ada"]> ∅)
  = "Hi Ada and other_1!".
Proof.
  refine (proj1 (render_fills_placeholders (<["name" := "Ada"]> ∅)
                   [("Hi ", "name"); (" and ", "other_1")] "!" _ _)).
  - repeat constructor; by apply scanFree_placeholderFree.
  - by apply scanFree_placeholderFree.
Defined.

(** ** Lemmas on the traversal *)

Section Traversal.
Implicit Types (e : edge) (es : list edge) (n : node) (nodes : list node).
Implicit Types (st : bfsState).

Lemma adjacency_foldl es (adj : gmap string (list string)) (s : string) :
  default [] (foldl pushTarget adj es !! s)
  = default [] (adj !! s) ++ (target <$> filter (λ e, source e = s) es).
Proof.
  revert adj. induction es as [|e es IH]; intros adj; simpl.
  - by rewrite app_nil_r.
  - rewrite IH. unfold pushTarget at 1. rewrite filter_cons.
    destruct (decide (source e = s)) as [->|Hne].
    + rewrite lookup_insert_eq. simpl. by rewrite <- app_assoc.
    + by rewrite lookup_insert_ne.
Qed.

(** The adjacency list of [s]: the targets of its edges, in edge order. *)
Lemma adjacencyOf_lookup es (s : string) :
  default [] (adjacencyOf es !! s) = target <$> filter (λ e, source e = s) es.
Proof. unfold adjacencyOf. by rewrite adjacency_foldl, lookup_empty. Qed.

Lemma pending_visit es (visited : gset string) (s : string) :
  s ∉ visited →
  pending es (visited ∪ {[s]}) + length (filter (λ e, source e = s) es)
  = pending es visited.
Proof.
  intros Hs. unfold pending. induction es as [|e es IH]; [done|].
  rewrite !filter_cons.
  destruct (decide (source e = s)) as [Heq|Hne].
  - rewrite decide_False by set_solver. rewrite decide_True by set_solver.
    cbn [length]. lia.
  - destruct (decide (source e ∈ visited)) as [Hin|Hnin].
    + rewrite decide_False by set_solver.
      rewrite (decide_False (P := source e ∉ visited)) by set_solver. done.
    + rewrite decide_True by set_solver.
      rewrite (decide_True (P := source e ∉ visited)) by set_solver.
      cbn [length]. lia.
Qed.

(** The loop ends within [length queue + pending] iterations. *)
Lemma walkLoop_terminates nodes es fuel st :
  length (queue st) + pending es (visited st) ≤ fuel →
  is_Some (walkLoop fuel nodes (adjacencyOf es) st).
Proof.
  revert st. induction fuel as [|fuel IH]; intros [vis ord q] Hfuel; simpl in *.
  - destruct q; simpl in *; [eauto | lia].
  - destruct q as [|nodeId rest]; [eauto|]. simpl in Hfuel.
    apply IH. unfold walkStep. simpl. case_decide as Hvis; simpl; [lia|].
    rewrite length_app.
    pose proof (pending_visit es vis nodeId Hvis) as Hp.
    pose proof (length_filter (λ targetId, targetId ∉ vis ∪ {[nodeId]})
                  (default [] (adjacencyOf es !! nodeId))) as Hf.
    rewrite adjacencyOf_lookup, length_fmap in Hf.
    rewrite adjacencyOf_lookup. lia.
Qed.

(** More fuel does not change a result. *)
Lemma walkLoop_more_fuel nodes adj fuel fuel' st res :
  walkLoop fuel nodes adj st = Some res →
  fuel ≤ fuel' →
  walkLoop fuel' nodes adj st = Some res.
Proof.
  revert fuel' st.
  induction fuel as [|fuel IH]; intros fuel' st Hres Hle.
  - simpl in Hres. destruct (queue st) eqn:Hq; [|done].
    destruct fuel'; simpl; by rewrite Hq.
  - destruct fuel' as [|fuel']; [lia|]. simpl in *.
    destruct (queue st) as [|nodeId rest]; [done|].
    apply IH; [done|lia].
Qed.

Lemma findNode_Some nodeId nodes n :
  findNode nodeId nodes = Some n → n ∈ nodes ∧ node_id n = nodeId.
Proof.
  unfold findNode. intros H. apply find_some in H as [Hin Heq].
  apply list_elem_of_In in Hin. apply String.eqb_eq in Heq. done.
Qed.

Lemma findNode_None nodeId nodes :
  findNode nodeId nodes = None → ∀ n, n ∈ nodes → node_id n ≠ nodeId.
Proof.
  unfold findNode. intros H n Hin Heq. apply list_elem_of_In in Hin.
  pose proof (find_none _ _ H n Hin) as Hne. simpl in Hne.
  apply String.eqb_neq in Hne. done.
Qed.

(** An iteration never enqueues a visited id. *)
Lemma walkStep_enqueues_unvisited nodes adj st nodeId rest :
  ∃ pushed, queue (walkStep nodes adj st nodeId rest) = rest ++ pushed ∧
    ∀ targetId, targetId ∈ pushed →
      targetId ∉ visited (walkStep nodes adj st nodeId rest).
Proof.
  unfold walkStep. case_decide; simpl.
  - exists []. split; [by rewrite app_nil_r|]. by intros ? ?%elem_of_nil.
  - eexists. split; [done|]. by intros t [Ht _]%list_elem_of_filter.
Qed.

Lemma walkStep_ordered_ok nodes adj st nodeId rest :
  ordered_ok nodes (visited st) (orderedNodes st) →
  visited st ⊆ visited (walkStep nodes adj st nodeId rest) ∧
  ordered_ok nodes (visited (walkStep nodes adj st nodeId rest))
             (orderedNodes (walkStep nodes adj st nodeId rest)).
Proof.
  intros [Hnd Hall]. unfold walkStep. case_decide as Hvis; simpl; [done|].
  split; [set_solver|].
  destruct (findNode nodeId nodes) as [n|] eqn:Hfind;
    [apply findNode_Some in Hfind as [Hin Hid]; case_decide|].
  - split; [done|]. intros n' Hn'. destruct (Hall n' Hn') as (?&?&?).
    split; [set_solver|done].
  - split.
    + rewrite fmap_app. apply NoDup_app. split_and!; [done| |].
      * intros i Hi ->%list_elem_of_singleton.
        apply list_elem_of_fmap in Hi as (n' & Heq & Hn').
        destruct (Hall n' Hn') as (?&?&?). congruence.
      * apply NoDup_singleton.
    + intros n' [Hn'| ->%list_elem_of_singleton]%elem_of_app.
      * destruct (Hall n' Hn') as (?&?&?). split; [set_solver|done].
      * split; [set_solver|done].
  - split; [done|]. intros n' Hn'. destruct (Hall n' Hn') as (?&?&?).
    split; [set_solver|done].
Qed.

Lemma walkLoop_ordered_ok nodes adj fuel st res :
  walkLoop fuel nodes adj st = Some res →
  ordered_ok nodes (visited st) (orderedNodes st) →
  ∃ visited', visited st ⊆ visited' ∧ ordered_ok nodes visited' res.
Proof.
  revert st. induction fuel as [|fuel IH]; intros st Hres Hok; simpl in Hres.
  - destruct (queue st); [|done]. injection Hres as <-. eauto.
  - destruct (queue st) as [|nodeId rest]. { injection Hres as <-. eauto. }
    destruct (walkStep_ordered_ok nodes adj st nodeId rest Hok) as [Hsub Hok'].
    destruct (IH _ Hres Hok') as (visited' & Hsub' & Hres').
    exists visited'. split; [set_solver|done].
Qed.

Lemma ordered_ok_start nodes : ordered_ok nodes ∅ [].
Proof. split; [constructor|]. by intros n ?%elem_of_nil. Qed.

End Traversal.

(** *** The traversal collects what can be reached *)

Section Reach.
Variables (nodes : list node) (es : list edge) (seeds : list string).
Implicit Types (st : bfsState) (n : node) (e : edge).

Lemma bfsOK_start : bfsOK nodes es seeds (bfsStart seeds).
Proof.
  split_and!; simpl.
  - intros i [?|?]; [set_solver|by apply reach_seed].
  - set_solver.
  - by right.
  - intros n. split; [by intros ?%elem_of_nil|set_solver].
Qed.

Lemma walkStep_OK st (nodeId : string) (rest : list string) :
  queue st = nodeId :: rest → bfsOK nodes es seeds st →
  bfsOK nodes es seeds (walkStep nodes (adjacencyOf es) st nodeId rest).
Proof.
  intros Hq (Hreach & Hclosed & Hseeds & Hord). rewrite Hq in *.
  unfold walkStep. case_decide as Hvis.
  - split_and!; simpl.
    + intros i [?|?]; apply Hreach; [by left|right; by apply list_elem_of_further].
    + intros e He Hs. destruct (Hclosed e He Hs) as [?|[->|?]%elem_of_cons]; auto.
    + intros i Hi. destruct (Hseeds i Hi) as [?|[->|?]%elem_of_cons]; auto.
    + done.
  - assert (reach es seeds nodeId) as Hnode
      by (apply Hreach; right; apply list_elem_of_here).
    split_and!; simpl.
    + intros i [[?| ->%elem_of_singleton]%elem_of_union|[?|Hpush]%elem_of_app].
      * apply Hreach. by left.
      * done.
      * apply Hreach. right. by apply list_elem_of_further.
      * apply list_elem_of_filter in Hpush as [_ Hpush].
        rewrite adjacencyOf_lookup in Hpush.
        apply list_elem_of_fmap in Hpush as (e & -> & [Hsrc He]%list_elem_of_filter).
        apply reach_step; [done|]. by rewrite Hsrc.
    + intros e He [Hs|Hsrc%elem_of_singleton]%elem_of_union.
      * destruct (Hclosed e He Hs) as [?|[Heq|?]%elem_of_cons].
        -- left. set_solver.
        -- left. set_solver.
        -- right. apply elem_of_app. by left.
      * destruct (decide (target e ∈ visited st ∪ {[nodeId]})) as [?|Hnot]; [by left|].
        right. apply elem_of_app. right. apply list_elem_of_filter. split; [done|].
        rewrite adjacencyOf_lookup. apply list_elem_of_fmap_2, list_elem_of_filter. done.
    + intros i Hi. destruct (Hseeds i Hi) as [?|[Heq|?]%elem_of_cons].
      * left. set_solver.
      * left. set_solver.
      * right. apply elem_of_app. by left.
    + intros n. rewrite elem_of_union, elem_of_singleton.
      destruct (findNode nodeId nodes) as [n0|] eqn:Hfind.
      * pose proof (findNode_Some _ _ _ Hfind) as [_ Hid0].
        case_decide as Hgroup.
        -- rewrite Hord. split; [naive_solver|].
           intros ([?|Hid] & Hf & Hty); [done|].
           rewrite Hid, Hfind in Hf. injection Hf as ->. done.
        -- rewrite elem_of_app, list_elem_of_singleton, Hord. split.
           ++ intros [(?&?&?)| ->]; [naive_solver|]. rewrite Hid0. naive_solver.
           ++ intros ([?|Hid] & Hf & Hty); [left; done|].
              right. rewrite Hid, Hfind in Hf. by injection Hf.
      * rewrite Hord. split; [naive_solver|].
        intros ([?|Hid] & Hf & Hty); [done|].
        rewrite Hid, Hfind in Hf. done.
Qed.

Lemma walkLoop_reach fuel st (res : list node) :
  walkLoop fuel nodes (adjacencyOf es) st = Some res →
  bfsOK nodes es seeds st →
  ∀ n, n ∈ res ↔
       reach es seeds (node_id n) ∧ findNode (node_id n) nodes = Some n ∧
       node_type n ≠ Group.
Proof.
  revert st. induction fuel as [|fuel IH]; intros st Hres Hok; simpl in Hres.
  - destruct (queue st) eqn:Hq; [|done]. injection Hres as <-.
    destruct Hok as (Hreach & Hclosed & Hseeds & Hord). rewrite Hq in *.
    intros n. rewrite Hord.
    assert (∀ i, reach es seeds i → i ∈ visited st) as Hall.
    { intros i Hi. induction Hi as [i Hi|e He _ IHs].
      - destruct (Hseeds i Hi) as [?|?%elem_of_nil]; done.
      - destruct (Hclosed e He IHs) as [?|?%elem_of_nil]; done. }
    split; intros (Hv & ? & ?); (split; [|done]); [apply Hreach; by left|by apply Hall].
  - destruct (queue st) as [|nodeId rest] eqn:Hq.
    + injection Hres as <-.
      destruct Hok as (Hreach & Hclosed & Hseeds & Hord). rewrite Hq in *.
      intros n. rewrite Hord.
      assert (∀ i, reach es seeds i → i ∈ visited st) as Hall.
      { intros i Hi. induction Hi as [i Hi|e He _ IHs].
        - destruct (Hseeds i Hi) as [?|?%elem_of_nil]; done.
        - destruct (Hclosed e He IHs) as [?|?%elem_of_nil]; done. }
      split; intros (Hv & ? & ?); (split; [|done]); [apply Hreach; by left|by apply Hall].
    + eapply IH; [exact Hres|]. by apply walkStep_OK.
Qed.

End Reach.

Example hello_world_fuel3 :
  copyAllConnected 3 helloNodes helloEdges
  = Some (Returns (Written ("Hello" +:+ blankLine +:+ "World"))).
Proof. vm_compute. reflexivity. Qed.

(** ** The path text *)

Section PathText.
Implicit Types (e : edge) (edges : list edge) (n : node) (nodes : list node).

Lemma activeEdges_spec edges e :
  e ∈ activeEdges edges ↔ e ∈ edges ∧ active e ≠ Some false.
Proof. unfold activeEdges. rewrite list_elem_of_filter. tauto. Qed.

Lemma pathRoots_spec nodes edges n :
  n ∈ pathRoots nodes edges ↔
  n ∈ nodes ∧ node_type n ≠ Group ∧
  (∃ e, e ∈ edges ∧ active e ≠ Some false ∧ source e = node_id n) ∧
  ¬ (∃ e, e ∈ edges ∧ active e ≠ Some false ∧ target e = node_id n).
Proof.
  unfold pathRoots. rewrite list_elem_of_filter.
  rewrite !elem_of_list_to_set, !list_elem_of_fmap.
  setoid_rewrite activeEdges_spec. naive_solver.
Qed.

Lemma pathRoots_sublist nodes edges : pathRoots nodes edges `sublist_of` nodes.
Proof. apply sublist_filter. Qed.

Lemma pathRoots_no_active nodes edges :
  activeEdges edges = [] → pathRoots nodes edges = [].
Proof.
  intros Hnone. unfold pathRoots. rewrite Hnone. simpl.
  induction nodes as [|n nodes IH]; [done|].
  rewrite filter_cons, decide_False by set_solver. done.
Qed.

Lemma pending_empty edges : pending edges ∅ = length edges.
Proof.
  unfold pending. induction edges as [|e edges IH]; [done|].
  rewrite filter_cons, decide_True by set_solver. simpl. by rewrite IH.
Qed.

(** The loop started on any queue ends, its result has no repeated id and
    holds the nodes of the ids that can be reached from the queue. *)
Lemma bfs_from_queue nodes edges (q : list string) :
  ∃ ordered,
    (∀ extra, walkLoop (pathFuel edges q + extra) nodes
                (adjacencyOf (activeEdges edges)) (bfsStart q) = Some ordered) ∧
    NoDup (node_id <$> ordered) ∧
    (∀ n, n ∈ ordered ↔
          reach (activeEdges edges) q (node_id n) ∧
          findNode (node_id n) nodes = Some n ∧ node_type n ≠ Group).
Proof.
  destruct (walkLoop_terminates nodes (activeEdges edges) (pathFuel edges q) (bfsStart q))
    as [ordered Hrun].
  { simpl. rewrite pending_empty. unfold pathFuel. lia. }
  exists ordered. split_and!.
  - intros extra. eapply walkLoop_more_fuel; [done|lia].
  - by destruct (walkLoop_ordered_ok _ _ _ _ _ Hrun (ordered_ok_start nodes))
      as (vis & _ & Hnd & _).
  - eapply walkLoop_reach; [exact Hrun|]. apply bfsOK_start.
Qed.

Lemma trimEnd_hasInk s : trimEnd s ≠ EmptyString ↔ hasInk s = true.
Proof.
  induction s as [|c s IH]; simpl; [done|].
  destruct (trimEnd s) eqn:Ht.
  - destruct (isWhiteSpace c); simpl.
    + rewrite <- IH. done.
    + done.
  - assert (hasInk s = true) as -> by (by apply IH).
    rewrite orb_true_r. done.
Qed.

Lemma trimStart_hasInk s : hasInk (trimStart s) = hasInk s.
Proof.
  induction s as [|c s IH]; simpl; [done|].
  destruct (isWhiteSpace c) eqn:Hc; simpl; [done|]. by rewrite Hc.
Qed.

(** [content.trim()] is truthy exactly when [content] is not blank. *)
Lemma trim_hasInk s : trim s ≠ EmptyString ↔ hasInk s = true.
Proof. unfold trim. by rewrite trimEnd_hasInk, trimStart_hasInk. Qed.

End PathText.

(** ** The roots come first *)

Section RootsFirst.

Lemma walkStep_prefix nodes adj st nodeId rest :
  orderedNodes st `prefix_of` orderedNodes (walkStep nodes adj st nodeId rest).
Proof.
  unfold walkStep. case_decide; [done|]. cbn [orderedNodes].
  destruct (findNode nodeId nodes) as [n|]; [|done].
  case_decide; [done|]. by apply prefix_app_r.
Qed.

Lemma walkLoop_prefix fuel nodes adj st res :
  walkLoop fuel nodes adj st = Some res → orderedNodes st `prefix_of` res.
Proof.
  revert st. induction fuel as [|fuel IH]; intros st; simpl.
  - destruct (queue st); [|done]. by intros [= <-].
  - destruct (queue st) as [|nodeId rest]; [by intros [= <-]|].
    intros Hres. etrans; [apply walkStep_prefix|]. by apply IH in Hres.
Qed.


Lemma findNode_NoDup (nodes : list node) n :
  NoDup (node_id <$> nodes) → n ∈ nodes → findNode (node_id n) nodes = Some n.
Proof.
  intros Hnd Hn. destruct (findNode (node_id n) nodes) as [m|] eqn:E.
  - apply findNode_Some in E as [Hm Hid]. f_equal.
    apply list_elem_of_lookup in Hm as [i Hi]. apply list_elem_of_lookup in Hn as [j Hj].
    assert (i = j) as ->; [|congruence].
    eapply NoDup_lookup; [exact Hnd| |]; rewrite list_lookup_fmap.
    + by rewrite Hi.
    + rewrite Hj. simpl. by rewrite Hid.
  - by destruct (findNode_None _ _ E n Hn).
Qed.

Lemma bfs_queue_first nodes adj (q1 : list string) fuel st rest res :
  queue st = q1 ++ rest → NoDup q1 → (∀ i, i ∈ q1 → i ∉ visited st) →
  walkLoop fuel nodes adj st = Some res →
  (orderedNodes st ++ omap (visitedNode nodes) q1) `prefix_of` res.
Proof.
  revert fuel st rest. induction q1 as [|i q1 IH]; intros fuel st rest Hq Hnd Hfresh Hrun.
  - cbn [omap list_omap]. rewrite app_nil_r. by eapply walkLoop_prefix.
  - destruct fuel as [|fuel]; cbn [walkLoop] in Hrun; rewrite Hq in Hrun; [done|].
    cbn [app] in Hrun. apply NoDup_cons in Hnd as [Hi Hnd].
    assert (Hvis : i ∉ visited st) by (apply Hfresh, list_elem_of_here).
    assert (Hstep : ∃ pushed,
              walkStep nodes adj st i (q1 ++ rest)
              = {| visited := visited st ∪ {[i]};
                   orderedNodes := orderedNodes st ++ option_list (visitedNode nodes i);
                   queue := q1 ++ (rest ++ pushed) |}).
    { unfold walkStep. rewrite decide_False by done. eexists.
      rewrite <- app_assoc. f_equal. unfold visitedNode.
      destruct (findNode i nodes) as [n|]; [|by rewrite app_nil_r].
      case_decide; [by rewrite app_nil_r|done]. }
    destruct Hstep as [pushed Hstep]. rewrite Hstep in Hrun.
    eapply IH in Hrun; [|reflexivity|done|].
    + cbn [orderedNodes] in Hrun. rewrite <- app_assoc in Hrun.
      cbn [omap list_omap]. by destruct (visitedNode nodes i).
    + cbn [visited]. intros j Hj.
      assert (j ∉ visited st) by (apply Hfresh; by apply list_elem_of_further).
      assert (j ≠ i) by (by intros ->). set_solver.
Qed.

Lemma visited_roots nodes edges :
  NoDup (node_id <$> nodes) →
  omap (visitedNode nodes) (node_id <$> pathRoots nodes edges) = pathRoots nodes edges.
Proof.
  intros Hnd.
  assert (Hall : ∀ r, r ∈ pathRoots nodes edges → visitedNode nodes (node_id r) = Some r).
  { intros r Hr. apply pathRoots_spec in Hr as (Hin & Hty & _).
    unfold visitedNode. rewrite findNode_NoDup by done. by rewrite decide_False. }
  induction (pathRoots nodes edges) as [|r l IH]; [done|].
  rewrite fmap_cons. cbn [omap list_omap].
  rewrite Hall by apply list_elem_of_here. f_equal.
  apply IH. intros r' Hr'. apply Hall. by apply list_elem_of_further.
Qed.

Lemma walk_roots_first nodes edges fuel ordered :
  NoDup (node_id <$> nodes) →
  walkLoop fuel nodes (adjacencyOf (activeEdges edges))
    (bfsStart (node_id <$> pathRoots nodes edges)) = Some ordered →
  pathRoots nodes edges `prefix_of` ordered.
Proof.
  intros Hnd Hrun. rewrite <- (visited_roots nodes edges Hnd).
  apply (bfs_queue_first nodes (adjacencyOf (activeEdges edges))
           (node_id <$> pathRoots nodes edges) fuel
           (bfsStart (node_id <$> pathRoots nodes edges)) []).
  - cbn [bfsStart queue]. by rewrite app_nil_r.
  - eapply sublist_NoDup; [exact Hnd|]. apply fmap_sublist, pathRoots_sublist.
  - intros i _. cbn [bfsStart visited]. set_solver.
  - exact Hrun.
Qed.

End RootsFirst.

(** ** The traversal of the code and the walk without inherited names *)

Section Faithful.
Implicit Types (e : edge) (es : list edge) (n : node) (nodes : list node).
Implicit Types (st : bfsState) (adj : gmap string (list string)).

Lemma arrayAt_own adj key l : adj !! key = Some l → arrayAt adj key = Returns l.
Proof. intros H. unfold arrayAt. by rewrite (getMember_Some _ _ _ H). Qed.

Lemma arrayAt_plain adj key :
  key ∉ protoNames → arrayAt adj key = Returns (default [] (adj !! key)).
Proof.
  intros Hk. unfold arrayAt, getMember. destruct (adj !! key); [done|].
  by rewrite decide_False.
Qed.

Lemma arrayAt_inherited adj key :
  adj !! key = None → key ∈ protoNames → arrayAt adj key = Throws.
Proof. intros H Hk. unfold arrayAt. by rewrite getMember_inherited. Qed.

Lemma arrayAt_Returns adj key l :
  arrayAt adj key = Returns l → l = default [] (adj !! key).
Proof.
  unfold arrayAt, getMember. destruct (adj !! key); [by intros [= <-]|].
  case_decide; [done|]. by intros [= <-].
Qed.

Lemma adjacencyPush_Returns adj e adj' :
  adjacencyPush adj e = Returns adj' → adj' = pushTarget adj e.
Proof.
  unfold adjacencyPush, pushTarget.
  destruct (arrayAt adj (source e)) as [l|] eqn:E; [|done].
  intros [= <-]. by rewrite (arrayAt_Returns _ _ _ E).
Qed.

Lemma forEach_adjacency es adj :
  (∀ k, k ∈ protoNames → adj !! k = None) →
  forEach adjacencyPush es adj
  = if decide (Exists (λ e, source e ∈ protoNames) es) then Throws
    else Returns (foldl pushTarget adj es).
Proof.
  revert adj. induction es as [|e es IH]; intros adj Hadj.
  - cbn [forEach foldl]. rewrite decide_False; [done|]. by intros ?%Exists_nil.
  - cbn [forEach foldl]. unfold adjacencyPush at 1.
    destruct (decide (source e ∈ protoNames)) as [Hin|Hout].
    + rewrite arrayAt_inherited by auto.
      rewrite decide_True; [done|]. by apply Exists_cons_hd.
    + rewrite arrayAt_plain by done. fold (pushTarget adj e). rewrite IH.
      * destruct (decide (Exists _ es)) as [Hex|Hnex].
        -- rewrite decide_True; [done|]. by apply Exists_cons_tl.
        -- rewrite decide_False; [done|]. by intros [?|?]%Exists_cons.
      * intros k Hk. unfold pushTarget. rewrite lookup_insert_ne; [by apply Hadj|].
        by intros <-.
Qed.

(** [buildAdjacency] throws exactly when some source is an inherited name;
    otherwise it returns the dictionary of the own properties. *)
Lemma buildAdjacency_spec es :
  buildAdjacency es
  = if decide (Exists (λ e, source e ∈ protoNames) es) then Throws
    else Returns (adjacencyOf es).
Proof. apply forEach_adjacency. intros k _. apply lookup_empty. Qed.

Lemma buildAdjacency_plain es :
  (∀ e, e ∈ es → source e ∉ protoNames) → buildAdjacency es = Returns (adjacencyOf es).
Proof.
  intros Hplain. rewrite buildAdjacency_spec, decide_False; [done|].
  intros (e & He & Hin)%Exists_exists. by apply (Hplain e).
Qed.

Lemma buildAdjacency_Returns es adj :
  buildAdjacency es = Returns adj → adj = adjacencyOf es.
Proof. rewrite buildAdjacency_spec. case_decide; [done|]. by intros [= <-]. Qed.

(** The dictionary depends on the sources and targets of the edges only. *)
Lemma buildAdjacency_fmap_same (f : edge → edge) es :
  (∀ e, source (f e) = source e ∧ target (f e) = target e) →
  buildAdjacency (f <$> es) = buildAdjacency es.
Proof.
  intros Hf. unfold buildAdjacency. generalize (∅ : gmap string (list string)).
  induction es as [|e es IH]; intros adj; [done|].
  rewrite fmap_cons. cbn [forEach].
  assert (adjacencyPush adj (f e) = adjacencyPush adj e) as ->.
  { unfold adjacencyPush. by destruct (Hf e) as [-> ->]. }
  destruct (adjacencyPush adj e); [apply IH|done].
Qed.

Lemma adjacencyOf_targets es k l i :
  adjacencyOf es !! k = Some l → i ∈ l → i ∈ target <$> es.
Proof.
  intros Hk Hi. pose proof (adjacencyOf_lookup es k) as Hl. rewrite Hk in Hl.
  simpl in Hl. rewrite Hl in Hi.
  apply list_elem_of_fmap in Hi as (e & -> & [_ He]%list_elem_of_filter).
  by apply list_elem_of_fmap_2.
Qed.

(** An iteration of the code is the iteration of the walk, unless it
    throws. *)
Lemma bfsStep_Returns nodes adj st nodeId rest st' :
  bfsStep nodes adj st nodeId rest = Returns st' →
  st' = walkStep nodes adj st nodeId rest.
Proof.
  unfold bfsStep, walkStep. case_decide; [by intros [= <-]|].
  destruct (arrayAt adj nodeId) as [l|] eqn:E; [|done].
  intros [= <-]. by rewrite (arrayAt_Returns _ _ _ E).
Qed.

Lemma bfsStep_cases nodes adj st nodeId rest :
  bfsStep nodes adj st nodeId rest = Returns (walkStep nodes adj st nodeId rest) ∨
  bfsStep nodes adj st nodeId rest = Throws.
Proof.
  destruct (bfsStep nodes adj st nodeId rest) as [st'|] eqn:E; [left|by right].
  by rewrite (bfsStep_Returns _ _ _ _ _ _ E).
Qed.

Lemma bfsStep_plain nodes adj st nodeId rest :
  nodeId ∉ protoNames →
  bfsStep nodes adj st nodeId rest = Returns (walkStep nodes adj st nodeId rest).
Proof.
  intros Hk. unfold bfsStep, walkStep. case_decide; [done|].
  by rewrite arrayAt_plain.
Qed.

Lemma bfsLoop_Returns fuel nodes adj st res :
  bfsLoop fuel nodes adj st = Some (Returns res) →
  walkLoop fuel nodes adj st = Some res.
Proof.
  revert st. induction fuel as [|fuel IH]; intros st; simpl.
  - destruct (queue st); [by intros [= <-]|done].
  - destruct (queue st) as [|nodeId rest]; [by intros [= <-]|].
    destruct (bfsStep nodes adj st nodeId rest) as [st'|] eqn:E; [|done].
    rewrite (bfsStep_Returns _ _ _ _ _ _ E). apply IH.
Qed.

(** Where the walk ends, the loop of the code ends: with the same nodes, or
    by throwing. *)
Lemma bfsLoop_walk fuel nodes adj st res :
  walkLoop fuel nodes adj st = Some res →
  bfsLoop fuel nodes adj st = Some (Returns res) ∨
  bfsLoop fuel nodes adj st = Some Throws.
Proof.
  revert st. induction fuel as [|fuel IH]; intros st; simpl.
  - destruct (queue st); [|done]. intros [= <-]. by left.
  - destruct (queue st) as [|nodeId rest]; [intros [= <-]; by left|].
    destruct (bfsStep_cases nodes adj st nodeId rest) as [-> | ->]; [apply IH|by right].
Qed.

Lemma bfsLoop_more_fuel nodes adj fuel fuel' st out :
  bfsLoop fuel nodes adj st = Some out → fuel ≤ fuel' →
  bfsLoop fuel' nodes adj st = Some out.
Proof.
  revert fuel' st. induction fuel as [|fuel IH]; intros fuel' st Hres Hle.
  - simpl in Hres. destruct (queue st) eqn:Hq; [|done].
    destruct fuel'; simpl; by rewrite Hq.
  - destruct fuel' as [|fuel']; [lia|]. simpl in *.
    destruct (queue st) as [|nodeId rest]; [done|].
    destruct (bfsStep nodes adj st nodeId rest); [|done]. apply IH; [done|lia].
Qed.

(** Without inherited names on the queue and in the dictionary the loop of
    the code is the walk. *)
Lemma bfsLoop_plain fuel nodes adj st :
  (∀ k l i, adj !! k = Some l → i ∈ l → i ∉ protoNames) →
  (∀ i, i ∈ queue st → i ∉ protoNames) →
  bfsLoop fuel nodes adj st = Returns <$> walkLoop fuel nodes adj st.
Proof.
  intros Hadj. revert st. induction fuel as [|fuel IH]; intros st Hq; simpl.
  - by destruct (queue st).
  - destruct (queue st) as [|nodeId rest] eqn:E; [done|].
    rewrite bfsStep_plain by (apply Hq, list_elem_of_here).
    apply IH. intros i. unfold walkStep. case_decide; cbn [queue].
    + intros Hi. apply Hq. by apply list_elem_of_further.
    + intros [Hi|Hi]%elem_of_app; [apply Hq; by apply list_elem_of_further|].
      apply list_elem_of_filter in Hi as [_ Hi].
      destruct (adj !! nodeId) as [l|] eqn:El; [by eapply Hadj|].
      by apply elem_of_nil in Hi.
Qed.

Lemma plain_adjacencyOf es k l i :
  plainEdges es → adjacencyOf es !! k = Some l → i ∈ l → i ∉ protoNames.
Proof.
  intros Hplain Hk Hi. apply (adjacencyOf_targets es k l i Hk) in Hi.
  apply list_elem_of_fmap in Hi as (e & -> & He). by apply Hplain.
Qed.

Lemma plain_roots nodes edges i :
  plainEdges (activeEdges edges) → i ∈ node_id <$> pathRoots nodes edges →
  i ∉ protoNames.
Proof.
  intros Hplain (r & -> & Hr)%list_elem_of_fmap.
  apply pathRoots_spec in Hr as (_ & _ & (e & He & Ha & <-) & _).
  apply Hplain. by apply activeEdges_spec.
Qed.

(** The run of a copy function from the queue [q]: it ends within
    [pathFuel], whatever the ids; it returns the nodes of the walk or
    throws, and it does not throw when no active edge and no id of the
    queue has an inherited name. *)
Lemma copy_from_queue nodes edges (q : list string) :
  ∃ ordered out,
    (∀ extra, walkLoop (pathFuel edges q + extra) nodes
                (adjacencyOf (activeEdges edges)) (bfsStart q) = Some ordered) ∧
    (∀ extra, match buildAdjacency (activeEdges edges) with
              | Returns adjacency =>
                  bfsLoop (pathFuel edges q + extra) nodes adjacency (bfsStart q)
              | Throws => Some Throws
              end = Some out) ∧
    (out = Returns ordered ∨ out = Throws) ∧
    (plainEdges (activeEdges edges) → (∀ i, i ∈ q → i ∉ protoNames) →
     out = Returns ordered) ∧
    NoDup (node_id <$> ordered) ∧
    (∀ n, n ∈ ordered ↔
          reach (activeEdges edges) q (node_id n) ∧
          findNode (node_id n) nodes = Some n ∧ node_type n ≠ Group).
Proof.
  destruct (bfs_from_queue nodes edges q) as (ordered & Hrun & Hnd & Hreach).
  exists ordered.
  destruct (buildAdjacency (activeEdges edges)) as [adjacency|] eqn:Hadj.
  - apply buildAdjacency_Returns in Hadj as ->.
    destruct (bfsLoop_walk _ _ _ _ _ (Hrun 0)) as [Hout|Hout].
    + exists (Returns ordered). split_and!; try done; [|by left].
      intros extra. eapply bfsLoop_more_fuel; [exact Hout|lia].
    + exists Throws. split_and!; try done.
      * intros extra. eapply bfsLoop_more_fuel; [exact Hout|lia].
      * by right.
      * intros Hplain Hq. rewrite bfsLoop_plain, (Hrun 0) in Hout; [done| |done].
        intros k l i. by apply plain_adjacencyOf.
  - exists Throws. split_and!; try done; [by right|].
    intros Hplain _. rewrite buildAdjacency_plain in Hadj; [done|].
    intros e He. by apply Hplain.
Qed.

End Faithful.

(** ** Termination of the traversal *)

(** C3.  For every sheet the traversal of [copyAllConnected] and the one of
    [copyPathFromNode], from any start node, come to an end - within
    [pathFuel] iterations, more fuel changing nothing -: the loop returns its
    nodes or, when it meets an id that is a name inherited from
    [Object.prototype], stops by throwing.  No id occurs twice among the
    collected nodes, and an iteration never puts a visited id back on the
    queue.  Active cycles are no exception. *)
Theorem traversal_terminates_once_each (nodes : list node) (edges : list edge) :
  (∃ out,
     (∀ extra, orderedFromRoots
                 (pathFuel edges (node_id <$> pathRoots nodes edges) + extra)
                 nodes edges = Some out) ∧
     (∀ ordered, out = Returns ordered → NoDup (node_id <$> ordered)) ∧
     (plainEdges (activeEdges edges) → ∃ ordered, out = Returns ordered)) ∧
  (∀ extra, is_Some (copyAllConnected
                       (pathFuel edges (node_id <$> pathRoots nodes edges) + extra)
                       nodes edges)) ∧
  (∀ startNodeId, ∃ out,
     (∀ extra, orderedFromNode (pathFuel edges [startNodeId] + extra)
                 nodes edges startNodeId = Some out) ∧
     (∀ ordered, out = Returns ordered → NoDup (node_id <$> ordered)) ∧
     (plainEdges (activeEdges edges) → startNodeId ∉ protoNames →
      ∃ ordered, out = Returns ordered)) ∧
  (∀ startNodeId extra,
     is_Some (copyPathFromNode (pathFuel edges [startNodeId] + extra)
                nodes edges startNodeId)) ∧
  (∀ adjacency st nodeId rest st',
     bfsStep nodes adjacency st nodeId rest = Returns st' →
     ∃ pushed, queue st' = rest ++ pushed ∧
               ∀ targetId, targetId ∈ pushed → targetId ∉ visited st') ∧
  copyPathFromNode (pathFuel cycleEdges ["A"]) cycleNodes cycleEdges "A"
  = Some (Returns (Written ("first" +:+ blankLine +:+ "second"))).
Proof.
  split_and!.
  - destruct (copy_from_queue nodes edges (node_id <$> pathRoots nodes edges))
      as (ordered & out & _ & Hrun & Hout & Hplain & Hnd & _).
    exists out. split_and!.
    + exact Hrun.
    + intros o ->. by destruct Hout as [[= ->]|?].
    + intros Hp. exists ordered. apply Hplain; [done|].
      intros i. by apply plain_roots.
  - intros extra.
    destruct (copy_from_queue nodes edges (node_id <$> pathRoots nodes edges))
      as (ordered & out & _ & Hrun & Hout & _).
    specialize (Hrun extra). unfold copyAllConnected.
    destruct (buildAdjacency (activeEdges edges)) as [adjacency|]; [|by eexists].
    rewrite Hrun.
    destruct (pathRoots nodes edges), (activeEdges edges), Hout as [-> | ->];
      by eexists.
  - intros startNodeId.
    destruct (copy_from_queue nodes edges [startNodeId])
      as (ordered & out & _ & Hrun & Hout & Hplain & Hnd & _).
    exists out. split_and!.
    + exact Hrun.
    + intros o ->. by destruct Hout as [[= ->]|?].
    + intros Hp Hs. exists ordered. apply Hplain; [done|].
      by intros i ->%list_elem_of_singleton.
  - intros startNodeId extra.
    destruct (copy_from_queue nodes edges [startNodeId])
      as (ordered & out & _ & Hrun & Hout & _).
    unfold copyPathFromNode, orderedFromNode. rewrite (Hrun extra).
    destruct Hout as [-> | ->]; [|by eexists].
    destruct (combinedPrompt ordered); by eexists.
  - intros adjacency st nodeId rest st' ->%bfsStep_Returns.
    apply walkStep_enqueues_unvisited.
  - vm_compute. reflexivity.
Qed.

(** ** The text of the active path *)

Lemma combinedPrompt_hasInk (ordered : list node) :
  combinedPrompt ordered
  = join blankLine (filter (λ c, hasInk c = true) (nodeText <$> ordered)).
Proof.
  unfold combinedPrompt. f_equal. apply list_filter_iff. intros c. apply trim_hasInk.
Qed.

(** A blank contribution is not empty, yet it is left out of the text: on
    [blankNodes] the code writes ["World"], where joining the non-empty
    contributions would give two spaces, a blank line and ["World"]. *)
Lemma copyAllConnected_drops_blank :
  orderedFromRoots 3 blankNodes blankEdges = Some (Returns blankNodes) ∧
  copyAllConnected 3 blankNodes blankEdges = Some (Returns (Written "World")) ∧
  spec_combinedPrompt blankNodes = "  " +:+ blankLine +:+ "World" ∧
  copyAllConnected 3 blankNodes blankEdges
  ≠ Some (Returns (Written (spec_combinedPrompt blankNodes))).
Proof. split_and!; [vm_compute; reflexivity..|vm_compute; discriminate]. Qed.

(** C2 (amended).  Without a start node the traversal is seeded with the root
    nodes in node-list order - the nodes that are no group, are the source of
    an active edge and the target of none.  When no active edge begins or
    ends at an id that is a name inherited from [Object.prototype], it
    collects the nodes, groups left out, of the ids that can be reached from
    the roots along active edges, and the text written is their
    contributions that are not blank (some code unit is no white space),
    joined by a blank line in the order of the visit.  Two prompts "Hello" ->
    "World" give "Hello", blank line, "World"; without any active edge
    nothing is written. *)
Theorem copyAllConnected_path_text (nodes : list node) (edges : list edge) :
  plainEdges (activeEdges edges) →
  (∀ n, n ∈ pathRoots nodes edges ↔
        n ∈ nodes ∧ node_type n ≠ Group ∧
        (∃ e, e ∈ edges ∧ active e ≠ Some false ∧ source e = node_id n) ∧
        ¬ (∃ e, e ∈ edges ∧ active e ≠ Some false ∧ target e = node_id n)) ∧
  pathRoots nodes edges `sublist_of` nodes ∧
  (∃ ordered,
     (∀ n, n ∈ ordered ↔
           reach (activeEdges edges) (node_id <$> pathRoots nodes edges) (node_id n) ∧
           findNode (node_id n) nodes = Some n ∧ node_type n ≠ Group) ∧
     (NoDup (node_id <$> nodes) → pathRoots nodes edges `prefix_of` ordered) ∧
     ∀ extra,
       orderedFromRoots (pathFuel edges (node_id <$> pathRoots nodes edges) + extra)
         nodes edges = Some (Returns ordered) ∧
       copyAllConnected (pathFuel edges (node_id <$> pathRoots nodes edges) + extra)
         nodes edges
       = Some (Returns
                 match activeEdges edges with
                 | [] => NothingWritten
                 | _ => Written (join blankLine
                           (filter (λ c, hasInk c = true) (nodeText <$> ordered)))
                 end)) ∧
  ((∀ e, e ∈ edges → active e = Some false) →
   ∀ fuel, copyAllConnected fuel nodes edges = Some (Returns NothingWritten)) ∧
  copyAllConnected (pathFuel helloEdges ["A"]) helloNodes helloEdges
  = Some (Returns (Written ("Hello" +:+ blankLine +:+ "World"))).
Proof.
  intros Hplain. split_and!.
  - intros n. apply pathRoots_spec.
  - apply pathRoots_sublist.
  - destruct (copy_from_queue nodes edges (node_id <$> pathRoots nodes edges))
      as (ordered & out & Hwalk & Hrun & _ & Hout & _ & Hmem).
    rewrite (Hout Hplain) in Hrun by (intros i; by apply plain_roots).
    exists ordered. split; [exact Hmem|]. split.
    { intros Hnd. exact (walk_roots_first nodes edges _ ordered Hnd (Hwalk 0)). }
    intros extra. specialize (Hrun extra). unfold orderedFromRoots, copyAllConnected.
    destruct (buildAdjacency (activeEdges edges)) as [adjacency|]; [|done].
    rewrite Hrun. split; [done|]. rewrite combinedPrompt_hasInk.
    destruct (activeEdges edges) eqn:Hact.
    + by rewrite (pathRoots_no_active nodes edges Hact).
    + by destruct (pathRoots nodes edges).
  - intros Hoff fuel.
    assert (activeEdges edges = []) as Hact.
    { unfold activeEdges. induction edges as [|e edges' IH]; [done|].
      rewrite filter_cons, decide_False.
      - apply IH.
        + intros e' He'. apply Hplain. unfold activeEdges.
          rewrite filter_cons, decide_False; [done|].
          intros Hne. apply Hne, Hoff, list_elem_of_here.
        + intros e' He'. apply Hoff. by apply list_elem_of_further.
      - intros Hne. apply Hne, Hoff, list_elem_of_here. }
    unfold copyAllConnected. by rewrite (pathRoots_no_active nodes edges Hact), Hact.
  - vm_compute. reflexivity.
Qed.

Lemma helloEdges_plain : plainEdges (activeEdges helloEdges).
Proof.
  intros e He. change (activeEdges helloEdges) with helloEdges in He.
  apply list_elem_of_singleton in He as ->. split; compute_done.
Defined.

Lemma copyAllConnected_path_text_witness :
  plainEdges (activeEdges helloEdges) ∧
  ∃ ordered,
    pathRoots helloNodes helloEdges `prefix_of` ordered ∧
    orderedFromRoots (pathFuel helloEdges (node_id <$> pathRoots helloNodes helloEdges) + 0)
      helloNodes helloEdges = Some (Returns ordered) ∧
    copyAllConnected (pathFuel helloEdges (node_id <$> pathRoots helloNodes helloEdges) + 0)
      helloNodes helloEdges
    = Some (Returns (Written (join blankLine
                       (filter (λ c, hasInk c = true) (nodeText <$> ordered))))).
Proof.
  split; [exact helloEdges_plain|].
  destruct (copyAllConnected_path_text helloNodes helloEdges helloEdges_plain)
    as (_ & _ & (ordered & _ & Hpre & Hrun) & _).
  exists ordered. split; [apply Hpre; compute_done|]. exact (Hrun 0).
Defined.

(** ** Edges without an [active] field *)

Lemma isActive_spec (e : edge) : isActive e = true ↔ active e ≠ Some false.
Proof. unfold isActive. destruct (active e) as [[]|]; naive_solver. Qed.


Lemma filter_fmap_same {A} (P : A → Prop) `{!∀ x, Decision (P x)} (f : A → A)
    (l : list A) :
  (∀ x, P (f x) ↔ P x) → filter P (f <$> l) = f <$> filter P l.
Proof.
  intros HP. induction l as [|x l IH]; [done|].
  rewrite fmap_cons, !filter_cons.
  destruct (decide (P x)) as [Hx|Hx].
  - rewrite decide_True by by apply HP. by rewrite fmap_cons, IH.
  - rewrite decide_False by by rewrite HP. done.
Qed.

Section SameEndpoints.
Context (f : edge → edge).
Hypothesis f_endpoints : ∀ e, source (f e) = source e ∧ target (f e) = target e.
Hypothesis f_active : ∀ e, active (f e) ≠ Some false ↔ active e ≠ Some false.





End SameEndpoints.




(** ** Deleting a node *)

Section Delete.
Implicit Types (s : sheet) (n : node) (e : edge) (nodeId : string).

Lemma deleteNode_edges_spec nodeId (eds : list edge) e :
  e ∈ deleteNode_edges nodeId eds ↔ e ∈ eds ∧ source e ≠ nodeId ∧ target e ≠ nodeId.
Proof. unfold deleteNode_edges. rewrite list_elem_of_filter. tauto. Qed.

Lemma deleteNode_nodes_elem nodeId (nds : list node) nodeToDelete n' :
  findNode nodeId nds = Some nodeToDelete →
  n' ∈ deleteNode_nodes nodeId nds ↔
  ∃ n, n ∈ nds ∧ node_id n ≠ nodeId ∧
       n' = if decide (parentNode n = Some nodeId) then releaseChild nodeToDelete n
            else n.
Proof.
  intros Hfind. unfold deleteNode_nodes. rewrite Hfind, list_elem_of_fmap.
  setoid_rewrite list_elem_of_filter. naive_solver.
Qed.

Lemma deleteNode_nodes_ids nodeId (nds : list node) :
  node_id <$> deleteNode_nodes nodeId nds
  = filter (λ i, i ≠ nodeId) (node_id <$> nds).
Proof.
  assert (node_id <$> filter (λ n, node_id n ≠ nodeId) nds
          = filter (λ i, i ≠ nodeId) (node_id <$> nds)) as Hids.
  { induction nds as [|n nds IH]; [done|].
    rewrite fmap_cons, !filter_cons. case_decide; [rewrite fmap_cons|]; by rewrite IH. }
  unfold deleteNode_nodes. destruct (findNode nodeId nds) as [p|]; [|done].
  rewrite <- Hids, <- list_fmap_compose. apply list_fmap_ext.
  intros _ n _. simpl. by case_decide.
Qed.

End Delete.

(** C4.  When [nodeId] names a node of the sheet, after [deleteNode nodeId] no
    edge has [nodeId] as source or target, the other edges are all still
    there; every node whose [parentNode] was [nodeId] is there without
    [parentNode] and at the position of the deleted node (as found before the
    deletion) plus its own old position; the nodes with id [nodeId] are gone
    and every other node is unchanged. *)
Theorem deleteNode_cascade (s : sheet) (nodeId : string) (nodeToDelete : node) :
  findNode nodeId (nodes s) = Some nodeToDelete →
  (∀ e, e ∈ edges (deleteNode nodeId s) → source e ≠ nodeId ∧ target e ≠ nodeId) ∧
  (∀ e, e ∈ edges s → source e ≠ nodeId → target e ≠ nodeId →
        e ∈ edges (deleteNode nodeId s)) ∧
  edges (deleteNode nodeId s) `sublist_of` edges s ∧
  (∀ n, n ∈ nodes s → node_id n ≠ nodeId → parentNode n = Some nodeId →
        ∃ n', n' ∈ nodes (deleteNode nodeId s) ∧
              node_id n' = node_id n ∧ parentNode n' = None ∧
              node_position n'
              = {| pos_x := pos_x (node_position nodeToDelete) + pos_x (node_position n);
                   pos_y := pos_y (node_position nodeToDelete) + pos_y (node_position n) |} ∧
              node_type n' = node_type n ∧ data n' = data n) ∧
  (∀ n, n ∈ nodes s → node_id n ≠ nodeId → parentNode n ≠ Some nodeId →
        n ∈ nodes (deleteNode nodeId s)) ∧
  (∀ n', n' ∈ nodes (deleteNode nodeId s) →
         node_id n' ≠ nodeId ∧ parentNode n' ≠ Some nodeId ∧
         (n' ∈ nodes s ∨
          ∃ n, n ∈ nodes s ∧ parentNode n = Some nodeId ∧
               n' = releaseChild nodeToDelete n)) ∧
  node_id <$> nodes (deleteNode nodeId s)
  = filter (λ i, i ≠ nodeId) (node_id <$> nodes s).
Proof.
  intros Hfind. split_and!.
  - intros e He. apply deleteNode_edges_spec in He. tauto.
  - intros e He Hs Ht. by apply deleteNode_edges_spec.
  - apply sublist_filter.
  - intros n Hn Hid Hpar. exists (releaseChild nodeToDelete n). split; [|done].
    apply (deleteNode_nodes_elem _ _ _ _ Hfind). exists n.
    by rewrite decide_True.
  - intros n Hn Hid Hpar. apply (deleteNode_nodes_elem _ _ _ _ Hfind).
    exists n. by rewrite decide_False.
  - intros n' (n & Hn & Hid & ->)%(deleteNode_nodes_elem _ _ _ _ Hfind).
    case_decide; simpl; [|by auto]. split_and!; [done|done|]. right. by exists n.
  - apply deleteNode_nodes_ids.
Qed.

Lemma deleteNode_cascade_witness :
  nodes (deleteNode "G"
           {| nodes := [mkNode "G" Group (promptData EmptyString);
                        {| node_id := "c"; node_type := Prompt;
                           node_position := {| pos_x := 3; pos_y := 4 |};
                           node_style := None; parentNode := Some "G";
                           extent := Some "parent"; hidden := None;
                           selected := false; data := promptData "child" |}];
              edges := [mkEdge "e" "G" "c" None] |})
  = [ {| node_id := "c"; node_type := Prompt;
         node_position := {| pos_x := 0 + 3; pos_y := 0 + 4 |};
         node_style := None; parentNode := None; extent := None; hidden := None;
         selected := false; data := promptData "child" |} ] ∧
  ∀ e, e ∈ edges (deleteNode "G"
           {| nodes := [mkNode "G" Group (promptData EmptyString);
                        {| node_id := "c"; node_type := Prompt;
                           node_position := {| pos_x := 3; pos_y := 4 |};
                           node_style := None; parentNode := Some "G";
                           extent := Some "parent"; hidden := None;
                           selected := false; data := promptData "child" |}];
              edges := [mkEdge "e" "G" "c" None] |}) →
       source e ≠ "G" ∧ target e ≠ "G".
Proof.
  split; [reflexivity|].
  refine (proj1 (deleteNode_cascade _ "G" (mkNode "G" Group (promptData EmptyString)) _)).
  reflexivity.
Defined.

(** ** Attached images and deletion *)

Section Attached.
Implicit Types (n : node) (nds : list node) (nodeId : string).

Lemma deleteNode_nodes_data nodeId nds n' :
  n' ∈ deleteNode_nodes nodeId nds →
  node_id n' ≠ nodeId ∧
  ∃ n, n ∈ nds ∧ node_id n' = node_id n ∧ node_type n' = node_type n ∧
       data n' = data n.
Proof.
  unfold deleteNode_nodes. destruct (findNode nodeId nds) as [p|].
  - intros (n & -> & [Hid Hn]%list_elem_of_filter)%list_elem_of_fmap.
    case_decide; (split; [done|]); by exists n.
  - intros [Hid Hn]%list_elem_of_filter. split; [done|]. by exists n'.
Qed.

Lemma syncImage_detaches nds nodeId n :
  nodeId ≠ EmptyString → findNode nodeId nds = None →
  node_type n = Image → attachedTo (data n) = Some nodeId →
  syncImage nds n = (detach n, true).
Proof.
  intros Hne Hfind Hty Hatt. unfold syncImage, attachedImageOf.
  rewrite decide_True, Hatt by done. destruct nodeId; [done|]. by rewrite Hfind.
Qed.

Lemma syncImage_attachedTo nds n parentId :
  attachedTo (data (syncImage nds n).1) = Some parentId →
  attachedTo (data n) = Some parentId ∧
  (attachedImageOf n = Some parentId → is_Some (findNode parentId nds)).
Proof.
  unfold syncImage. destruct (attachedImageOf n) as [p|] eqn:Hatt; [|done].
  destruct (findNode p nds) as [parent|] eqn:Hfind; [|done].
  assert (∀ q, attachedTo (data n) = Some q → attachedTo (data n) = Some q ∧
               (Some p = Some q → is_Some (findNode q nds))) as Hkeep.
  { intros q Hq. split; [done|]. intros [= <-]. by rewrite Hfind. }
  destruct (calculateAnchorPosition _ _); [|apply Hkeep].
  repeat destruct (Rlt_dec _ _); simpl; apply Hkeep.
Qed.

Lemma syncAttachedImages_unfold nds :
  Exists (λ n, is_Some (attachedImageOf n) ∧ (syncImage nds n).2 = true) nds →
  syncAttachedImages nds = (λ n, (syncImage nds n).1) <$> nds.
Proof.
  intros Hex. unfold syncAttachedImages.
  destruct (filter _ nds) as [|n0 l] eqn:Hf.
  - exfalso. apply Exists_exists in Hex as (n & Hn & Hatt & _).
    by eapply (filter_nil_not_elem_of _ _ n Hf).
  - assert (existsb snd (syncImage nds <$> nds) = true) as ->.
    { apply existsb_exists. apply Exists_exists in Hex as (n & Hn & _ & Hch).
      exists (syncImage nds n). split; [|done].
      apply list_elem_of_In. by apply list_elem_of_fmap_2. }
    by rewrite <- list_fmap_compose.
Qed.

End Attached.

Section Detach.
Implicit Types (n : node) (nds : list node) (nodeId : string).

Lemma syncImage_type nds n : node_type (syncImage nds n).1 = node_type n.
Proof.
  unfold syncImage. destruct (attachedImageOf n); [|done].
  destruct (findNode _ nds); [|done].
  destruct (calculateAnchorPosition _ _); [|done].
  by repeat destruct (Rlt_dec _ _).
Qed.

Lemma syncImage_clears nds nodeId n :
  nodeId ≠ EmptyString → findNode nodeId nds = None →
  node_type (syncImage nds n).1 = Image →
  attachedTo (data (syncImage nds n).1) ≠ Some nodeId.
Proof.
  intros Hne Hfind Hty Hatt. rewrite syncImage_type in Hty.
  apply syncImage_attachedTo in Hatt as [Hatt Hparent].
  destruct Hparent as [p Hp]; [|by rewrite Hfind in Hp].
  unfold attachedImageOf. rewrite decide_True, Hatt by done. by destruct nodeId.
Qed.

Lemma deleteNode_nodes_gone nodeId nds :
  findNode nodeId (deleteNode_nodes nodeId nds) = None.
Proof.
  unfold findNode. destruct (List.find _ _) as [n|] eqn:Hfind; [|done].
  apply (findNode_Some nodeId) in Hfind as [Hin Hid].
  by apply deleteNode_nodes_data in Hin as [Hne _].
Qed.

Lemma syncAttachedImages_clears nds nodeId n' :
  nodeId ≠ EmptyString → findNode nodeId nds = None →
  n' ∈ syncAttachedImages nds → node_type n' = Image →
  attachedTo (data n') ≠ Some nodeId.
Proof.
  intros Hne Hfind Hin Hty.
  destruct (decide (Exists (λ n, node_type n = Image ∧ attachedTo (data n) = Some nodeId) nds))
    as [Hex|Hnex].
  - rewrite syncAttachedImages_unfold in Hin.
    + apply list_elem_of_fmap in Hin as (n & -> & _). by apply syncImage_clears.
    + apply Exists_exists in Hex as (n & Hn & Hnty & Hatt).
      apply Exists_exists. exists n. split; [done|].
      rewrite (syncImage_detaches nds nodeId n) by done. split; [|done].
      unfold attachedImageOf. rewrite decide_True, Hatt by done.
      destruct nodeId; [done|]. by eexists.
  - unfold syncAttachedImages in Hin.
    assert (n' ∈ nds → attachedTo (data n') ≠ Some nodeId) as Hkeep.
    { intros Hn' Hatt. apply Hnex, Exists_exists. by exists n'. }
    assert (n' ∈ (syncImage nds <$> nds).*1 → attachedTo (data n') ≠ Some nodeId) as Hmap.
    { rewrite <- list_fmap_compose.
      intros (n & -> & _)%list_elem_of_fmap. by apply syncImage_clears. }
    destruct (filter _ nds); [by apply Hkeep|].
    destruct (existsb snd _); [by apply Hmap|by apply Hkeep].
Qed.

End Detach.

(** [deleteNode] alone does not detach: the image that hung on the deleted
    prompt still names it. *)
Lemma deleteNode_keeps_attachedTo :
  nodes (deleteNode "P" attachedSheet) = [mkNode "I" Image (imageData "P")] ∧
  ∃ n, n ∈ nodes (deleteNode "P" attachedSheet) ∧ node_type n = Image ∧
       attachedTo (data n) = Some "P".
Proof.
  split; [reflexivity|]. exists (mkNode "I" Image (imageData "P")).
  split; [|done]. apply list_elem_of_here.
Qed.

(** C8 (amended).  [deleteNode nodeId] leaves the [data] of every remaining
    node, [attachedTo] included, as it was; it is the effect that keeps
    attached images in place which, run on the nodes after the deletion,
    clears [attachedTo]: after it no image is attached to [nodeId]. *)
Theorem deleteNode_then_sync_detaches (s : sheet) (nodeId : string) :
  nodeId ≠ EmptyString →
  (∀ n', n' ∈ nodes (deleteNode nodeId s) →
         ∃ n, n ∈ nodes s ∧ node_id n' = node_id n ∧ data n' = data n) ∧
  (∀ n', n' ∈ syncAttachedImages (nodes (deleteNode nodeId s)) →
         node_type n' = Image → attachedTo (data n') ≠ Some nodeId) ∧
  (∀ n, n ∈ nodes (deleteNode nodeId s) → node_type n = Image →
        attachedTo (data n) = Some nodeId →
        detach n ∈ syncAttachedImages (nodes (deleteNode nodeId s))).
Proof.
  intros Hne. split_and!.
  - intros n' (_ & n & Hn & Hid & _ & Hdata)%deleteNode_nodes_data. by exists n.
  - intros n' Hn' Hty. eapply syncAttachedImages_clears; [done| |done..].
    apply deleteNode_nodes_gone.
  - intros n Hn Hty Hatt. simpl in *.
    pose proof (deleteNode_nodes_gone nodeId (nodes s)) as Hgone.
    pose proof (syncImage_detaches _ nodeId n Hne Hgone Hty Hatt) as Hsync.
    rewrite syncAttachedImages_unfold.
    + apply list_elem_of_fmap. exists n. by rewrite Hsync.
    + apply Exists_exists. exists n. split; [done|]. rewrite Hsync.
      split; [|done]. unfold attachedImageOf. rewrite decide_True, Hatt by done.
      destruct nodeId; [done|]. by eexists.
Qed.

Lemma deleteNode_then_sync_detaches_witness :
  String.length "P" = 1 ∧
  ∀ n', n' ∈ syncAttachedImages (nodes (deleteNode "P" attachedSheet)) →
        node_type n' = Image → attachedTo (data n') ≠ Some "P".
Proof.
  split; [reflexivity|].
  refine (proj1 (proj2 (deleteNode_then_sync_detaches attachedSheet "P" _))).
  discriminate.
Defined.

(** ** Ids of created nodes and edges *)

Section Ids.
Implicit Types (s : sheet) (o : createOp) (ops : list createOp)
  (used : list (N * string)).

#[local] Instance freshNodeId_inj : Inj (=) (=) freshNodeId.
Proof.
  intros a b Heq. unfold freshNodeId in Heq.
  apply (inj (String.app "node-")) in Heq. by apply (inj pretty).
Qed.




(** *** The texts of the ids *)







(** *** The edge ids stay pairwise distinct *)





End Ids.




Example sampleOps_ids :
  node_id <$> nodes (applyOps emptySheet sampleOps) = ["node-1"; "node-2"; "node-3"] ∧
  edge_id <$> edges (applyOps emptySheet sampleOps)
  = ["reactflow__edge-node-1-node-2"; "edge-3-k3x9q0a1z"].
Proof. split; vm_compute; reflexivity. Qed.

(** ** The rows of the layout *)

(** [v] is placed by the loop in the row of its source [u]: the rows are
    [r] and then [u; v], although [u -> v] is an edge and [v] is reached from
    the root. *)
Lemma layout_same_row_edge :
  ∃ st, layoutRows (layoutFuel triangleEdges) triangleNodes triangleEdges
        = Some (Returns st) ∧
        rows st = [["r"]; ["u"; "v"]] ∧
        "v" ∈ placed st ∧
        nodeToRow st !! "u" = Some 1 ∧ nodeToRow st !! "v" = Some 1 ∧
        ¬ (1 ≥ 1 + 1).
Proof.
  eexists. split; [vm_compute; reflexivity|].
  split_and!; [reflexivity|compute_done|reflexivity|reflexivity|lia].
Qed.

Section Layering.
Variable edges : list edge.
Implicit Types (e : edge) (st : layoutState) (ps : passState) (c : nat).

Lemma incoming_foldl (es : list edge) (inc : gmap string (list string)) (t : string) :
  default [] (foldl pushSource inc es !! t)
  = default [] (inc !! t) ++ (source <$> filter (λ e, target e = t) es).
Proof.
  revert inc. induction es as [|e es IH]; intros inc; simpl.
  - by rewrite app_nil_r.
  - rewrite IH. unfold pushSource at 1. rewrite filter_cons.
    destruct (decide (target e = t)) as [->|Hne].
    + rewrite lookup_insert_eq. simpl. by rewrite <- app_assoc.
    + by rewrite lookup_insert_ne.
Qed.

Lemma sourceLists_lookup (t : string) :
  default [] (sourceLists edges !! t) = source <$> filter (λ e, target e = t) edges.
Proof. unfold sourceLists. by rewrite incoming_foldl, lookup_empty. Qed.

Lemma targetLists_lookup (s : string) :
  default [] (targetLists edges !! s) = target <$> filter (λ e, source e = s) edges.
Proof. apply adjacencyOf_lookup. Qed.

Lemma rowTargets_are_targets (row : list string) (t : string) :
  t ∈ rowTargets (targetLists edges) row → t ∈ target <$> edges.
Proof.
  unfold rowTargets. rewrite list_elem_of_bind. intros (nodeId & Ht & _).
  rewrite targetLists_lookup in Ht.
  apply list_elem_of_fmap in Ht as (e & -> & [_ He]%list_elem_of_filter).
  by apply list_elem_of_fmap_2.
Qed.

Lemma unplaced_mono (es : list edge) (vis vis' : gset string) :
  vis ⊆ vis' → unplaced es vis' ≤ unplaced es vis.
Proof.
  intros Hsub. unfold unplaced. induction es as [|e es IH]; [done|].
  rewrite !filter_cons.
  destruct (decide (target e ∉ vis')) as [H'|H'].
  - rewrite decide_True by set_solver. cbn [length]. lia.
  - case_decide; cbn [length]; lia.
Qed.

Lemma unplaced_place (es : list edge) (vis : gset string) (t : string) :
  t ∉ vis → t ∈ target <$> es →
  unplaced es (vis ∪ {[t]}) + 1 ≤ unplaced es vis.
Proof.
  intros Ht Hin. unfold unplaced. induction es as [|e es IH]; [by apply elem_of_nil in Hin|].
  rewrite fmap_cons in Hin. rewrite !filter_cons.
  destruct (decide (target e = t)) as [Heq|Hne].
  - rewrite decide_False by set_solver. rewrite decide_True by set_solver.
    pose proof (unplaced_mono es vis (vis ∪ {[t]})) as Hm. unfold unplaced in Hm.
    cbn [length]. assert (vis ⊆ vis ∪ {[t]}) as Hs by set_solver.
    specialize (Hm Hs). lia.
  - apply elem_of_cons in Hin as [Heq|Hin]; [congruence|].
    specialize (IH Hin).
    destruct (decide (target e ∈ vis)).
    + rewrite decide_False by set_solver.
      rewrite (decide_False (P := target e ∉ vis)) by set_solver. done.
    + rewrite decide_True by set_solver.
      rewrite (decide_True (P := target e ∉ vis)) by set_solver.
      cbn [length]. lia.
Qed.

(** *** One pass *)

Lemma placeTarget_passOK (rs : list (list string)) c ps (t : string) :
  length rs = c + 1 → passOK edges rs ps →
  passOK edges rs (placeTarget (sourceLists edges) c ps t).
Proof.
  intros Hlen (Hplaced & Hrows & Hedges). unfold placeTarget.
  unfold placedOK, rowsOK, edgesOK in *.
  case_decide as Hvis; [done|]. case_decide as Hsrc; [|done].
  rewrite sourceLists_lookup in Hsrc.
  assert (pass_nodeToRow ps !! t = None) as Hnone.
  { destruct (pass_nodeToRow ps !! t) eqn:Hl; [|done].
    exfalso. apply Hvis, Hplaced. by eexists. }
  split_and!; simpl.
  - intros id. rewrite elem_of_union, elem_of_singleton, Hplaced.
    destruct (decide (id = t)) as [->|Hne].
    + rewrite lookup_insert_eq. naive_solver.
    + rewrite lookup_insert_ne by done. naive_solver.
  - intros id r. destruct (decide (id = t)) as [->|Hne].
    + rewrite lookup_insert_eq. intros [= <-].
      exists (nextRowNodes ps ++ [t]). split; [|set_solver].
      rewrite lookup_app_r by lia. by replace (c + 1 - length rs) with 0 by lia.
    + rewrite lookup_insert_ne by done. intros (row & Hrow & Hin)%Hrows.
      destruct (decide (r < length rs)) as [Hlt|Hge].
      * rewrite lookup_app_l in Hrow by done. exists row.
        by rewrite lookup_app_l.
      * rewrite lookup_app_r in Hrow by lia.
        destruct (r - length rs) as [|k] eqn:Hk; [|done].
        injection Hrow as <-. exists (nextRowNodes ps ++ [t]).
        rewrite lookup_app_r by lia. rewrite Hk. split; [done|set_solver].
  - intros e rv He. destruct (decide (target e = t)) as [Heq|Hne].
    + rewrite Heq, lookup_insert_eq. intros [= <-].
      assert (source e ∈ pass_visited ps) as Hs.
      { apply (proj1 (Forall_forall _ _) Hsrc).
        apply list_elem_of_fmap_2, list_elem_of_filter. done. }
      assert (t ≠ source e) as Hts by (intros Hts; apply Hvis; by rewrite Hts).
      apply Hplaced in Hs as [ru Hru].
      exists ru. rewrite lookup_insert_ne by done.
      split; [done|]. split; [|lia].
      apply Hrows in Hru as (row & Hrow & _).
      apply lookup_lt_Some in Hrow. rewrite length_app in Hrow. simpl in Hrow. lia.
    + rewrite lookup_insert_ne by done. intros Hrv.
      destruct (Hedges e rv He Hrv) as (ru & Hru & Hle).
      assert (t ≠ source e) as Hts by (intros Hts; rewrite Hts in Hnone; congruence).
      exists ru. by rewrite lookup_insert_ne.
Qed.

Lemma placeTarget_count c ps (t : string) :
  t ∈ target <$> edges →
  pass_visited ps ⊆ pass_visited (placeTarget (sourceLists edges) c ps t) ∧
  unplaced edges (pass_visited (placeTarget (sourceLists edges) c ps t))
    + length (nextRowNodes (placeTarget (sourceLists edges) c ps t))
  ≤ unplaced edges (pass_visited ps) + length (nextRowNodes ps).
Proof.
  intros Ht. unfold placeTarget. case_decide as Hvis; [done|].
  case_decide; [|done]. simpl. split; [set_solver|].
  rewrite length_app. simpl.
  pose proof (unplaced_place edges (pass_visited ps) t Hvis Ht). lia.
Qed.

Lemma pass_fold_OK (rs : list (list string)) c (l : list string) ps :
  length rs = c + 1 → passOK edges rs ps →
  passOK edges rs (foldl (placeTarget (sourceLists edges) c) ps l).
Proof.
  intros Hlen. revert ps. induction l as [|t l IH]; intros ps Hok; [done|].
  simpl. apply IH. by apply placeTarget_passOK.
Qed.

Lemma pass_fold_count c (l : list string) ps :
  Forall (λ t, t ∈ target <$> edges) l →
  pass_visited ps ⊆ pass_visited (foldl (placeTarget (sourceLists edges) c) ps l) ∧
  unplaced edges (pass_visited (foldl (placeTarget (sourceLists edges) c) ps l))
    + length (nextRowNodes (foldl (placeTarget (sourceLists edges) c) ps l))
  ≤ unplaced edges (pass_visited ps) + length (nextRowNodes ps).
Proof.
  intros Hl. revert ps. induction Hl as [|t l Ht _ IH]; intros ps; [done|].
  simpl. destruct (placeTarget_count c ps t Ht) as [Hsub Hcnt].
  destruct (IH (placeTarget (sourceLists edges) c ps t)) as [Hsub' Hcnt'].
  split; [set_solver|lia].
Qed.

End Layering.

Section Rows.
Variable edges : list edge.
Implicit Types (e : edge) (st : layoutState) (c : nat) (row : list string).

Lemma rowPass_OK c row st :
  rows st !! c = Some row → loopOK edges c st →
  loopOK edges (S c)
    (rowPass (targetLists edges) (sourceLists edges) c row st).
Proof.
  intros Hrow (Hlen & Hplaced & Hrows & Hedges).
  assert (length (rows st) = c + 1) as Hlen'
    by (apply lookup_lt_Some in Hrow; lia).
  unfold rowPass.
  set (ps0 := {| pass_visited := placed st; nextRowNodes := [];
                 pass_nodeToRow := nodeToRow st |}).
  assert (passOK edges (rows st) ps0) as Hok0.
  { split_and!; [done| |done]. intros id r (rw & Hrw & Hin)%Hrows.
    exists rw. split; [|done]. simpl. apply lookup_app_l_Some. done. }
  pose proof (pass_fold_OK edges (rows st) c
                (rowTargets (targetLists edges) row) ps0 Hlen' Hok0)
    as (Hp & Hr & He).
  set (ps := foldl _ ps0 _) in *.
  split_and!; simpl; [|done| |done].
  - destruct (nextRowNodes ps); [lia|]. rewrite length_app. simpl. lia.
  - destruct (nextRowNodes ps) as [|t next] eqn:Hnext; [|done].
    intros id r (rw & Hrw & Hin)%Hr.
    destruct (decide (r < length (rows st))) as [Hlt|Hge].
    + rewrite lookup_app_l in Hrw by done. by exists rw.
    + rewrite lookup_app_r in Hrw by lia.
      destruct (r - length (rows st)); simplify_eq/=. by apply elem_of_nil in Hin.
Qed.

Lemma rowPass_measure c row st :
  rows st !! c = Some row → length (rows st) ≤ c + 1 →
  unplaced edges (placed (rowPass (targetLists edges) (sourceLists edges) c row st))
  + (length (rows (rowPass (targetLists edges) (sourceLists edges) c row st)) - S c)
  + 1
  ≤ unplaced edges (placed st) + (length (rows st) - c).
Proof.
  intros Hrow Hlen.
  assert (length (rows st) = c + 1) as Hlen'
    by (apply lookup_lt_Some in Hrow; lia).
  unfold rowPass.
  set (ps0 := {| pass_visited := placed st; nextRowNodes := [];
                 pass_nodeToRow := nodeToRow st |}).
  destruct (pass_fold_count edges c (rowTargets (targetLists edges) row) ps0)
    as [_ Hcnt].
  { apply Forall_forall. intros t Ht. by eapply rowTargets_are_targets. }
  set (ps := foldl _ ps0 _) in *. simpl in *.
  destruct (nextRowNodes ps); simpl in *; [lia|].
  rewrite length_app. simpl. lia.
Qed.

(** The loop ends within [unplaced + 1] passes. *)
Lemma rowPasses_terminates fuel c st :
  length (rows st) ≤ c + 1 →
  unplaced edges (placed st) + (length (rows st) - c) ≤ fuel →
  is_Some (rowPasses fuel (targetLists edges) (sourceLists edges) c st).
Proof.
  revert c st. induction fuel as [|fuel IH]; intros c st Hlen Hfuel; simpl.
  - destruct (rows st !! c) as [row|] eqn:Hrow; [|eauto].
    apply lookup_lt_Some in Hrow. lia.
  - destruct (rows st !! c) as [row|] eqn:Hrow; [|eauto].
    pose proof (rowPass_measure c row st Hrow Hlen) as Hm.
    apply IH; [|lia].
    assert (length (rows st) = c + 1) as Hlen'
      by (apply lookup_lt_Some in Hrow; lia).
    unfold rowPass. simpl. destruct (nextRowNodes _); [lia|].
    rewrite length_app. simpl. lia.
Qed.

Lemma rowPasses_more_fuel fuel fuel' c st res :
  rowPasses fuel (targetLists edges) (sourceLists edges) c st = Some res →
  fuel ≤ fuel' →
  rowPasses fuel' (targetLists edges) (sourceLists edges) c st = Some res.
Proof.
  revert fuel' c st. induction fuel as [|fuel IH]; intros fuel' c st Hres Hle.
  - simpl in Hres. destruct (rows st !! c) eqn:Hrow; [done|].
    destruct fuel'; simpl; by rewrite Hrow.
  - destruct fuel' as [|fuel']; [lia|]. simpl in *.
    destruct (rows st !! c); [|done]. apply IH; [done|lia].
Qed.

Lemma rowPasses_OK fuel c st res :
  rowPasses fuel (targetLists edges) (sourceLists edges) c st = Some res →
  loopOK edges c st →
  placed st ⊆ placed res ∧ ∃ c', loopOK edges c' res.
Proof.
  revert c st. induction fuel as [|fuel IH]; intros c st Hres Hok; simpl in Hres.
  - destruct (rows st !! c); [done|]. injection Hres as <-. eauto.
  - destruct (rows st !! c) as [row|] eqn:Hrow; [|injection Hres as <-; eauto].
    destruct (IH _ _ Hres (rowPass_OK c row st Hrow Hok)) as [Hsub Hc'].
    split; [|done]. etrans; [|exact Hsub]. unfold rowPass. simpl.
    destruct (pass_fold_count edges c (rowTargets (targetLists edges) row)
                {| pass_visited := placed st; nextRowNodes := [];
                   pass_nodeToRow := nodeToRow st |}) as [Hs _]; [|done].
    apply Forall_forall. intros t Ht. by eapply rowTargets_are_targets.
Qed.

End Rows.

Section Trailing.
Implicit Types (st : layoutState) (n : node) (rootNodes : list node).

Lemma setMember_insert {A} (k : string) (v : A) (m : gmap string A) :
  k ≠ "__proto__" → setMember k v m = <[k := v]> m.
Proof. intros Hk. unfold setMember. by rewrite decide_False. Qed.

Lemma isLayoutRoot_spec (incoming : gmap string (list string)) n :
  isLayoutRoot incoming n = true →
  default [] (incoming !! node_id n) = [] ∧
  (incoming !! node_id n = None → node_id n ≠ "__proto__").
Proof.
  unfold isLayoutRoot, getMember.
  destruct (incoming !! node_id n) as [sources|] eqn:E.
  - intros Hlen%bool_decide_eq_true_1. by destruct sources.
  - case_decide as Hin.
    + intros Hlen%bool_decide_eq_true_1. split; [done|].
      intros _ Heq. by rewrite Heq in Hlen.
    + intros _. split; [done|]. intros _ Heq. apply Hin. rewrite Heq. compute_done.
Qed.

Lemma pushSource_nonempty (es : list edge) (inc : gmap string (list string)) :
  (∀ k l, inc !! k = Some l → l ≠ []) →
  ∀ k l, foldl pushSource inc es !! k = Some l → l ≠ [].
Proof.
  revert inc. induction es as [|e es IH]; intros inc Hinc; [done|].
  cbn [foldl]. apply IH. intros k l. unfold pushSource.
  destruct (decide (k = target e)) as [->|Hne].
  - rewrite lookup_insert_eq. intros [= <-]. by destruct (default [] _).
  - rewrite lookup_insert_ne by done. apply Hinc.
Qed.

Lemma roots_fold_lookup rootNodes (m0 : gmap string nat) (id : string) :
  (∀ n, n ∈ rootNodes → node_id n ≠ "__proto__") →
  foldl (λ m n, setMember (node_id n) 0 m) m0 rootNodes !! id
  = if decide (id ∈ node_id <$> rootNodes) then Some 0 else m0 !! id.
Proof.
  revert m0. induction rootNodes as [|n l IH]; intros m0 Hplain.
  - rewrite decide_False; [done|]. rewrite fmap_nil. by intros ?%elem_of_nil.
  - cbn [foldl]. rewrite IH, fmap_cons by (intros n' Hn'; by apply Hplain, list_elem_of_further).
    rewrite setMember_insert by apply Hplain, list_elem_of_here.
    destruct (decide (id ∈ node_id <$> l)) as [Hin|Hnin].
    + rewrite decide_True; [done|]. by apply list_elem_of_further.
    + destruct (decide (id = node_id n)) as [->|Hne].
      * rewrite lookup_insert_eq, decide_True; [done|]. apply list_elem_of_here.
      * rewrite lookup_insert_ne by done. rewrite decide_False; [done|].
        intros [?|?]%elem_of_cons; done.
Qed.

Lemma rowZero_no_incoming (nodes : list node) (edges : list edge) n e :
  n ∈ rowZero nodes edges → e ∈ edges → target e ≠ node_id n.
Proof.
  unfold rowZero, layoutRoots. intros [Hinc _]%list_elem_of_filter He Ht.
  apply isLayoutRoot_spec in Hinc as [Hinc _].
  rewrite sourceLists_lookup in Hinc.
  assert (source e ∈ source <$> filter (λ e', target e' = node_id n) edges) as Hin.
  { apply list_elem_of_fmap_2, list_elem_of_filter. done. }
  rewrite Hinc in Hin. by apply elem_of_nil in Hin.
Qed.

Lemma rowZero_not_proto (nodes : list node) (edges : list edge) n :
  n ∈ rowZero nodes edges → node_id n ≠ "__proto__".
Proof.
  unfold rowZero, layoutRoots. intros [Hinc _]%list_elem_of_filter.
  apply isLayoutRoot_spec in Hinc as [Hnil Hnone].
  destruct (sourceLists edges !! node_id n) as [l|] eqn:E; [|by apply Hnone].
  simpl in Hnil. subst l. exfalso.
  assert (Hne : ∀ k l, (∅ : gmap string (list string)) !! k = Some l → l ≠ [])
    by (intros k l; by rewrite lookup_empty).
  by apply (pushSource_nonempty edges ∅ Hne _ _ E).
Qed.

Lemma layoutStart_OK (nodes : list node) (edges : list edge) :
  loopOK edges 0 (layoutStart (rowZero nodes edges)).
Proof.
  pose proof (rowZero_no_incoming nodes edges) as Hroot.
  pose proof (rowZero_not_proto nodes edges) as Hplain.
  destruct (rowZero nodes edges) as [|n0 l] eqn:Hl.
  - split_and!; simpl; [lia|..].
    + intros id. rewrite lookup_empty. split; [set_solver|by intros [? ?]].
    + intros id r. by rewrite lookup_empty.
    + intros e rv _. by rewrite lookup_empty.
  - unfold layoutStart. split_and!; cbn [rows placed nodeToRow]; [simpl; lia|..].
    + intros id. rewrite elem_of_list_to_set, roots_fold_lookup by done.
      case_decide; [|rewrite lookup_empty]; split; try done.
      all: try (by eexists); try (by intros [? ?]).
    + intros id r. rewrite roots_fold_lookup by done.
      case_decide as Hin; [|by rewrite lookup_empty].
      intros [= <-]. by exists (node_id <$> n0 :: l).
    + intros e rv He. rewrite roots_fold_lookup by done.
      case_decide as Hin; [|by rewrite lookup_empty].
      apply list_elem_of_fmap in Hin as (n & Hid & Hn).
      by destruct (Hroot n e Hn He).
Qed.

Lemma trailingOK_start st0 :
  placedOK (placed st0) (nodeToRow st0) → trailingOK st0 st0.
Proof.
  intros Hplaced. split_and!; [done|done|done|].
  intros id r Hnot Hr. exfalso. apply Hnot, Hplaced. by eexists.
Qed.

Lemma trailingStep_OK st0 st n :
  trailingOK st0 st → trailingOK st0 (trailingStep st n).
Proof.
  intros (Hpl & Hpre & Hold & Hnew). unfold trailingStep.
  case_decide as Hin; [done|]. rewrite Hpl in Hin.
  unfold setMember. destruct (decide (node_id n = "__proto__")) as [Hproto|Hproto].
  { split_and!; simpl.
    - done.
    - etrans; [exact Hpre|]. by apply prefix_app_r.
    - done.
    - intros id r Hid Hr. destruct (Hnew id r Hid Hr) as [Hrow Hle]. split; [|done].
      by apply lookup_app_l_Some. }
  split_and!; simpl.
  - done.
  - etrans; [exact Hpre|]. by apply prefix_app_r.
  - intros id Hid. rewrite lookup_insert_ne by (intros <-; done). by apply Hold.
  - intros id r Hid. destruct (decide (id = node_id n)) as [->|Hne].
    + rewrite lookup_insert_eq. intros [= <-]. split.
      * rewrite lookup_app_r by lia. by rewrite Nat.sub_diag.
      * by apply prefix_length.
    + rewrite lookup_insert_ne by done. intros Hr.
      destruct (Hnew id r Hid Hr) as [Hrow Hle]. split; [|done].
      by apply lookup_app_l_Some.
Qed.

Lemma trailing_fold_OK st0 st (l : list node) :
  trailingOK st0 st → trailingOK st0 (foldl trailingStep st l).
Proof.
  revert st. induction l as [|n l IH]; intros st Hok; [done|].
  simpl. by apply IH, trailingStep_OK.
Qed.

Lemma trailingStep_keeps st n (id : string) :
  is_Some (nodeToRow st !! id) → is_Some (nodeToRow (trailingStep st n) !! id).
Proof.
  unfold trailingStep. case_decide; [done|]. simpl.
  unfold setMember. case_decide; [done|].
  destruct (decide (id = node_id n)) as [->|Hne].
  - rewrite lookup_insert_eq. by eexists.
  - by rewrite lookup_insert_ne.
Qed.

Lemma trailing_fold_keeps st (l : list node) (id : string) :
  is_Some (nodeToRow st !! id) → is_Some (nodeToRow (foldl trailingStep st l) !! id).
Proof.
  revert st. induction l as [|n l IH]; intros st Hsome; [done|].
  simpl. by apply IH, trailingStep_keeps.
Qed.

Lemma trailing_fold_assigns st (l : list node) n :
  n ∈ l → node_id n ∉ placed st → node_id n ≠ "__proto__" →
  is_Some (nodeToRow (foldl trailingStep st l) !! node_id n).
Proof.
  revert st. induction l as [|n' l IH]; intros st Hin Hnot Hproto;
    [by apply elem_of_nil in Hin|].
  simpl. apply elem_of_cons in Hin as [->|Hin].
  - apply trailing_fold_keeps. unfold trailingStep.
    rewrite decide_False by done. simpl.
    rewrite setMember_insert, lookup_insert_eq by done. by eexists.
  - apply IH; [done| |done]. unfold trailingStep. by case_decide.
Qed.

End Trailing.

(** ** The rows of the code and the rows without inherited names *)

Section FaithfulRows.
Implicit Types (e : edge) (edges es : list edge) (st : layoutState) (ps : passState)
  (o i : gmap string (list string)) (c : nat) (t id : string) (row : list string).

Lemma pushTarget_keys es o k :
  (∀ e, e ∈ es → source e ≠ k) → foldl pushTarget o es !! k = o !! k.
Proof.
  revert o. induction es as [|e es IH]; intros o Hes; [done|].
  cbn [foldl]. rewrite IH by (intros e' He'; by apply Hes, list_elem_of_further).
  unfold pushTarget. rewrite lookup_insert_ne; [done|]. apply Hes, list_elem_of_here.
Qed.

Lemma pushSource_keys es i k :
  (∀ e, e ∈ es → target e ≠ k) → foldl pushSource i es !! k = i !! k.
Proof.
  revert i. induction es as [|e es IH]; intros i Hes; [done|].
  cbn [foldl]. rewrite IH by (intros e' He'; by apply Hes, list_elem_of_further).
  unfold pushSource. rewrite lookup_insert_ne; [done|]. apply Hes, list_elem_of_here.
Qed.

Lemma plain_targetLists edges k :
  plainEdges edges → k ∈ protoNames → targetLists edges !! k = None.
Proof.
  intros Hplain Hk. unfold targetLists. rewrite pushTarget_keys; [done|].
  intros e He Heq. apply (proj1 (Hplain e He)). by rewrite Heq.
Qed.

Lemma plain_sourceLists edges k :
  plainEdges edges → k ∈ protoNames → sourceLists edges !! k = None.
Proof.
  intros Hplain Hk. unfold sourceLists. rewrite pushSource_keys; [done|].
  intros e He Heq. apply (proj2 (Hplain e He)). by rewrite Heq.
Qed.

Lemma proto_in_protoNames : "__proto__" ∈ protoNames.
Proof. compute_done. Qed.

Lemma forEach_edgePush es o i :
  (∀ k, k ∈ protoNames → o !! k = None ∧ i !! k = None) →
  forEach edgePush es (o, i)
  = if decide (plainEdges es) then Returns (foldl pushTarget o es, foldl pushSource i es)
    else Throws.
Proof.
  revert o i. induction es as [|e es IH]; intros o i Hoi.
  - rewrite decide_True; [done|]. by intros e ?%elem_of_nil.
  - cbn [forEach foldl]. unfold edgePush. cbn [fst snd].
    destruct (decide (source e ∈ protoNames)) as [Hs|Hs].
    { rewrite arrayAt_inherited by (done || by apply Hoi).
      rewrite decide_False; [done|]. intros Hplain.
      by apply (proj1 (Hplain e (list_elem_of_here _ _))). }
    rewrite arrayAt_plain by done.
    destruct (decide (target e ∈ protoNames)) as [Ht|Ht].
    { rewrite arrayAt_inherited by (done || by apply Hoi).
      rewrite decide_False; [done|]. intros Hplain.
      by apply (proj2 (Hplain e (list_elem_of_here _ _))). }
    rewrite arrayAt_plain by done.
    change (<[source e := default [] (o !! source e) ++ [target e]]> o)
      with (pushTarget o e).
    change (<[target e := default [] (i !! target e) ++ [source e]]> i)
      with (pushSource i e).
    rewrite IH.
    + destruct (decide (plainEdges es)) as [Hp|Hp].
      * rewrite decide_True; [done|].
        intros e' [->|He']%elem_of_cons; [done|by apply Hp].
      * rewrite decide_False; [done|]. intros Hplain. apply Hp.
        intros e' He'. by apply Hplain, list_elem_of_further.
    + intros k Hk. unfold pushTarget, pushSource.
      rewrite !lookup_insert_ne by (intros <-; done). by apply Hoi.
Qed.

Lemma edgeMaps_spec edges :
  edgeMaps edges
  = if decide (plainEdges edges) then Returns (targetLists edges, sourceLists edges)
    else Throws.
Proof. unfold edgeMaps. by rewrite forEach_edgePush. Qed.

Lemma edgeMaps_plain edges :
  plainEdges edges → edgeMaps edges = Returns (targetLists edges, sourceLists edges).
Proof. intros Hplain. by rewrite edgeMaps_spec, decide_True. Qed.

Lemma edgeMaps_Returns edges o i :
  edgeMaps edges = Returns (o, i) →
  plainEdges edges ∧ o = targetLists edges ∧ i = sourceLists edges.
Proof. rewrite edgeMaps_spec. case_decide; [|done]. by intros [= <- <-]. Qed.

Lemma admitTarget_cases i c ps t :
  i !! "__proto__" = None →
  admitTarget i c ps t = Returns (placeTarget i c ps t) ∨ admitTarget i c ps t = Throws.
Proof.
  intros Hi. unfold admitTarget, placeTarget. case_decide; [by left|].
  unfold arrayAt, getMember. destruct (i !! t) as [l|] eqn:E; cbn [default].
  - left. rewrite setMember_insert by (intros ->; by rewrite Hi in E).
    by destruct (decide _).
  - case_decide as Hin; [by right|]. left.
    rewrite setMember_insert; [by destruct (decide _)|].
    intros ->. apply Hin, proto_in_protoNames.
Qed.

Lemma admitTarget_plain i c ps t :
  t ∉ protoNames → admitTarget i c ps t = Returns (placeTarget i c ps t).
Proof.
  intros Ht. unfold admitTarget, placeTarget. case_decide; [done|].
  rewrite arrayAt_plain by done.
  rewrite setMember_insert by (intros ->; apply Ht, proto_in_protoNames).
  by case_decide.
Qed.

Lemma forEach_placeTarget_cases i c (l : list string) ps :
  i !! "__proto__" = None →
  forEach (admitTarget i c) l ps = Returns (foldl (placeTarget i c) ps l) ∨
  forEach (admitTarget i c) l ps = Throws.
Proof.
  intros Hi. revert ps. induction l as [|t l IH]; intros ps; [by left|].
  cbn [forEach foldl].
  destruct (admitTarget_cases i c ps t Hi) as [-> | ->]; [apply IH|by right].
Qed.

Lemma forEach_placeTarget_plain i c (l : list string) ps :
  (∀ t, t ∈ l → t ∉ protoNames) →
  forEach (admitTarget i c) l ps = Returns (foldl (placeTarget i c) ps l).
Proof.
  revert ps. induction l as [|t l IH]; intros ps Hl; [done|].
  cbn [forEach foldl]. rewrite admitTarget_plain by apply Hl, list_elem_of_here.
  apply IH. intros t' Ht'. by apply Hl, list_elem_of_further.
Qed.

Lemma rowTargets_cons o id row :
  rowTargets o (id :: row) = default [] (o !! id) ++ rowTargets o row.
Proof. reflexivity. Qed.

Lemma forEach_visit_cases o i c row ps :
  i !! "__proto__" = None →
  forEach (visitTargets o i c) row ps
  = Returns (foldl (placeTarget i c) ps (rowTargets o row)) ∨
  forEach (visitTargets o i c) row ps = Throws.
Proof.
  intros Hi. revert ps. induction row as [|id row IH]; intros ps; [by left|].
  cbn [forEach]. rewrite rowTargets_cons, foldl_app. unfold visitTargets at 1 3.
  destruct (arrayAt o id) as [targets|] eqn:E; [|by right].
  apply arrayAt_Returns in E as ->.
  destruct (forEach_placeTarget_cases i c (default [] (o !! id)) ps Hi) as [-> | ->];
    [apply IH|by right].
Qed.

Lemma forEach_visit_plain o i c row ps :
  (∀ id, id ∈ row → id ∉ protoNames) →
  (∀ k l t, o !! k = Some l → t ∈ l → t ∉ protoNames) →
  forEach (visitTargets o i c) row ps
  = Returns (foldl (placeTarget i c) ps (rowTargets o row)).
Proof.
  intros Hrow Ho. revert ps. induction row as [|id row IH]; intros ps; [done|].
  cbn [forEach]. rewrite rowTargets_cons, foldl_app. unfold visitTargets at 1.
  rewrite arrayAt_plain by apply Hrow, list_elem_of_here.
  rewrite forEach_placeTarget_plain.
  - apply IH. intros id' Hid'. by apply Hrow, list_elem_of_further.
  - intros t Ht. destruct (o !! id) as [l|] eqn:E; [by eapply Ho|].
    by apply elem_of_nil in Ht.
Qed.

Lemma layerPass_cases o i c row st :
  i !! "__proto__" = None →
  layerPass o i c row st = Returns (rowPass o i c row st) ∨
  layerPass o i c row st = Throws.
Proof.
  intros Hi. unfold layerPass, rowPass.
  destruct (forEach_visit_cases o i c row
              {| pass_visited := placed st; nextRowNodes := [];
                 pass_nodeToRow := nodeToRow st |} Hi) as [-> | ->];
    [by left|by right].
Qed.

Lemma layerPass_plain o i c row st :
  (∀ id, id ∈ row → id ∉ protoNames) →
  (∀ k l t, o !! k = Some l → t ∈ l → t ∉ protoNames) →
  layerPass o i c row st = Returns (rowPass o i c row st).
Proof.
  intros Hrow Ho. unfold layerPass, rowPass. by rewrite forEach_visit_plain.
Qed.

Lemma layerLoop_cases fuel o i c st res :
  i !! "__proto__" = None →
  rowPasses fuel o i c st = Some res →
  layerLoop fuel o i c st = Some (Returns res) ∨
  layerLoop fuel o i c st = Some Throws.
Proof.
  intros Hi. revert c st. induction fuel as [|fuel IH]; intros c st Hres.
  - simpl in *. destruct (rows st !! c); [done|]. left. congruence.
  - simpl in *. destruct (rows st !! c) as [row|]; [|left; congruence].
    destruct (layerPass_cases o i c row st Hi) as [-> | ->]; [by apply IH|by right].
Qed.

Lemma layerLoop_Returns fuel o i c st res :
  i !! "__proto__" = None →
  layerLoop fuel o i c st = Some (Returns res) →
  rowPasses fuel o i c st = Some res.
Proof.
  intros Hi. revert c st. induction fuel as [|fuel IH]; intros c st Hres.
  - simpl in *. destruct (rows st !! c); [done|]. congruence.
  - simpl in *. destruct (rows st !! c) as [row|]; [|congruence].
    destruct (layerPass_cases o i c row st Hi) as [Hp|Hp]; rewrite Hp in Hres;
      [by apply IH|done].
Qed.

Lemma layerLoop_fuel fuel fuel' o i c st out :
  layerLoop fuel o i c st = Some out → fuel ≤ fuel' →
  layerLoop fuel' o i c st = Some out.
Proof.
  revert fuel' c st. induction fuel as [|fuel IH]; intros fuel' c st Hres Hle.
  - simpl in Hres. destruct (rows st !! c) eqn:Hrow; [done|].
    destruct fuel'; simpl; by rewrite Hrow.
  - destruct fuel' as [|fuel']; [lia|]. simpl in *.
    destruct (rows st !! c); [|done].
    destruct (layerPass o i c l st); [|done]. apply IH; [done|lia].
Qed.

(** The ids the loop puts into new rows are targets of the dictionary. *)
Lemma placeTarget_fold_next i c (l : list string) ps t :
  t ∈ nextRowNodes (foldl (placeTarget i c) ps l) → t ∈ nextRowNodes ps ∨ t ∈ l.
Proof.
  revert ps. induction l as [|t' l IH]; intros ps Ht; [by left|].
  cbn [foldl] in Ht. apply IH in Ht as [Ht|Ht]; [|right; by apply list_elem_of_further].
  unfold placeTarget in Ht. repeat case_decide; try (by left).
  cbn [nextRowNodes] in Ht. apply elem_of_app in Ht as [Ht|Ht]; [by left|].
  apply list_elem_of_singleton in Ht as ->. right. apply list_elem_of_here.
Qed.

Lemma rowPass_rows o i c row st r id :
  r ∈ rows (rowPass o i c row st) → id ∈ r →
  r ∈ rows st ∨ ∃ k l, o !! k = Some l ∧ id ∈ l.
Proof.
  unfold rowPass. cbn [rows].
  set (ps := foldl _ _ _). intros Hr Hid.
  assert (Hnext : ∀ t, t ∈ nextRowNodes ps → ∃ k l, o !! k = Some l ∧ t ∈ l).
  { intros t Ht. apply placeTarget_fold_next in Ht as [Ht|Ht]; [by apply elem_of_nil in Ht|].
    unfold rowTargets in Ht. apply list_elem_of_bind in Ht as (k & Ht & _).
    destruct (o !! k) as [l|] eqn:E; [by exists k, l|by apply elem_of_nil in Ht]. }
  destruct (nextRowNodes ps) as [|x l] eqn:E; [by left|].
  apply elem_of_app in Hr as [Hr|Hr]; [by left|].
  apply list_elem_of_singleton in Hr as ->. right. by apply Hnext.
Qed.

Lemma layerLoop_plain fuel o i c st :
  (∀ k l t, o !! k = Some l → t ∈ l → t ∉ protoNames) →
  (∀ r id, r ∈ rows st → id ∈ r → id ∉ protoNames) →
  layerLoop fuel o i c st = Returns <$> rowPasses fuel o i c st.
Proof.
  intros Ho. revert c st. induction fuel as [|fuel IH]; intros c st Hst.
  - simpl. by destruct (rows st !! c).
  - simpl. destruct (rows st !! c) as [row|] eqn:Hrow; [|done].
    rewrite layerPass_plain;
      [|intros id; apply Hst; by eapply list_elem_of_lookup_2|done].
    apply IH. intros r id Hr Hid.
    destruct (rowPass_rows o i c row st r id Hr Hid) as [Hold|(k & l & Hk & Hl)];
      [by eapply Hst|by eapply Ho].
Qed.

Lemma rowPasses_rows fuel o i c st res r id :
  rowPasses fuel o i c st = Some res → r ∈ rows res → id ∈ r →
  r ∈ rows st ∨ ∃ k l, o !! k = Some l ∧ id ∈ l.
Proof.
  revert c st. induction fuel as [|fuel IH]; intros c st Hres Hr Hid.
  - simpl in Hres. destruct (rows st !! c); [done|]. injection Hres as <-. by left.
  - simpl in Hres. destruct (rows st !! c) as [row|]; [|injection Hres as <-; by left].
    destruct (IH _ _ Hres Hr Hid) as [Hin|?]; [|by right].
    by apply (rowPass_rows o i c row st r id).
Qed.

Lemma targetLists_members edges k l t :
  targetLists edges !! k = Some l → t ∈ l → t ∈ target <$> edges.
Proof. apply adjacencyOf_targets. Qed.

Lemma plain_targets edges k l t :
  plainEdges edges → targetLists edges !! k = Some l → t ∈ l → t ∉ protoNames.
Proof. apply plain_adjacencyOf. Qed.

Lemma trailing_fold_rows st (l : list node) r id :
  r ∈ rows (foldl trailingStep st l) → id ∈ r →
  r ∈ rows st ∨ id ∈ node_id <$> l.
Proof.
  revert st. induction l as [|n l IH]; intros st Hr Hid; [by left|].
  cbn [foldl] in Hr. destruct (IH _ Hr Hid) as [Hin|Hin].
  - unfold trailingStep in Hin. case_decide; [by left|]. cbn [rows] in Hin.
    apply elem_of_app in Hin as [Hin|Hin]; [by left|].
    apply list_elem_of_singleton in Hin as ->.
    apply list_elem_of_singleton in Hid as ->. right. rewrite fmap_cons.
    apply list_elem_of_here.
  - right. rewrite fmap_cons. by apply list_elem_of_further.
Qed.

Lemma rowZero_plain nodes edges n :
  plainEdges edges →
  (∀ n, n ∈ nonChildNodes nodes → ¬ throwingRoot (node_id n)) →
  n ∈ rowZero nodes edges → node_id n ∉ protoNames.
Proof.
  intros Hplain Hfree. unfold rowZero, layoutRoots.
  intros [Hroot Hn]%list_elem_of_filter Hin.
  unfold isLayoutRoot, getMember in Hroot.
  rewrite plain_sourceLists, decide_True in Hroot by done.
  apply bool_decide_eq_true_1 in Hroot. apply (Hfree n Hn).
  unfold throwingRoot. unfold inheritedLength in Hroot.
  repeat case_decide; done.
Qed.

Lemma layoutStart_rows (roots : list node) r id :
  r ∈ rows (layoutStart roots) → id ∈ r → id ∈ node_id <$> roots.
Proof.
  unfold layoutStart. destruct roots as [|n l]; [by intros ?%elem_of_nil|].
  cbn [rows]. by intros ->%list_elem_of_singleton.
Qed.

Lemma layeredRows_Returns fuel nodes edges st :
  layeredRows fuel nodes edges = Some (Returns st) →
  plainEdges edges ∧ loopRows fuel nodes edges = Some st.
Proof.
  unfold layeredRows, loopRows.
  destruct (edgeMaps edges) as [[o i]|] eqn:E; [|done].
  apply edgeMaps_Returns in E as (Hplain & -> & ->). intros Hrun.
  split; [done|]. apply layerLoop_Returns; [|done].
  apply plain_sourceLists; [done|apply proto_in_protoNames].
Qed.

Lemma layoutRows_Returns fuel nodes edges fin :
  layoutRows fuel nodes edges = Some (Returns fin) →
  plainEdges edges ∧
  ∃ st, layeredRows fuel nodes edges = Some (Returns st) ∧
        loopRows fuel nodes edges = Some st ∧
        fin = foldl trailingStep st (nonChildNodes nodes).
Proof.
  unfold layoutRows.
  destruct (layeredRows fuel nodes edges) as [[st|]|] eqn:E; [|done..].
  intros [= <-]. apply layeredRows_Returns in E as [Hplain Hloop].
  split; [done|]. by exists st.
Qed.

Lemma layeredRows_cases nodes edges st :
  (∀ extra, loopRows (layoutFuel edges + extra) nodes edges = Some st) →
  ∃ out, (∀ extra, layeredRows (layoutFuel edges + extra) nodes edges = Some out) ∧
         (out = Returns st ∨ out = Throws).
Proof.
  intros Hloop. unfold layeredRows. rewrite edgeMaps_spec.
  case_decide as Hplain; [|exists Throws; by split; [|right]].
  assert (Hi : sourceLists edges !! "__proto__" = None)
    by (apply plain_sourceLists; [done|apply proto_in_protoNames]).
  destruct (layerLoop_cases _ _ _ _ _ _ Hi (Hloop 0)) as [Hout|Hout].
  - exists (Returns st). split; [|by left].
    intros extra. eapply layerLoop_fuel; [exact Hout|lia].
  - exists Throws. split; [|by right].
    intros extra. eapply layerLoop_fuel; [exact Hout|lia].
Qed.

Lemma layeredRows_plain fuel nodes edges :
  plainEdges edges →
  (∀ n, n ∈ nonChildNodes nodes → ¬ throwingRoot (node_id n)) →
  layeredRows fuel nodes edges = Returns <$> loopRows fuel nodes edges.
Proof.
  intros Hplain Hfree. unfold layeredRows, loopRows. rewrite edgeMaps_plain by done.
  apply layerLoop_plain.
  - intros k l t. by apply plain_targets.
  - intros r id Hr Hid.
    apply (layoutStart_rows _ r id Hr) in Hid.
    apply list_elem_of_fmap in Hid as (n & -> & Hn). by eapply rowZero_plain.
Qed.

Lemma layoutRows_plain fuel nodes edges :
  plainEdges edges →
  (∀ n, n ∈ nonChildNodes nodes → ¬ throwingRoot (node_id n)) →
  layoutRows fuel nodes edges = Returns <$> allRows fuel nodes edges.
Proof.
  intros Hplain Hfree. unfold layoutRows, allRows.
  rewrite layeredRows_plain by done. by destruct (loopRows fuel nodes edges).
Qed.

End FaithfulRows.

(** C7 (amended).  [layoutRows] comes to an end on every sheet, by returning
    the rows or by throwing; it returns them when no edge begins or ends at
    an id that is a name inherited from [Object.prototype] and no free node
    is called [toString], [toLocaleString] or [valueOf].  Whenever it returns
    them, for every edge between two free nodes: if the loop placed the
    target, the source is placed too, in the same row or a row above
    ([row u <= row v]), and the target is not in row 0; if the loop did not
    place the target, it sits alone in a trailing row after all rows of the
    loop. *)
Theorem layout_rows_follow_edges (nodes : list node) (edges : list edge) :
  ∃ out,
    (∀ extra, layoutRows (layoutFuel edges + extra) nodes edges = Some out) ∧
    (plainEdges edges →
     (∀ n, n ∈ nonChildNodes nodes →
           node_id n ∉ ["toString"; "toLocaleString"; "valueOf"]) →
     ∃ fin, out = Returns fin) ∧
    ∀ fin, out = Returns fin →
      ∃ st,
        (∀ extra, layeredRows (layoutFuel edges + extra) nodes edges
                  = Some (Returns st)) ∧
        placed fin = placed st ∧
        rows st `prefix_of` rows fin ∧
        ∀ e u v,
          e ∈ edges → u ∈ nonChildNodes nodes → v ∈ nonChildNodes nodes →
          node_id u = source e → node_id v = target e →
          (node_id v ∈ placed fin ∧
           ∃ ru rv row,
             nodeToRow fin !! node_id u = Some ru ∧
             nodeToRow fin !! node_id v = Some rv ∧
             ru ≤ rv ∧ 1 ≤ rv ∧
             rows fin !! rv = Some row ∧ node_id v ∈ row)
          ∨
          ((node_id v ∉ placed fin) ∧
           ∃ r, nodeToRow fin !! node_id v = Some r ∧
                rows fin !! r = Some [node_id v] ∧
                length (rows st) ≤ r).
Proof.
  pose proof (layoutStart_OK nodes edges) as Hstart.
  destruct (rowPasses_terminates edges (layoutFuel edges) 0
              (layoutStart (rowZero nodes edges))) as [st Hrun].
  { by destruct Hstart. }
  { destruct Hstart as [Hlen _]. unfold layoutFuel.
    pose proof (length_filter (λ e, target e ∉ placed (layoutStart (rowZero nodes edges))) edges).
    unfold unplaced. lia. }
  destruct (rowPasses_OK edges _ _ _ _ Hrun Hstart)
    as (_ & c' & _ & Hplaced & Hrows & Hedges).
  pose proof (trailing_fold_OK st st (nonChildNodes nodes) (trailingOK_start st Hplaced))
    as (Hpl & Hpre & Hold & Hnew).
  assert (∀ extra, loopRows (layoutFuel edges + extra) nodes edges = Some st) as Hall.
  { intros extra. unfold loopRows. eapply rowPasses_more_fuel; [exact Hrun|lia]. }
  destruct (layeredRows_cases nodes edges st Hall) as (out0 & Hlayered & Hout0).
  exists (match out0 with
          | Returns st' => Returns (foldl trailingStep st' (nonChildNodes nodes))
          | Throws => Throws
          end).
  split_and!.
  - intros extra. unfold layoutRows. rewrite Hlayered. by destruct out0.
  - intros Hplain Hfree. specialize (Hlayered 0).
    rewrite layeredRows_plain, Hall in Hlayered by done.
    injection Hlayered as <-. by eexists.
  - intros fin Hfin. destruct Hout0 as [-> | ->]; [|done]. injection Hfin as <-.
    exists st. split_and!; [done..|].
    assert (Hplain : plainEdges edges).
    { by destruct (layeredRows_Returns _ _ _ _ (Hlayered 0)). }
    intros e u v He Hu Hv Hsrc Htgt. rewrite Hpl.
    destruct (decide (node_id v ∈ placed st)) as [Hin|Hnot].
    + left. split; [done|].
      pose proof Hin as [rv Hrv]%Hplaced.
      rewrite Htgt in Hrv. destruct (Hedges e rv He Hrv) as (ru & Hru & Hle & Hpos).
      destruct (Hrows _ _ Hrv) as (row & Hrow & Hmem).
      assert (source e ∈ placed st) as Hsin by (apply Hplaced; by eexists).
      exists ru, rv, row. rewrite Hsrc, Htgt.
      rewrite (Hold _ Hsin), Hold by (by rewrite <- Htgt).
      split_and!; try done.
      by eapply prefix_lookup_Some.
    + right. split; [done|].
      destruct (trailing_fold_assigns st (nonChildNodes nodes) v Hv Hnot) as [r Hr].
      { rewrite Htgt. intros Heq. apply (proj2 (Hplain e He)). rewrite Heq.
        apply proto_in_protoNames. }
      exists r. split; [done|]. by apply Hnew.
Qed.

Lemma layout_rows_follow_edges_witness :
  ∃ fin, layoutRows (layoutFuel triangleEdges + 0) triangleNodes triangleEdges
         = Some (Returns fin) ∧
    ((node_id (promptNode "v" "second") ∈ placed fin ∧
      ∃ ru rv row,
        nodeToRow fin !! node_id (promptNode "u" "first") = Some ru ∧
        nodeToRow fin !! node_id (promptNode "v" "second") = Some rv ∧
        ru ≤ rv ∧ 1 ≤ rv ∧
        rows fin !! rv = Some row ∧ node_id (promptNode "v" "second") ∈ row)
     ∨
     ((node_id (promptNode "v" "second") ∉ placed fin) ∧
      ∃ r, nodeToRow fin !! node_id (promptNode "v" "second") = Some r ∧
           rows fin !! r = Some [node_id (promptNode "v" "second")])).
Proof.
  destruct (layout_rows_follow_edges triangleNodes triangleEdges)
    as (out & Hout & Hret & Hedge).
  destruct Hret as [fin ->].
  { intros e He. unfold triangleEdges in He.
    repeat (apply elem_of_cons in He as [->|He]; [split; compute_done|]).
    by apply elem_of_nil in He. }
  { intros n Hn. change (nonChildNodes triangleNodes) with triangleNodes in Hn.
    unfold triangleNodes in Hn.
    repeat (apply elem_of_cons in Hn as [->|Hn]; [compute_done|]).
    by apply elem_of_nil in Hn. }
  exists fin. split; [apply Hout|].
  destruct (Hedge fin eq_refl) as (st & _ & _ & _ & Hprop).
  destruct (Hprop (mkEdge "e3" "u" "v" None) (promptNode "u" "first")
              (promptNode "v" "second")) as [Hplaced|(Hnot & r & Hr & Hrow & _)].
  - compute_done.
  - change (nonChildNodes triangleNodes) with triangleNodes.
    apply list_elem_of_further, list_elem_of_here.
  - change (nonChildNodes triangleNodes) with triangleNodes.
    do 2 apply list_elem_of_further. apply list_elem_of_here.
  - reflexivity.
  - reflexivity.
  - by left.
  - right. eauto.
Defined.

(** ** Routing of short edges *)

Section Router.
Local Open Scope R_scope.

Lemma Rltb_true (a b : R) : a < b → Rltb a b = true.
Proof. intros H. unfold Rltb. by destruct (Rlt_dec a b). Qed.

Lemma Rltb_false (a b : R) : ¬ a < b → Rltb a b = false.
Proof. intros H. unfold Rltb. by destruct (Rlt_dec a b). Qed.

Lemma offset_positive (d : R) : 0 < Rmax 30 (d * (3 / 10)).
Proof. pose proof (Rmax_l 30 (d * (3 / 10))). lra. Qed.

Lemma getSmartPath_close (sourceX sourceY targetX targetY : R) (sp tp : handleSide) :
  sqrt ((targetX - sourceX) * (targetX - sourceX)
        + (targetY - sourceY) * (targetY - sourceY)) < 100 →
  getSmartPath sourceX sourceY targetX targetY sp tp
  = Quadratic {| pos_x := sourceX; pos_y := sourceY |}
      {| pos_x := (sourceX + targetX) / 2
                  + (if Rltb 0 (targetX - sourceX)
                     then - Rmax 30 (sqrt ((targetX - sourceX) * (targetX - sourceX)
                                           + (targetY - sourceY) * (targetY - sourceY))
                                     * (3 / 10))
                     else Rmax 30 (sqrt ((targetX - sourceX) * (targetX - sourceX)
                                         + (targetY - sourceY) * (targetY - sourceY))
                                   * (3 / 10)));
         pos_y := (sourceY + targetY) / 2 |}
      {| pos_x := targetX; pos_y := targetY |}.
Proof. intros Hclose. unfold getSmartPath. by rewrite (Rltb_true _ _ Hclose). Qed.

Lemma sqrt_2500 : sqrt ((50 - 0) * (50 - 0) + (0 - 0) * (0 - 0)) = 50.
Proof.
  replace ((50 - 0) * (50 - 0) + (0 - 0) * (0 - 0)) with (50 * 50) by lra.
  apply sqrt_square. lra.
Qed.

End Router.

(** A short horizontal edge from (0,0) to (50,0): the control point is
    (-5,0), on the line through the endpoints; the shift from the midpoint
    (25,0) runs along the line, not at a right angle to it. *)
Lemma short_edge_shift_not_perpendicular :
  getSmartPath 0 0 50 0 Bottom Top
  = Quadratic {| pos_x := 0; pos_y := 0 |} {| pos_x := -5; pos_y := 0 |}
              {| pos_x := 50; pos_y := 0 |} ∧
  ((-5 - (0 + 50) / 2) * (50 - 0) + (0 - (0 + 0) / 2) * (0 - 0) = - 1500)%R ∧
  ¬ perpendicular (-5 - (0 + 50) / 2) (0 - (0 + 0) / 2) (50 - 0) (0 - 0).
Proof.
  split_and!.
  - rewrite getSmartPath_close by (rewrite sqrt_2500; lra).
    rewrite sqrt_2500, (Rltb_true 0 (50 - 0)) by lra.
    assert (Rmax 30 (50 * (3 / 10)) = 30)%R as -> by (apply Rmax_left; lra).
    f_equal. f_equal; lra.
  - lra.
  - unfold perpendicular. lra.
Qed.

(** C9 (amended).  When the endpoints are less than 100 apart the router
    returns a quadratic curve whose control point is the midpoint moved along
    the x axis by [max(30, dist * 0.3)]: to the left when [dx > 0], to the
    right otherwise.  That shift is at a right angle to the line through the
    endpoints only when [dx = 0]. *)
Theorem short_edge_control_point (sourceX sourceY targetX targetY : R)
    (sp tp : handleSide) :
  (sqrt ((targetX - sourceX) * (targetX - sourceX)
         + (targetY - sourceY) * (targetY - sourceY)) < 100)%R →
  ∃ control,
    getSmartPath sourceX sourceY targetX targetY sp tp
    = Quadratic {| pos_x := sourceX; pos_y := sourceY |} control
                {| pos_x := targetX; pos_y := targetY |} ∧
    pos_y control = ((sourceY + targetY) / 2)%R ∧
    ((0 < targetX - sourceX)%R →
     pos_x control
     = ((sourceX + targetX) / 2
        - Rmax 30 (sqrt ((targetX - sourceX) * (targetX - sourceX)
                         + (targetY - sourceY) * (targetY - sourceY)) * (3 / 10)))%R) ∧
    ((targetX - sourceX <= 0)%R →
     pos_x control
     = ((sourceX + targetX) / 2
        + Rmax 30 (sqrt ((targetX - sourceX) * (targetX - sourceX)
                         + (targetY - sourceY) * (targetY - sourceY)) * (3 / 10)))%R) ∧
    (perpendicular (pos_x control - (sourceX + targetX) / 2)
                   (pos_y control - (sourceY + targetY) / 2)
                   (targetX - sourceX) (targetY - sourceY)
     ↔ (targetX - sourceX = 0)%R).
Proof.
  intros Hclose. eexists. split; [by apply getSmartPath_close|]. simpl.
  pose proof (offset_positive
                (sqrt ((targetX - sourceX) * (targetX - sourceX)
                       + (targetY - sourceY) * (targetY - sourceY)))) as Hoff.
  set (offset := Rmax 30 _) in *.
  split_and!.
  - done.
  - intros Hdx. rewrite Rltb_true by done. lra.
  - intros Hdx. rewrite Rltb_false by lra. lra.
  - unfold perpendicular. destruct (Rlt_dec 0 (targetX - sourceX)) as [Hdx|Hdx].
    + rewrite Rltb_true by done. split; [nra|lra].
    + rewrite Rltb_false by done. split; [nra|intros ->; lra].
Qed.

Lemma short_edge_control_point_witness :
  (sqrt ((50 - 0) * (50 - 0) + (0 - 0) * (0 - 0)) < 100)%R ∧
  ∃ control,
    getSmartPath 0 0 50 0 Bottom Top
    = Quadratic {| pos_x := 0; pos_y := 0 |} control {| pos_x := 50; pos_y := 0 |} ∧
    pos_y control = ((0 + 0) / 2)%R.
Proof.
  assert (sqrt ((50 - 0) * (50 - 0) + (0 - 0) * (0 - 0)) < 100)%R as Hclose
    by (rewrite sqrt_2500; lra).
  split; [exact Hclose|].
  destruct (short_edge_control_point 0 0 50 0 Bottom Top Hclose)
    as (control & Hpath & Hy & _).
  exists control. done.
Defined.

(** * Further properties of the code *)

(** ** The edge list under the other updates *)

Section EdgeUpdates.

Lemma toggleOne_idem i t e : toggleOne i t (toggleOne i t e) = toggleOne i t e.
Proof.
  unfold toggleOne.
  destruct (decide (target e = t ∧ edge_id e ≠ i)) as [H|H].
  - simpl. rewrite decide_True by done. reflexivity.
  - destruct (decide (edge_id e = i)) as [Hi|Hi].
    + simpl. rewrite decide_False by done. rewrite decide_True by done. reflexivity.
    + rewrite decide_False by done. rewrite decide_False by done. reflexivity.
Qed.

Lemma find_fmap_same {A} (p : A → bool) (f : A → A) (l : list A) :
  (∀ x, p (f x) = p x) → List.find p (f <$> l) = f <$> List.find p l.
Proof.
  intros Hp. induction l as [|x l IH]; [done|].
  rewrite fmap_cons. cbn [List.find]. rewrite Hp.
  destruct (p x); [done|]. apply IH.
Qed.

Lemma setActive_idem i es : setActive i (setActive i es) = setActive i es.
Proof.
  unfold setActive.
  destruct (List.find (λ e, String.eqb (edge_id e) i) es) as [e0|] eqn:E.
  - unfold handleToggleActive.
    rewrite (find_fmap_same (λ e, String.eqb (edge_id e) i)
               (toggleOne (edge_id e0) (target e0))).
    2:{ intros x. by rewrite toggleOne_id. }
    rewrite E. cbn [fmap option_fmap option_map].
    rewrite toggleOne_id, toggleOne_target, <- list_fmap_compose.
    apply list_fmap_ext. intros ? x _. apply toggleOne_idem.
  - by rewrite E.
Qed.

Lemma setActive_unknown i es :
  (∀ e, e ∈ es → edge_id e ≠ i) → setActive i es = es.
Proof.
  intros H. unfold setActive.
  destruct (List.find (λ e, String.eqb (edge_id e) i) es) as [e0|] eqn:E; [|done].
  apply find_edge_Some in E as [Hin Hid]. by destruct (H e0 Hin).
Qed.

Lemma setActive_clicked_active i es e :
  e ∈ setActive i es → edge_id e = i → active e = Some true.
Proof.
  unfold setActive.
  destruct (List.find (λ e, String.eqb (edge_id e) i) es) as [e0|] eqn:E.
  - apply find_edge_Some in E as [Hin Hid].
    unfold handleToggleActive. intros He Hi.
    apply list_elem_of_fmap in He as (x & -> & Hx).
    rewrite toggleOne_id in Hi. unfold toggleOne.
    rewrite decide_False by (rewrite Hid, Hi; tauto).
    rewrite decide_True by congruence. reflexivity.
  - intros He Hi. destruct (find_edge_None _ _ E e He Hi).
Qed.

Lemma setActive_endpoints i es :
  source <$> setActive i es = source <$> es ∧
  target <$> setActive i es = target <$> es ∧
  edge_color <$> setActive i es = edge_color <$> es.
Proof.
  unfold setActive.
  destruct (List.find (λ e, String.eqb (edge_id e) i) es) as [e0|]; [|done].
  unfold handleToggleActive. rewrite <- !list_fmap_compose.
  split_and!; apply list_fmap_ext; intros ? x _; simpl; unfold toggleOne;
    repeat case_decide; reflexivity.
Qed.

Lemma handleDeleteEdge_spec i es e :
  e ∈ handleDeleteEdge i es ↔ e ∈ es ∧ edge_id e ≠ i.
Proof. unfold handleDeleteEdge. rewrite list_elem_of_filter. tauto. Qed.

Lemma filter_filter_comm {A} (P Q : A → Prop)
    `{!∀ x, Decision (P x)} `{!∀ x, Decision (Q x)} (l : list A) :
  filter P (filter Q l) = filter Q (filter P l).
Proof.
  induction l as [|x l IH]; [done|].
  rewrite !filter_cons.
  destruct (decide (Q x)), (decide (P x));
    rewrite ?filter_cons, ?decide_True, ?decide_False by done; by rewrite ?IH.
Qed.

Lemma handleDeleteEdge_count i t es :
  activeCount t (handleDeleteEdge i es) ≤ activeCount t es.
Proof.
  unfold activeCount, handleDeleteEdge.
  rewrite filter_filter_comm. apply length_filter.
Qed.

Lemma adjacency_fmap_same (f : edge → edge) (es : list edge) adj :
  (∀ e, source (f e) = source e ∧ target (f e) = target e) →
  foldl pushTarget adj (f <$> es) = foldl pushTarget adj es.
Proof.
  intros Hf. revert adj. induction es as [|e es IH]; intros adj; [done|].
  rewrite fmap_cons. cbn [foldl]. rewrite IH. f_equal.
  unfold pushTarget. destruct (Hf e) as [-> ->]. done.
Qed.

End EdgeUpdates.

(** X1. Hitting the toggle of an edge twice does what hitting it once does:
    [setActive] never switches an edge off.  The edge that is hit ends up
    with [active = true]; an id that names no edge changes nothing; sources,
    targets and colours are never touched. *)
Theorem setActive_twice (edgeId : string) (edges : list edge) :
  setActive edgeId (setActive edgeId edges) = setActive edgeId edges ∧
  (∀ e, e ∈ setActive edgeId edges → edge_id e = edgeId → active e = Some true) ∧
  ((∀ e, e ∈ edges → edge_id e ≠ edgeId) → setActive edgeId edges = edges) ∧
  source <$> setActive edgeId edges = source <$> edges ∧
  target <$> setActive edgeId edges = target <$> edges ∧
  edge_color <$> setActive edgeId edges = edge_color <$> edges.
Proof.
  split_and!.
  - apply setActive_idem.
  - apply setActive_clicked_active.
  - apply setActive_unknown.
  - apply setActive_endpoints.
  - apply setActive_endpoints.
  - apply setActive_endpoints.
Qed.

(** X2. Deleting an edge with its delete button removes exactly the edges
    with that id and keeps the others as they are and in their order; the
    number of [active = true] edges into any node does not grow, so the
    branch invariant survives, and the inactive siblings of a deleted active
    edge stay inactive. *)
Theorem handleDelete_edge (id : string) (edges : list edge) :
  (∀ e, e ∈ handleDeleteEdge id edges ↔ e ∈ edges ∧ edge_id e ≠ id) ∧
  handleDeleteEdge id edges `sublist_of` edges ∧
  (∀ t, activeCount t (handleDeleteEdge id edges) ≤ activeCount t edges) ∧
  (branch_invariant edges → branch_invariant (handleDeleteEdge id edges)) ∧
  (NoDup (edge_id <$> edges) → NoDup (edge_id <$> handleDeleteEdge id edges)) ∧
  activeEdges (handleDeleteEdge id edges) = handleDeleteEdge id (activeEdges edges) ∧
  handleDeleteEdge id (handleDeleteEdge id edges) = handleDeleteEdge id edges.
Proof.
  split_and!.
  - apply handleDeleteEdge_spec.
  - apply sublist_filter.
  - intros t. apply handleDeleteEdge_count.
  - intros H t. etrans; [apply handleDeleteEdge_count|apply H].
  - intros H. eapply sublist_NoDup; [exact H|].
    apply fmap_sublist, sublist_filter.
  - unfold activeEdges, handleDeleteEdge. apply filter_filter_comm.
  - unfold handleDeleteEdge. apply list_filter_filter_l. tauto.
Qed.

(** ** Updating the data of a node *)

Section Update.

Lemma updateNodeData_edges_color nodeId c newData eds :
  patch_color newData = Some (Some c) → c ≠ EmptyString →
  updateNodeData_edges nodeId newData eds
  = (λ e, if decide (source e = nodeId) then recolor c e else e) <$> eds.
Proof.
  intros Hc Hne. unfold updateNodeData_edges. rewrite Hc.
  destruct c; [done|reflexivity].
Qed.

Lemma updateNodeData_edges_none nodeId newData eds :
  patch_color newData = None ∨ patch_color newData = Some None ∨
  patch_color newData = Some (Some EmptyString) →
  updateNodeData_edges nodeId newData eds = eds.
Proof.
  unfold updateNodeData_edges. intros [->|[->| ->]]; reflexivity.
Qed.

Lemma updateNodeData_nodes_ids nodeId newData nds :
  node_id <$> updateNodeData_nodes nodeId newData nds = node_id <$> nds.
Proof.
  unfold updateNodeData_nodes. rewrite <- list_fmap_compose.
  apply list_fmap_ext. intros ? n _. simpl. by case_decide.
Qed.

End Update.

(** X3. Giving a node a new (non-empty) colour recolours exactly the edges
    that leave it: they all carry the colour the node now has, every other
    edge is kept as it is, and no edge changes its id, its endpoints or its
    [active] field, so neither the branch invariant nor the graph the copy
    functions walk is affected. *)
Theorem updateNodeData_recolours (nodeId c : string) (newData : dataPatch) (s : sheet) :
  patch_color newData = Some (Some c) → c ≠ EmptyString →
  (∀ e, e ∈ edges (updateNodeData nodeId newData s) → source e = nodeId →
        edge_color e = Some c) ∧
  (∀ n, n ∈ nodes (updateNodeData nodeId newData s) → node_id n = nodeId →
        color (data n) = Some c) ∧
  (∀ e, source e ≠ nodeId →
        e ∈ edges (updateNodeData nodeId newData s) ↔ e ∈ edges s) ∧
  edge_id <$> edges (updateNodeData nodeId newData s) = edge_id <$> edges s ∧
  source <$> edges (updateNodeData nodeId newData s) = source <$> edges s ∧
  target <$> edges (updateNodeData nodeId newData s) = target <$> edges s ∧
  active <$> edges (updateNodeData nodeId newData s) = active <$> edges s ∧
  (∀ t, activeCount t (edges (updateNodeData nodeId newData s))
        = activeCount t (edges s)) ∧
  buildAdjacency (activeEdges (edges (updateNodeData nodeId newData s)))
  = buildAdjacency (activeEdges (edges s)).
Proof.
  intros Hc Hne. cbn [updateNodeData edges nodes].
  rewrite (updateNodeData_edges_color _ c) by done.
  set (f := λ e, if decide (source e = nodeId) then recolor c e else e).
  assert (Hf : ∀ e, edge_id (f e) = edge_id e ∧ source (f e) = source e ∧
                    target (f e) = target e ∧ active (f e) = active e).
  { intros e. unfold f. case_decide; done. }
  split_and!.
  - intros e He Hs. apply list_elem_of_fmap in He as (x & -> & Hx).
    unfold f in *. case_decide; [done|]. done.
  - intros n Hn Hid. unfold updateNodeData_nodes in Hn.
    apply list_elem_of_fmap in Hn as (x & -> & Hx).
    case_decide as Hd; [|done]. simpl. by rewrite Hc.
  - intros e Hs. rewrite list_elem_of_fmap. split.
    + intros (x & -> & Hx). unfold f in *. case_decide; [done|]. done.
    + intros He. exists e. split; [|done]. unfold f. by rewrite decide_False.
  - rewrite <- list_fmap_compose. apply list_fmap_ext. intros ? e _. apply Hf.
  - rewrite <- list_fmap_compose. apply list_fmap_ext. intros ? e _. apply Hf.
  - rewrite <- list_fmap_compose. apply list_fmap_ext. intros ? e _. apply Hf.
  - rewrite <- list_fmap_compose. apply list_fmap_ext. intros ? e _. apply Hf.
  - intros t. unfold activeCount. rewrite filter_fmap_same, length_fmap; [done|].
    intros e. destruct (Hf e) as (_ & _ & -> & ->). done.
  - unfold activeEdges. rewrite filter_fmap_same.
    + apply buildAdjacency_fmap_same. intros e. split; apply Hf.
    + intros e. destruct (Hf e) as (_ & _ & _ & ->). done.
Qed.

Lemma updateNodeData_recolours_witness :
  (patch_color (colorPatch "blue") = Some (Some "blue") ∧ "blue" ≠ EmptyString) ∧
  ∀ e, e ∈ edges (updateNodeData "A2" (colorPatch "blue")
                    {| nodes := [promptNode "A" "a"; promptNode "A2" "a2";
                                 promptNode "B" "b"];
                       edges := twoBranches |}) →
       source e = "A2" → edge_color e = Some "blue".
Proof.
  split; [split; [reflexivity|discriminate]|].
  apply (updateNodeData_recolours "A2" "blue" (colorPatch "blue")
           {| nodes := [promptNode "A" "a"; promptNode "A2" "a2"; promptNode "B" "b"];
              edges := twoBranches |}); [reflexivity|discriminate].
Defined.

(** [updateNodeData] touches the data of the node with the given id and
    nothing else: the nodes keep their ids and their order, every other node
    is kept as it is, and without a non-empty colour among the new data the
    edge list is left alone. *)
Lemma updateNodeData_frame (nodeId : string) (newData : dataPatch) (s : sheet) :
  node_id <$> nodes (updateNodeData nodeId newData s) = node_id <$> nodes s ∧
  (∀ n, node_id n ≠ nodeId →
        n ∈ nodes (updateNodeData nodeId newData s) ↔ n ∈ nodes s) ∧
  (∀ n', n' ∈ nodes (updateNodeData nodeId newData s) →
         ∃ n, n ∈ nodes s ∧ node_id n' = node_id n ∧ node_type n' = node_type n ∧
              node_position n' = node_position n ∧ parentNode n' = parentNode n) ∧
  (patch_color newData = None ∨ patch_color newData = Some None ∨
   patch_color newData = Some (Some EmptyString) →
   edges (updateNodeData nodeId newData s) = edges s) ∧
  ((∀ n, n ∈ nodes s → node_id n ≠ nodeId) →
   nodes (updateNodeData nodeId newData s) = nodes s).
Proof.
  cbn [updateNodeData edges nodes]. split_and!.
  - apply updateNodeData_nodes_ids.
  - intros n Hn. unfold updateNodeData_nodes. rewrite list_elem_of_fmap. split.
    + intros (x & -> & Hx). case_decide; [done|]. done.
    + intros H. exists n. by rewrite decide_False.
  - intros n' Hn'. unfold updateNodeData_nodes in Hn'.
    apply list_elem_of_fmap in Hn' as (x & -> & Hx).
    exists x. case_decide; done.
  - apply updateNodeData_edges_none.
  - intros H. unfold updateNodeData_nodes.
    rewrite <- (list_fmap_id (nodes s)) at 2.
    apply list_fmap_ext. intros ? n Hn.
    apply list_elem_of_lookup_2 in Hn. by rewrite decide_False by by apply H.
Qed.

(** ** Deleting twice, and releasing the children of a group *)

Section Ungroup.

Lemma filter_all {A} (P : A → Prop) `{!∀ x, Decision (P x)} (l : list A) :
  (∀ x, x ∈ l → P x) → filter P l = l.
Proof.
  induction l as [|x l IH]; intros Hall; [done|].
  rewrite filter_cons, decide_True by (apply Hall, list_elem_of_here).
  f_equal. apply IH. intros y Hy. apply Hall. by apply list_elem_of_further.
Qed.

Lemma fmap_all_id {A} (f : A → A) (l : list A) :
  (∀ x, x ∈ l → f x = x) → f <$> l = l.
Proof.
  induction l as [|x l IH]; intros Hall; [done|].
  rewrite fmap_cons, Hall by apply list_elem_of_here.
  f_equal. apply IH. intros y Hy. apply Hall. by apply list_elem_of_further.
Qed.

Lemma deleteNode_nodes_unknown nodeId nds :
  findNode nodeId nds = None → deleteNode_nodes nodeId nds = nds.
Proof.
  intros E. unfold deleteNode_nodes. rewrite E.
  apply filter_all. intros n Hn. by apply (findNode_None _ _ E).
Qed.

Lemma deleteNode_nodes_idem nodeId nds :
  deleteNode_nodes nodeId (deleteNode_nodes nodeId nds) = deleteNode_nodes nodeId nds.
Proof. apply deleteNode_nodes_unknown, deleteNode_nodes_gone. Qed.

Lemma releaseChild_id g n : node_id (releaseChild g n) = node_id n.
Proof. reflexivity. Qed.

Lemma ungroupNodes_ids groupId nds :
  node_id <$> ungroupNodes groupId nds = node_id <$> nds.
Proof.
  unfold ungroupNodes. destruct (findNode groupId nds); [|done].
  rewrite <- list_fmap_compose. apply list_fmap_ext. intros ? x _. simpl.
  by case_decide.
Qed.

Lemma ungroupNodes_elem groupId nds groupNode n' :
  findNode groupId nds = Some groupNode →
  n' ∈ ungroupNodes groupId nds ↔
  ∃ n, n ∈ nds ∧
       n' = if decide (parentNode n = Some groupId) then releaseChild groupNode n
            else n.
Proof.
  intros E. unfold ungroupNodes. rewrite E, list_elem_of_fmap. naive_solver.
Qed.

Lemma ungroupNodes_no_child groupId nds n' :
  is_Some (findNode groupId nds) → n' ∈ ungroupNodes groupId nds →
  parentNode n' ≠ Some groupId.
Proof.
  intros [g E] Hn'. apply (ungroupNodes_elem _ _ _ _ E) in Hn' as (n & Hn & ->).
  case_decide; [done|]. done.
Qed.

Lemma deleteNode_by_ungroup nodeId nds :
  deleteNode_nodes nodeId nds
  = filter (λ n, node_id n ≠ nodeId) (ungroupNodes nodeId nds).
Proof.
  unfold deleteNode_nodes, ungroupNodes.
  destruct (findNode nodeId nds) as [g|]; [|done].
  rewrite filter_fmap_same; [done|].
  intros n. by case_decide.
Qed.

Lemma ungroupNodes_idem groupId nds :
  ungroupNodes groupId (ungroupNodes groupId nds) = ungroupNodes groupId nds.
Proof.
  destruct (findNode groupId nds) as [g|] eqn:E.
  - unfold ungroupNodes at 1.
    destruct (findNode groupId (ungroupNodes groupId nds)) as [g'|]; [|done].
    apply fmap_all_id. intros n Hn.
    rewrite decide_False; [done|].
    apply (ungroupNodes_no_child groupId nds); [by rewrite E|done].
  - unfold ungroupNodes. by rewrite E, E.
Qed.

End Ungroup.

(** X5. Deleting a node twice is deleting it once, and after the deletion no
    node has the id and no edge touches it.  For an id that names no node
    the node list is left as it is, yet the edges that mention the id are
    removed all the same. *)
Theorem deleteNode_twice (nodeId : string) (s : sheet) :
  deleteNode nodeId (deleteNode nodeId s) = deleteNode nodeId s ∧
  findNode nodeId (nodes (deleteNode nodeId s)) = None ∧
  (findNode nodeId (nodes s) = None →
   nodes (deleteNode nodeId s) = nodes s ∧
   ∀ e, e ∈ edges (deleteNode nodeId s) ↔
        e ∈ edges s ∧ source e ≠ nodeId ∧ target e ≠ nodeId).
Proof.
  split_and!.
  - unfold deleteNode. cbn [nodes edges]. f_equal.
    + apply deleteNode_nodes_idem.
    + unfold deleteNode_edges. apply list_filter_filter_l. tauto.
  - apply deleteNode_nodes_gone.
  - intros E. split.
    + by apply deleteNode_nodes_unknown.
    + intros e. apply deleteNode_edges_spec.
Qed.

(** X6. Ungrouping keeps every node, in order and with its id: the children
    of the group lose [parentNode], [extent] and [hidden] and move to
    group position + own position, the other nodes are kept as they are, and
    afterwards no node has the group as its parent.  Deleting a node is
    ungrouping it and then dropping it. *)
Theorem ungroupNodes_releases (groupId : string) (nds : list node) (groupNode : node) :
  findNode groupId nds = Some groupNode →
  node_id <$> ungroupNodes groupId nds = node_id <$> nds ∧
  (∀ n, n ∈ nds → parentNode n = Some groupId →
        releaseChild groupNode n ∈ ungroupNodes groupId nds ∧
        parentNode (releaseChild groupNode n) = None ∧
        extent (releaseChild groupNode n) = None ∧
        hidden (releaseChild groupNode n) = None ∧
        pos_x (node_position (releaseChild groupNode n))
        = (pos_x (node_position groupNode) + pos_x (node_position n))%R ∧
        pos_y (node_position (releaseChild groupNode n))
        = (pos_y (node_position groupNode) + pos_y (node_position n))%R ∧
        data (releaseChild groupNode n) = data n) ∧
  (∀ n, n ∈ nds → parentNode n ≠ Some groupId → n ∈ ungroupNodes groupId nds) ∧
  (∀ n', n' ∈ ungroupNodes groupId nds → parentNode n' ≠ Some groupId) ∧
  ungroupNodes groupId (ungroupNodes groupId nds) = ungroupNodes groupId nds ∧
  deleteNode_nodes groupId nds
  = filter (λ n, node_id n ≠ groupId) (ungroupNodes groupId nds).
Proof.
  intros E. split_and!.
  - apply ungroupNodes_ids.
  - intros n Hn Hp. split; [|done].
    apply (ungroupNodes_elem _ _ _ _ E). exists n. by rewrite decide_True.
  - intros n Hn Hp.
    apply (ungroupNodes_elem _ _ _ _ E). exists n. by rewrite decide_False.
  - intros n'. apply ungroupNodes_no_child. by rewrite E.
  - apply ungroupNodes_idem.
  - apply deleteNode_by_ungroup.
Qed.

Lemma ungroupNodes_releases_witness :
  findNode "G" [mkNode "G" Group (promptData EmptyString);
                {| node_id := "c"; node_type := Prompt;
                   node_position := {| pos_x := 3; pos_y := 4 |};
                   node_style := None; parentNode := Some "G";
                   extent := Some "parent"; hidden := Some true;
                   selected := false; data := promptData "child" |}]
  = Some (mkNode "G" Group (promptData EmptyString)) ∧
  ∀ n', n' ∈ ungroupNodes "G"
               [mkNode "G" Group (promptData EmptyString);
                {| node_id := "c"; node_type := Prompt;
                   node_position := {| pos_x := 3; pos_y := 4 |};
                   node_style := None; parentNode := Some "G";
                   extent := Some "parent"; hidden := Some true;
                   selected := false; data := promptData "child" |}] →
        parentNode n' ≠ Some "G".
Proof.
  split; [reflexivity|].
  apply (ungroupNodes_releases "G" _ (mkNode "G" Group (promptData EmptyString))).
  reflexivity.
Defined.

(** ** Duplicating a node *)

Section Duplicate.

Lemma pickColor_spec original pick :
  pickColor original pick ∈ colorOptions ∧
  pickColor original pick ≠ colorOrPurple (Some original).
Proof.
  unfold pickColor, colorOrPurple.
  set (currentColor := match color (data original) with
                       | Some EmptyString | None => "purple"
                       | Some c => c
                       end).
  set (availableColors := filter (λ c, c ≠ currentColor) colorOptions).
  assert (Hpos : 0 < length availableColors).
  { destruct (decide (currentColor = "purple")) as [->|Hp].
    - assert (Hb : "blue" ∈ availableColors).
      { apply list_elem_of_filter. split; [discriminate|]. compute_done. }
      destruct availableColors; [by apply elem_of_nil in Hb|simpl; lia].
    - assert (Hb : "purple" ∈ availableColors).
      { apply list_elem_of_filter. split; [congruence|]. compute_done. }
      destruct availableColors; [by apply elem_of_nil in Hb|simpl; lia]. }
  destruct (lookup_lt_is_Some_2 availableColors (pick `mod` length availableColors))
    as [c Hc].
  { apply Nat.mod_upper_bound. lia. }
  rewrite Hc. simpl.
  apply list_elem_of_lookup_2 in Hc. apply list_elem_of_filter in Hc as [Hne Hin].
  done.
Qed.

Lemma elem_filter_length {A} (P : A → Prop) `{!∀ x, Decision (P x)} (l : list A) x :
  x ∈ l → P x → 1 ≤ length (filter P l).
Proof.
  intros Hx HP.
  assert (Hin : x ∈ filter P l) by by apply list_elem_of_filter.
  destruct (filter P l); [by apply elem_of_nil in Hin|simpl; lia].
Qed.

Lemma duplicateNode_edges_elem nodeId now c stamps es e' :
  e' ∈ duplicateNode_edges nodeId now c stamps es ↔
  e' ∈ es ∨
  ∃ k e, filter (λ e, source e = nodeId ∨ target e = nodeId) es !! k = Some e ∧
         e' = duplicateEdge nodeId now c stamps k e.
Proof.
  unfold duplicateNode_edges. rewrite elem_of_app. split.
  - intros [He|He]; [by left|right].
    apply list_elem_of_lookup in He as [k Hk].
    rewrite list_lookup_imap in Hk.
    destruct (filter _ es !! k) as [e|] eqn:E; [|done].
    exists k, e. split; [done|]. simpl in Hk. congruence.
  - intros [He|(k & e & Hk & ->)]; [by left|right].
    apply list_elem_of_lookup. exists k. by rewrite list_lookup_imap, Hk.
Qed.

End Duplicate.

(** X7. The copy [duplicateNode] makes is appended to the node list under
    the id [node-<clock>], 50 to the right of and 50 below the original, not
    selected, in the same group and with the same type, text, template and
    values; its colour is one of the seven colour options and never the
    colour of the original (purple standing for a missing colour), and it
    is the colour the copied edges get. *)
Theorem duplicateNode_copy (nodeId : string) (now : N) (pick : nat)
    (currentNodes : list node) (originalNode : node) :
  findNode nodeId currentNodes = Some originalNode →
  ∃ newNode,
    duplicateNode_nodes nodeId now pick currentNodes = currentNodes ++ [newNode] ∧
    node_id newNode = freshNodeId now ∧
    node_type newNode = node_type originalNode ∧
    pos_x (node_position newNode) = (pos_x (node_position originalNode) + 50)%R ∧
    pos_y (node_position newNode) = (pos_y (node_position originalNode) + 50)%R ∧
    selected newNode = false ∧
    parentNode newNode = parentNode originalNode ∧
    nodeText newNode = nodeText originalNode ∧
    attachedTo (data newNode) = attachedTo (data originalNode) ∧
    ∃ newColor,
      color (data newNode) = Some newColor ∧
      newColor ∈ colorOptions ∧
      Some newColor ≠ color (data originalNode) ∧
      newColor ≠ colorOrPurple (Some originalNode) ∧
      duplicateColor nodeId pick currentNodes = newColor.
Proof.
  intros E. unfold duplicateNode_nodes, duplicateColor. rewrite E.
  eexists. split; [reflexivity|]. cbn [node_id node_type node_position pos_x pos_y
    selected parentNode data withColor attachedTo color].
  split_and!; try reflexivity.
  destruct (pickColor_spec originalNode pick) as [Hin Hne].
  exists (pickColor originalNode pick). split_and!; try done.
  intros Heq. apply Hne. unfold colorOrPurple. rewrite <- Heq.
  assert (Hempty : EmptyString ∉ colorOptions) by compute_done.
  destruct (pickColor originalNode pick); [done|reflexivity].
Qed.

Lemma duplicateNode_copy_witness :
  findNode "A" [promptNode "A" "a"; promptNode "B" "b"] = Some (promptNode "A" "a") ∧
  ∃ newNode,
    duplicateNode_nodes "A" 7 3 [promptNode "A" "a"; promptNode "B" "b"]
    = [promptNode "A" "a"; promptNode "B" "b"] ++ [newNode] ∧
    node_id newNode = "node-7" ∧
    color (data newNode) = Some "yellow".
Proof.
  split; [reflexivity|].
  destruct (duplicateNode_copy "A" 7 3 [promptNode "A" "a"; promptNode "B" "b"]
              (promptNode "A" "a") eq_refl) as (newNode & H1 & H2 & _).
  exists newNode. split; [exact H1|]. split; [exact H2|].
  apply app_inj_tail in H1 as [_ <-]. reflexivity.
Defined.

(** X8. [duplicateNode] keeps every edge and appends one copy of each edge
    that touches the original, in order; a copy has the new node where the
    original was and the other endpoint in place, the new colour, and the
    [active] field of the edge it copies.  Hence copying the source of an
    edge with [active = true] leaves two such edges into its target: the
    branch invariant does not survive. *)
Theorem duplicateNode_edges_copies (nodeId : string) (now : N) (newColor : string)
    (stamps : nat → N * string) (currentEdges : list edge) :
  currentEdges `prefix_of` duplicateNode_edges nodeId now newColor stamps currentEdges ∧
  length (duplicateNode_edges nodeId now newColor stamps currentEdges)
  = length currentEdges
    + length (filter (λ e, source e = nodeId ∨ target e = nodeId) currentEdges) ∧
  (∀ e', e' ∈ duplicateNode_edges nodeId now newColor stamps currentEdges →
     e' ∈ currentEdges ∨
     ∃ e, e ∈ currentEdges ∧ (source e = nodeId ∨ target e = nodeId) ∧
          source e' = (if decide (source e = nodeId) then freshNodeId now else source e) ∧
          target e' = (if decide (target e = nodeId) then freshNodeId now else target e) ∧
          edge_color e' = Some newColor ∧ active e' = active e ∧
          (source e' = freshNodeId now ∨ target e' = freshNodeId now)) ∧
  (∀ e, e ∈ currentEdges → source e = nodeId ∨ target e = nodeId →
     ∃ e', e' ∈ duplicateNode_edges nodeId now newColor stamps currentEdges ∧
           source e' = (if decide (source e = nodeId) then freshNodeId now else source e) ∧
           target e' = (if decide (target e = nodeId) then freshNodeId now else target e) ∧
           active e' = active e) ∧
  (∀ e, e ∈ currentEdges → source e = nodeId → target e ≠ nodeId →
        active e = Some true →
        2 ≤ activeCount (target e)
              (duplicateNode_edges nodeId now newColor stamps currentEdges) ∧
        ¬ branch_invariant
            (duplicateNode_edges nodeId now newColor stamps currentEdges)).
Proof.
  split_and!.
  - by apply prefix_app_r.
  - unfold duplicateNode_edges. by rewrite length_app, length_imap.
  - intros e' He'. apply duplicateNode_edges_elem in He' as [He'|(k & e & Hk & ->)];
      [by left|right].
    apply list_elem_of_lookup_2, list_elem_of_filter in Hk as [Ht He].
    exists e. split_and!; try done.
    cbn [duplicateEdge source target].
    destruct Ht as [Ht|Ht]; [left|right]; by rewrite decide_True.
  - intros e He Ht.
    assert (Hf : e ∈ filter (λ e, source e = nodeId ∨ target e = nodeId) currentEdges)
      by by apply list_elem_of_filter.
    apply list_elem_of_lookup in Hf as [k Hk].
    exists (duplicateEdge nodeId now newColor stamps k e). split; [|done].
    apply duplicateNode_edges_elem. right. by exists k, e.
  - intros e He Hs Ht Ha.
    assert (Hcount : 2 ≤ activeCount (target e)
              (duplicateNode_edges nodeId now newColor stamps currentEdges)).
    { unfold activeCount, duplicateNode_edges. rewrite filter_app, length_app.
      assert (H1 : 1 ≤ length (filter (λ e0, target e0 = target e ∧ active e0 = Some true)
                                 currentEdges))
        by by apply (elem_filter_length _ _ e).
      assert (Hf : e ∈ filter (λ e, source e = nodeId ∨ target e = nodeId) currentEdges).
      { apply list_elem_of_filter. by split; [left|]. }
      apply list_elem_of_lookup in Hf as [k Hk].
      assert (H2 : 1 ≤ length (filter (λ e0, target e0 = target e ∧ active e0 = Some true)
                 (imap (duplicateEdge nodeId now newColor stamps)
                    (filter (λ e, source e = nodeId ∨ target e = nodeId) currentEdges)))).
      { apply (elem_filter_length _ _ (duplicateEdge nodeId now newColor stamps k e)).
        - apply list_elem_of_lookup. exists k. by rewrite list_lookup_imap, Hk.
        - cbn [duplicateEdge target active]. by rewrite decide_False. }
      lia. }
    split; [exact Hcount|].
    intros Hinv. specialize (Hinv (target e)). lia.
Qed.

(** ** The parameters of a template *)

Section Params.

Lemma extractParams_from_text params t rest :
  placeholderFree t → opensToken rest →
  extractParams_from 0 params (t +:+ rest) = extractParams_from 0 params rest.
Proof.
  intros Hfree Hrest. induction t as [|c t IH]; [done|].
  pose proof (matchPlaceholder_text c t rest Hfree Hrest) as Hnone.
  rewrite append_cons in *. rewrite extractParams_from_cons, Hnone.
  apply IH. by eapply placeholderFree_tail.
Qed.

Lemma extractParams_from_skip params s rest :
  extractParams_from (String.length s) params (s +:+ rest)
  = extractParams_from 0 params rest.
Proof.
  induction s as [|c s IH]; [by destruct rest|].
  rewrite append_cons. simpl. apply IH.
Qed.

Lemma extractParams_from_token params name rest :
  isIdentifier name = true →
  extractParams_from 0 params (token name +:+ rest)
  = extractParams_from 0 (addParam params name) rest.
Proof.
  intros Hid. pose proof (matchPlaceholder_token name rest Hid) as Hm.
  rewrite token_unfold in *. rewrite extractParams_from_cons, Hm.
  pose (X := String "{" (name +:+ String "}" (String "}" EmptyString))).
  assert (String "{" (name +:+ String "}" (String "}" rest)) = X +:+ rest) as ->.
  { unfold X. rewrite append_cons, append_assoc. done. }
  assert (String.length name + 3 = String.length X) as ->.
  { unfold X. simpl. rewrite length_append. simpl. lia. }
  exact (extractParams_from_skip _ X rest).
Qed.

Lemma extractParams_from_templateOf params segs last :
  Forall (λ seg, placeholderFree seg.1 ∧ isIdentifier seg.2 = true) segs →
  placeholderFree last →
  extractParams_from 0 params (templateOf segs last)
  = foldl addParam params (segs.*2).
Proof.
  intros Hsegs Hlast. revert params.
  induction Hsegs as [|[t name] segs' [Ht Hname] _ IH]; intros params; simpl.
  - rewrite <- (append_nil_r last).
    rewrite extractParams_from_text; [done|done|by left].
  - simpl in Ht, Hname.
    rewrite extractParams_from_text;
      [|done|right; rewrite token_unfold; eauto].
    rewrite extractParams_from_token by done. apply IH.
Qed.

Lemma dedupFirst_elem (l : list string) k : k ∈ dedupFirst l ↔ k ∈ l.
Proof.
  induction l as [|x l IH]; [done|]. simpl.
  rewrite !elem_of_cons, list_elem_of_filter, IH.
  destruct (decide (k = x)); naive_solver.
Qed.

Lemma dedupFirst_NoDup (l : list string) : NoDup (dedupFirst l).
Proof.
  induction l as [|x l IH]; simpl; [constructor|].
  constructor.
  - rewrite list_elem_of_filter. naive_solver.
  - by apply NoDup_filter.
Qed.

Lemma foldl_addParam params (l : list string) :
  foldl addParam params l = params ++ filter (λ k, k ∉ params) (dedupFirst l).
Proof.
  revert params. induction l as [|x l IH]; intros params.
  - simpl. by rewrite app_nil_r.
  - cbn [foldl dedupFirst]. rewrite IH. unfold addParam.
    rewrite filter_cons. destruct (decide (x ∈ params)) as [Hx|Hx].
    + rewrite decide_False by tauto. f_equal.
      rewrite list_filter_filter. apply list_filter_iff.
      intros k. split; [|tauto]. intros Hk. split; [done|]. by intros ->.
    + rewrite decide_True by done.
      rewrite <- app_assoc. f_equal. cbn [app]. f_equal.
      rewrite list_filter_filter. apply list_filter_iff.
      intros k. rewrite elem_of_app, list_elem_of_singleton. tauto.
Qed.

Lemma extractParams_dedup segs last :
  Forall (λ seg, placeholderFree seg.1 ∧ isIdentifier seg.2 = true) segs →
  placeholderFree last →
  extractParams (templateOf segs last) = dedupFirst (segs.*2).
Proof.
  intros Hsegs Hlast. unfold extractParams.
  rewrite extractParams_from_templateOf, foldl_addParam by done.
  cbn [app]. apply filter_all. intros k _. apply not_elem_of_nil.
Qed.

End Params.

(** X9. The parameter list of the template builder holds the names of the
    placeholders of the template, each once, in the order in which they
    first occur: for a template text0 {{n1}} text1 ... {{nk}} textk it is
    n1, ..., nk with later repetitions dropped.  For any template the list
    has no duplicates and holds identifiers only. *)
Theorem extractParams_names (segs : list (string * string)) (last : string) :
  Forall (λ seg, placeholderFree seg.1 ∧ isIdentifier seg.2 = true) segs →
  placeholderFree last →
  extractParams (templateOf segs last) = dedupFirst (segs.*2) ∧
  (∀ name, name ∈ extractParams (templateOf segs last) ↔ name ∈ segs.*2) ∧
  (segs = [] → extractParams last = []) ∧
  (∀ tpl, NoDup (extractParams tpl) ∧
          Forall (λ p, isIdentifier p = true) (extractParams tpl)).
Proof.
  intros Hsegs Hlast. split_and!.
  - by apply extractParams_dedup.
  - intros name. rewrite extractParams_dedup by done. apply dedupFirst_elem.
  - intros ->. exact (extractParams_dedup [] last Hsegs Hlast).
  - intros tpl. split.
    + destruct (template_decomposes tpl) as (segs' & last' & -> & H1 & H2).
      rewrite extractParams_dedup by done. apply dedupFirst_NoDup.
    + apply extractParams_from_identifiers. constructor.
Qed.

Lemma extractParams_names_witness :
  (Forall (λ seg, placeholderFree seg.1 ∧ isIdentifier seg.2 = true)
     [("Row ", "row"); (" Column ", "column"); (" of row ", "row")] ∧
   placeholderFree "!") ∧
  extractParams (templateOf [("Row ", "row"); (" Column ", "column"); (" of row ", "row")] "!")
  = ["row"; "column"].
Proof.
  assert (H : Forall (λ seg, placeholderFree seg.1 ∧ isIdentifier seg.2 = true)
                [("Row ", "row"); (" Column ", "column"); (" of row ", "row")] ∧
              placeholderFree "!").
  { split; [|by apply scanFree_placeholderFree].
    repeat constructor; by apply scanFree_placeholderFree. }
  split; [exact H|].
  destruct H as [H1 H2].
  destruct (extractParams_names _ _ H1 H2) as [-> _]. reflexivity.
Defined.

(** X10. Typing a value into a parameter field of a template node stores it
    under the parameter name in that node only, and the text the copy
    functions produce for the node then shows the value in place of every
    placeholder of that name; an empty value brings the bare name back, and
    the other parameters are filled as before. *)
Theorem template_value_fills (id paramName value : string) (nds : list node)
    (n : node) (segs : list (string * string)) (last : string) :
  n ∈ nds → node_id n = id → node_type n = Template →
  template (data n) = Some (templateOf segs last) →
  Forall (λ seg, placeholderFree seg.1 ∧ isIdentifier seg.2 = true) segs →
  placeholderFree last →
  withValue paramName value n ∈ handleUpdateTemplateValues id paramName value nds ∧
  nodeText (withValue paramName value n)
  = filledOf (<[paramName := value]> (values (data n))) segs last ∧
  (value ≠ EmptyString →
   valueOrKey (<[paramName := value]> (values (data n))) paramName = value) ∧
  (value = EmptyString →
   valueOrKey (<[paramName := value]> (values (data n))) paramName = paramName) ∧
  (∀ other, other ≠ paramName →
     valueOrKey (<[paramName := value]> (values (data n))) other
     = valueOrKey (values (data n)) other) ∧
  (∀ m, node_id m ≠ id →
        m ∈ handleUpdateTemplateValues id paramName value nds ↔ m ∈ nds) ∧
  node_id <$> handleUpdateTemplateValues id paramName value nds = node_id <$> nds.
Proof.
  intros Hn Hid Hty Htpl Hsegs Hlast. split_and!.
  - unfold handleUpdateTemplateValues. apply list_elem_of_fmap.
    exists n. by rewrite decide_True.
  - unfold nodeText. cbn [withValue withData node_type data template values].
    rewrite decide_True by done. rewrite Htpl. cbn [default].
    by apply render_templateOf.
  - intros Hv. apply (proj1 (valueOrKey_spec _ _)); [|done].
    by rewrite lookup_insert_eq.
  - intros ->. apply (proj1 (proj2 (valueOrKey_spec _ _))).
    by rewrite lookup_insert_eq.
  - intros other Ho. unfold valueOrKey, getMember. by rewrite lookup_insert_ne.
  - intros m Hm. unfold handleUpdateTemplateValues. rewrite list_elem_of_fmap. split.
    + intros (x & -> & Hx). case_decide; [done|]. done.
    + intros Hin. exists m. by rewrite decide_False.
  - unfold handleUpdateTemplateValues. rewrite <- list_fmap_compose.
    apply list_fmap_ext. intros ? x _. simpl. by case_decide.
Qed.

Lemma template_value_fills_witness :
  (Forall (λ seg, placeholderFree seg.1 ∧ isIdentifier seg.2 = true)
     [("Hi ", "name"); (", dear ", "name")] ∧ placeholderFree "!") ∧
  nodeText (withValue "name" "Ada"
              (templateNode "T" (templateOf [("Hi ", "name"); (", dear ", "name")] "!") ∅))
  = "Hi Ada, dear Ada!".
Proof.
  assert (H : Forall (λ seg, placeholderFree seg.1 ∧ isIdentifier seg.2 = true)
                [("Hi ", "name"); (", dear ", "name")] ∧ placeholderFree "!").
  { split; [|by apply scanFree_placeholderFree].
    repeat constructor; by apply scanFree_placeholderFree. }
  split; [exact H|]. destruct H as [H1 H2].
  destruct (template_value_fills "T" "name" "Ada"
              [templateNode "T" (templateOf [("Hi ", "name"); (", dear ", "name")] "!") ∅]
              (templateNode "T" (templateOf [("Hi ", "name"); (", dear ", "name")] "!") ∅)
              [("Hi ", "name"); (", dear ", "name")] "!")
    as (_ & -> & _); try done.
  apply list_elem_of_here.
Defined.

(** ** Copying the path from one node *)

Section FromNode.

Lemma walkLoop_single_head fuel nodes adj (start : string) n res :
  walkLoop fuel nodes adj (bfsStart [start]) = Some res →
  findNode start nodes = Some n → node_type n ≠ Group →
  ∃ rest, res = n :: rest.
Proof.
  destruct fuel as [|fuel]; [done|]. cbn [walkLoop bfsStart queue].
  intros Hres Hfind Hty. apply walkLoop_prefix in Hres.
  unfold walkStep in Hres. rewrite decide_False in Hres by set_solver.
  cbn [orderedNodes visited] in Hres. rewrite Hfind, decide_False in Hres by done.
  destruct Hres as [rest ->]. by exists rest.
Qed.

Lemma walkLoop_single_leaf fuel nodes adj (start : string) :
  default [] (adj !! start) = [] →
  walkLoop (S fuel) nodes adj (bfsStart [start])
  = Some match findNode start nodes with
         | Some n => if decide (node_type n = Group) then [] else [n]
         | None => []
         end.
Proof.
  intros Hadj. cbn [walkLoop bfsStart queue]. unfold walkStep.
  rewrite decide_False by set_solver. rewrite Hadj.
  cbn [orderedNodes visited]. rewrite filter_nil.
  destruct fuel; cbn [walkLoop queue app orderedNodes]; reflexivity.
Qed.

Lemma join_nonempty sep (l : list string) x :
  x ∈ l → x ≠ EmptyString → join sep l ≠ EmptyString.
Proof.
  induction l as [|y l IH]; [by intros ?%elem_of_nil|].
  intros Hx Hne. apply elem_of_cons in Hx as [->|Hx].
  - destruct l; simpl; [done|]. destruct y; [done|]. by rewrite append_cons.
  - destruct l as [|z l]; [by apply elem_of_nil in Hx|].
    change (join sep (y :: z :: l)) with (y +:+ sep +:+ join sep (z :: l)).
    intros Heq. apply append_nil_inv in Heq as [_ Heq].
    apply append_nil_inv in Heq as [_ Heq]. by apply IH.
Qed.

End FromNode.

Lemma filter_none {A} (P : A → Prop) `{!∀ x, Decision (P x)} (l : list A) :
  (∀ x, x ∈ l → ¬ P x) → filter P l = [].
Proof.
  intros Hall. destruct (filter P l) as [|x k] eqn:E; [done|].
  assert (Hx : x ∈ filter P l) by (rewrite E; apply list_elem_of_here).
  apply list_elem_of_filter in Hx as [HP Hx]. by destruct (Hall x Hx).
Qed.

Lemma combinedPrompt_empty (ordered : list node) :
  combinedPrompt ordered = EmptyString ↔
  ¬ Exists (λ n, hasInk (nodeText n) = true) ordered.
Proof.
  rewrite combinedPrompt_hasInk. split.
  - intros Hjoin Hex. apply Exists_exists in Hex as (n & Hn & Hink).
    revert Hjoin. apply (join_nonempty _ _ (nodeText n)).
    + apply list_elem_of_filter. split; [done|]. by apply list_elem_of_fmap_2.
    + intros Heq. by rewrite Heq in Hink.
  - intros Hno. rewrite filter_none; [done|].
    intros x Hx Hink. apply list_elem_of_fmap in Hx as (n & -> & Hn).
    apply Hno, Exists_exists. by exists n.
Qed.

(** X11. When no active edge begins or ends at an id that is a name inherited
    from [Object.prototype] and the start id is no such name either, copying
    the path from a node collects exactly the nodes that can be reached from
    it along active edges (groups and ids without a node left out), the
    start node first; a start node without an outgoing active edge gives
    that node alone.  The clipboard receives the non-blank texts joined by
    blank lines, and when every text is blank nothing is written at all: on
    no sheet does the empty string reach the clipboard. *)
Theorem copyPathFromNode_collects (nodes : list node) (edges : list edge)
    (startNodeId : string) :
  plainEdges (activeEdges edges) → startNodeId ∉ protoNames →
  ∃ ordered,
    (∀ extra, orderedFromNode (pathFuel edges [startNodeId] + extra)
                nodes edges startNodeId = Some (Returns ordered)) ∧
    (∀ n, n ∈ ordered ↔
          reach (activeEdges edges) [startNodeId] (node_id n) ∧
          findNode (node_id n) nodes = Some n ∧ node_type n ≠ Group) ∧
    (∀ n, findNode startNodeId nodes = Some n → node_type n ≠ Group →
          ∃ rest, ordered = n :: rest) ∧
    ((∀ e, e ∈ edges → source e = startNodeId → active e = Some false) →
     ordered = match findNode startNodeId nodes with
               | Some n => if decide (node_type n = Group) then [] else [n]
               | None => []
               end) ∧
    (∀ extra, copyPathFromNode (pathFuel edges [startNodeId] + extra)
                nodes edges startNodeId
              = Some (Returns
                        (if decide (Exists (λ n, hasInk (nodeText n) = true) ordered)
                         then Written (combinedPrompt ordered)
                         else NothingWritten))) ∧
    (∀ nodes' edges' startNodeId' fuel,
       copyPathFromNode fuel nodes' edges' startNodeId'
       ≠ Some (Returns (Written EmptyString))).
Proof.
  intros Hplain Hstart.
  destruct (copy_from_queue nodes edges [startNodeId])
    as (ordered & out & Hwalk & Hrun & _ & Hout & _ & Hreach).
  rewrite (Hout Hplain) in Hrun by (by intros i ->%list_elem_of_singleton).
  exists ordered. split_and!.
  - exact Hrun.
  - exact Hreach.
  - intros n Hfind Hty. eapply walkLoop_single_head; [apply (Hwalk 0)|done..].
  - intros Hleaf. specialize (Hwalk 0).
    unfold pathFuel in Hwalk. cbn [length Nat.add] in Hwalk.
    rewrite walkLoop_single_leaf in Hwalk; [by injection Hwalk as <-|].
    rewrite adjacencyOf_lookup, filter_none; [done|].
    intros e He Hs. apply activeEdges_spec in He as [He Ha].
    by rewrite (Hleaf e He Hs) in Ha.
  - intros extra. unfold copyPathFromNode.
    change (orderedFromNode (pathFuel edges [startNodeId] + extra) nodes edges startNodeId)
      with (match buildAdjacency (activeEdges edges) with
            | Returns adjacency =>
                bfsLoop (pathFuel edges [startNodeId] + extra) nodes adjacency
                  (bfsStart [startNodeId])
            | Throws => Some Throws
            end).
    rewrite Hrun.
    case_decide as Hex.
    + destruct (combinedPrompt ordered) eqn:E; [|done].
      by apply combinedPrompt_empty in E.
    + apply combinedPrompt_empty in Hex. by rewrite Hex.
  - intros nodes' edges' startNodeId' fuel. unfold copyPathFromNode.
    destruct (orderedFromNode fuel nodes' edges' startNodeId') as [[o|]|]; [|done..].
    destruct (combinedPrompt o); done.
Qed.

Lemma copyPathFromNode_collects_witness :
  (plainEdges (activeEdges helloEdges) ∧ "A" ∉ protoNames) ∧
  ∃ ordered,
    orderedFromNode (pathFuel helloEdges ["A"] + 0) helloNodes helloEdges "A"
    = Some (Returns ordered) ∧
    (∃ rest, ordered = promptNode "A" "Hello" :: rest) ∧
    copyPathFromNode (pathFuel helloEdges ["A"] + 0) helloNodes helloEdges "A"
    = Some (Returns
              (if decide (Exists (λ n, hasInk (nodeText n) = true) ordered)
               then Written (combinedPrompt ordered)
               else NothingWritten)).
Proof.
  assert (Hs : "A" ∉ protoNames) by compute_done.
  split; [split; [exact helloEdges_plain|exact Hs]|].
  destruct (copyPathFromNode_collects helloNodes helloEdges "A" helloEdges_plain Hs)
    as (ordered & Hrun & _ & Hhead & _ & Hcopy & _).
  exists ordered. split; [exact (Hrun 0)|]. split; [|exact (Hcopy 0)].
  apply Hhead; [vm_compute; reflexivity|]. vm_compute. discriminate.
Defined.

(** X12. [copyAllConnected], unlike [copyPathFromNode], can write the empty
    string: when there are active edges, none of them beginning at an id
    that is a name inherited from [Object.prototype], but every node with an
    outgoing active edge has an incoming one as well (a cycle, say), no root
    is found, the traversal visits nothing and the clipboard receives the
    empty text. *)
Theorem copyAllConnected_without_roots (nodes : list node) (edges : list edge) :
  (∃ e, e ∈ edges ∧ active e ≠ Some false) →
  (∀ e, e ∈ edges → active e ≠ Some false → source e ∉ protoNames) →
  (∀ n, n ∈ nodes → node_type n ≠ Group →
        (∃ e, e ∈ edges ∧ active e ≠ Some false ∧ source e = node_id n) →
        ∃ e, e ∈ edges ∧ active e ≠ Some false ∧ target e = node_id n) →
  pathRoots nodes edges = [] ∧
  ∀ fuel, orderedFromRoots fuel nodes edges = Some (Returns []) ∧
          copyAllConnected fuel nodes edges = Some (Returns (Written EmptyString)).
Proof.
  intros (e & He & Ha) Hplain Hcyc.
  assert (Hroots : pathRoots nodes edges = []).
  { destruct (pathRoots nodes edges) as [|r l] eqn:E; [done|].
    assert (Hr : r ∈ pathRoots nodes edges) by (rewrite E; apply list_elem_of_here).
    apply pathRoots_spec in Hr as (Hn & Hty & Hout & Hin).
    destruct Hin. by apply Hcyc. }
  split; [exact Hroots|]. intros fuel.
  assert (Hadj : buildAdjacency (activeEdges edges)
                 = Returns (adjacencyOf (activeEdges edges))).
  { apply buildAdjacency_plain. intros e' [He' Ha']%activeEdges_spec. by apply Hplain. }
  unfold orderedFromRoots, copyAllConnected. rewrite Hadj, Hroots.
  assert (Hloop : ∀ adj, bfsLoop fuel nodes adj (bfsStart (node_id <$> []))
                         = Some (Returns [])) by (intros adj; by destruct fuel).
  rewrite Hloop. split; [done|].
  destruct (activeEdges edges) as [|a l] eqn:E; [|done].
  assert (He' : e ∈ activeEdges edges) by by apply activeEdges_spec.
  rewrite E in He'. by apply elem_of_nil in He'.
Qed.

Lemma copyAllConnected_without_roots_witness :
  (∃ e, e ∈ cycleEdges ∧ active e ≠ Some false) ∧
  pathRoots cycleNodes cycleEdges = [] ∧
  copyAllConnected 5 cycleNodes cycleEdges = Some (Returns (Written EmptyString)).
Proof.
  assert (H1 : ∃ e, e ∈ cycleEdges ∧ active e ≠ Some false).
  { exists (mkEdge "e1" "A" "B" (Some true)). split; [apply list_elem_of_here|done]. }
  assert (H0 : ∀ e, e ∈ cycleEdges → active e ≠ Some false → source e ∉ protoNames).
  { intros e He _. unfold cycleEdges in He.
    apply elem_of_cons in He as [->|He]; [compute_done|].
    apply list_elem_of_singleton in He as ->. compute_done. }
  assert (H2 : ∀ n, n ∈ cycleNodes → node_type n ≠ Group →
             (∃ e, e ∈ cycleEdges ∧ active e ≠ Some false ∧ source e = node_id n) →
             ∃ e, e ∈ cycleEdges ∧ active e ≠ Some false ∧ target e = node_id n).
  { intros n Hn _ _. unfold cycleNodes in Hn.
    apply elem_of_cons in Hn as [->|Hn].
    - exists (mkEdge "e2" "B" "A" None).
      split; [apply list_elem_of_further, list_elem_of_here|done].
    - apply list_elem_of_singleton in Hn as ->.
      exists (mkEdge "e1" "A" "B" (Some true)). split; [apply list_elem_of_here|done]. }
  split; [exact H1|].
  destruct (copyAllConnected_without_roots cycleNodes cycleEdges H1 H0 H2) as [Hr Hf].
  split; [exact Hr|]. apply Hf.
Defined.

(** ** Reconnecting an edge *)

(** X13. Reconnecting an edge changes the endpoints of the edges with that
    id and nothing else: ids, colours and [active] fields stay, the other
    edges are kept as they are.  As [active] is kept, reconnecting an edge
    with [active = true] onto a node that already has such an incoming edge
    leaves that node with two of them. *)
Theorem onReconnect_keeps_active (oldEdgeId newSource newTarget : string)
    (eds : list edge) :
  edge_id <$> onReconnect oldEdgeId newSource newTarget eds = edge_id <$> eds ∧
  active <$> onReconnect oldEdgeId newSource newTarget eds = active <$> eds ∧
  edge_color <$> onReconnect oldEdgeId newSource newTarget eds = edge_color <$> eds ∧
  (∀ e, e ∈ onReconnect oldEdgeId newSource newTarget eds → edge_id e = oldEdgeId →
        source e = newSource ∧ target e = newTarget) ∧
  (∀ e, edge_id e ≠ oldEdgeId →
        e ∈ onReconnect oldEdgeId newSource newTarget eds ↔ e ∈ eds) ∧
  (∀ e1 e2, e1 ∈ eds → e2 ∈ eds → edge_id e1 = oldEdgeId → edge_id e2 ≠ oldEdgeId →
     active e1 = Some true → active e2 = Some true → target e2 = newTarget →
     2 ≤ activeCount newTarget (onReconnect oldEdgeId newSource newTarget eds) ∧
     ¬ branch_invariant (onReconnect oldEdgeId newSource newTarget eds)).
Proof.
  unfold onReconnect. split_and!.
  - rewrite <- list_fmap_compose. apply list_fmap_ext. intros ? e _. simpl.
    by case_decide.
  - rewrite <- list_fmap_compose. apply list_fmap_ext. intros ? e _. simpl.
    by case_decide.
  - rewrite <- list_fmap_compose. apply list_fmap_ext. intros ? e _. simpl.
    by case_decide.
  - intros e He Hid. apply list_elem_of_fmap in He as (x & -> & Hx).
    case_decide; [done|]. done.
  - intros e Hid. rewrite list_elem_of_fmap. split.
    + intros (x & -> & Hx). case_decide; [done|]. done.
    + intros He. exists e. by rewrite decide_False.
  - intros e1 e2 H1 H2 Hid1 Hid2 Ha1 Ha2 Ht2.
    set (f := λ e : edge, if decide (edge_id e = oldEdgeId) then
                 {| edge_id := edge_id e; source := newSource; target := newTarget;
                    edge_color := edge_color e; active := active e |}
               else e).
    assert (Hcount : 2 ≤ activeCount newTarget (f <$> eds)).
    { unfold activeCount.
      assert (Hin1 : f e1 ∈ filter (λ e, target e = newTarget ∧ active e = Some true)
                              (f <$> eds)).
      { apply list_elem_of_filter. split; [|by apply list_elem_of_fmap_2].
        unfold f. by rewrite decide_True. }
      assert (Hin2 : f e2 ∈ filter (λ e, target e = newTarget ∧ active e = Some true)
                              (f <$> eds)).
      { apply list_elem_of_filter. split; [|by apply list_elem_of_fmap_2].
        unfold f. by rewrite decide_False. }
      assert (Hne : f e1 ≠ f e2).
      { unfold f. rewrite decide_True, decide_False by done.
        intros Heq. apply Hid2. rewrite <- Heq. done. }
      destruct (filter _ (f <$> eds)) as [|a [|b l]]; [| |simpl; lia].
      - by apply elem_of_nil in Hin1.
      - apply list_elem_of_singleton in Hin1, Hin2. congruence. }
    split; [exact Hcount|].
    intros Hinv. specialize (Hinv newTarget). lia.
Qed.

(** ** The routes of an edge *)

Section Routes.
Local Open Scope R_scope.

Lemma Rleb_true (a b : R) : a <= b → Rleb a b = true.
Proof. intros H. unfold Rleb. by destruct (Rle_dec a b). Qed.

Lemma Rleb_false (a b : R) : ¬ a <= b → Rleb a b = false.
Proof. intros H. unfold Rleb. by destruct (Rle_dec a b). Qed.

Lemma far_apart (dx dy : R) :
  100 * 100 <= dx * dx + dy * dy → ¬ sqrt (dx * dx + dy * dy) < 100.
Proof.
  intros Hfar Hlt.
  assert (Hle : sqrt (100 * 100) <= sqrt (dx * dx + dy * dy))
    by (apply sqrt_le_1_alt; lra).
  rewrite sqrt_square in Hle by lra. lra.
Qed.

Lemma far_apart_le (dx dy : R) :
  100 * 100 <= dx * dx + dy * dy → 100 <= sqrt (dx * dx + dy * dy).
Proof. intros Hfar. apply Rnot_lt_le. by apply far_apart. Qed.

End Routes.

(** X14. A connection from a bottom handle up to a top handle (target above
    the source, endpoints at least 100 apart) is routed around the side:
    two cubic segments that meet at the height halfway between the
    endpoints, in a column that lies between 80 and 150 beyond both
    endpoints, to the right when the target is not left of the source and
    to the left otherwise; the control points sit at least 40 below the
    source and at least 40 above the target. *)
Theorem getSmartPath_backwards (sourceX sourceY targetX targetY : R) :
  (100 * 100 <= (targetX - sourceX) * (targetX - sourceX)
                + (targetY - sourceY) * (targetY - sourceY))%R →
  (targetY < sourceY)%R →
  ∃ sideX verticalPadding : R,
    getSmartPath sourceX sourceY targetX targetY Bottom Top
    = TwoCubics {| pos_x := sourceX; pos_y := sourceY |}
        {| pos_x := sourceX; pos_y := sourceY + verticalPadding |}
        {| pos_x := sideX; pos_y := sourceY + verticalPadding |}
        {| pos_x := sideX; pos_y := (sourceY + targetY) / 2 |}
        {| pos_x := sideX; pos_y := targetY - verticalPadding |}
        {| pos_x := targetX; pos_y := targetY - verticalPadding |}
        {| pos_x := targetX; pos_y := targetY |} ∧
    (40 <= verticalPadding)%R ∧
    ((sourceX <= targetX)%R →
     (Rmax sourceX targetX + 80 <= sideX <= Rmax sourceX targetX + 150)%R ∧
     (sourceX < sideX)%R ∧ (targetX < sideX)%R) ∧
    ((targetX < sourceX)%R →
     (Rmin sourceX targetX - 150 <= sideX <= Rmin sourceX targetX - 80)%R ∧
     (sideX < sourceX)%R ∧ (sideX < targetX)%R).
Proof.
  intros Hfar Hup. unfold getSmartPath.
  rewrite (Rltb_false _ 100) by by apply far_apart.
  rewrite !bool_decide_eq_true_2 by done.
  rewrite (Rltb_true (targetY - sourceY) 0) by lra.
  cbn [andb].
  set (absDistance := Rabs (targetY - sourceY)).
  set (horizontalOffset := Rmax 80 (Rmin 150 (absDistance * (5 / 10)))).
  set (verticalPadding := Rmax 40 (absDistance * (2 / 10))).
  assert (Hoff : (80 <= horizontalOffset <= 150)%R).
  { unfold horizontalOffset. split; [apply Rmax_l|].
    apply Rmax_lub; [lra|apply Rmin_l]. }
  assert (Hpad : (40 <= verticalPadding)%R) by apply Rmax_l.
  destruct (Rle_dec 0 (targetX - sourceX)) as [Hright|Hleft].
  - rewrite (Rleb_true 0 (targetX - sourceX)) by done.
    exists (Rmax sourceX targetX + horizontalOffset)%R, verticalPadding.
    split; [reflexivity|]. split; [exact Hpad|]. split.
    + intros _. pose proof (Rmax_l sourceX targetX). pose proof (Rmax_r sourceX targetX).
      lra.
    + intros ?. lra.
  - rewrite (Rleb_false 0 (targetX - sourceX)) by done.
    exists (Rmin sourceX targetX - horizontalOffset)%R, verticalPadding.
    split; [reflexivity|]. split; [exact Hpad|]. split.
    + intros ?. lra.
    + intros _. pose proof (Rmin_l sourceX targetX). pose proof (Rmin_r sourceX targetX).
      lra.
Qed.

Lemma getSmartPath_backwards_witness :
  ((100 * 100 <= (0 - 0) * (0 - 0) + (0 - 300) * (0 - 300))%R ∧ (0 < 300)%R) ∧
  ∃ sideX verticalPadding : R,
    getSmartPath 0 300 0 0 Bottom Top
    = TwoCubics {| pos_x := 0; pos_y := 300 |}
        {| pos_x := 0; pos_y := 300 + verticalPadding |}
        {| pos_x := sideX; pos_y := 300 + verticalPadding |}
        {| pos_x := sideX; pos_y := (300 + 0) / 2 |}
        {| pos_x := sideX; pos_y := 0 - verticalPadding |}
        {| pos_x := 0; pos_y := 0 - verticalPadding |}
        {| pos_x := 0; pos_y := 0 |} ∧
    (40 <= verticalPadding)%R.
Proof.
  assert (H1 : (100 * 100 <= (0 - 0) * (0 - 0) + (0 - 300) * (0 - 300))%R) by lra.
  assert (H2 : (0 < 300)%R) by lra.
  split; [by split|].
  destruct (getSmartPath_backwards 0 300 0 0 H1 H2) as (sideX & pad & Heq & Hpad & _).
  by exists sideX, pad.
Defined.

(** X15. A connection between endpoints at least 100 apart that is not a
    bottom-to-top connection going up is drawn as one curve.  At about the
    same height (less than 50 apart vertically) it is an arc whose control
    point is halfway between the endpoints horizontally and at least 60
    below the lower of the two.  Otherwise it is a cubic whose control
    points sit straight below the source and straight above the target, at
    a distance between 25 and 60. *)
Theorem getSmartPath_forward (sourceX sourceY targetX targetY : R)
    (sourcePosition targetPosition : handleSide) :
  (100 * 100 <= (targetX - sourceX) * (targetX - sourceX)
                + (targetY - sourceY) * (targetY - sourceY))%R →
  sourcePosition ≠ Bottom ∨ targetPosition ≠ Top ∨ (sourceY <= targetY)%R →
  ((Rabs (targetY - sourceY) < 50)%R →
   ∃ arcY : R,
     getSmartPath sourceX sourceY targetX targetY sourcePosition targetPosition
     = Quadratic {| pos_x := sourceX; pos_y := sourceY |}
         {| pos_x := (sourceX + targetX) / 2; pos_y := arcY |}
         {| pos_x := targetX; pos_y := targetY |} ∧
     (sourceY + 60 <= arcY)%R ∧ (targetY + 60 <= arcY)%R) ∧
  ((50 <= Rabs (targetY - sourceY))%R →
   ∃ curvature : R,
     getSmartPath sourceX sourceY targetX targetY sourcePosition targetPosition
     = Cubic {| pos_x := sourceX; pos_y := sourceY |}
         {| pos_x := sourceX; pos_y := sourceY + curvature |}
         {| pos_x := targetX; pos_y := targetY - curvature |}
         {| pos_x := targetX; pos_y := targetY |} ∧
     (25 <= curvature <= 60)%R).
Proof.
  intros Hfar Hfwd.
  assert (Hback : bool_decide (sourcePosition = Bottom)
                  && bool_decide (targetPosition = Top)
                  && Rltb (targetY - sourceY) 0 = false).
  { destruct Hfwd as [H|[H|H]].
    - by rewrite (bool_decide_eq_false_2 _ H).
    - rewrite (bool_decide_eq_false_2 _ H). by rewrite andb_false_r.
    - rewrite (Rltb_false (targetY - sourceY) 0) by lra. by rewrite andb_false_r. }
  split.
  - intros Hlevel. unfold getSmartPath.
    rewrite (Rltb_false _ 100) by by apply far_apart.
    rewrite Hback. rewrite (Rltb_true _ 50) by done.
    eexists. split; [reflexivity|]. cbn [pos_y].
    pose proof (Rmax_l sourceY targetY). pose proof (Rmax_r sourceY targetY).
    pose proof (Rmax_l 60 (Rabs (targetX - sourceX) * (3 / 10))). lra.
  - intros Hlevel. unfold getSmartPath.
    rewrite (Rltb_false _ 100) by by apply far_apart.
    rewrite Hback. rewrite (Rltb_false _ 50) by lra.
    eexists. split; [reflexivity|].
    pose proof (far_apart_le _ _ Hfar) as Hd.
    split; [apply Rmin_glb; lra|apply Rmin_r].
Qed.

Lemma getSmartPath_forward_witness :
  ((100 * 100 <= (0 - 0) * (0 - 0) + (200 - 0) * (200 - 0))%R ∧
   (0 <= 200)%R ∧ (50 <= Rabs (200 - 0))%R) ∧
  ∃ curvature : R,
    getSmartPath 0 0 0 200 Bottom Top
    = Cubic {| pos_x := 0; pos_y := 0 |}
        {| pos_x := 0; pos_y := 0 + curvature |}
        {| pos_x := 0; pos_y := 200 - curvature |}
        {| pos_x := 0; pos_y := 200 |} ∧
    (25 <= curvature <= 60)%R.
Proof.
  assert (H1 : (100 * 100 <= (0 - 0) * (0 - 0) + (200 - 0) * (200 - 0))%R) by lra.
  assert (H2 : (0 <= 200)%R) by lra.
  assert (H3 : (50 <= Rabs (200 - 0))%R).
  { rewrite Rabs_right; lra. }
  split; [by split_and!|].
  destruct (getSmartPath_forward 0 0 0 200 Bottom Top H1) as [_ Hc].
  { right. right. exact H2. }
  exact (Hc H3).
Defined.

(** X16. Whatever the endpoints and the handle sides, the path starts at
    the source and ends at the target; the route around the side is used
    only from a bottom handle to a top handle with the target above the
    source. *)
Theorem getSmartPath_endpoints (sourceX sourceY targetX targetY : R)
    (sourcePosition targetPosition : handleSide) :
  curveStart (getSmartPath sourceX sourceY targetX targetY sourcePosition targetPosition)
  = {| pos_x := sourceX; pos_y := sourceY |} ∧
  curveStop (getSmartPath sourceX sourceY targetX targetY sourcePosition targetPosition)
  = {| pos_x := targetX; pos_y := targetY |} ∧
  ∀ start c1 c2 mid c3 c4 stop,
    getSmartPath sourceX sourceY targetX targetY sourcePosition targetPosition
    = TwoCubics start c1 c2 mid c3 c4 stop →
    sourcePosition = Bottom ∧ targetPosition = Top ∧ (targetY < sourceY)%R ∧
    pos_y mid = ((sourceY + targetY) / 2)%R ∧
    pos_x c2 = pos_x mid ∧ pos_x c3 = pos_x mid.
Proof.
  unfold getSmartPath.
  destruct (Rltb (sqrt _) 100); [by split_and!|].
  destruct (bool_decide (sourcePosition = Bottom)) eqn:Hs;
    destruct (bool_decide (targetPosition = Top)) eqn:Ht;
    cbn [andb];
    try (destruct (Rltb (Rabs (targetY - sourceY)) 50); by split_and!).
  destruct (Rltb (targetY - sourceY) 0) eqn:Hup.
  - split_and!; [done|done|].
    intros start c1 c2 mid c3 c4 stop [= <- <- <- <- <- <- <-].
    apply bool_decide_eq_true in Hs, Ht. cbn [pos_x pos_y].
    unfold Rltb in Hup. destruct (Rlt_dec (targetY - sourceY) 0); [|done].
    split_and!; try done. lra.
  - destruct (Rltb (Rabs (targetY - sourceY)) 50); by split_and!.
Qed.

(** ** The sync of attached images settles *)

Section Settle.

Lemma syncImage_id nds n : node_id (syncImage nds n).1 = node_id n.
Proof.
  unfold syncImage. destruct (attachedImageOf n); [|done].
  destruct (findNode _ nds); [|done].
  destruct (calculateAnchorPosition _ _); [|done].
  repeat destruct (Rlt_dec _ _); done.
Qed.

Lemma syncImage_free nds n :
  attachedImageOf n = None → syncImage nds n = (n, false).
Proof. intros E. unfold syncImage. by rewrite E. Qed.

Lemma syncImage_cases nds n parentId :
  attachedImageOf n = Some parentId →
  match findNode parentId nds with
  | None => syncImage nds n = (detach n, true)
  | Some parent =>
      match anchorTarget parent n with
      | None => syncImage nds n = (n, false)
      | Some place =>
          (syncImage nds n = (moveTo place n, true) ∧
           ¬ ((Rabs (pos_x (node_position n) - pos_x place) <= 1)%R ∧
              (Rabs (pos_y (node_position n) - pos_y place) <= 1)%R)) ∨
          (syncImage nds n = (n, false) ∧
           (Rabs (pos_x (node_position n) - pos_x place) <= 1)%R ∧
           (Rabs (pos_y (node_position n) - pos_y place) <= 1)%R)
      end
  end.
Proof.
  intros E. unfold syncImage. rewrite E.
  destruct (findNode parentId nds) as [parent|]; [|done].
  unfold anchorTarget.
  destruct (calculateAnchorPosition parent (anchorPoint (data n))) as [anchorPos|];
    [|done].
  cbn [mbind option_bind pos_x pos_y].
  destruct (Rlt_dec 1 _) as [Hx|Hx].
  - left. split; [done|]. intros [H1 H2]. lra.
  - destruct (Rlt_dec 1 _) as [Hy|Hy].
    + left. split; [done|]. intros [H1 H2]. lra.
    + right. split; [done|]. lra.
Qed.

Lemma attachedImageOf_moveTo p n : attachedImageOf (moveTo p n) = attachedImageOf n.
Proof. reflexivity. Qed.

Lemma attachedImageOf_detach n : attachedImageOf (detach n) = None.
Proof. unfold attachedImageOf. by case_decide. Qed.

Lemma findNode_fmap (f : node → node) nodeId nds :
  (∀ n, node_id (f n) = node_id n) →
  findNode nodeId (f <$> nds) = f <$> findNode nodeId nds.
Proof.
  intros Hid. unfold findNode. apply find_fmap_same. intros n. by rewrite Hid.
Qed.

Lemma existsb_false_all {A} (p : A → bool) (l : list A) :
  existsb p l = false → ∀ x, x ∈ l → p x = false.
Proof.
  induction l as [|y l IH]; [by intros _ x ?%elem_of_nil|].
  simpl. intros [Hy Hl]%orb_false_iff x [->|Hx]%elem_of_cons; [done|by apply IH].
Qed.

Lemma existsb_all_false {A} (p : A → bool) (l : list A) :
  (∀ x, x ∈ l → p x = false) → existsb p l = false.
Proof.
  induction l as [|y l IH]; [done|]. intros Hall. simpl.
  rewrite (Hall y) by apply list_elem_of_here. simpl.
  apply IH. intros x Hx. apply Hall. by apply list_elem_of_further.
Qed.

(** The effect either finds nothing to do and returns the list it got, or
    returns the list of the mapped nodes. *)
Lemma syncAttachedImages_cases nds :
  (syncAttachedImages nds = nds ∧ ∀ n, n ∈ nds → (syncImage nds n).2 = false) ∨
  syncAttachedImages nds = (λ n, (syncImage nds n).1) <$> nds.
Proof.
  unfold syncAttachedImages.
  destruct (filter (λ n, is_Some (attachedImageOf n)) nds) as [|a l] eqn:E.
  - left. split; [done|]. intros n Hn.
    destruct (attachedImageOf n) as [parentId|] eqn:Ha.
    + assert (Hin : n ∈ filter (λ n, is_Some (attachedImageOf n)) nds).
      { apply list_elem_of_filter. split; [by rewrite Ha|done]. }
      rewrite E in Hin. by apply elem_of_nil in Hin.
    + by rewrite syncImage_free.
  - destruct (existsb snd (syncImage nds <$> nds)) eqn:Hex.
    + right. by rewrite <- list_fmap_compose.
    + left. split; [done|]. intros n Hn.
      apply (existsb_false_all _ _ Hex (syncImage nds n)).
      by apply list_elem_of_fmap_2.
Qed.

Lemma syncAttachedImages_fixed nds :
  (∀ n, n ∈ nds → (syncImage nds n).2 = false) → syncAttachedImages nds = nds.
Proof.
  intros Hall. unfold syncAttachedImages.
  destruct (filter _ nds) as [|a l]; [done|].
  rewrite existsb_all_false; [done|].
  intros x Hx. apply list_elem_of_fmap in Hx as (n & -> & Hn). by apply Hall.
Qed.

Lemma syncImage_quiet nds n :
  (syncImage nds n).2 = false →
  inPlace nds n ∧
  ∀ parentId, attachedImageOf n = Some parentId → is_Some (findNode parentId nds).
Proof.
  intros Hq. split.
  - intros parentId parent place Ha Hf Hplace.
    pose proof (syncImage_cases nds n parentId Ha) as Hc. rewrite Hf, Hplace in Hc.
    destruct Hc as [[Hc _]|[_ Hc]]; [by rewrite Hc in Hq|done].
  - intros parentId Ha.
    pose proof (syncImage_cases nds n parentId Ha) as Hc.
    destruct (findNode parentId nds); [done|]. by rewrite Hc in Hq.
Qed.

Lemma Rabs_self_le (x : R) : (Rabs (x - x) <= 1)%R.
Proof. replace (x - x)%R with 0%R by lra. rewrite Rabs_R0. lra. Qed.

Lemma syncImage_second_pass nds n :
  (∀ m parentId parent, m ∈ nds → attachedImageOf m = Some parentId →
     findNode parentId nds = Some parent → attachedImageOf parent = None) →
  n ∈ nds →
  (syncImage ((λ n, (syncImage nds n).1) <$> nds) (syncImage nds n).1).2 = false.
Proof.
  intros Hflat Hn.
  set (f := λ n, (syncImage nds n).1).
  destruct (attachedImageOf n) as [parentId|] eqn:Ha.
  2:{ rewrite (syncImage_free nds n Ha). cbn [fst]. by rewrite syncImage_free. }
  pose proof (syncImage_cases nds n parentId Ha) as Hc.
  destruct (findNode parentId nds) as [parent|] eqn:Hf.
  2:{ rewrite Hc. cbn [fst]. by rewrite syncImage_free by apply attachedImageOf_detach. }
  assert (Hparent : findNode parentId (f <$> nds) = Some parent).
  { rewrite (findNode_fmap f) by (intros m; apply syncImage_id).
    rewrite Hf. cbn [fmap option_fmap option_map]. f_equal. unfold f.
    by rewrite syncImage_free by (by eapply Hflat). }
  destruct (anchorTarget parent n) as [place|] eqn:Hplace.
  - destruct Hc as [[Hc _]|[Hc [Hx Hy]]]; rewrite Hc; cbn [fst].
    + pose proof (syncImage_cases (f <$> nds) (moveTo place n) parentId) as Hc2.
      rewrite Hparent in Hc2.
      change (anchorTarget parent (moveTo place n)) with (anchorTarget parent n) in Hc2.
      rewrite Hplace in Hc2. destruct Hc2 as [[_ Hfar]|[-> _]]; [done| |done].
      destruct Hfar. cbn [moveTo node_position]. split; apply Rabs_self_le.
    + pose proof (syncImage_cases (f <$> nds) n parentId Ha) as Hc2.
      rewrite Hparent, Hplace in Hc2. destruct Hc2 as [[_ Hfar]|[-> _]]; [|done].
      by destruct Hfar.
  - rewrite Hc. cbn [fst].
    pose proof (syncImage_cases (f <$> nds) n parentId Ha) as Hc2.
    rewrite Hparent, Hplace in Hc2. by rewrite Hc2.
Qed.

End Settle.

Lemma anchorTarget_is_Some (parent n : node) :
  default "undefined" (anchorPoint (data n)) ∉ protoNames →
  is_Some (anchorTarget parent n).
Proof.
  intros Hkey. unfold anchorTarget, calculateAnchorPosition, getMember.
  destruct (anchors parent !! _) as [p|]; [by eexists|].
  rewrite decide_False by done.
  assert (is_Some (anchors parent !! "top-right")) as [p ->]; [|by eexists].
  unfold anchors. cbn [list_to_map foldr fst snd].
  rewrite lookup_insert_ne by done. rewrite lookup_insert_eq. by eexists.
Qed.

(** X17. When no image is attached to an image that is itself attached, one
    run of the sync effect settles the sheet: a second run changes nothing,
    every attached image then has its parent on the sheet and, unless its
    anchor is a name inherited from [Object.prototype] (such an image is
    never moved), sits within 1 of anchor + offset; and the run keeps the
    ids and the order of the nodes and every node that is no attached image
    as it is. *)
Theorem syncAttachedImages_settles (nds : list node) :
  (∀ m parentId parent, m ∈ nds → attachedImageOf m = Some parentId →
     findNode parentId nds = Some parent → attachedImageOf parent = None) →
  syncAttachedImages (syncAttachedImages nds) = syncAttachedImages nds ∧
  node_id <$> syncAttachedImages nds = node_id <$> nds ∧
  (∀ n', n' ∈ syncAttachedImages nds →
     (∀ parentId parent,
        attachedImageOf n' = Some parentId →
        findNode parentId (syncAttachedImages nds) = Some parent →
        default "undefined" (anchorPoint (data n')) ∉ protoNames →
        ∃ place, anchorTarget parent n' = Some place ∧
                 (Rabs (pos_x (node_position n') - pos_x place) <= 1)%R ∧
                 (Rabs (pos_y (node_position n') - pos_y place) <= 1)%R) ∧
     ∀ parentId, attachedImageOf n' = Some parentId →
                 is_Some (findNode parentId (syncAttachedImages nds))) ∧
  (∀ n, n ∈ nds → attachedImageOf n = None → n ∈ syncAttachedImages nds) ∧
  (∀ nds' n parentId parent a,
     attachedImageOf n = Some parentId → findNode parentId nds' = Some parent →
     anchorPoint (data n) = Some a → a ∈ protoNames →
     syncImage nds' n = (n, false)).
Proof.
  intros Hflat.
  assert (Hquiet : ∀ n', n' ∈ syncAttachedImages nds →
            (syncImage (syncAttachedImages nds) n').2 = false).
  { destruct (syncAttachedImages_cases nds) as [[-> Hq]| ->]; [done|].
    intros n' Hn'. apply list_elem_of_fmap in Hn' as (n & -> & Hn).
    by apply syncImage_second_pass. }
  split_and!.
  - by apply syncAttachedImages_fixed.
  - destruct (syncAttachedImages_cases nds) as [[-> _]| ->]; [done|].
    rewrite <- list_fmap_compose. apply list_fmap_ext. intros ? n _. simpl.
    apply syncImage_id.
  - intros n' Hn'. destruct (syncImage_quiet _ _ (Hquiet n' Hn')) as [Hplace Hparent].
    split; [|done]. intros parentId parent Ha Hf Hkey.
    destruct (anchorTarget_is_Some parent n' Hkey) as [place Hp].
    exists place. split; [done|]. by eapply Hplace.
  - intros n Hn Ha. destruct (syncAttachedImages_cases nds) as [[-> _]| ->]; [done|].
    apply list_elem_of_fmap. exists n. by rewrite syncImage_free.
  - intros nds' n parentId parent a Ha Hf Hanchor Hin.
    unfold syncImage. rewrite Ha, Hf.
    unfold calculateAnchorPosition, getMember. rewrite Hanchor.
    change (default "undefined" (Some a)) with a.
    assert (anchors parent !! a = None) as ->.
    { unfold anchors. cbn [list_to_map foldr fst snd].
      rewrite !lookup_insert_ne, lookup_empty; [done|intros <-; revert Hin; compute_done..]. }
    by rewrite decide_True.
Qed.

Lemma syncAttachedImages_settles_witness :
  (∀ m parentId parent, m ∈ nodes attachedSheet → attachedImageOf m = Some parentId →
     findNode parentId (nodes attachedSheet) = Some parent →
     attachedImageOf parent = None) ∧
  syncAttachedImages (syncAttachedImages (nodes attachedSheet))
  = syncAttachedImages (nodes attachedSheet).
Proof.
  assert (H : ∀ m parentId parent, m ∈ nodes attachedSheet →
            attachedImageOf m = Some parentId →
            findNode parentId (nodes attachedSheet) = Some parent →
            attachedImageOf parent = None).
  { intros m parentId parent Hm Ha Hf. cbn [attachedSheet nodes] in Hm, Hf.
    apply elem_of_cons in Hm as [->|Hm]; [done|].
    apply list_elem_of_singleton in Hm as ->.
    injection Ha as <-. by injection Hf as <-. }
  split; [exact H|]. apply (syncAttachedImages_settles _ H).
Defined.

(** ** Image files and their sizes *)

Section Images.
Local Open Scope R_scope.

Lemma scale_le (a b c : R) : 0 <= a → 0 <= c → c < b → a * c / b <= a.
Proof.
  intros Ha Hc Hb. unfold Rdiv.
  apply (Rmult_le_reg_r b); [lra|].
  rewrite Rmult_assoc, Rinv_l by lra. nra.
Qed.

Lemma scale_fit (a b c : R) : 0 <= a → a <= b → 0 <= c → c < b → a * c / b <= c.
Proof.
  intros Ha Hab Hc Hb. unfold Rdiv.
  apply (Rmult_le_reg_r b); [lra|].
  rewrite Rmult_assoc, Rinv_l by lra. nra.
Qed.

Lemma scale_nonneg (a b c : R) : 0 <= a → 0 <= c → c < b → 0 <= a * c / b.
Proof.
  intros Ha Hc Hb. unfold Rdiv.
  apply Rmult_le_pos; [nra|]. left. apply Rinv_0_lt_compat. lra.
Qed.

Lemma scale_ratio (a b c : R) : b ≠ 0 → a * c / b * b = c * a.
Proof. intros Hb. field. exact Hb. Qed.

Lemma Rltb_spec (a b : R) : (Rltb a b = true ∧ a < b) ∨ (Rltb a b = false ∧ b <= a).
Proof.
  unfold Rltb. destruct (Rlt_dec a b); [left|right]; split; try done. lra.
Qed.

Lemma generateThumbnail_size_fits (imgWidth imgHeight size : R) :
  0 <= imgWidth → 0 <= imgHeight → 0 <= size →
  (generateThumbnail_size imgWidth imgHeight size).1 <= size ∧
  (generateThumbnail_size imgWidth imgHeight size).2 <= size ∧
  0 <= (generateThumbnail_size imgWidth imgHeight size).1 <= imgWidth ∧
  0 <= (generateThumbnail_size imgWidth imgHeight size).2 <= imgHeight ∧
  (generateThumbnail_size imgWidth imgHeight size).1 * imgHeight
  = (generateThumbnail_size imgWidth imgHeight size).2 * imgWidth.
Proof.
  intros Hw Hh Hs. unfold generateThumbnail_size.
  destruct (Rltb_spec imgHeight imgWidth) as [[-> Hwide]|[-> Htall]].
  - destruct (Rltb_spec size imgWidth) as [[-> Hbig]|[-> Hsmall]]; cbn [fst snd].
    + pose proof (scale_le imgHeight imgWidth size Hh Hs Hbig).
      pose proof (scale_fit imgHeight imgWidth size Hh (Rlt_le _ _ Hwide) Hs Hbig).
      pose proof (scale_nonneg imgHeight imgWidth size Hh Hs Hbig).
      rewrite scale_ratio by lra. lra.
    + lra.
  - destruct (Rltb_spec size imgHeight) as [[-> Hbig]|[-> Hsmall]]; cbn [fst snd].
    + pose proof (scale_le imgWidth imgHeight size Hw Hs Hbig).
      pose proof (scale_fit imgWidth imgHeight size Hw Htall Hs Hbig).
      pose proof (scale_nonneg imgWidth imgHeight size Hw Hs Hbig).
      rewrite scale_ratio by lra. lra.
    + lra.
Qed.

Lemma compressImage_size_fits (imgWidth imgHeight maxWidth : R) :
  0 <= imgWidth → 0 <= imgHeight → 0 <= maxWidth →
  (compressImage_size imgWidth imgHeight maxWidth).1 <= maxWidth ∧
  0 <= (compressImage_size imgWidth imgHeight maxWidth).1 <= imgWidth ∧
  0 <= (compressImage_size imgWidth imgHeight maxWidth).2 <= imgHeight ∧
  (compressImage_size imgWidth imgHeight maxWidth).1 * imgHeight
  = (compressImage_size imgWidth imgHeight maxWidth).2 * imgWidth.
Proof.
  intros Hw Hh Hs. unfold compressImage_size.
  destruct (Rltb_spec maxWidth imgWidth) as [[-> Hbig]|[-> Hsmall]]; cbn [fst snd].
  - pose proof (scale_le imgHeight imgWidth maxWidth Hh Hs Hbig).
    pose proof (scale_nonneg imgHeight imgWidth maxWidth Hh Hs Hbig).
    rewrite scale_ratio by lra. lra.
  - lra.
Qed.

Lemma canvasSide_le (x : R) : 0 <= x → 0 <= canvasSide x <= x.
Proof.
  intros Hx. unfold canvasSide.
  destruct (base_Int_part x) as [Hle Hgt]. split; [|done].
  apply IZR_le. assert (Hlt : (-1 < Int_part x)%Z); [|lia].
  apply lt_IZR. lra.
Qed.

End Images.

Lemma validateImage_sound (f : option file) :
  valid (validateImage f) = true ↔ error (validateImage f) = None.
Proof.
  unfold validateImage. destruct f as [fl|]; [|done].
  case_decide; [done|]. by destruct (MAX_FILE_SIZE <? file_size fl)%N.
Qed.

(** X18. [validateImage] accepts a file exactly when there is one, its type
    is PNG, JPEG, GIF or WebP and it has at most 5 MiB (5242880 bytes); an
    accepted file has no error message, a rejected one always has one, and
    a wrong type is reported whatever the size. *)
Theorem validateImage_accepts (f : option file) :
  (valid (validateImage f) = true ↔
   ∃ fl, f = Some fl ∧ file_type fl ∈ VALID_TYPES ∧ (file_size fl ≤ 5242880)%N) ∧
  (valid (validateImage f) = true ↔ error (validateImage f) = None) ∧
  (f = None → error (validateImage f) = Some "No file provided") ∧
  (∀ fl, f = Some fl → file_type fl ∉ VALID_TYPES →
         error (validateImage f)
         = Some "Invalid image type. Supported: PNG, JPEG, GIF, WebP") ∧
  (∀ fl, f = Some fl → file_type fl ∈ VALID_TYPES → (5242880 < file_size fl)%N →
         error (validateImage f) = Some "File too large. Maximum size is 5MB").
Proof.
  split_and!.
  - unfold validateImage. split.
    + destruct f as [fl|]; [|done].
      destruct (decide (file_type fl ∉ VALID_TYPES)) as [Hbad|Hok]; [done|].
      apply dec_stable in Hok.
      destruct (N.ltb_spec MAX_FILE_SIZE (file_size fl)) as [Hbig|Hsmall]; [done|].
      intros _. exists fl. split_and!; [done|done|].
      unfold MAX_FILE_SIZE in Hsmall. lia.
    + intros (fl & -> & Hty & Hsz).
      rewrite decide_False by (by intros Hn).
      destruct (N.ltb_spec MAX_FILE_SIZE (file_size fl)) as [Hbig|Hsmall]; [|done].
      unfold MAX_FILE_SIZE in Hbig. lia.
  - apply validateImage_sound.
  - by intros ->.
  - intros fl -> Hty. unfold validateImage. by rewrite decide_True.
  - intros fl -> Hty Hsz. unfold validateImage.
    rewrite decide_False by (by intros Hn).
    destruct (N.ltb_spec MAX_FILE_SIZE (file_size fl)) as [Hbig|Hsmall]; [done|].
    unfold MAX_FILE_SIZE in Hsmall. lia.
Qed.

(** X19. A thumbnail fits into the size x size box and is never larger than
    the image: for an image of non-negative width and height both sides it
    is drawn with are at most [size] and at most the side of the image, the
    proportions are kept (width' * height = height' * width), and the sides
    of its canvas, the integer parts, are within the same bounds. *)
Theorem generateThumbnail_fits (imgWidth imgHeight size : R) :
  (0 <= imgWidth)%R → (0 <= imgHeight)%R → (0 <= size)%R →
  ((generateThumbnail_size imgWidth imgHeight size).1 <= size)%R ∧
  ((generateThumbnail_size imgWidth imgHeight size).2 <= size)%R ∧
  (0 <= (generateThumbnail_size imgWidth imgHeight size).1 <= imgWidth)%R ∧
  (0 <= (generateThumbnail_size imgWidth imgHeight size).2 <= imgHeight)%R ∧
  ((generateThumbnail_size imgWidth imgHeight size).1 * imgHeight
   = (generateThumbnail_size imgWidth imgHeight size).2 * imgWidth)%R ∧
  (0 <= canvasSide (generateThumbnail_size imgWidth imgHeight size).1 <= size)%R ∧
  (0 <= canvasSide (generateThumbnail_size imgWidth imgHeight size).2 <= size)%R ∧
  ((imgWidth <= size)%R → (imgHeight <= size)%R →
   generateThumbnail_size imgWidth imgHeight size = (imgWidth, imgHeight)).
Proof.
  intros Hw Hh Hs.
  destruct (generateThumbnail_size_fits imgWidth imgHeight size Hw Hh Hs)
    as (H1 & H2 & H3 & H4 & H5).
  do 5 (split; [assumption|]).
  split; [|split].
  - pose proof (canvasSide_le _ (proj1 H3)). lra.
  - pose proof (canvasSide_le _ (proj1 H4)). lra.
  - intros Hws Hhs. unfold generateThumbnail_size.
    rewrite (Rltb_false size imgWidth), (Rltb_false size imgHeight) by lra.
    by destruct (Rltb imgHeight imgWidth).
Qed.

Lemma generateThumbnail_fits_witness :
  ((0 <= 1600)%R ∧ (0 <= 900)%R ∧ (0 <= 80)%R) ∧
  ((generateThumbnail_size 1600 900 80).1 <= 80)%R ∧
  ((generateThumbnail_size 1600 900 80).2 <= 80)%R.
Proof.
  assert (H1 : (0 <= 1600)%R) by lra.
  assert (H2 : (0 <= 900)%R) by lra.
  assert (H3 : (0 <= 80)%R) by lra.
  split; [by split_and!|].
  destruct (generateThumbnail_fits 1600 900 80 H1 H2 H3) as (Ha & Hb & _).
  by split.
Defined.

(** X20. Processing an accepted image file never fails on its sizes: a file
    above 500 KiB is stored at most 800 wide, a smaller one at its own size,
    in both cases no larger than the image, and the thumbnail, made from the
    stored image, fits into 80 x 80 and into the stored image.  A file that
    [validateImage] rejects gives the error message instead. *)
Theorem processImageFile_sizes_fit (fl : file) (imgWidth imgHeight : R) :
  (0 <= imgWidth)%R → (0 <= imgHeight)%R →
  (valid (validateImage (Some fl)) = true →
   ∃ final thumbnail,
     processImageFile_sizes (Some fl) imgWidth imgHeight = inr (final, thumbnail) ∧
     ((512000 < file_size fl)%N → (final.1 <= 800)%R) ∧
     ((file_size fl ≤ 512000)%N → final = (imgWidth, imgHeight)) ∧
     (0 <= final.1 <= imgWidth)%R ∧ (0 <= final.2 <= imgHeight)%R ∧
     (0 <= thumbnail.1 <= 80)%R ∧ (0 <= thumbnail.2 <= 80)%R ∧
     (thumbnail.1 <= final.1)%R ∧ (thumbnail.2 <= final.2)%R) ∧
  (valid (validateImage (Some fl)) = false →
   ∃ msg, error (validateImage (Some fl)) = Some msg ∧
          processImageFile_sizes (Some fl) imgWidth imgHeight = inl msg).
Proof.
  intros Hw Hh. split.
  - intros Hvalid.
    assert (Herr : error (validateImage (Some fl)) = None).
    { by apply (validateImage_sound (Some fl)). }
    unfold processImageFile_sizes. rewrite Herr.
    set (final := if (COMPRESSION_THRESHOLD <? file_size fl)%N
                  then (canvasSide
                          (compressImage_size imgWidth imgHeight MAX_COMPRESSED_WIDTH).1,
                        canvasSide
                          (compressImage_size imgWidth imgHeight MAX_COMPRESSED_WIDTH).2)
                  else (imgWidth, imgHeight)).
    destruct (compressImage_size_fits imgWidth imgHeight MAX_COMPRESSED_WIDTH)
      as (C1 & C2 & C3 & _); [done|done|unfold MAX_COMPRESSED_WIDTH; lra|].
    pose proof (canvasSide_le _ (proj1 C2)) as S1.
    pose proof (canvasSide_le _ (proj1 C3)) as S2.
    assert (Hfinal : ((0 <= final.1 <= imgWidth) ∧ (0 <= final.2 <= imgHeight))%R).
    { unfold final. destruct (COMPRESSION_THRESHOLD <? file_size fl)%N;
        cbn [fst snd]; lra. }
    destruct Hfinal as (Hf1 & Hf2).
    destruct (generateThumbnail_size_fits final.1 final.2 80) as (T1 & T2 & T3 & T4 & _);
      [lra..|].
    pose proof (canvasSide_le _ (proj1 T3)) as S3.
    pose proof (canvasSide_le _ (proj1 T4)) as S4.
    eexists final, _. split; [reflexivity|]. cbn [fst snd].
    split; [|split; [|repeat split; lra]].
    + intros Hbig. unfold final.
      destruct (N.ltb_spec COMPRESSION_THRESHOLD (file_size fl)) as [_|Hsmall].
      * cbn [fst]. assert (Hmax : MAX_COMPRESSED_WIDTH = 800%R) by reflexivity. lra.
      * unfold COMPRESSION_THRESHOLD in Hsmall. lia.
    + intros Hsmall. unfold final.
      destruct (N.ltb_spec COMPRESSION_THRESHOLD (file_size fl)) as [Hbig|_]; [|done].
      unfold COMPRESSION_THRESHOLD in Hbig. lia.
  - intros Hinvalid. unfold processImageFile_sizes.
    destruct (error (validateImage (Some fl))) as [msg|] eqn:Herr; [by exists msg|].
    apply (validateImage_sound (Some fl)) in Herr. congruence.
Qed.

Lemma processImageFile_sizes_fit_witness :
  ((0 <= 1600)%R ∧ (0 <= 900)%R ∧
   valid (validateImage (Some {| file_type := "image/png"; file_size := 600000 |}))
   = true) ∧
  ∃ final thumbnail,
    processImageFile_sizes (Some {| file_type := "image/png"; file_size := 600000 |})
      1600 900 = inr (final, thumbnail) ∧
    (final.1 <= 800)%R ∧ (thumbnail.1 <= 80)%R ∧ (thumbnail.2 <= 80)%R.
Proof.
  assert (H1 : (0 <= 1600)%R) by lra.
  assert (H2 : (0 <= 900)%R) by lra.
  split; [by split_and!|].
  destruct (processImageFile_sizes_fit
              {| file_type := "image/png"; file_size := 600000 |} 1600 900 H1 H2)
    as [Hvalid _].
  destruct (Hvalid eq_refl) as (final & thumbnail & Heq & Hbig & _ & _ & _ & T1 & T2 & _).
  exists final, thumbnail. split; [exact Heq|]. split; [|split; [apply T1|apply T2]].
  apply Hbig. reflexivity.
Defined.

(** X21. The node made for an uploaded image is between 150 and 324 wide
    and between 150 and 360 high, whatever the size of the image: the image
    is first scaled into 300 x 300, then 24 and 60 are added for the frame,
    with 150 as the least side. *)
Theorem handleImageUpload_style_bounds (imgWidth imgHeight : R) :
  (0 <= imgWidth)%R → (0 <= imgHeight)%R →
  (150 <= width (handleImageUpload_style imgWidth imgHeight) <= 324)%R ∧
  (150 <= height (handleImageUpload_style imgWidth imgHeight) <= 360)%R ∧
  ((imgWidth <= 300)%R → (imgHeight <= 300)%R →
   handleImageUpload_style imgWidth imgHeight
   = {| width := Rmax 150 (imgWidth + 24); height := Rmax 150 (imgHeight + 60) |}).
Proof.
  intros Hw Hh. unfold handleImageUpload_style.
  destruct (Rltb_spec 300 imgWidth) as [[-> Hwide]|[-> Hnarrow]].
  - pose proof (scale_nonneg imgHeight imgWidth 300 Hh ltac:(lra) Hwide) as Hh1.
    destruct (Rltb_spec 300 (imgHeight * 300 / imgWidth)) as [[-> Htall]|[-> Hshort]];
      cbn [width height].
    + pose proof (scale_le 300 (imgHeight * 300 / imgWidth) 300
                    ltac:(lra) ltac:(lra) Htall) as Hw2.
      pose proof (scale_nonneg 300 (imgHeight * 300 / imgWidth) 300
                    ltac:(lra) ltac:(lra) Htall) as Hw2'.
      split_and!; try apply Rmax_l; try (apply Rmax_lub; lra); intros; lra.
    + split_and!; try apply Rmax_l; try (apply Rmax_lub; lra); intros; lra.
  - destruct (Rltb_spec 300 imgHeight) as [[-> Htall]|[-> Hshort]];
      cbn [width height].
    + pose proof (scale_le imgWidth imgHeight 300 Hw ltac:(lra) Htall) as Hw2.
      pose proof (scale_nonneg imgWidth imgHeight 300 Hw ltac:(lra) Htall) as Hw2'.
      split_and!; try apply Rmax_l; try (apply Rmax_lub; lra); intros; lra.
    + split_and!; try apply Rmax_l; try (apply Rmax_lub; lra); intros; done.
Qed.

Lemma handleImageUpload_style_bounds_witness :
  ((0 <= 1600)%R ∧ (0 <= 900)%R) ∧
  (150 <= width (handleImageUpload_style 1600 900) <= 324)%R ∧
  (150 <= height (handleImageUpload_style 1600 900) <= 360)%R.
Proof.
  assert (H1 : (0 <= 1600)%R) by lra.
  assert (H2 : (0 <= 900)%R) by lra.
  split; [by split|].
  destruct (handleImageUpload_style_bounds 1600 900 H1 H2) as (Ha & Hb & _).
  by split.
Defined.

(** ** Sheets *)

Section Sheets.

Lemma find_sheet_Some i (l : list sheetTab) s :
  List.find (λ s, String.eqb (sheet_id s) i) l = Some s → s ∈ l ∧ sheet_id s = i.
Proof.
  intros H. apply find_some in H as [Hin Heq].
  split; [by apply list_elem_of_In|]. by apply String.eqb_eq.
Qed.

Lemma find_sheet_None i (l : list sheetTab) :
  List.find (λ s, String.eqb (sheet_id s) i) l = None →
  i ∉ sheet_id <$> l.
Proof.
  intros H Hin. apply list_elem_of_fmap in Hin as (s & -> & Hs).
  apply list_elem_of_In in Hs.
  pose proof (find_none _ _ H s Hs) as Hne. simpl in Hne.
  by rewrite String.eqb_refl in Hne.
Qed.

Lemma find_sheet_is_Some i (l : list sheetTab) :
  i ∈ sheet_id <$> l → is_Some (List.find (λ s, String.eqb (sheet_id s) i) l).
Proof.
  intros Hin.
  destruct (List.find (λ s, String.eqb (sheet_id s) i) l) eqn:E; [done|].
  by apply find_sheet_None in E.
Qed.

Lemma activeSheet_is_Some st : sheets st ≠ [] → is_Some (activeSheet st).
Proof.
  intros Hne. unfold activeSheet.
  destruct (List.find _ (sheets st)); [done|].
  destruct (sheets st); [done|]. done.
Qed.

Lemma two_ids_one_stays (a b : sheetTab) (l : list sheetTab) sheetId :
  NoDup (sheet_id <$> a :: b :: l) →
  filter (λ s, sheet_id s ≠ sheetId) (a :: b :: l) ≠ [].
Proof.
  intros Hnd Hnil.
  assert (Ha : sheet_id a = sheetId).
  { destruct (decide (sheet_id a = sheetId)) as [|Hne]; [done|].
    rewrite filter_cons, decide_True in Hnil by done. done. }
  assert (Hb : sheet_id b = sheetId).
  { destruct (decide (sheet_id b = sheetId)) as [|Hne]; [done|].
    rewrite filter_cons, decide_False in Hnil by (by intros ?).
    rewrite filter_cons, decide_True in Hnil by done. done. }
  rewrite !fmap_cons in Hnd. apply NoDup_cons in Hnd as [Hnotin _].
  apply Hnotin. rewrite Ha, <- Hb. apply list_elem_of_here.
Qed.

Lemma storeGraph_find a g st :
  List.find (λ s, String.eqb (sheet_id s) a) (sheets (storeGraph g st))
  = (λ s, if decide (sheet_id s = activeSheetId st) then
            {| sheet_id := sheet_id s; sheet_name := sheet_name s; sheet_graph := g |}
          else s)
    <$> List.find (λ s, String.eqb (sheet_id s) a) (sheets st).
Proof.
  cbn [storeGraph sheets].
  apply (find_fmap_same (λ s, String.eqb (sheet_id s) a)).
  intros s. by case_decide.
Qed.

Lemma storeGraph_ids g st :
  sheet_id <$> sheets (storeGraph g st) = sheet_id <$> sheets st.
Proof.
  cbn [storeGraph sheets]. rewrite <- list_fmap_compose.
  apply list_fmap_ext. intros ? s _. simpl. by case_decide.
Qed.

Lemma find_append {A} (p : A → bool) (l k : list A) :
  List.find p (l ++ k)
  = match List.find p l with
    | Some x => Some x
    | None => List.find p k
    end.
Proof.
  induction l as [|x l IH]; [done|]. cbn [app List.find].
  by destruct (p x).
Qed.

End Sheets.

(** X22. With pairwise distinct sheet ids, deleting a sheet never fails and
    never leaves the workbook empty: the last sheet is not deleted, otherwise
    exactly the sheet with the id goes, the ids stay distinct, and an active
    id that named a sheet before still names one (the first remaining sheet
    when the active sheet was the one deleted). *)
Theorem deleteSheet_keeps_a_sheet (sheetId : string) (st : sheetsState) :
  NoDup (sheet_id <$> sheets st) → sheets st ≠ [] →
  ∃ st', deleteSheet sheetId st = Some st' ∧
    sheets st' ≠ [] ∧
    is_Some (activeSheet st') ∧
    NoDup (sheet_id <$> sheets st') ∧
    (length (sheets st) = 1 → st' = st) ∧
    (1 < length (sheets st) →
     ∀ s, s ∈ sheets st' ↔ s ∈ sheets st ∧ sheet_id s ≠ sheetId) ∧
    (activeSheetId st ∈ sheet_id <$> sheets st →
     activeSheetId st' ∈ sheet_id <$> sheets st') ∧
    (activeSheetId st ≠ sheetId → activeSheetId st' = activeSheetId st).
Proof.
  intros Hnd Hne. unfold deleteSheet.
  destruct (decide (length (sheets st) ≤ 1)) as [Hone|Hmany].
  - exists st. split_and!; try done.
    + by apply activeSheet_is_Some.
    + intros Hlen. lia.
  - set (newSheets := filter (λ s, sheet_id s ≠ sheetId) (sheets st)).
    assert (Hnew : newSheets ≠ []).
    { unfold newSheets. destruct (sheets st) as [|a [|b l]]; [done|simpl in Hmany; lia|].
      by apply two_ids_one_stays. }
    assert (Hnd' : NoDup (sheet_id <$> newSheets)).
    { eapply sublist_NoDup; [exact Hnd|]. apply fmap_sublist, sublist_filter. }
    assert (Hmem : ∀ s, s ∈ newSheets ↔ s ∈ sheets st ∧ sheet_id s ≠ sheetId).
    { intros s. unfold newSheets. rewrite list_elem_of_filter. tauto. }
    destruct (decide (activeSheetId st = sheetId)) as [Hact|Hact].
    + destruct newSheets as [|s0 rest] eqn:E; [done|].
      eexists. split; [reflexivity|]. cbn [sheets activeSheetId].
      split_and!; try done.
      * by apply activeSheet_is_Some.
      * intros Hlen. lia.
      * intros _. rewrite fmap_cons. apply list_elem_of_here.
    + eexists. split; [reflexivity|]. cbn [sheets activeSheetId].
      split_and!; try done.
      * by apply activeSheet_is_Some.
      * intros Hlen. lia.
      * intros Hin. apply list_elem_of_fmap in Hin as (s & Hs & Hin).
        apply list_elem_of_fmap. exists s. split; [done|].
        apply Hmem. split; [done|]. congruence.
Qed.

Lemma deleteSheet_keeps_a_sheet_witness :
  (NoDup (sheet_id <$> sheets twoSheets) ∧ sheets twoSheets ≠ []) ∧
  ∃ st', deleteSheet "sheet-8" twoSheets = Some st' ∧
    sheets st' ≠ [] ∧
    (∀ s, s ∈ sheets st' ↔ s ∈ sheets twoSheets ∧ sheet_id s ≠ "sheet-8") ∧
    activeSheetId st' ∈ sheet_id <$> sheets st' ∧
    activeSheetId twoSheets = "sheet-8" ∧
    sheet_id <$> sheets twoSheets = ["sheet-7"; "sheet-8"] ∧
    sheet_id <$> sheets st' = ["sheet-7"] ∧
    activeSheetId st' = "sheet-7".
Proof.
  assert (H1 : NoDup (sheet_id <$> sheets twoSheets)) by compute_done.
  assert (H2 : sheets twoSheets ≠ []) by done.
  split; [by split|].
  destruct (deleteSheet_keeps_a_sheet "sheet-8" twoSheets H1 H2)
    as (st' & Heq & Hne & _ & _ & _ & Hmem & Hact & _).
  exists st'. split; [exact Heq|]. split; [exact Hne|].
  split; [apply Hmem; vm_compute; lia|].
  split; [apply Hact; compute_done|].
  assert (Hrun : deleteSheet "sheet-8" twoSheets
                 = Some {| sheets := [ {| sheet_id := "sheet-7"; sheet_name := "Sheet 1";
                                          sheet_graph := emptySheet |} ];
                           activeSheetId := "sheet-7" |})
    by (vm_compute; reflexivity).
  rewrite Hrun in Heq. injection Heq as <-.
  split_and!; vm_compute; reflexivity.
Defined.

(** X23. What is stored for the active sheet is what comes back, without
    the [extent] fields: after the graph of the canvas has been written into
    the sheet list, loading the active sheet gives its nodes with [extent]
    removed and its edges, also after another sheet has been visited and
    written in between; sheets with another id are not touched.  When the
    active id names no sheet the write changes nothing. *)
Theorem storeGraph_loadGraph (g : sheet) (st : sheetsState) :
  (activeSheetId st ∈ sheet_id <$> sheets st →
   loadGraph (storeGraph g st)
   = Some {| nodes := stripExtent <$> nodes g; edges := edges g |} ∧
   ∀ other g', other ≠ activeSheetId st →
     loadGraph (switchSheet (activeSheetId st)
                  (storeGraph g' (switchSheet other (storeGraph g st))))
     = Some {| nodes := stripExtent <$> nodes g; edges := edges g |}) ∧
  sheet_id <$> sheets (storeGraph g st) = sheet_id <$> sheets st ∧
  (∀ s, sheet_id s ≠ activeSheetId st →
        s ∈ sheets (storeGraph g st) ↔ s ∈ sheets st) ∧
  (activeSheetId st ∉ sheet_id <$> sheets st → storeGraph g st = st).
Proof.
  split_and!.
  - intros Hin. apply find_sheet_is_Some in Hin as [s Hs].
    pose proof (find_sheet_Some _ _ _ Hs) as [_ Hid].
    split.
    + unfold loadGraph, activeSheet.
      change (activeSheetId (storeGraph g st)) with (activeSheetId st).
      rewrite (storeGraph_find (activeSheetId st) g st), Hs.
      cbn [fmap option_fmap option_map]. rewrite decide_True by done. done.
    + intros other g' Hother.
      unfold loadGraph, activeSheet.
      change (activeSheetId (switchSheet (activeSheetId st) _)) with (activeSheetId st).
      change (sheets (switchSheet (activeSheetId st) ?x)) with (sheets x).
      rewrite (storeGraph_find (activeSheetId st) g'
                 (switchSheet other (storeGraph g st))).
      change (sheets (switchSheet other ?x)) with (sheets x).
      change (activeSheetId (switchSheet other _)) with other.
      rewrite (storeGraph_find (activeSheetId st) g st), Hs.
      cbn [fmap option_fmap option_map].
      rewrite (decide_True (P := sheet_id s = activeSheetId st)) by done.
      cbn [sheet_id]. rewrite decide_False by congruence. done.
  - apply storeGraph_ids.
  - intros s Hs. cbn [storeGraph sheets]. rewrite list_elem_of_fmap. split.
    + intros (x & -> & Hx). case_decide; [done|]. done.
    + intros Hin. exists s. by rewrite decide_False.
  - intros Hnot. destruct st as [l a]. unfold storeGraph. cbn [sheets activeSheetId] in *.
    f_equal. apply fmap_all_id. intros s Hs.
    rewrite decide_False; [done|]. intros Heq. apply Hnot.
    rewrite <- Heq. by apply list_elem_of_fmap_2.
Qed.

(** X24. A new sheet is appended, named after the number of sheets, and
    made active; when its id is new the canvas then shows an empty graph.
    When a sheet with the same id exists already (two sheets made at the same
    clock reading), it is that older sheet which is shown. *)
Theorem addSheet_opens (now : N) (st : sheetsState) :
  sheets st `prefix_of` sheets (addSheet now st) ∧
  length (sheets (addSheet now st)) = length (sheets st) + 1 ∧
  activeSheetId (addSheet now st) = freshSheetId now ∧
  (freshSheetId now ∉ sheet_id <$> sheets st →
   activeSheet (addSheet now st)
   = Some {| sheet_id := freshSheetId now;
             sheet_name := "Sheet " +:+ pretty (length (sheets st) + 1);
             sheet_graph := emptySheet |} ∧
   loadGraph (addSheet now st) = Some emptySheet) ∧
  (∀ s, List.find (λ s, String.eqb (sheet_id s) (freshSheetId now)) (sheets st) = Some s →
        activeSheet (addSheet now st) = Some s ∧
        loadGraph (addSheet now st)
        = Some {| nodes := stripExtent <$> nodes (sheet_graph s);
                  edges := edges (sheet_graph s) |}).
Proof.
  split_and!.
  - by apply prefix_app_r.
  - cbn [addSheet sheets]. rewrite length_app. simpl. lia.
  - reflexivity.
  - intros Hfresh.
    assert (Hact : activeSheet (addSheet now st)
              = Some {| sheet_id := freshSheetId now;
                        sheet_name := "Sheet " +:+ pretty (length (sheets st) + 1);
                        sheet_graph := emptySheet |}).
    { unfold activeSheet. cbn [addSheet sheets activeSheetId].
      rewrite find_append.
      destruct (List.find _ (sheets st)) as [s|] eqn:E.
      - apply find_sheet_Some in E as [Hin Hid]. destruct Hfresh.
        rewrite <- Hid. by apply list_elem_of_fmap_2.
      - cbn [List.find sheet_id]. by rewrite String.eqb_refl. }
    split; [exact Hact|]. unfold loadGraph. by rewrite Hact.
  - intros s Hs.
    assert (Hact : activeSheet (addSheet now st) = Some s).
    { unfold activeSheet. cbn [addSheet sheets activeSheetId].
      by rewrite find_append, Hs. }
    split; [exact Hact|]. unfold loadGraph. by rewrite Hact.
Qed.

(** ** What the canvas shows *)

Section Shown.

Lemma displayedRoots_spec (edges : list edge) (i : string) :
  i ∈ displayedRoots edges ↔
  (∃ e, e ∈ edges ∧ source e = i) ∧ ¬ ∃ e, e ∈ edges ∧ target e = i.
Proof.
  unfold displayedRoots. rewrite elem_of_filter, !elem_of_list_to_set.
  rewrite !list_elem_of_fmap. naive_solver.
Qed.

Lemma isPathRoot_spec (edges : list edge) (n : node) :
  isPathRoot edges n = true ↔
  node_type n ≠ Group ∧ (∃ e, e ∈ edges ∧ source e = node_id n) ∧
  ¬ ∃ e, e ∈ edges ∧ target e = node_id n.
Proof.
  unfold isPathRoot.
  rewrite andb_true_iff, !bool_decide_eq_true, displayedRoots_spec. tauto.
Qed.


End Shown.

(** X25. The root mark a node shows on the canvas is computed from all
    edges, the roots of copy-all from the active edges only.  A marked node
    of the sheet with an outgoing active edge is a root of copy-all; when no
    edge is inactive the two notions agree; but a node whose incoming edges
    are all inactive is a root of copy-all without being marked. *)
Theorem isPathRoot_and_pathRoots (nodes : list node) (edges : list edge) (n : node) :
  (isPathRoot edges n = true ↔
   node_type n ≠ Group ∧ (∃ e, e ∈ edges ∧ source e = node_id n) ∧
   ¬ ∃ e, e ∈ edges ∧ target e = node_id n) ∧
  (n ∈ nodes → isPathRoot edges n = true →
   (∃ e, e ∈ edges ∧ active e ≠ Some false ∧ source e = node_id n) →
   n ∈ pathRoots nodes edges) ∧
  ((∀ e, e ∈ edges → active e ≠ Some false) →
   (n ∈ pathRoots nodes edges ↔ n ∈ nodes ∧ isPathRoot edges n = true)) ∧
  (n ∈ pathRoots nodes edges → (∃ e, e ∈ edges ∧ target e = node_id n) →
   isPathRoot edges n = false ∧
   ∃ e, e ∈ edges ∧ target e = node_id n ∧ active e = Some false).
Proof.
  split_and!.
  - apply isPathRoot_spec.
  - intros Hn Hroot Hout. apply isPathRoot_spec in Hroot as (Hty & _ & Hin).
    apply pathRoots_spec. split_and!; try done.
    intros (e & He & _ & Ht). apply Hin. by exists e.
  - intros Hall. rewrite pathRoots_spec, isPathRoot_spec. split.
    + intros (Hn & Hty & (e & He & _ & Hs) & Hin). split; [done|].
      split_and!; [done|by exists e|].
      intros (e' & He' & Ht). apply Hin. exists e'. split_and!; try done.
      by apply Hall.
    + intros (Hn & Hty & (e & He & Hs) & Hin). split_and!; try done.
      * exists e. split_and!; try done. by apply Hall.
      * intros (e' & He' & _ & Ht). apply Hin. by exists e'.
  - intros Hroot (e & He & Ht).
    apply pathRoots_spec in Hroot as (Hn & Hty & Hout & Hin). split.
    + destruct (isPathRoot edges n) eqn:E; [|done].
      apply isPathRoot_spec in E as (_ & _ & Hnone). destruct Hnone. by exists e.
    + exists e. split_and!; try done.
      destruct (active e) as [[]|] eqn:Ha; try done.
      * destruct Hin. exists e. split_and!; try done. by rewrite Ha.
      * destruct Hin. exists e. split_and!; try done. by rewrite Ha.
Qed.



(** ** The layout: what the rows hold *)

Section RowContents.
Variable edges : list edge.

Lemma concat_snoc {A} (rs : list (list A)) (row : list A) :
  concat (rs ++ [row]) = concat rs ++ row.
Proof. rewrite concat_app. simpl. by rewrite app_nil_r. Qed.

Lemma placeTarget_exact (rs : list (list string)) c ps (t : string) :
  rowsExact (rs ++ [nextRowNodes ps]) (pass_visited ps) →
  rowsExact (rs ++ [nextRowNodes (placeTarget (sourceLists edges) c ps t)])
            (pass_visited (placeTarget (sourceLists edges) c ps t)).
Proof.
  intros [Hnd Hmem]. unfold placeTarget.
  case_decide as Hvis; [done|]. case_decide; [|done].
  cbn [nextRowNodes pass_visited]. unfold rowsExact.
  rewrite concat_snoc in *. rewrite app_assoc. split.
  - apply NoDup_app. split_and!; [done| |apply NoDup_singleton].
    intros x Hx Hxt. apply list_elem_of_singleton in Hxt as ->.
    by apply Hmem in Hx.
  - intros id. rewrite elem_of_app, Hmem, list_elem_of_singleton. set_solver.
Qed.

Lemma pass_fold_exact (rs : list (list string)) c (l : list string) ps :
  rowsExact (rs ++ [nextRowNodes ps]) (pass_visited ps) →
  rowsExact (rs ++ [nextRowNodes (foldl (placeTarget (sourceLists edges) c) ps l)])
            (pass_visited (foldl (placeTarget (sourceLists edges) c) ps l)).
Proof.
  revert ps. induction l as [|t l IH]; intros ps Hps; [done|].
  cbn [foldl]. by apply IH, placeTarget_exact.
Qed.

Lemma rowPass_exact c row st :
  rowsExact (rows st) (placed st) →
  rowsExact (rows (rowPass (targetLists edges) (sourceLists edges) c row st))
            (placed (rowPass (targetLists edges) (sourceLists edges) c row st)).
Proof.
  intros Hst. unfold rowPass. cbn [rows placed].
  set (ps0 := {| pass_visited := placed st; nextRowNodes := [];
                 pass_nodeToRow := nodeToRow st |}).
  assert (H0 : rowsExact (rows st ++ [nextRowNodes ps0]) (pass_visited ps0)).
  { unfold ps0. cbn [nextRowNodes pass_visited]. unfold rowsExact.
    by rewrite concat_snoc, app_nil_r. }
  pose proof (pass_fold_exact (rows st) c
                (rowTargets (targetLists edges) row) ps0 H0) as Hps.
  destruct (nextRowNodes (foldl _ ps0 _)) as [|a l] eqn:E; [|done].
  unfold rowsExact in *. by rewrite concat_snoc, app_nil_r in Hps.
Qed.

Lemma rowPasses_exact fuel c st res :
  rowPasses fuel (targetLists edges) (sourceLists edges) c st = Some res →
  rowsExact (rows st) (placed st) → rowsExact (rows res) (placed res).
Proof.
  revert c st. induction fuel as [|fuel IH]; intros c st; simpl.
  - destruct (rows st !! c); [done|]. by intros [= <-].
  - destruct (rows st !! c) as [row|] eqn:E; [|by intros [= <-]].
    intros Hrun Hst. eapply IH; [exact Hrun|]. by apply rowPass_exact.
Qed.

Lemma layoutStart_exact (roots : list node) :
  NoDup (node_id <$> roots) →
  rowsExact (rows (layoutStart roots)) (placed (layoutStart roots)).
Proof.
  intros Hnd. unfold layoutStart. destruct roots as [|r l].
  - cbn [rows placed concat]. split; [constructor|]. set_solver.
  - cbn [rows placed]. unfold rowsExact.
    change (concat [node_id <$> r :: l]) with ((node_id <$> r :: l) ++ []).
    rewrite app_nil_r. split; [done|].
    intros id. by rewrite elem_of_list_to_set.
Qed.

Lemma trailing_rows (l : list node) st :
  rows (foldl trailingStep st l)
  = rows st ++ ((λ n, [node_id n]) <$> filter (λ n, node_id n ∉ placed st) l) ∧
  placed (foldl trailingStep st l) = placed st.
Proof.
  revert st. induction l as [|n l IH]; intros st.
  - simpl. by rewrite app_nil_r.
  - cbn [foldl]. destruct (IH (trailingStep st n)) as [Hr Hp].
    rewrite Hr, Hp. unfold trailingStep. rewrite filter_cons.
    destruct (decide (node_id n ∈ placed st)) as [Hin|Hnot].
    + rewrite decide_False by (by intros ?). done.
    + rewrite decide_True by done. cbn [rows placed].
      by rewrite fmap_cons, <- app_assoc.
Qed.

Lemma concat_singletons (l : list node) :
  concat ((λ n, [node_id n]) <$> l) = node_id <$> l.
Proof.
  induction l as [|n l IH]; [done|].
  rewrite !fmap_cons. cbn [concat app]. by rewrite IH.
Qed.

Lemma allRows_total (nodes : list node) :
  ∃ fin, ∀ extra, allRows (layoutFuel edges + extra) nodes edges = Some fin.
Proof.
  pose proof (layoutStart_OK nodes edges) as Hstart.
  destruct (rowPasses_terminates edges (layoutFuel edges) 0
              (layoutStart (rowZero nodes edges))) as [st Hrun].
  { by destruct Hstart. }
  { destruct Hstart as [Hlen _]. unfold layoutFuel.
    pose proof (length_filter
                  (λ e, target e ∉ placed (layoutStart (rowZero nodes edges))) edges).
    unfold unplaced. lia. }
  exists (foldl trailingStep st (nonChildNodes nodes)).
  intros extra. unfold allRows, loopRows.
  rewrite (rowPasses_more_fuel edges _ (layoutFuel edges + extra) _ _ _ Hrun) by lia.
  done.
Qed.

Lemma allRows_exact fuel (nodes : list node) fin :
  NoDup (node_id <$> nonChildNodes nodes) →
  allRows fuel nodes edges = Some fin →
  NoDup (concat (rows fin)) ∧
  ∀ n, n ∈ nonChildNodes nodes → node_id n ∈ concat (rows fin).
Proof.
  intros Hnd. unfold allRows, loopRows.
  destruct (rowPasses fuel _ _ 0 _) as [st|] eqn:Hrun; [|done].
  cbn [mbind option_bind]. intros [= <-].
  assert (Hst : rowsExact (rows st) (placed st)).
  { eapply rowPasses_exact; [exact Hrun|]. apply layoutStart_exact.
    eapply sublist_NoDup; [exact Hnd|].
    apply fmap_sublist. unfold rowZero. apply sublist_filter. }
  destruct Hst as [Hnd0 Hmem].
  destruct (trailing_rows (nonChildNodes nodes) st) as [-> _].
  rewrite concat_app, concat_singletons. split.
  - apply NoDup_app. split_and!; [done| |].
    + intros id Hid Hid'. apply Hmem in Hid.
      apply list_elem_of_fmap in Hid' as (n & -> & Hn).
      by apply list_elem_of_filter in Hn as [Hnot _].
    + eapply sublist_NoDup; [exact Hnd|]. apply fmap_sublist, sublist_filter.
  - intros n Hn. rewrite elem_of_app.
    destruct (decide (node_id n ∈ placed st)) as [Hin|Hnot].
    + left. by apply Hmem.
    + right. apply list_elem_of_fmap_2. by apply list_elem_of_filter.
Qed.

End RowContents.

Lemma expandNode_filter (b : bool) (P : node → Prop) `{!∀ n, Decision (P n)}
    (l : list node) :
  (∀ n, P (expandNode b n) ↔ P n) →
  filter P (expandNode b <$> l) = expandNode b <$> filter P l.
Proof. intros HP. by apply filter_fmap_same. Qed.

Lemma expandNode_free (b : bool) (l : list node) :
  nonChildNodes (expandNode b <$> l) = expandNode b <$> nonChildNodes l.
Proof. unfold nonChildNodes. by apply expandNode_filter. Qed.

Lemma expandNode_ids (b : bool) (l : list node) :
  node_id <$> (expandNode b <$> l) = node_id <$> l.
Proof. rewrite <- list_fmap_compose. by apply list_fmap_ext. Qed.

(** ** The layout: where the nodes are put *)

Section Positions.
Variable newExpanded : bool.

Lemma placeInRow_fold (y x : R) (acc : list positioned) (l : list node) :
  (foldl (placeInRow newExpanded y) (x, acc) (ANode <$> l)).2
  = acc ++ (PositionedNode <$> placedFrom newExpanded y x l).
Proof.
  revert x acc. induction l as [|n l IH]; intros x acc.
  - simpl. by rewrite app_nil_r.
  - rewrite fmap_cons. cbn [foldl placedFrom]. unfold placeInRow at 2. cbn [fst snd].
    rewrite IH, <- app_assoc. done.
Qed.

Lemma layoutRow_unfold (nodeMap : nodeMapObject) (m : gmap string node) (y : R)
    (acc : list positioned) (rowNodeIds : list string) :
  omap (nodeMapAt nodeMap) rowNodeIds = ANode <$> omap (λ id, m !! id) rowNodeIds →
  layoutRow newExpanded nodeMap (y, acc) rowNodeIds
  = match omap (λ id, m !! id) rowNodeIds with
    | [] => (y, acc)
    | rowNodes =>
        ((y + rowHeight newExpanded rowNodes + verticalPadding newExpanded)%R,
         acc ++ (PositionedNode <$>
                 placedFrom newExpanded y
                   (250 - rowWidth newExpanded rowNodes / 2) rowNodes))
    end.
Proof.
  intros Hmap. unfold layoutRow. rewrite Hmap. clear Hmap.
  destruct (omap (λ id, m !! id) rowNodeIds) as [|n l]; [reflexivity|].
  change (ANode <$> n :: l) with (ANode n :: (ANode <$> l)) at 1. cbv beta iota.
  cbn [fst snd]. rewrite placeInRow_fold.
  unfold rowHeight, rowWidth. rewrite <- !list_fmap_compose, length_fmap. done.
Qed.

Lemma layoutRow_fold (nodeMap : nodeMapObject) (m : gmap string node) (y : R)
    (acc : list positioned) (rs : list (list string)) :
  (∀ ids, ids ∈ rs →
     omap (nodeMapAt nodeMap) ids = ANode <$> omap (λ id, m !! id) ids) →
  foldl (layoutRow newExpanded nodeMap) (y, acc) rs
  = (yAfterRows newExpanded m y rs,
     acc ++ (PositionedNode <$> concat (placedRows newExpanded m y rs))).
Proof.
  revert y acc. induction rs as [|ids rs IH]; intros y acc Hrs.
  - simpl. by rewrite app_nil_r.
  - cbn [foldl placedRows yAfterRows].
    rewrite (layoutRow_unfold _ m) by apply Hrs, list_elem_of_here.
    assert (Hrs' : ∀ ids', ids' ∈ rs →
              omap (nodeMapAt nodeMap) ids' = ANode <$> omap (λ id, m !! id) ids')
      by (intros ids' Hin; by apply Hrs, list_elem_of_further).
    destruct (omap _ ids) as [|n l]; [by apply IH|].
    rewrite IH by done. cbn [concat]. by rewrite fmap_app, <- app_assoc.
Qed.

Lemma layoutGroup_fold (y : R) (acc : list positioned) (l : list node) :
  (foldl (layoutGroup newExpanded) (y, acc) l).2
  = acc ++ (PositionedNode <$> placedGroups newExpanded y l).
Proof.
  revert y acc. induction l as [|n l IH]; intros y acc.
  - simpl. by rewrite app_nil_r.
  - cbn [foldl placedGroups]. unfold layoutGroup at 2. cbn [fst snd].
    rewrite IH, fmap_cons, <- app_assoc. done.
Qed.

Lemma nodeMapSet_fold (l : list node) (m : gmap string node) (p : option node) :
  (∀ n, n ∈ l → node_id n ≠ "__proto__") →
  foldl nodeMapSet {| entries := m; prototype := p |} l
  = {| entries := foldl (λ m n, <[node_id n := n]> m) m l; prototype := p |}.
Proof.
  revert m. induction l as [|n l IH]; intros m Hl; [done|].
  cbn [foldl]. unfold nodeMapSet at 2. cbn [entries prototype].
  rewrite decide_False by apply Hl, list_elem_of_here.
  apply IH. intros n' Hn'. by apply Hl, list_elem_of_further.
Qed.

Lemma nodeMapOf_plain (l : list node) :
  (∀ n, n ∈ l → node_id n ≠ "__proto__") →
  nodeMapOf l = {| entries := lastNodeOf l; prototype := None |}.
Proof. apply nodeMapSet_fold. Qed.

Lemma nodeMapAt_plain (m : gmap string node) (ids : list string) :
  (∀ id, id ∈ ids → id ∉ protoNames) →
  omap (nodeMapAt {| entries := m; prototype := None |}) ids
  = ANode <$> omap (λ id, m !! id) ids.
Proof.
  induction ids as [|id ids IH]; intros Hids; [done|].
  assert (Hid : nodeMapAt {| entries := m; prototype := None |} id = ANode <$> m !! id).
  { unfold nodeMapAt. cbn [entries prototype]. destruct (m !! id); [done|].
    by rewrite decide_False by apply Hids, list_elem_of_here. }
  change (omap ?f (id :: ids)) with (from_option (λ y, y :: omap f ids) (omap f ids) (f id)).
  rewrite Hid, IH by (intros id' Hid'; by apply Hids, list_elem_of_further).
  by destruct (m !! id).
Qed.

(** On a sheet without inherited names every id in a row is none. *)
Lemma allRows_plain fuel (nodes : list node) (edges : list edge) fin r id :
  plainEdges edges →
  (∀ n, n ∈ nonChildNodes nodes → node_id n ∉ protoNames) →
  allRows fuel nodes edges = Some fin → r ∈ rows fin → id ∈ r →
  id ∉ protoNames.
Proof.
  intros Hplain Hfree. unfold allRows, loopRows.
  destruct (rowPasses fuel _ _ 0 _) as [st|] eqn:Hrun; [|done].
  cbn [mbind option_bind]. intros [= <-] Hr Hid.
  destruct (trailing_fold_rows _ _ _ _ Hr Hid) as [Hr'|Hin].
  - destruct (rowPasses_rows _ _ _ _ _ _ _ _ Hrun Hr' Hid) as [Hr0|(k & l & Hk & Hl)].
    + apply (layoutStart_rows _ r id Hr0) in Hid.
      apply list_elem_of_fmap in Hid as (n & -> & Hn). apply Hfree.
      unfold rowZero, layoutRoots in Hn. by apply list_elem_of_filter in Hn as [_ Hn].
    + by eapply plain_targets.
  - apply list_elem_of_fmap in Hin as (n & -> & Hn). by apply Hfree.
Qed.

Lemma not_throwingRoot (id : string) : id ∉ protoNames → ¬ throwingRoot id.
Proof.
  intros Hid Hin. apply Hid. unfold throwingRoot in Hin.
  repeat (apply elem_of_cons in Hin as [->|Hin]; [compute_done|]).
  by apply elem_of_nil in Hin.
Qed.

Lemma toggleAllExpanded_unfold fuel (edges : list edge) (currentNodes : list node) fin :
  plainEdges edges →
  (∀ n, n ∈ nonChildNodes currentNodes → node_id n ∉ protoNames) →
  allRows fuel (expandNode newExpanded <$> currentNodes) edges = Some fin →
  toggleAllExpanded fuel newExpanded edges currentNodes
  = Some (Returns (PositionedNode <$>
      (concat (placedRows newExpanded
                 (lastNodeOf (nonChildNodes (expandNode newExpanded <$> currentNodes)))
                 100 (rows fin))
       ++ placedGroups newExpanded
            (yAfterRows newExpanded
               (lastNodeOf (nonChildNodes (expandNode newExpanded <$> currentNodes)))
               100 (rows fin))
            (filter (λ n, node_type n = Group) (expandNode newExpanded <$> currentNodes))
       ++ filter isChild (expandNode newExpanded <$> currentNodes)))).
Proof.
  intros Hplain Hfree Hfin.
  assert (Hfree' : ∀ n, n ∈ nonChildNodes (expandNode newExpanded <$> currentNodes) →
                        node_id n ∉ protoNames).
  { rewrite expandNode_free.
    intros n (n0 & -> & Hn0)%list_elem_of_fmap. exact (Hfree n0 Hn0). }
  unfold toggleAllExpanded.
  rewrite layoutRows_plain, Hfin; [|done|].
  2:{ intros n Hn. by apply not_throwingRoot, Hfree'. }
  cbn [fmap option_fmap option_map].
  rewrite nodeMapOf_plain.
  2:{ intros n Hn Heq. apply (Hfree' n Hn). rewrite Heq. apply proto_in_protoNames. }
  rewrite (layoutRow_fold _ (lastNodeOf (nonChildNodes (expandNode newExpanded <$> currentNodes)))).
  2:{ intros ids Hids. apply nodeMapAt_plain. intros id Hid.
      by eapply (allRows_plain fuel _ edges fin ids id). }
  rewrite layoutGroup_fold. cbn [app]. by rewrite !fmap_app, <- app_assoc.
Qed.

(** *** Who is placed *)

Lemma placedFrom_ids (y x : R) (l : list node) :
  node_id <$> placedFrom newExpanded y x l = node_id <$> l.
Proof.
  revert x. induction l as [|n l IH]; intros x; [done|].
  cbn [placedFrom]. rewrite !fmap_cons. by rewrite IH.
Qed.

Lemma placedFrom_elem (y x : R) (l : list node) p :
  p ∈ placedFrom newExpanded y x l →
  ∃ x' n, n ∈ l ∧ p = placeNode newExpanded x' y n.
Proof.
  revert x. induction l as [|n l IH]; intros x; [by intros ?%elem_of_nil|].
  cbn [placedFrom]. intros [->|Hp]%elem_of_cons.
  - exists x, n. split; [apply list_elem_of_here|done].
  - destruct (IH _ Hp) as (x' & n' & Hn' & ->).
    exists x', n'. split; [by apply list_elem_of_further|done].
Qed.

Lemma placedGroups_ids (y : R) (l : list node) :
  node_id <$> placedGroups newExpanded y l = node_id <$> l.
Proof.
  revert y. induction l as [|n l IH]; intros y; [done|].
  cbn [placedGroups]. rewrite !fmap_cons. by rewrite IH.
Qed.

Lemma placedGroups_elem (y : R) (l : list node) p :
  p ∈ placedGroups newExpanded y l → ∃ pos n, n ∈ l ∧ p = moveTo pos n.
Proof.
  revert y. induction l as [|n l IH]; intros y; [by intros ?%elem_of_nil|].
  cbn [placedGroups]. intros [->|Hp]%elem_of_cons.
  - eexists _, n. split; [apply list_elem_of_here|done].
  - destruct (IH _ Hp) as (pos & n' & Hn' & ->).
    exists pos, n'. split; [by apply list_elem_of_further|done].
Qed.

Lemma placedRows_ids (nodeMap : gmap string node) (y : R) (rs : list (list string)) :
  node_id <$> concat (placedRows newExpanded nodeMap y rs)
  = node_id <$> omap (λ id, nodeMap !! id) (concat rs).
Proof.
  revert y. induction rs as [|ids rs IH]; intros y; [done|].
  cbn [placedRows concat]. rewrite omap_app, fmap_app.
  destruct (omap _ ids) as [|n l] eqn:E.
  - rewrite IH. done.
  - cbn [concat]. rewrite fmap_app, placedFrom_ids, IH. done.
Qed.

Lemma placedRows_elem (nodeMap : gmap string node) (y : R) (rs : list (list string)) p :
  p ∈ concat (placedRows newExpanded nodeMap y rs) →
  ∃ x' y' id n, nodeMap !! id = Some n ∧ p = placeNode newExpanded x' y' n.
Proof.
  revert y. induction rs as [|ids rs IH]; intros y; [by intros ?%elem_of_nil|].
  cbn [placedRows].
  destruct (omap _ ids) as [|n l] eqn:E; [apply IH|].
  cbn [concat]. intros [Hp|Hp]%elem_of_app; [|by eapply IH].
  apply placedFrom_elem in Hp as (x' & n' & Hn' & ->).
  rewrite <- E in Hn'. apply list_elem_of_omap in Hn' as (id & _ & Hid).
  by exists x', y, id, n'.
Qed.

Lemma nodeMap_fold_lookup (l : list node) (m0 : gmap string node) id n :
  foldl (λ m n, <[node_id n := n]> m) m0 l !! id = Some n →
  (n ∈ l ∧ node_id n = id) ∨ m0 !! id = Some n.
Proof.
  revert m0. induction l as [|a l IH]; intros m0; [by right|].
  cbn [foldl]. intros H. apply IH in H as [[Hin Hid]|H].
  - left. split; [by apply list_elem_of_further|done].
  - destruct (decide (node_id a = id)) as [Ha|Ha].
    + rewrite Ha, lookup_insert_eq in H. injection H as <-.
      left. split; [apply list_elem_of_here|done].
    + rewrite lookup_insert_ne in H by done. by right.
Qed.

Lemma nodeMap_fold_is_Some (l : list node) (m0 : gmap string node) id :
  id ∈ node_id <$> l ∨ is_Some (m0 !! id) →
  is_Some (foldl (λ m n, <[node_id n := n]> m) m0 l !! id).
Proof.
  revert m0. induction l as [|a l IH]; intros m0.
  - intros [Hin|H]; [by apply elem_of_nil in Hin|done].
  - cbn [foldl]. rewrite fmap_cons, elem_of_cons. intros [[->|Hin]|H].
    + apply IH. right. by rewrite lookup_insert_eq.
    + apply IH. by left.
    + apply IH. right. destruct (decide (node_id a = id)) as [->|Ha].
      * by rewrite lookup_insert_eq.
      * by rewrite lookup_insert_ne.
Qed.

Lemma lastNodeOf_Some (l : list node) id n :
  lastNodeOf l !! id = Some n → n ∈ l ∧ node_id n = id.
Proof.
  intros H. apply nodeMap_fold_lookup in H as [H|H]; [done|].
  by rewrite lookup_empty in H.
Qed.

Lemma lastNodeOf_is_Some (l : list node) id :
  is_Some (lastNodeOf l !! id) ↔ id ∈ node_id <$> l.
Proof.
  split.
  - intros [n Hn]. apply lastNodeOf_Some in Hn as [Hin <-].
    by apply list_elem_of_fmap_2.
  - intros Hin. apply nodeMap_fold_is_Some. by left.
Qed.

Lemma omap_lookup_ids (l : list node) (ids : list string) :
  node_id <$> omap (λ id, lastNodeOf l !! id) ids
  = filter (λ id, id ∈ node_id <$> l) ids.
Proof.
  induction ids as [|id ids IH]; [done|].
  cbn [omap list_omap]. rewrite filter_cons.
  destruct (lastNodeOf l !! id) as [n|] eqn:E.
  - rewrite decide_True by (apply lastNodeOf_is_Some; by rewrite E).
    rewrite fmap_cons. apply lastNodeOf_Some in E as [_ ->]. f_equal. apply IH.
  - rewrite decide_False; [apply IH|].
    intros Hin. apply lastNodeOf_is_Some in Hin. rewrite E in Hin. by destruct Hin.
Qed.

End Positions.

Section Partition.

Lemma isFree_not_child (n : node) : isFree n ↔ ¬ isChild n ∧ node_type n ≠ Group.
Proof.
  unfold isFree, isChild. destruct (parentNode n) as [[|a s]|]; naive_solver.
Qed.

(** Free nodes, groups and children cover the nodes; a group inside a group
    is counted twice. *)
Lemma three_parts (l : list node) :
  (node_id <$> nonChildNodes l) ++ (node_id <$> filter (λ n, node_type n = Group) l)
    ++ (node_id <$> filter isChild l)
  ≡ₚ (node_id <$> l) ++ (node_id <$> filter (λ n, node_type n = Group ∧ isChild n) l).
Proof.
  unfold nonChildNodes. induction l as [|n l IH]; [done|].
  rewrite !filter_cons, fmap_cons.
  destruct (decide (node_type n = Group)) as [Hg|Hg];
    destruct (decide (isChild n)) as [Hc|Hc].
  - rewrite decide_False by (rewrite isFree_not_child; tauto).
    rewrite decide_True by done. rewrite !fmap_cons.
    repeat first [rewrite <- Permutation_middle|progress cbn [app]]. by rewrite IH.
  - rewrite decide_False by (rewrite isFree_not_child; tauto).
    rewrite decide_False by tauto. rewrite !fmap_cons.
    repeat first [rewrite <- Permutation_middle|progress cbn [app]]. by rewrite IH.
  - rewrite decide_False by (rewrite isFree_not_child; tauto).
    rewrite decide_False by tauto. rewrite !fmap_cons.
    repeat first [rewrite <- Permutation_middle|progress cbn [app]]. by rewrite IH.
  - rewrite decide_True by (rewrite isFree_not_child; tauto).
    rewrite decide_False by tauto. rewrite !fmap_cons.
    cbn [app]. by rewrite IH.
Qed.

End Partition.

(** X27. Expanding or collapsing all nodes lays the sheet out again without
    losing a node: when no edge begins or ends at an id that is a name
    inherited from [Object.prototype], no free node (no parent, no group)
    has such an id and the free nodes have pairwise distinct ids, the new
    node list holds nodes only and the ids of the old one, each as often as
    before, except that a group which is itself inside a group occurs once
    more; every node keeps its id, type, parent and data but for
    [isExpanded], which is the new value everywhere; children of groups keep
    their position. *)
Theorem toggleAllExpanded_keeps_nodes (newExpanded : bool) (edges : list edge)
    (currentNodes : list node) :
  NoDup (node_id <$> nonChildNodes currentNodes) →
  plainEdges edges →
  (∀ n, n ∈ nonChildNodes currentNodes → node_id n ∉ protoNames) →
  ∃ out,
    (∀ extra, toggleAllExpanded (layoutFuel edges + extra) newExpanded edges
                currentNodes = Some (Returns (PositionedNode <$> out))) ∧
    node_id <$> out
    ≡ₚ (node_id <$> currentNodes)
       ++ (node_id <$> filter (λ n, node_type n = Group ∧ isChild n) currentNodes) ∧
    ((∀ n, n ∈ currentNodes → node_type n = Group → ¬ isChild n) →
     node_id <$> out ≡ₚ node_id <$> currentNodes) ∧
    (∀ p, p ∈ out →
       isExpanded (data p) = newExpanded ∧
       ∃ n, n ∈ currentNodes ∧ node_id p = node_id n ∧ node_type p = node_type n ∧
            parentNode p = parentNode n ∧
            data p = withExpanded newExpanded (data n)) ∧
    (∀ n, n ∈ currentNodes → isChild n → expandNode newExpanded n ∈ out).
Proof.
  intros Hnd Hplain Hids.
  set (updated := expandNode newExpanded <$> currentNodes).
  destruct (allRows_total edges updated) as [fin Hfin].
  assert (Hnd' : NoDup (node_id <$> nonChildNodes updated)).
  { unfold updated. by rewrite expandNode_free, expandNode_ids. }
  destruct (allRows_exact edges _ updated fin Hnd' (Hfin 0)) as [Hrows Hcover].
  eexists. split.
  { intros extra. apply toggleAllExpanded_unfold; [done|done|apply Hfin]. }
  fold updated.
  set (nodeMap := lastNodeOf (nonChildNodes updated)).
  assert (Hperm : node_id <$>
            (concat (placedRows newExpanded nodeMap 100 (rows fin))
             ++ placedGroups newExpanded (yAfterRows newExpanded nodeMap 100 (rows fin))
                  (filter (λ n, node_type n = Group) updated)
             ++ filter isChild updated)
          ≡ₚ (node_id <$> currentNodes)
             ++ (node_id <$> filter (λ n, node_type n = Group ∧ isChild n) currentNodes)).
  { rewrite !fmap_app, placedRows_ids, placedGroups_ids.
    unfold nodeMap. rewrite omap_lookup_ids.
    assert (Hfree : filter (λ id, id ∈ node_id <$> nonChildNodes updated)
                      (concat (rows fin))
                    ≡ₚ node_id <$> nonChildNodes updated).
    { apply NoDup_Permutation; [by apply NoDup_filter|done|].
      intros id. rewrite list_elem_of_filter. split; [tauto|].
      intros Hid. split; [done|].
      apply list_elem_of_fmap in Hid as (n & -> & Hn). by apply Hcover. }
    rewrite Hfree, three_parts. unfold updated.
    rewrite expandNode_ids. f_equiv.
    rewrite (expandNode_filter newExpanded (λ n, node_type n = Group ∧ isChild n))
      by done.
    by rewrite expandNode_ids. }
  split; [exact Hperm|]. split.
  { intros Hflat. rewrite Hperm. rewrite filter_none, app_nil_r; [done|].
    intros n Hn [Hg Hc]. by apply (Hflat n). }
  assert (Hupd : ∀ p, p ∈ updated →
            ∃ n, n ∈ currentNodes ∧ p = expandNode newExpanded n).
  { intros p Hp. apply list_elem_of_fmap in Hp as (n & -> & Hn). by exists n. }
  split.
  - intros p Hp.
    assert (Hex : ∃ n, n ∈ currentNodes ∧ node_id p = node_id n ∧
                       node_type p = node_type n ∧ parentNode p = parentNode n ∧
                       data p = withExpanded newExpanded (data n)).
    { apply elem_of_app in Hp as [Hp|Hp].
      - apply placedRows_elem in Hp as (x' & y' & id & n' & Hn' & ->).
        apply lastNodeOf_Some in Hn' as [Hn' _].
        apply list_elem_of_filter in Hn' as [_ Hn'].
        apply Hupd in Hn' as (n & Hn & ->). by exists n.
      - apply elem_of_app in Hp as [Hp|Hp].
        + apply placedGroups_elem in Hp as (pos & n' & Hn' & ->).
          apply list_elem_of_filter in Hn' as [_ Hn'].
          apply Hupd in Hn' as (n & Hn & ->). by exists n.
        + apply list_elem_of_filter in Hp as [_ Hp].
          apply Hupd in Hp as (n & Hn & ->). by exists n. }
    split; [|exact Hex]. destruct Hex as (n & _ & _ & _ & _ & ->). done.
  - intros n Hn Hc. rewrite !elem_of_app. right. right.
    apply list_elem_of_filter. split; [done|]. by apply list_elem_of_fmap_2.
Qed.

Lemma triangleEdges_plain : plainEdges triangleEdges.
Proof.
  intros e He. unfold triangleEdges in He.
  repeat (apply elem_of_cons in He as [->|He]; [split; compute_done|]).
  by apply elem_of_nil in He.
Defined.

Lemma triangleNodes_plain n :
  n ∈ nonChildNodes triangleNodes → node_id n ∉ protoNames.
Proof.
  change (nonChildNodes triangleNodes) with triangleNodes. unfold triangleNodes.
  intros Hn. repeat (apply elem_of_cons in Hn as [->|Hn]; [compute_done|]).
  by apply elem_of_nil in Hn.
Defined.

Lemma toggleAllExpanded_keeps_nodes_witness :
  (NoDup (node_id <$> nonChildNodes triangleNodes) ∧ plainEdges triangleEdges ∧
   ∀ n, n ∈ nonChildNodes triangleNodes → node_id n ∉ protoNames) ∧
  ∃ out,
    toggleAllExpanded (layoutFuel triangleEdges + 0) true triangleEdges triangleNodes
    = Some (Returns (PositionedNode <$> out)) ∧
    node_id <$> out ≡ₚ node_id <$> triangleNodes.
Proof.
  assert (H : NoDup (node_id <$> nonChildNodes triangleNodes)) by compute_done.
  split; [split_and!; [exact H|exact triangleEdges_plain|exact triangleNodes_plain]|].
  destruct (toggleAllExpanded_keeps_nodes true triangleEdges triangleNodes H
              triangleEdges_plain triangleNodes_plain)
    as (out & Hrun & _ & Hperm & _).
  exists out. split; [apply Hrun|]. apply Hperm.
  intros n Hn Hg. unfold triangleNodes in Hn.
  repeat (apply elem_of_cons in Hn as [->|Hn]; [discriminate|]).
  by apply elem_of_nil in Hn.
Defined.

(** ** The layout: rows side by side and one below the other *)

Section Geometry.
Variable newExpanded : bool.
Local Open Scope R_scope.

Lemma getNodeSize_pos (n : node) :
  0 < width (getNodeSize newExpanded n) ∧ 0 < height (getNodeSize newExpanded n).
Proof.
  unfold getNodeSize. destruct newExpanded; cbn [negb];
    [destruct (node_type n)|]; cbn [width height]; lra.
Qed.

Lemma padding_pos :
  0 < verticalPadding newExpanded ∧ 0 < horizontalPadding newExpanded.
Proof. unfold verticalPadding, horizontalPadding. destruct newExpanded; lra. Qed.

Lemma placedFrom_y (y x : R) (l : list node) p :
  p ∈ placedFrom newExpanded y x l → pos_y (node_position p) = y.
Proof.
  intros Hp. apply placedFrom_elem in Hp as (x' & n & _ & ->). done.
Qed.

Lemma placedFrom_next (y x : R) (l : list node) (i : nat) p q :
  placedFrom newExpanded y x l !! i = Some p →
  placedFrom newExpanded y x l !! S i = Some q →
  pos_x (node_position q)
  = pos_x (node_position p) + width (getNodeSize newExpanded p)
    + horizontalPadding newExpanded.
Proof.
  revert x i. induction l as [|n l IH]; intros x i; [done|].
  destruct i as [|i].
  - destruct l as [|n' l]; [done|]. cbn [placedFrom lookup list_lookup].
    by intros [= <-] [= <-].
  - cbn [placedFrom]. rewrite !lookup_cons. apply IH.
Qed.

Lemma sum_widths_shift (a : R) (sizes : list style) :
  foldl (λ acc size, acc + width size) a sizes
  = a + foldl (λ acc size, acc + width size) 0 sizes.
Proof.
  revert a. induction sizes as [|s sizes IH]; intros a; [simpl; lra|].
  cbn [foldl]. rewrite (IH (a + width s)), (IH (0 + width s)). lra.
Qed.

Lemma rowWidth_cons (n : node) (l : list node) :
  l ≠ [] →
  rowWidth newExpanded (n :: l)
  = width (getNodeSize newExpanded n) + horizontalPadding newExpanded
    + rowWidth newExpanded l.
Proof.
  intros Hl. unfold rowWidth. rewrite fmap_cons. cbn [foldl length].
  rewrite sum_widths_shift, S_INR. lra.
Qed.

Lemma rowWidth_single (n : node) :
  rowWidth newExpanded [n] = width (getNodeSize newExpanded n).
Proof. unfold rowWidth. simpl. lra. Qed.

Lemma placedFrom_last (y x : R) (l : list node) q :
  last (placedFrom newExpanded y x l) = Some q →
  pos_x (node_position q) + width (getNodeSize newExpanded q)
  = x + rowWidth newExpanded l.
Proof.
  revert x. induction l as [|n l IH]; intros x; [done|].
  destruct l as [|n' l].
  - cbn [placedFrom last]. intros [= <-]. rewrite rowWidth_single. done.
  - rewrite rowWidth_cons by done.
    change (placedFrom newExpanded y x (n :: n' :: l))
      with (placeNode newExpanded x y n
            :: placedFrom newExpanded y
                 (x + width (getNodeSize newExpanded n) + horizontalPadding newExpanded)
                 (n' :: l)).
    rewrite last_cons.
    destruct (last (placedFrom newExpanded y _ (n' :: l))) as [q'|] eqn:E.
    + intros [= <-]. rewrite (IH _ E). lra.
    + apply last_None in E. done.
Qed.

Lemma placedFrom_centred (y : R) (l : list node) p q :
  head (placedFrom newExpanded y (250 - rowWidth newExpanded l / 2) l) = Some p →
  last (placedFrom newExpanded y (250 - rowWidth newExpanded l / 2) l) = Some q →
  pos_x (node_position p)
  + (pos_x (node_position q) + width (getNodeSize newExpanded q)) = 500.
Proof.
  intros Hhead Hlast. rewrite (placedFrom_last _ _ _ _ Hlast).
  destruct l as [|n l]; [done|]. cbn [placedFrom head] in Hhead.
  injection Hhead as <-. cbn [placeNode node_position pos_x]. lra.
Qed.

Lemma max_heights_ge (a : R) (sizes : list style) :
  a <= foldl (λ acc size, Rmax acc (height size)) a sizes ∧
  ∀ s, s ∈ sizes → height s <= foldl (λ acc size, Rmax acc (height size)) a sizes.
Proof.
  revert a. induction sizes as [|s0 sizes IH]; intros a.
  - split; [simpl; lra|]. by intros s ?%elem_of_nil.
  - cbn [foldl]. destruct (IH (Rmax a (height s0))) as [Hge Hall]. split.
    + pose proof (Rmax_l a (height s0)). lra.
    + intros s [->|Hs]%elem_of_cons; [|by apply Hall].
      pose proof (Rmax_r a (height s0)). lra.
Qed.

Lemma rowHeight_ge (l : list node) :
  0 <= rowHeight newExpanded l ∧
  ∀ n, n ∈ l → height (getNodeSize newExpanded n) <= rowHeight newExpanded l.
Proof.
  unfold rowHeight.
  destruct (max_heights_ge 0 (getNodeSize newExpanded <$> l)) as [Hge Hall].
  split; [done|]. intros n Hn. apply Hall. by apply list_elem_of_fmap_2.
Qed.

Lemma placedFrom_height (y x : R) (l : list node) p :
  p ∈ placedFrom newExpanded y x l →
  height (getNodeSize newExpanded p) <= rowHeight newExpanded l.
Proof.
  intros Hp. apply placedFrom_elem in Hp as (x' & n & Hn & ->).
  change (getNodeSize newExpanded (placeNode newExpanded x' y n))
    with (getNodeSize newExpanded n).
  by apply (proj2 (rowHeight_ge l)).
Qed.

(** A placed row is the placement of a non-empty list of nodes, all at one
    height that is not above the start of the rows. *)
Lemma placedRows_row (nodeMap : gmap string node) (y : R) (rs : list (list string)) row :
  row ∈ placedRows newExpanded nodeMap y rs →
  ∃ y' l, l ≠ [] ∧ y <= y' ∧
          row = placedFrom newExpanded y' (250 - rowWidth newExpanded l / 2) l.
Proof.
  revert y. induction rs as [|ids rs IH]; intros y; [by intros ?%elem_of_nil|].
  cbn [placedRows]. destruct (omap _ ids) as [|n l] eqn:E; [apply IH|].
  intros [Hrow|Hrow]%elem_of_cons.
  - exists y, (n :: l). split_and!; [done|lra|done].
  - apply IH in Hrow as (y' & l' & Hl' & Hy' & ->).
    exists y', l'. split_and!; [done| |done].
    pose proof (proj1 (rowHeight_ge (n :: l))). pose proof (proj1 padding_pos). lra.
Qed.

Lemma placedRows_head (nodeMap : gmap string node) (y : R) (rs : list (list string))
    row p :
  head (placedRows newExpanded nodeMap y rs) = Some row → p ∈ row →
  pos_y (node_position p) = y.
Proof.
  revert y. induction rs as [|ids rs IH]; intros y; [done|].
  cbn [placedRows]. destruct (omap _ ids) as [|n l] eqn:E; [apply IH|].
  cbn [head]. intros [= <-] Hp.
  exact (placedFrom_y y (250 - rowWidth newExpanded (n :: l) / 2) (n :: l) p Hp).
Qed.

Lemma placedRows_stacked (nodeMap : gmap string node) (y : R) (rs : list (list string))
    (i j : nat) ri rj p q :
  (i < j)%nat →
  placedRows newExpanded nodeMap y rs !! i = Some ri →
  placedRows newExpanded nodeMap y rs !! j = Some rj →
  p ∈ ri → q ∈ rj →
  pos_y (node_position p) + height (getNodeSize newExpanded p)
  + verticalPadding newExpanded <= pos_y (node_position q).
Proof.
  revert y i j ri rj p q.
  induction rs as [|ids rs IH]; intros y i j ri rj p q Hij; [done|].
  cbn [placedRows]. destruct (omap _ ids) as [|n l] eqn:E; [by apply IH|].
  destruct j as [|j]; [lia|]. destruct i as [|i].
  - rewrite lookup_cons. intros Hri Hrj Hp Hq.
    assert (Hri' : ri = placedFrom newExpanded y
                          (250 - rowWidth newExpanded (n :: l) / 2) (n :: l))
      by (by injection Hri as <-).
    rewrite lookup_cons in Hrj.
    apply list_elem_of_lookup_2, placedRows_row in Hrj as (y' & l' & _ & Hy' & Hrj).
    rewrite Hrj in Hq. rewrite Hri' in Hp.
    apply placedFrom_y in Hq. pose proof (placedFrom_height _ _ _ _ Hp).
    apply placedFrom_y in Hp. lra.
  - rewrite !lookup_cons. apply IH. lia.
Qed.

Lemma yAfterRows_below (nodeMap : gmap string node) (y : R) (rs : list (list string)) :
  y <= yAfterRows newExpanded nodeMap y rs ∧
  ∀ row p, row ∈ placedRows newExpanded nodeMap y rs → p ∈ row →
    pos_y (node_position p) + height (getNodeSize newExpanded p)
    + verticalPadding newExpanded <= yAfterRows newExpanded nodeMap y rs.
Proof.
  revert y. induction rs as [|ids rs IH]; intros y.
  - split; [simpl; lra|]. by intros row p ?%elem_of_nil.
  - cbn [placedRows yAfterRows]. destruct (omap _ ids) as [|n l] eqn:E; [apply IH|].
    destruct (IH (y + rowHeight newExpanded (n :: l) + verticalPadding newExpanded))
      as [Hge Hall].
    pose proof (proj1 (rowHeight_ge (n :: l))). pose proof (proj1 padding_pos).
    split; [lra|].
    intros row p Hrow Hp. apply elem_of_cons in Hrow as [Hrow|Hrow]; [|by eapply Hall].
    rewrite Hrow in Hp.
    pose proof (placedFrom_height _ _ (n :: l) _ Hp).
    apply (placedFrom_y _ _ (n :: l)) in Hp. lra.
Qed.

Lemma placedGroups_next (y : R) (l : list node) (i : nat) g g' :
  placedGroups newExpanded y l !! i = Some g →
  placedGroups newExpanded y l !! S i = Some g' →
  pos_y (node_position g')
  = pos_y (node_position g) + height (getNodeSize newExpanded g)
    + verticalPadding newExpanded.
Proof.
  revert y i. induction l as [|n l IH]; intros y i; [done|].
  destruct i as [|i].
  - destruct l as [|n' l]; [done|]. cbn [placedGroups lookup list_lookup].
    by intros [= <-] [= <-].
  - cbn [placedGroups]. rewrite !lookup_cons. apply IH.
Qed.

Lemma placedGroups_place (y : R) (l : list node) g :
  g ∈ placedGroups newExpanded y l →
  y <= pos_y (node_position g) ∧
  pos_x (node_position g) + width (getNodeSize newExpanded g) / 2 = 250.
Proof.
  revert y. induction l as [|n l IH]; intros y; [by intros ?%elem_of_nil|].
  cbn [placedGroups]. intros [->|Hg]%elem_of_cons.
  - cbn [moveTo node_position pos_x pos_y]. split; [lra|].
    change (getNodeSize newExpanded (moveTo _ n)) with (getNodeSize newExpanded n). lra.
  - apply IH in Hg as [Hy Hx]. split; [|done].
    pose proof (proj2 (getNodeSize_pos n)). pose proof (proj1 padding_pos). lra.
Qed.

End Geometry.

Lemma elem_of_concat {A} (x : A) (ls : list (list A)) :
  x ∈ concat ls ↔ ∃ l, x ∈ l ∧ l ∈ ls.
Proof.
  induction ls as [|l0 ls IH].
  - split; [by intros ?%elem_of_nil|]. by intros (l & _ & ?%elem_of_nil).
  - cbn [concat]. rewrite elem_of_app, IH. split.
    + intros [Hx|(l & Hx & Hl)].
      * exists l0. split; [done|apply list_elem_of_here].
      * exists l. split; [done|by apply list_elem_of_further].
    + intros (l & Hx & [->|Hl]%elem_of_cons); [by left|right; by exists l].
Qed.

(** X28. On a sheet where no edge begins or ends at an id that is a name
    inherited from [Object.prototype] and no free node has such an id, the
    layout puts the free nodes row by row, the groups below the rows and
    leaves the children of groups at the end of the list.  The
    first row is at height 100; in a row all nodes have the same height
    coordinate and each begins where its left neighbour ends plus the
    horizontal padding; the row is centred on x = 250; a node of a later
    row lies at least the vertical padding below the lower side of any node
    of an earlier row, and so does every group, the groups being centred on
    x = 250 one below the other.  When the nodes are expanded the size used
    for a node is the size it is given. *)
Theorem toggleAllExpanded_geometry (newExpanded : bool) (edges : list edge)
    (currentNodes : list node) :
  plainEdges edges →
  (∀ n, n ∈ nonChildNodes currentNodes → node_id n ∉ protoNames) →
  ∃ (inRows : list (list node)) (groupsBelow : list node),
    (∀ extra, toggleAllExpanded (layoutFuel edges + extra) newExpanded edges
                currentNodes
              = Some (Returns (PositionedNode <$>
                  (concat inRows ++ groupsBelow
                   ++ filter isChild (expandNode newExpanded <$> currentNodes))))) ∧
    (∀ row, row ∈ inRows → row ≠ []) ∧
    (∀ row p, head inRows = Some row → p ∈ row →
       pos_y (node_position p) = 100%R) ∧
    (∀ row p q, row ∈ inRows → p ∈ row → q ∈ row →
       pos_y (node_position p) = pos_y (node_position q)) ∧
    (∀ row i p q, row ∈ inRows → row !! i = Some p → row !! S i = Some q →
       pos_x (node_position q)
       = (pos_x (node_position p) + width (getNodeSize newExpanded p)
          + horizontalPadding newExpanded)%R) ∧
    (∀ row p q, row ∈ inRows → head row = Some p → last row = Some q →
       (pos_x (node_position p)
        + (pos_x (node_position q) + width (getNodeSize newExpanded q)) = 500)%R) ∧
    (∀ i j ri rj p q, i < j → inRows !! i = Some ri → inRows !! j = Some rj →
       p ∈ ri → q ∈ rj →
       (pos_y (node_position p) + height (getNodeSize newExpanded p)
        + verticalPadding newExpanded <= pos_y (node_position q))%R) ∧
    (∀ p g, p ∈ concat inRows → g ∈ groupsBelow →
       (pos_y (node_position p) + height (getNodeSize newExpanded p)
        + verticalPadding newExpanded <= pos_y (node_position g))%R) ∧
    (∀ i g g', groupsBelow !! i = Some g → groupsBelow !! S i = Some g' →
       pos_y (node_position g')
       = (pos_y (node_position g) + height (getNodeSize newExpanded g)
          + verticalPadding newExpanded)%R) ∧
    (∀ g, g ∈ groupsBelow →
       (pos_x (node_position g) + width (getNodeSize newExpanded g) / 2 = 250)%R) ∧
    (newExpanded = true →
     ∀ p, p ∈ concat inRows → node_style p = Some (getNodeSize newExpanded p)).
Proof.
  intros Hplain Hfree.
  set (updated := expandNode newExpanded <$> currentNodes).
  destruct (allRows_total edges updated) as [fin Hfin].
  set (nodeMap := lastNodeOf (nonChildNodes updated)).
  exists (placedRows newExpanded nodeMap 100 (rows fin)),
         (placedGroups newExpanded (yAfterRows newExpanded nodeMap 100 (rows fin))
            (filter (λ n, node_type n = Group) updated)).
  split_and!.
  - intros extra. apply toggleAllExpanded_unfold; [done|done|apply Hfin].
  - intros row Hrow. apply placedRows_row in Hrow as (y' & l & Hl & _ & ->).
    by destruct l.
  - intros row p. apply placedRows_head.
  - intros row p q Hrow Hp Hq.
    apply placedRows_row in Hrow as (y' & l & _ & _ & ->).
    apply placedFrom_y in Hp, Hq. congruence.
  - intros row i p q Hrow.
    apply placedRows_row in Hrow as (y' & l & _ & _ & ->). apply placedFrom_next.
  - intros row p q Hrow.
    apply placedRows_row in Hrow as (y' & l & _ & _ & ->). apply placedFrom_centred.
  - intros i j ri rj p q. apply placedRows_stacked.
  - intros p g Hp Hg. apply elem_of_concat in Hp as (row & Hp & Hrow).
    apply placedGroups_place in Hg as [Hy _].
    pose proof (proj2 (yAfterRows_below newExpanded nodeMap 100 (rows fin))
                  row p Hrow Hp).
    lra.
  - intros i g g'. apply placedGroups_next.
  - intros g Hg. by apply placedGroups_place in Hg as [_ Hx].
  - intros -> p Hp. apply placedRows_elem in Hp as (x' & y' & id & n & Hn & ->).
    apply lastNodeOf_Some in Hn as [Hn _].
    apply list_elem_of_filter in Hn as [[_ Hty] _].
    cbn [placeNode node_style]. rewrite bool_decide_eq_true_2 by done. done.
Qed.

Lemma toggleAllExpanded_geometry_witness :
  (plainEdges triangleEdges ∧
   ∀ n, n ∈ nonChildNodes triangleNodes → node_id n ∉ protoNames) ∧
  ∃ (inRows : list (list node)) (groupsBelow : list node),
    toggleAllExpanded (layoutFuel triangleEdges + 0) true triangleEdges triangleNodes
    = Some (Returns (PositionedNode <$>
        (concat inRows ++ groupsBelow
         ++ filter isChild (expandNode true <$> triangleNodes)))) ∧
    (∀ row, row ∈ inRows → row ≠ []) ∧
    (∀ row p, head inRows = Some row → p ∈ row → pos_y (node_position p) = 100%R) ∧
    (∀ row p q, row ∈ inRows → head row = Some p → last row = Some q →
       (pos_x (node_position p)
        + (pos_x (node_position q) + width (getNodeSize true q)) = 500)%R).
Proof.
  split; [split; [exact triangleEdges_plain|exact triangleNodes_plain]|].
  destruct (toggleAllExpanded_geometry true triangleEdges triangleNodes
              triangleEdges_plain triangleNodes_plain)
    as (inRows & groupsBelow & Hrun & Hne & Hfirst & _ & _ & Hcentre & _).
  exists inRows, groupsBelow. split; [apply Hrun|]. by split_and!.
Defined.

(** What the inherited names do to the layout: an edge that begins at
    [constructor] makes the first loop throw, a free node called [toString]
    is taken for a root and makes the layering loop throw, and a free node
    called [constructor] is taken for a node with incoming edges and gets a
    trailing row. *)
Example layout_inherited_names :
  layoutRows 5 [promptNode "a" "x"] [mkEdge "e" "constructor" "a" None] = Some Throws ∧
  layoutRows 5 [promptNode "a" "x"] [mkEdge "e" "a" "valueOf" None] = Some Throws ∧
  layoutRows 5 [promptNode "toString" "x"] [] = Some Throws ∧
  (∃ fin, layoutRows 5 [promptNode "a" "x"; promptNode "constructor" "y"] []
          = Some (Returns fin) ∧
          rows fin = [["a"]; ["constructor"]]) ∧
  toggleAllExpanded 5 true [mkEdge "e" "a" "hasOwnProperty" None] [promptNode "a" "x"]
  = Some Throws.
Proof.
  split_and!; try (vm_compute; reflexivity).
  eexists. split; vm_compute; reflexivity.
Qed.

(** ** The order of the copied texts *)

(** X29. With pairwise distinct node ids, and no active edge beginning or
    ending at an id that is a name inherited from [Object.prototype],
    copy-all puts the roots first: the nodes it collects begin with all the
    roots, in the order of the node list, and only then come the nodes
    reached from them; no node is collected twice, and every collected node
    that is no root has an incoming active edge. *)
Theorem copyAllConnected_roots_first (nodes : list node) (edges : list edge) :
  NoDup (node_id <$> nodes) → plainEdges (activeEdges edges) →
  ∃ ordered,
    (∀ extra, orderedFromRoots
                (pathFuel edges (node_id <$> pathRoots nodes edges) + extra)
                nodes edges = Some (Returns ordered)) ∧
    pathRoots nodes edges `prefix_of` ordered ∧
    NoDup ordered ∧
    (∀ n, n ∈ ordered → n ∈ nodes ∧ node_type n ≠ Group) ∧
    (∀ n, n ∈ ordered → n ∉ pathRoots nodes edges →
          ∃ e, e ∈ edges ∧ active e ≠ Some false ∧ target e = node_id n) ∧
    (∀ extra, activeEdges edges ≠ [] →
       copyAllConnected (pathFuel edges (node_id <$> pathRoots nodes edges) + extra)
         nodes edges
       = Some (Returns (Written (combinedPrompt ordered)))).
Proof.
  intros Hnd Hplain.
  destruct (copy_from_queue nodes edges (node_id <$> pathRoots nodes edges))
    as (ordered & out & Hwalk & Hrun & _ & Hout & Hnd' & Hreach).
  rewrite (Hout Hplain) in Hrun by (intros i; by apply plain_roots).
  exists ordered. split_and!.
  - exact Hrun.
  - exact (walk_roots_first nodes edges _ ordered Hnd (Hwalk 0)).
  - by eapply NoDup_fmap_1.
  - intros n Hn. apply Hreach in Hn as (_ & Hfind & Hty).
    apply findNode_Some in Hfind as [Hin _]. done.
  - intros n Hn Hnot. apply Hreach in Hn as (Hr & Hfind & Hty).
    apply findNode_Some in Hfind as [Hin _].
    inversion Hr as [i Hseed|e He Hsrc Heq].
    + apply list_elem_of_fmap in Hseed as (r & Hid & Hroot). destruct Hnot.
      assert (r = n) as <-; [|done].
      pose proof (proj1 (pathRoots_spec _ _ _) Hroot) as (Hrin & _).
      pose proof (findNode_NoDup nodes r Hnd Hrin) as Hfr.
      pose proof (findNode_NoDup nodes n Hnd Hin) as Hfn.
      congruence.
    + apply activeEdges_spec in He as [He Ha]. by exists e.
  - intros extra Hact. specialize (Hrun extra).
    unfold orderedFromRoots in Hrun. unfold copyAllConnected.
    destruct (buildAdjacency (activeEdges edges)) as [adjacency|]; [|done].
    rewrite Hrun.
    destruct (pathRoots nodes edges); [|done]. by destruct (activeEdges edges).
Qed.

Lemma copyAllConnected_roots_first_witness :
  (NoDup (node_id <$> helloNodes) ∧ plainEdges (activeEdges helloEdges)) ∧
  ∃ ordered,
    orderedFromRoots
      (pathFuel helloEdges (node_id <$> pathRoots helloNodes helloEdges) + 0)
      helloNodes helloEdges = Some (Returns ordered) ∧
    pathRoots helloNodes helloEdges `prefix_of` ordered ∧
    copyAllConnected
      (pathFuel helloEdges (node_id <$> pathRoots helloNodes helloEdges) + 0)
      helloNodes helloEdges
    = Some (Returns (Written (combinedPrompt ordered))).
Proof.
  assert (H : NoDup (node_id <$> helloNodes)) by compute_done.
  split; [split; [exact H|exact helloEdges_plain]|].
  destruct (copyAllConnected_roots_first helloNodes helloEdges H helloEdges_plain)
    as (ordered & Hrun & Hpre & _ & _ & _ & Hcopy).
  exists ordered. split; [apply Hrun|]. split; [exact Hpre|].
  apply Hcopy. vm_compute. discriminate.
Defined.

(** ** The preview with default values *)

Section PreviewDefaults.
Implicit Types (s t tok v b rest p name : string).

Lemma replaceToken_before tok v skip b1 b2 s :
  noDollar v = true →
  replaceToken tok v skip b1 s = replaceToken tok v skip b2 s.
Proof.
  intros Hv. revert skip b1 b2. induction s as [|c s IH]; intros skip b1 b2; [done|].
  destruct skip as [|k]; [|simpl; apply IH].
  rewrite !replaceToken_cons.
  destruct (String.prefix tok (String c s) && negb (String.eqb tok EmptyString)).
  - rewrite !getSubstitution_noDollar by done. f_equal. apply IH.
  - f_equal. apply IH.
Qed.

Lemma token_head name : token name = String "{" (String "{" (name +:+ "}}")).
Proof. reflexivity. Qed.

Lemma replaceToken_other_char p v b (c : ascii) s :
  noDollar v = true → c ≠ "{"%char →
  replaceToken (token p) v 0 b (String c s)
  = String c (replaceToken (token p) v 0 b s).
Proof.
  intros Hv Hc. rewrite replaceToken_cons, token_head.
  cbn [String.prefix]. destruct (ascii_dec "{" c) as [Heq|_]; [by destruct Hc|].
  cbn [andb]. f_equal. by apply replaceToken_before.
Qed.

Lemma noBrace_cons (c : ascii) s :
  noBrace (String c s) = true ↔ c ≠ "{"%char ∧ noBrace s = true.
Proof.
  cbn [noBrace]. rewrite andb_true_iff, negb_true_iff, Ascii.eqb_neq. tauto.
Qed.

Lemma noBrace_app s t : noBrace (s +:+ t) = noBrace s && noBrace t.
Proof.
  induction s as [|c s IH]; [done|]. rewrite append_cons. cbn [noBrace].
  by rewrite IH, andb_assoc.
Qed.

Lemma replaceToken_text p v b t rest :
  noDollar v = true → noBrace t = true →
  replaceToken (token p) v 0 b (t +:+ rest) = t +:+ replaceToken (token p) v 0 b rest.
Proof.
  intros Hv. induction t as [|c t IH]; [done|].
  intros [Hc Ht]%noBrace_cons. rewrite !append_cons.
  rewrite replaceToken_other_char by done. f_equal. by apply IH.
Qed.

Lemma replaceToken_pass tok v b s rest :
  noDollar v = true →
  replaceToken tok v (String.length s) b (s +:+ rest) = replaceToken tok v 0 b rest.
Proof.
  intros Hv. induction s as [|c s IH]; [by destruct rest|].
  rewrite append_cons. cbn [String.length replaceToken].
  rewrite <- IH. by apply replaceToken_before.
Qed.

Lemma prefix_append s rest : String.prefix s (s +:+ rest) = true.
Proof.
  induction s as [|c s IH]; [by destruct rest|].
  rewrite append_cons. cbn [String.prefix].
  destruct (ascii_dec c c); [done|done].
Qed.

Lemma replaceToken_hit p v b rest :
  noDollar v = true →
  replaceToken (token p) v 0 b (token p +:+ rest)
  = v +:+ replaceToken (token p) v 0 b rest.
Proof.
  intros Hv.
  assert (Htok : token p = String "{" (String "{" (p +:+ "}}"))) by reflexivity.
  assert (Hs : token p +:+ rest = String "{" (String "{" (p +:+ "}}") +:+ rest)).
  { by rewrite Htok, append_cons. }
  rewrite Hs at 1. rewrite replaceToken_cons. rewrite <- Hs.
  rewrite prefix_append. rewrite Htok at 1. cbn [String.eqb negb andb].
  rewrite getSubstitution_noDollar by done. f_equal.
  assert (Hlen : String.length (token p) - 1 = String.length (String "{" (p +:+ "}}"))).
  { rewrite Htok. cbn [String.length]. lia. }
  rewrite Hlen. rewrite replaceToken_pass by done. by apply replaceToken_before.
Qed.

Lemma allWord_noBrace s : allWord s = true → noBrace s = true.
Proof.
  induction s as [|c s IH]; [done|]. cbn [allWord noBrace].
  intros [Hc Hs]%andb_true_iff. rewrite (IH Hs), andb_true_r.
  destruct (Ascii.eqb c "{") eqn:Heq; [|done].
  apply Ascii.eqb_eq in Heq as ->. done.
Qed.

Lemma isIdentifier_allWord s : isIdentifier s = true → allWord s = true.
Proof. by destruct s. Qed.

(** A closed name is a prefix of another closed name only when they are equal. *)
Lemma prefix_closed_name p name rest :
  allWord p = true → allWord name = true →
  String.prefix (p +:+ "}}") (name +:+ "}}" +:+ rest) = true → p = name.
Proof.
  revert name. induction p as [|c p IH]; intros name Hp Hname.
  - destruct name as [|c' name]; [done|].
    rewrite append_nil_l, append_cons. cbn [String.prefix].
    destruct (ascii_dec "}" c') as [<-|_]; [|done].
    cbn [allWord] in Hname. by rewrite brace_close_not_word in Hname.
  - destruct name as [|c' name].
    + rewrite append_nil_l, !append_cons. cbn [String.prefix].
      destruct (ascii_dec c "}") as [->|_]; [|done].
      cbn [allWord] in Hp. by rewrite brace_close_not_word in Hp.
    + rewrite !append_cons. cbn [String.prefix].
      destruct (ascii_dec c c') as [->|_]; [|done].
      cbn [allWord] in Hp, Hname.
      apply andb_true_iff in Hp as [_ Hp]. apply andb_true_iff in Hname as [_ Hname].
      intros Hpre. f_equal. by apply IH.
Qed.

Lemma replaceToken_miss p name v b rest :
  noDollar v = true → isIdentifier p = true → isIdentifier name = true → name ≠ p →
  replaceToken (token p) v 0 b (token name +:+ rest)
  = token name +:+ replaceToken (token p) v 0 b rest.
Proof.
  intros Hv Hp Hname Hne.
  assert (Hs : token name +:+ rest
               = String "{" (String "{" ((name +:+ "}}") +:+ rest))).
  { rewrite token_head, !append_cons. done. }
  rewrite Hs. rewrite replaceToken_cons.
  assert (Hno : String.prefix (token p) (String "{" (String "{" ((name +:+ "}}") +:+ rest)))
                = false).
  { destruct (String.prefix _ _) eqn:Hpre; [|done]. destruct Hne. symmetry.
    rewrite token_head in Hpre. cbn [String.prefix] in Hpre.
    destruct (ascii_dec "{" "{"); [|done].
    rewrite append_assoc in Hpre.
    eapply prefix_closed_name; [by apply isIdentifier_allWord..|exact Hpre]. }
  rewrite Hno. cbn [andb]. f_equal.
  rewrite replaceToken_cons.
  assert (Hno2 : String.prefix (token p) (String "{" ((name +:+ "}}") +:+ rest)) = false).
  { rewrite token_head. cbn [String.prefix].
    destruct (ascii_dec "{" "{"); [|done].
    destruct name as [|c name]; [done|]. rewrite !append_cons. cbn [String.prefix].
    destruct (ascii_dec "{" c) as [<-|_]; [|done].
    cbn [isIdentifier allWord] in Hname. by rewrite brace_open_not_word in Hname. }
  rewrite Hno2. cbn [andb]. f_equal.
  rewrite (replaceToken_before _ _ _ _ b) by done.
  rewrite replaceToken_text; [done|done|].
  rewrite noBrace_app, allWord_noBrace by by apply isIdentifier_allWord. done.
Qed.

End PreviewDefaults.

Section PreviewFold.
Implicit Types (s t tok v b rest p name last : string).

Lemma filledWith_ext (f g : string → string) (segs : list (string * string)) last :
  (∀ seg, seg ∈ segs → f seg.2 = g seg.2) →
  filledWith f segs last = filledWith g segs last.
Proof.
  induction segs as [|[t name] segs IH]; intros Hfg; [done|].
  cbn [filledWith].
  pose proof (Hfg (t, name) (list_elem_of_here _ _)) as Hhead. cbn [snd] in Hhead.
  rewrite Hhead.
  rewrite IH; [done|]. intros seg Hseg. apply Hfg. by apply list_elem_of_further.
Qed.

Lemma filledWith_pieces (f g : string → string) (segs : list (string * string)) last :
  filledWith f ((λ seg, (seg.1, g seg.2)) <$> segs) last
  = filledWith (λ name, f (g name)) segs last.
Proof.
  induction segs as [|[t name] segs IH]; [done|].
  rewrite fmap_cons. cbn [filledWith fst snd]. by rewrite IH.
Qed.

Lemma templateOf_filledWith (segs : list (string * string)) last :
  templateOf segs last = filledWith token segs last.
Proof.
  induction segs as [|[t name] segs IH]; [done|].
  cbn [templateOf filledWith]. by rewrite IH.
Qed.

Lemma filledOf_filledWith values (segs : list (string * string)) last :
  filledOf values segs last = filledWith (valueOrKey values) segs last.
Proof.
  induction segs as [|[t name] segs IH]; [done|].
  cbn [filledOf filledWith]. by rewrite IH.
Qed.

Lemma noBrace_token name : noBrace (token name) = false.
Proof. reflexivity. Qed.

Lemma token_identifier_inj p name :
  isIdentifier p = true → isIdentifier name = true → token p = token name → p = name.
Proof.
  intros Hp Hname Heq. rewrite !token_head in Heq. injection Heq as Heq.
  apply (prefix_closed_name p name EmptyString); [by apply isIdentifier_allWord..|].
  rewrite <- (append_assoc name), append_nil_r, <- Heq.
  rewrite <- (append_nil_r (p +:+ "}}")) at 2. apply prefix_append.
Qed.

Lemma replaceToken_quiet p v b last :
  noDollar v = true → noBrace last = true →
  replaceToken (token p) v 0 b last = last.
Proof.
  intros Hv Hlast. rewrite <- (append_nil_r last) at 1.
  rewrite replaceToken_text by done. by rewrite append_nil_r.
Qed.

Lemma swapPiece_same tok v : swapPiece tok v tok = v.
Proof. unfold swapPiece. by destruct (decide (tok = tok)). Qed.

Lemma swapPiece_other tok v piece : piece ≠ tok → swapPiece tok v piece = piece.
Proof. intros Hne. unfold swapPiece. by destruct (decide (piece = tok)). Qed.

(** One round of the preview on a text made of brace-free texts, tokens and
    brace-free values. *)
Lemma replaceToken_pieces p v b (pieces : list (string * string)) last :
  noDollar v = true → isIdentifier p = true →
  Forall (λ pc, noBrace pc.1 = true ∧
                (noBrace pc.2 = true ∨
                 ∃ name, isIdentifier name = true ∧ pc.2 = token name)) pieces →
  noBrace last = true →
  replaceToken (token p) v 0 b (filledWith (λ piece, piece) pieces last)
  = filledWith (swapPiece (token p) v) pieces last.
Proof.
  intros Hv Hp Hpieces Hlast.
  induction Hpieces as [|[t pc] pieces [Ht Hpc] _ IH].
  - cbn [filledWith]. by apply replaceToken_quiet.
  - cbn [filledWith fst snd] in *.
    rewrite replaceToken_text by done. f_equal.
    destruct Hpc as [Hpc|(name & Hname & ->)].
    + rewrite replaceToken_text by done. rewrite IH.
      rewrite swapPiece_other; [done|].
      intros Heq. rewrite Heq in Hpc. discriminate Hpc.
    + destruct (decide (name = p)) as [->|Hne].
      * rewrite replaceToken_hit by done. by rewrite IH, swapPiece_same.
      * rewrite replaceToken_miss by done. rewrite IH.
        rewrite swapPiece_other; [done|].
        intros Heq. by apply token_identifier_inj in Heq.
Qed.

Lemma previewValue_cases (defaultValues : gmap string string) name :
  (∀ k v, defaultValues !! k = Some v → noDollar v = true ∧ noBrace v = true) →
  defaultOrToken defaultValues name = token name ∨
  (noDollar (defaultOrToken defaultValues name) = true ∧
   noBrace (defaultOrToken defaultValues name) = true).
Proof.
  intros Hdv. unfold defaultOrToken.
  destruct (defaultValues !! name) as [[|c v]|] eqn:E; [by left| |by left].
  right. by apply (Hdv name).
Qed.

Lemma previewValue_noDollar (defaultValues : gmap string string) name :
  (∀ k v, defaultValues !! k = Some v → noDollar v = true ∧ noBrace v = true) →
  isIdentifier name = true →
  noDollar (defaultOrToken defaultValues name) = true.
Proof.
  intros Hdv Hname.
  destruct (previewValue_cases defaultValues name Hdv) as [->|[H _]]; [|done].
  by apply noDollar_token.
Qed.

Lemma preview_fold (defaultValues : gmap string string)
    (segs : list (string * string)) last (params doneL : list string) :
  (∀ k v, defaultValues !! k = Some v → noDollar v = true ∧ noBrace v = true) →
  Forall (λ seg, noBrace seg.1 = true ∧ isIdentifier seg.2 = true) segs →
  noBrace last = true →
  Forall (λ p, isIdentifier p = true) params → NoDup params →
  (∀ p, p ∈ params → p ∉ doneL) →
  foldl (fillStep defaultValues)
    (filledWith (λ name, if decide (name ∈ doneL) then defaultOrToken defaultValues name
                         else token name) segs last) params
  = filledWith (λ name, if decide (name ∈ doneL ++ params)
                        then defaultOrToken defaultValues name
                        else token name) segs last.
Proof.
  intros Hdv Hsegs Hlast Hids. revert doneL.
  induction Hids as [|p params Hp _ IH]; intros doneL Hnd Hfresh.
  - cbn [foldl]. by rewrite app_nil_r.
  - apply NoDup_cons in Hnd as [Hpnot Hnd]. cbn [foldl].
    set (g := λ name, if decide (name ∈ doneL) then defaultOrToken defaultValues name
                      else token name).
    assert (Hstep : fillStep defaultValues (filledWith g segs last) p
              = filledWith (λ name, if decide (name ∈ doneL ++ [p])
                                    then defaultOrToken defaultValues name
                                    else token name) segs last).
    { change (fillStep defaultValues (filledWith g segs last) p)
        with (replaceToken (token p) (defaultOrToken defaultValues p) 0 EmptyString
                (filledWith g segs last)).
      rewrite <- (filledWith_pieces (λ piece, piece) g).
      rewrite replaceToken_pieces; [|by apply previewValue_noDollar|done| |done].
      - rewrite filledWith_pieces. apply filledWith_ext. intros [t name] Hseg.
        cbn [snd]. unfold g.
        assert (Hname : isIdentifier name = true).
        { by apply (proj1 (Forall_forall _ _) Hsegs (t, name) Hseg). }
        assert (Hp_not : p ∉ doneL) by (apply Hfresh, list_elem_of_here).
        destruct (decide (name ∈ doneL)) as [Hin|Hnot]; cbv beta iota.
        + destruct (decide (name ∈ doneL ++ [p])) as [_|Hout]; [|set_solver].
          apply swapPiece_other.
          destruct (previewValue_cases defaultValues name Hdv) as [Htok|[_ Hnb]].
          * rewrite Htok. intros Heq. apply token_identifier_inj in Heq; [|done..].
            congruence.
          * intros Heq. rewrite Heq in Hnb. discriminate Hnb.
        + destruct (decide (name = p)) as [->|Hne].
          * rewrite swapPiece_same.
            by destruct (decide (p ∈ doneL ++ [p])) as [_|Hout]; [|set_solver].
          * rewrite swapPiece_other.
            2:{ intros Heq. by apply token_identifier_inj in Heq. }
            destruct (decide (name ∈ doneL ++ [p])) as [Hin|_]; [|done].
            apply elem_of_app in Hin as [Hin|Hin%list_elem_of_singleton]; done.
      - apply Forall_fmap. eapply Forall_impl; [exact Hsegs|].
        intros [t name] [Ht Hname]. cbn [fst snd] in *. split; [done|].
        unfold g. cbn [fst snd].
        destruct (decide (name ∈ doneL)) as [Hin|Hnot]; cbv beta iota.
        + destruct (previewValue_cases defaultValues name Hdv) as [Htok|[_ Hnb]].
          * right. by exists name.
          * by left.
        + right. by exists name. }
    rewrite Hstep. rewrite IH; [|done|].
    + by rewrite <- app_assoc.
    + intros q Hq. rewrite elem_of_app, list_elem_of_singleton.
      intros [Hin| ->]; [|done].
      apply (Hfresh q); [by apply list_elem_of_further|done].
Qed.

Lemma noBrace_scanFree t : noBrace t = true → scanFree t = true.
Proof.
  induction t as [|c t IH]; [done|].
  intros [Hc Ht]%noBrace_cons. rewrite scanFree_cons.
  assert (Hm : matchPlaceholder (String c t) = None).
  { unfold matchPlaceholder. destruct t as [|c2 t']; [done|].
    apply Ascii.eqb_neq in Hc. by rewrite Hc. }
  rewrite Hm. by apply IH.
Qed.

Lemma noBrace_placeholderFree t : noBrace t = true → placeholderFree t.
Proof. intros Ht. by apply scanFree_placeholderFree, noBrace_scanFree. Qed.

End PreviewFold.

(** X30. The preview of the template builder shows the template with every
    placeholder that has a non-empty default value replaced by that value
    and every other placeholder left as its token, provided the texts
    between the placeholders hold no opening brace, the default values hold
    neither an opening brace nor a dollar sign, and a placeholder named like
    a member every object inherits has a default value of its own.  When
    every placeholder has a non-empty default, the preview is the text the
    copy functions produce for the template with these values. *)
Theorem preview_fills_defaults (defaultValues : gmap string string)
    (segs : list (string * string)) (last : string) :
  Forall (λ seg, noBrace seg.1 = true ∧ isIdentifier seg.2 = true) segs →
  noBrace last = true →
  (∀ k v, defaultValues !! k = Some v → noDollar v = true ∧ noBrace v = true) →
  (∀ seg, seg ∈ segs → seg.2 ∈ protoNames → is_Some (defaultValues !! seg.2)) →
  preview (templateOf segs last) defaultValues
  = Returns (filledWith (defaultOrToken defaultValues) segs last) ∧
  (∀ name, defaultValues !! name = None ∨ defaultValues !! name = Some EmptyString →
           defaultOrToken defaultValues name = token name) ∧
  (∀ name v, defaultValues !! name = Some v → v ≠ EmptyString →
             defaultOrToken defaultValues name = v) ∧
  ((∀ seg, seg ∈ segs →
           ∃ v, defaultValues !! seg.2 = Some v ∧ v ≠ EmptyString) →
   preview (templateOf segs last) defaultValues
   = Returns (render (templateOf segs last) defaultValues)).
Proof.
  intros Hsegs Hlast Hdv Hown.
  assert (Hwf : Forall (λ seg, placeholderFree seg.1 ∧ isIdentifier seg.2 = true) segs).
  { eapply Forall_impl; [exact Hsegs|]. intros seg [Ht Hn].
    split; [by apply noBrace_placeholderFree|done]. }
  assert (Hlast' : placeholderFree last) by by apply noBrace_placeholderFree.
  assert (Hfill : fillDefaults (templateOf segs last) defaultValues
                  = filledWith (defaultOrToken defaultValues) segs last).
  { unfold fillDefaults. rewrite extractParams_dedup by done.
    rewrite templateOf_filledWith.
    rewrite (filledWith_ext token
               (λ name, if decide (name ∈ []) then defaultOrToken defaultValues name
                        else token name)).
    2:{ intros seg _. by rewrite decide_False by apply not_elem_of_nil. }
    rewrite preview_fold; try done.
    - apply filledWith_ext. intros seg Hseg. cbn [app].
      rewrite decide_True; [done|].
      apply dedupFirst_elem. by apply list_elem_of_fmap_2.
    - apply Forall_forall. intros p Hp. apply (proj1 (dedupFirst_elem _ _)) in Hp.
      apply list_elem_of_fmap in Hp as (seg & -> & Hseg).
      by apply (proj1 (Forall_forall _ _) Hsegs seg Hseg).
    - apply dedupFirst_NoDup.
    - intros p _. apply not_elem_of_nil. }
  assert (Hpre : preview (templateOf segs last) defaultValues
                 = Returns (filledWith (defaultOrToken defaultValues) segs last)).
  { rewrite preview_fillDefaults; [by rewrite Hfill|].
    intros p Hp Hin. rewrite extractParams_dedup in Hp by done.
    apply (proj1 (dedupFirst_elem _ _)) in Hp.
    apply list_elem_of_fmap in Hp as (seg & -> & Hseg). by apply Hown. }
  split_and!.
  - exact Hpre.
  - intros name [H|H]; unfold defaultOrToken; by rewrite H.
  - intros name v H Hv. unfold defaultOrToken. rewrite H. by destruct v.
  - intros Hall. rewrite Hpre, render_templateOf, filledOf_filledWith by done.
    f_equal. apply filledWith_ext. intros seg Hseg.
    destruct (Hall seg Hseg) as (v & Hv & Hne).
    rewrite (proj1 (valueOrKey_spec defaultValues seg.2) v Hv Hne).
    unfold defaultOrToken. rewrite Hv. by destruct v.
Qed.

Lemma preview_fills_defaults_witness :
  (Forall (λ seg, noBrace seg.1 = true ∧ isIdentifier seg.2 = true)
     [("Hi ", "name"); (" and ", "other_1"); (", again ", "toString")] ∧
   noBrace "!" = true ∧
   (∀ k v, (<["name" := "Ada"]> (<["toString" := "Bob"]> ∅) : gmap string string) !! k
           = Some v → noDollar v = true ∧ noBrace v = true) ∧
   (∀ seg, seg ∈ [("Hi ", "name"); (" and ", "other_1"); (", again ", "toString")] →
           seg.2 ∈ protoNames →
           is_Some ((<["name" := "Ada"]> (<["toString" := "Bob"]> ∅)
                     : gmap string string) !! seg.2))) ∧
  preview (templateOf [("Hi ", "name"); (" and ", "other_1"); (", again ", "toString")] "!")
          (<["name" := "Ada"]> (<["toString" := "Bob"]> ∅))
  = Returns "Hi Ada and {{other_1}}, again Bob!".
Proof.
  assert (H1 : Forall (λ seg, noBrace seg.1 = true ∧ isIdentifier seg.2 = true)
                 [("Hi ", "name"); (" and ", "other_1"); (", again ", "toString")])
    by (repeat constructor).
  assert (H2 : noBrace "!" = true) by reflexivity.
  assert (H3 : ∀ k v, (<["name" := "Ada"]> (<["toString" := "Bob"]> ∅)
                       : gmap string string) !! k = Some v →
                      noDollar v = true ∧ noBrace v = true).
  { intros k v Hk. apply lookup_insert_Some in Hk as [[_ <-]|[_ Hk]]; [done|].
    apply lookup_insert_Some in Hk as [[_ <-]|[_ Hk]]; [done|].
    by rewrite lookup_empty in Hk. }
  assert (H4 : ∀ seg, seg ∈ [("Hi ", "name"); (" and ", "other_1");
                              (", again ", "toString")] →
                 seg.2 ∈ protoNames →
                 is_Some ((<["name" := "Ada"]> (<["toString" := "Bob"]> ∅)
                           : gmap string string) !! seg.2)).
  { intros seg Hseg Hin.
    apply elem_of_cons in Hseg as [->|Hseg]; [by eexists|].
    apply elem_of_cons in Hseg as [->|Hseg].
    { assert (Hno : "other_1" ∉ protoNames) by compute_done. by destruct Hno. }
    apply list_elem_of_singleton in Hseg as ->. by eexists. }
  split; [by split_and!|].
  destruct (preview_fills_defaults (<["name" := "Ada"]> (<["toString" := "Bob"]> ∅))
              [("Hi ", "name"); (" and ", "other_1"); (", again ", "toString")] "!"
              H1 H2 H3 H4) as [-> _].
  reflexivity.
Defined.

(** A default value that holds the token of a later placeholder is itself
    filled in by the round of that placeholder. *)
Example preview_chained_defaults :
  preview "{{a}} {{b}}" (<["a" := "{{b}}"]> (<["b" := "x"]> ∅)) = Returns "x x" ∧
  render "{{a}} {{b}}" (<["a" := "{{b}}"]> (<["b" := "x"]> ∅)) = "{{b}} x".
Proof. split; reflexivity. Qed.

(** What the inherited members do to the preview and to the rendering: a
    placeholder named [toString] without a default shows the tag of
    [undefined], one named [constructor] keeps its token, one named
    [valueOf] makes the preview throw; rendered, [toString] is not replaced
    by its name. *)
Example preview_inherited_names :
  preview "a {{toString}} b" ∅ = Returns "a [object Undefined] b" ∧
  preview "a {{constructor}} b" ∅ = Returns "a {{constructor}} b" ∧
  preview "a {{valueOf}} b" ∅ = Throws ∧
  preview "a {{valueOf}} b" (<["valueOf" := "v"]> ∅) = Returns "a v b" ∧
  render "a {{toString}} b" ∅ ≠ "a toString b" ∧
  render "a {{toString}} b" (<["toString" := EmptyString]> ∅) = "a toString b".
Proof. split_and!; try (vm_compute; reflexivity). vm_compute. discriminate. Qed.

(** ** What is copied after an edit *)

(** X4. The copy functions follow the edits of the graph.  On a sheet no edge
    of which begins or ends at an id that is a name inherited from
    [Object.prototype]: after the toggle of an edge has been hit, copying
    the path from its source collects the node at its target, and no other
    edge into that target is active any more.  On every sheet: after a node
    has been deleted, no copy from any start collects a node with its id. *)
Theorem copy_after_edit (nodes : list node) (edges : list edge) (e : edge) (n : node) :
  NoDup (edge_id <$> edges) → e ∈ edges → plainEdges edges →
  findNode (target e) nodes = Some n → node_type n ≠ Group →
  (∃ ordered,
     (∀ extra, orderedFromNode
                 (pathFuel (setActive (edge_id e) edges) [source e] + extra)
                 nodes (setActive (edge_id e) edges) (source e)
               = Some (Returns ordered)) ∧
     n ∈ ordered) ∧
  (∀ e2, e2 ∈ edges → target e2 = target e → edge_id e2 ≠ edge_id e →
     set_active false e2 ∈ setActive (edge_id e) edges ∧
     ∀ a, a ∈ activeEdges (setActive (edge_id e) edges) → edge_id a ≠ edge_id e2) ∧
  (∀ nodes' edges' nodeId fuel start ordered,
     orderedFromNode fuel (deleteNode_nodes nodeId nodes')
       (deleteNode_edges nodeId edges') start = Some (Returns ordered) →
     ∀ m, m ∈ ordered → node_id m ≠ nodeId) ∧
  (∀ nodes' edges' nodeId fuel ordered,
     orderedFromRoots fuel (deleteNode_nodes nodeId nodes')
       (deleteNode_edges nodeId edges') = Some (Returns ordered) →
     ∀ m, m ∈ ordered → node_id m ≠ nodeId).
Proof.
  intros Hnd He Hplain Hfind Hty.
  pose proof (setActive_pointwise edges e Hnd He) as Hset.
  assert (Hplain' : plainEdges (activeEdges (setActive (edge_id e) edges))).
  { intros a [Ha _]%activeEdges_spec. rewrite Hset in Ha.
    apply list_elem_of_fmap in Ha as (x & -> & Hx). exact (Hplain x Hx). }
  split_and!.
  - destruct (copy_from_queue nodes (setActive (edge_id e) edges) [source e])
      as (ordered & out & _ & Hrun & _ & Hout & _ & Hreach).
    rewrite (Hout Hplain') in Hrun.
    2:{ intros i ->%list_elem_of_singleton. apply (Hplain e He). }
    exists ordered. split; [exact Hrun|].
    apply Hreach. pose proof (findNode_Some _ _ _ Hfind) as [_ Hid].
    rewrite Hid. split_and!; [|done|done].
    assert (Hin : toggled e e ∈ activeEdges (setActive (edge_id e) edges)).
    { apply activeEdges_spec. split.
      - rewrite Hset. by apply list_elem_of_fmap_2.
      - unfold toggled. cbn [active]. by rewrite decide_True. }
    apply (reach_step _ _ (toggled e e) Hin).
    apply reach_seed. apply list_elem_of_here.
  - intros e2 He2 Ht Hid. split.
    + rewrite Hset. apply list_elem_of_fmap. exists e2. split; [|done].
      unfold toggled, set_active. rewrite decide_False by done. by rewrite decide_True.
    + intros a Ha Heq. apply activeEdges_spec in Ha as [Ha Hact].
      rewrite Hset in Ha. apply list_elem_of_fmap in Ha as (x & -> & Hx).
      assert (x = e2) as -> by by apply (NoDup_ids_inj edges).
      apply Hact. unfold toggled. cbn [active].
      rewrite decide_False by done. by rewrite decide_True.
  - intros nodes' edges' nodeId fuel start ordered Hrun m Hm.
    unfold orderedFromNode in Hrun.
    destruct (buildAdjacency _) as [adjacency|]; [|done].
    apply bfsLoop_Returns in Hrun.
    destruct (walkLoop_ordered_ok _ _ _ _ _ Hrun (ordered_ok_start _))
      as (vis & _ & _ & Hall).
    destruct (Hall m Hm) as (_ & Hin & _).
    by apply deleteNode_nodes_data in Hin as [Hne _].
  - intros nodes' edges' nodeId fuel ordered Hrun m Hm.
    unfold orderedFromRoots in Hrun.
    destruct (buildAdjacency _) as [adjacency|]; [|done].
    apply bfsLoop_Returns in Hrun.
    destruct (walkLoop_ordered_ok _ _ _ _ _ Hrun (ordered_ok_start _))
      as (vis & _ & _ & Hall).
    destruct (Hall m Hm) as (_ & Hin & _).
    by apply deleteNode_nodes_data in Hin as [Hne _].
Qed.

Lemma twoBranches_plain : plainEdges twoBranches.
Proof.
  assert (Hall : Forall (λ e, (source e ∉ protoNames) ∧ (target e ∉ protoNames)) twoBranches)
    by (repeat constructor; compute_done).
  intros e He. exact (proj1 (Forall_forall _ _) Hall e He).
Defined.

Lemma copy_after_edit_witness :
  (NoDup (edge_id <$> twoBranches) ∧
   mkEdge "reactflow__edge-A2-B" "A2" "B" None ∈ twoBranches ∧
   plainEdges twoBranches ∧
   findNode "B" [promptNode "A" "a"; promptNode "A2" "a2"; promptNode "B" "b"]
   = Some (promptNode "B" "b")) ∧
  ∃ ordered,
    orderedFromNode
      (pathFuel (setActive "reactflow__edge-A2-B" twoBranches) ["A2"] + 0)
      [promptNode "A" "a"; promptNode "A2" "a2"; promptNode "B" "b"]
      (setActive "reactflow__edge-A2-B" twoBranches) "A2" = Some (Returns ordered) ∧
    promptNode "B" "b" ∈ ordered.
Proof.
  assert (H1 : NoDup (edge_id <$> twoBranches)) by apply twoBranches_NoDup.
  assert (H2 : mkEdge "reactflow__edge-A2-B" "A2" "B" None ∈ twoBranches).
  { apply list_elem_of_further, list_elem_of_here. }
  split; [split_and!; [done|done|exact twoBranches_plain|done]|].
  destruct (copy_after_edit
              [promptNode "A" "a"; promptNode "A2" "a2"; promptNode "B" "b"]
              twoBranches (mkEdge "reactflow__edge-A2-B" "A2" "B" None)
              (promptNode "B" "b") H1 H2 twoBranches_plain eq_refl)
    as [(ordered & Hrun & Hin) _]; [discriminate|].
  exists ordered. split; [apply Hrun|exact Hin].
Defined.
